(** * The JIT front end of the Dalvik VM: [vm/compiler/Frontend.c]

    A shallow embedding of the trace and method graph builders and of the
    helpers they share ([parseInsn], [findBlockBoundary],
    [isUnconditionalBranch]), followed by the properties of the
    natural-language specification that were checked against it, and by
    further properties of the helpers and of the two graph builders. *)

From stdpp Require Import prelude strings sorting.
From Stdlib Require Import ZArith Lia.

Set Warnings "-register-all".
Local Open Scope Z_scope.

(** ** Machine integers *)

(** [unsigned int]: arithmetic wraps modulo 2^32. *)
Definition u32 (z : Z) : Z := z mod 2 ^ 32.

(** [int] as a two's complement 32-bit value. *)
Definition s32 (z : Z) : Z := (z + 2 ^ 31) mod 2 ^ 32 - 2 ^ 31.

Definition INT_MAX : Z := 2 ^ 31 - 1.

(** ** Outcomes of a run

    [Fault] stands for what C leaves undefined (a read outside an array, a
    null dereference, signed overflow), [Aborted] for [dvmAbort] after the
    [LOGE] line it carries or for a failed [assert], [Fuel] for a loop that
    was cut off by the fuel of the model. *)

Inductive LogMsg : Type :=
| ExpectBlocks (expected discovered : Z)
| TargetNotFound (insnOffset target : Z)
| AssertFailed.

Inductive outcome (A : Type) : Type :=
| Ret (a : A)
| Fault
| Aborted (msg : LogMsg)
| Fuel.

Arguments Ret {A} a.
Arguments Fault {A}.
Arguments Aborted {A} msg.
Arguments Fuel {A}.

#[global] Instance outcome_ret : MRet outcome := @Ret.

#[global] Instance outcome_bind : MBind outcome := λ A B f m,
  match m with
  | Ret a => f a
  | Fault => Fault
  | Aborted msg => Aborted msg
  | Fuel => Fuel
  end.

(** A dereference: [None] is the null or dangling pointer. *)
Definition must {A} (o : option A) : outcome A :=
  match o with Some a => Ret a | None => Fault end.

(** [x++] on an [int]. *)
Definition int_incr (x : Z) : outcome Z :=
  if x <? INT_MAX then Ret (x + 1) else Fault.

(** Indexing a C array by an integer. *)
Definition idx {A} (l : list A) (i : Z) : option A :=
  if i <? 0 then None else l !! Z.to_nat i.

(** ** Constants of [libdex] *)

(** Modelled from the spec: the opcode numbering of [libdex/OpCode.h], which
    is not part of this file; an opcode is the low byte of a code unit. *)
Definition OP_NOP : Z := 0x00.
Definition OP_RETURN_VOID : Z := 0x0e.
Definition OP_RETURN : Z := 0x0f.
Definition OP_RETURN_WIDE : Z := 0x10.
Definition OP_RETURN_OBJECT : Z := 0x11.
Definition OP_THROW : Z := 0x27.
Definition OP_GOTO : Z := 0x28.
Definition OP_GOTO_16 : Z := 0x29.
Definition OP_GOTO_32 : Z := 0x2a.
Definition OP_PACKED_SWITCH : Z := 0x2b.
Definition OP_SPARSE_SWITCH : Z := 0x2c.
Definition OP_IF_EQ : Z := 0x32.
Definition OP_IF_NE : Z := 0x33.
Definition OP_IF_LT : Z := 0x34.
Definition OP_IF_GE : Z := 0x35.
Definition OP_IF_GT : Z := 0x36.
Definition OP_IF_LE : Z := 0x37.
Definition OP_IF_EQZ : Z := 0x38.
Definition OP_IF_NEZ : Z := 0x39.
Definition OP_IF_LTZ : Z := 0x3a.
Definition OP_IF_GEZ : Z := 0x3b.
Definition OP_IF_GTZ : Z := 0x3c.
Definition OP_IF_LEZ : Z := 0x3d.
Definition OP_INVOKE_VIRTUAL : Z := 0x6e.
Definition OP_INVOKE_SUPER : Z := 0x6f.
Definition OP_INVOKE_DIRECT : Z := 0x70.
Definition OP_INVOKE_STATIC : Z := 0x71.
Definition OP_INVOKE_INTERFACE : Z := 0x72.
Definition OP_INVOKE_VIRTUAL_RANGE : Z := 0x74.
Definition OP_INVOKE_SUPER_RANGE : Z := 0x75.
Definition OP_INVOKE_DIRECT_RANGE : Z := 0x76.
Definition OP_INVOKE_STATIC_RANGE : Z := 0x77.
Definition OP_INVOKE_INTERFACE_RANGE : Z := 0x78.
Definition OP_INVOKE_VIRTUAL_QUICK : Z := 0xf8.
Definition OP_INVOKE_VIRTUAL_QUICK_RANGE : Z := 0xf9.
Definition OP_INVOKE_SUPER_QUICK : Z := 0xfa.
Definition OP_INVOKE_SUPER_QUICK_RANGE : Z := 0xfb.

(** Modelled from the spec: the three reserved signature values of
    [libdex/InstrUtils.h] that mark inline data. *)
Definition kPackedSwitchSignature : Z := 0x0100.
Definition kSparseSwitchSignature : Z := 0x0200.
Definition kArrayDataSignature : Z := 0x0300.

(** Modelled from the spec: the control-flow flag bits of
    [libdex/InstrUtils.h]. *)
Definition kInstrCanBranch : Z := 1.
Definition kInstrCanContinue : Z := 2.
Definition kInstrCanSwitch : Z := 4.
Definition kInstrCanThrow : Z := 8.
Definition kInstrCanReturn : Z := 16.
Definition kInstrInvoke : Z := 32.
Definition kInstrUnconditional : Z := 64.

(** Modelled from the spec: the access flag of [libdex/DexFile.h] behind
    [dvmIsNativeMethod]. *)
Definition ACC_NATIVE : Z := 0x0100.

(** A [case] group of a [switch]. *)
Definition opIn (op : Z) (group : list Z) : bool := existsb (Z.eqb op) group.

(** ** Data model *)

(** [DexCode]: the code units of a method; [insnsSize] is their number. *)
Record DexCode := mkDexCode { dex_insns : list Z }.

Definition insnsSize (c : DexCode) : Z := Z.of_nat (length (dex_insns c)).

(** [struct Method] and [struct ClassObject], with the fields this file
    reads.  [insns] is the address of the method's code as the cast to
    [unsigned int] sees it, [methodCode] what [dvmGetMethodCode] returns,
    [pResMethods] the table reached through [pDvmDex], whose entries are
    null until resolved. *)
Inductive Method := mkMethod {
  clazz : ClassObject;
  name : string;
  accessFlags : Z;
  methodIndex : Z;
  insns : Z;
  methodCode : option DexCode }
with ClassObject := mkClassObject {
  descriptor : string;
  pResMethods : list (option Method);
  vtable : list Method;
  super : option ClassObject }.

Definition dvmGetMethodCode (m : Method) : option DexCode := methodCode m.

(** Modelled from the spec: [dvmIsNativeMethod] of [oo/Object.h], a callee
    that is implemented in the host runtime. *)
Definition dvmIsNativeMethod (m : Method) : bool :=
  negb (Z.land (accessFlags m) ACC_NATIVE =? 0).

Record DecodedInstruction := mkDecoded {
  opCode : Z;
  vA : Z;
  vB : Z;
  vC : Z }.

Record MIR := mkMIR {
  dalvikInsn : DecodedInstruction;
  width : Z;
  offset : Z }.

(** The three cells [findBlockBoundary] writes through its pointers. *)
Record Boundary := mkBoundary {
  target : Z;
  isInvoke : bool;
  callee : option Method }.

Definition set_target (v : Z) (b : Boundary) : Boundary :=
  mkBoundary v (isInvoke b) (callee b).
Definition set_isInvoke (v : bool) (b : Boundary) : Boundary :=
  mkBoundary (target b) v (callee b).
Definition set_callee (v : option Method) (b : Boundary) : Boundary :=
  mkBoundary (target b) (isInvoke b) v.

(** ** The collaborators

    What the front end takes from the rest of the VM and does not define:
    the per-opcode tables of [gDvm], the decoder of [libdex] (called on the
    code array at a position), the hash table primitives, and the three
    fields of [gDvmJit] the trace filter reads.  A lookup answers whether
    [dvmHashTableLookup] returned a non-null entry. *)
Class DvmGlobals := {
  instrWidth : Z → Z;
  instrFlags : Z → Z;
  dexDecodeInstruction : list Z → Z → DecodedInstruction;
  HashTable : Type;
  dvmComputeUtf8Hash : string → Z;
  dvmHashTableLookup : HashTable → Z → string → bool;
  methodTable : option HashTable;
  includeSelectedMethod : bool;
  gDvmJit_printMe : bool }.

Definition dexGetInstrFlags `{DvmGlobals} (opcode : Z) : Z := instrFlags opcode.

(** ** The helpers *)

Section Helpers.
Context `{DvmGlobals}.

(** The chain of signature tests of [parseInsn]: the width it assigns, if
    any, before the assignment that follows the chain. *)
Definition inlineDataWidth (code : list Z) (codePtr instr : Z)
  : outcome (option Z) :=
  if instr =? kPackedSwitchSignature then
    entries ← must (idx code (codePtr + 1));
    Ret (Some (4 + entries * 2))
  else if instr =? kSparseSwitchSignature then
    entries ← must (idx code (codePtr + 1));
    Ret (Some (2 + entries * 4))
  else if instr =? kArrayDataSignature then
    width ← must (idx code (codePtr + 1));
    lo ← must (idx code (codePtr + 2));
    hi ← must (idx code (codePtr + 3));
    let size := s32 (Z.lor lo (Z.shiftl hi 16)) in
    Ret (Some (s32 (4 + Z.quot (s32 (s32 (size * width) + 1)) 2)))
  else Ret None.

(** [parseInsn] (lines 26 to 58): the width of the instruction at
    [codePtr] and its decoding.  The diagnostic line is not modelled. *)
Definition parseInsn (code : list Z) (codePtr : Z) (printMe : bool)
  : outcome (Z * DecodedInstruction) :=
  instr ← must (idx code codePtr);
  let opcode := Z.land instr 0xff in
  insnWidth ←
    (if (opcode =? OP_NOP) && negb (instr =? 0) then
       _ ← inlineDataWidth code codePtr instr;
       Ret 0
     else
       let insnWidth := instrWidth opcode in
       Ret (if insnWidth <? 0 then - insnWidth else insnWidth));
  Ret (insnWidth, dexDecodeInstruction code codePtr).

(** [findBlockBoundary] (lines 64 to 160).  [out] holds the three cells
    as the caller set them; the result is the return value and the cells
    after the call. *)
Definition findBlockBoundary (caller : Method) (insn : MIR) (curOffset : Z)
    (out : Boundary) : outcome (bool * Boundary) :=
  let d := dalvikInsn insn in
  let op := opCode d in
  if opIn op [OP_RETURN_VOID; OP_RETURN; OP_RETURN_WIDE; OP_RETURN_OBJECT;
              OP_THROW; OP_INVOKE_VIRTUAL; OP_INVOKE_VIRTUAL_RANGE;
              OP_INVOKE_INTERFACE; OP_INVOKE_INTERFACE_RANGE;
              OP_INVOKE_VIRTUAL_QUICK; OP_INVOKE_VIRTUAL_QUICK_RANGE] then
    Ret (true, set_isInvoke true out)
  else if opIn op [OP_INVOKE_SUPER; OP_INVOKE_SUPER_RANGE] then
    resolved ← must (mjoin (idx (pResMethods (clazz caller)) (vB d)));
    let mIndex := methodIndex resolved in
    sup ← must (super (clazz caller));
    calleeMethod ← must (idx (vtable sup) mIndex);
    let out := if negb (dvmIsNativeMethod calleeMethod)
               then set_target (u32 (insns calleeMethod)) out else out in
    Ret (true, set_callee (Some calleeMethod) (set_isInvoke true out))
  else if opIn op [OP_INVOKE_STATIC; OP_INVOKE_STATIC_RANGE] then
    calleeMethod ← must (mjoin (idx (pResMethods (clazz caller)) (vB d)));
    let out := if negb (dvmIsNativeMethod calleeMethod)
               then set_target (u32 (insns calleeMethod)) out else out in
    Ret (true, set_callee (Some calleeMethod) (set_isInvoke true out))
  else if opIn op [OP_INVOKE_SUPER_QUICK; OP_INVOKE_SUPER_QUICK_RANGE] then
    sup ← must (super (clazz caller));
    calleeMethod ← must (idx (vtable sup) (vB d));
    let out := if negb (dvmIsNativeMethod calleeMethod)
               then set_target (u32 (insns calleeMethod)) out else out in
    Ret (true, set_callee (Some calleeMethod) (set_isInvoke true out))
  else if opIn op [OP_INVOKE_DIRECT; OP_INVOKE_DIRECT_RANGE] then
    calleeMethod ← must (mjoin (idx (pResMethods (clazz caller)) (vB d)));
    let out := if negb (dvmIsNativeMethod calleeMethod)
               then set_target (u32 (insns calleeMethod)) out else out in
    Ret (true, set_callee (Some calleeMethod) (set_isInvoke true out))
  else if opIn op [OP_GOTO; OP_GOTO_16; OP_GOTO_32] then
    Ret (true, set_target (u32 (curOffset + vA d)) out)
  else if opIn op [OP_IF_EQ; OP_IF_NE; OP_IF_LT; OP_IF_GE; OP_IF_GT;
                   OP_IF_LE] then
    Ret (true, set_target (u32 (curOffset + vC d)) out)
  else if opIn op [OP_IF_EQZ; OP_IF_NEZ; OP_IF_LTZ; OP_IF_GEZ; OP_IF_GTZ;
                   OP_IF_LEZ] then
    Ret (true, set_target (u32 (curOffset + vB d)) out)
  else Ret (false, out).

(** [isUnconditionalBranch] (lines 165 to 179). *)
Definition isUnconditionalBranch (insn : MIR) : bool :=
  opIn (opCode (dalvikInsn insn))
       [OP_RETURN_VOID; OP_RETURN; OP_RETURN_WIDE; OP_RETURN_OBJECT;
        OP_GOTO; OP_GOTO_16; OP_GOTO_32].

End Helpers.

(** ** Blocks and the arena *)

Inductive BBType :=
| CHAINING_CELL_NORMAL
| CHAINING_CELL_HOT
| CHAINING_CELL_INVOKE
| DALVIK_BYTECODE
| PC_RECONSTRUCTION
| EXCEPTION_HANDLING.

(** [struct BasicBlock].  [mirs] is the chain from [firstMIRInsn] to
    [lastMIRInsn]; the three block pointers are addresses in the arena,
    [None] being the null pointer. *)
Record BasicBlock := mkBB {
  id : Z;
  startOffset : Z;
  containingMethod : option Method;
  blockType : BBType;
  needFallThroughBranch : bool;
  mirs : list MIR;
  fallThrough : option nat;
  taken : option nat;
  next : option nat }.

Definition lastMIRInsn (b : BasicBlock) : option MIR := last (mirs b).

Definition set_id (v : Z) (b : BasicBlock) : BasicBlock :=
  mkBB v (startOffset b) (containingMethod b) (blockType b)
       (needFallThroughBranch b) (mirs b) (fallThrough b) (taken b) (next b).
Definition set_startOffset (v : Z) (b : BasicBlock) : BasicBlock :=
  mkBB (id b) v (containingMethod b) (blockType b)
       (needFallThroughBranch b) (mirs b) (fallThrough b) (taken b) (next b).
Definition set_containingMethod (v : option Method) (b : BasicBlock)
  : BasicBlock :=
  mkBB (id b) (startOffset b) v (blockType b)
       (needFallThroughBranch b) (mirs b) (fallThrough b) (taken b) (next b).
Definition set_needFallThroughBranch (v : bool) (b : BasicBlock)
  : BasicBlock :=
  mkBB (id b) (startOffset b) (containingMethod b) (blockType b)
       v (mirs b) (fallThrough b) (taken b) (next b).
Definition set_mirs (v : list MIR) (b : BasicBlock) : BasicBlock :=
  mkBB (id b) (startOffset b) (containingMethod b) (blockType b)
       (needFallThroughBranch b) v (fallThrough b) (taken b) (next b).
Definition set_fallThrough (v : option nat) (b : BasicBlock) : BasicBlock :=
  mkBB (id b) (startOffset b) (containingMethod b) (blockType b)
       (needFallThroughBranch b) (mirs b) v (taken b) (next b).
Definition set_taken (v : option nat) (b : BasicBlock) : BasicBlock :=
  mkBB (id b) (startOffset b) (containingMethod b) (blockType b)
       (needFallThroughBranch b) (mirs b) (fallThrough b) v (next b).
Definition set_next (v : option nat) (b : BasicBlock) : BasicBlock :=
  mkBB (id b) (startOffset b) (containingMethod b) (blockType b)
       (needFallThroughBranch b) (mirs b) (fallThrough b) (taken b) v.

(** Modelled from the spec: [dvmCompilerNewBB] of the compiler utilities
    hands out the next cell of the arena, zeroed but for its kind.  The
    arena is the list of the blocks allocated so far and a block pointer is
    a position in it. *)
Definition dvmCompilerNewBB (blockType : BBType) (arena : list BasicBlock)
  : list BasicBlock * nat :=
  (arena ++ [mkBB 0 0 None blockType false [] None None None], length arena).

(** A store through a block pointer. *)
Definition store (p : nat) (f : BasicBlock → BasicBlock)
    (arena : list BasicBlock) : outcome (list BasicBlock) :=
  b ← must (arena !! p);
  Ret (<[p := f b]> arena).

(** Modelled from the spec: [dvmCompilerAppendMIR] puts a node at the end
    of a block's instruction chain. *)
Definition dvmCompilerAppendMIR (bb : nat) (mir : MIR)
    (arena : list BasicBlock) : outcome (list BasicBlock) :=
  store bb (λ b, set_mirs (mirs b ++ [mir]) b) arena.

(** ** Trace descriptors and the compilation unit *)

Record JitTraceRun := mkRun {
  frag_startOffset : Z;
  frag_numInsts : Z;
  frag_runEnd : bool }.

Record JitTraceDescription := mkTraceDesc {
  method : Method;
  trace : list JitTraceRun }.

Record CompilationUnit := mkCU {
  numInsts : Z;
  numBlocks : Z;
  blockList : list nat;
  cu_method : option Method;
  traceDesc : option JitTraceDescription;
  printMe : bool;
  allSingleStep : bool;
  halveInstCount : bool;
  baseAddr : Z;
  headerSize : Z }.

(** [memset(&cUnit, 0, sizeof(CompilationUnit))]. *)
Definition zeroCU : CompilationUnit :=
  mkCU 0 0 [] None None false false false 0 0.

Definition set_numInsts (v : Z) (c : CompilationUnit) : CompilationUnit :=
  mkCU v (numBlocks c) (blockList c) (cu_method c) (traceDesc c) (printMe c)
       (allSingleStep c) (halveInstCount c) (baseAddr c) (headerSize c).
Definition set_printMe (v : bool) (c : CompilationUnit) : CompilationUnit :=
  mkCU (numInsts c) (numBlocks c) (blockList c) (cu_method c) (traceDesc c) v
       (allSingleStep c) (halveInstCount c) (baseAddr c) (headerSize c).
Definition set_allSingleStep (v : bool) (c : CompilationUnit)
  : CompilationUnit :=
  mkCU (numInsts c) (numBlocks c) (blockList c) (cu_method c) (traceDesc c)
       (printMe c) v (halveInstCount c) (baseAddr c) (headerSize c).

(** What the two lowering stages leave in the unit: the flag that asks for
    a smaller attempt and the address and header size of the translation. *)
Record Assembled := mkAssembled {
  asm_halveInstCount : bool;
  asm_baseAddr : Z;
  asm_headerSize : Z }.

(** [dvmCompilerMIR2LIR] followed by [dvmCompilerAssembleLIR], run on the
    arena and the unit. *)
Class Codegen := {
  dvmCompilerAssembleLIR : list BasicBlock → CompilationUnit → Assembled }.

Definition set_assembled (a : Assembled) (c : CompilationUnit)
  : CompilationUnit :=
  mkCU (numInsts c) (numBlocks c) (blockList c) (cu_method c) (traceDesc c)
       (printMe c) (allSingleStep c) (asm_halveInstCount a) (asm_baseAddr a)
       (asm_headerSize a).

(** ** The trace graph builder *)

Section TraceBuilder.
Context `{DvmGlobals}.

(** The screening at the head of [dvmCompileTrace] (lines 204 to 265):
    three lookups, each made only when the one before it found nothing,
    then the choice of the compilation mode. *)
Definition screenTrace (m : Method) (cUnit : CompilationUnit)
  : CompilationUnit :=
  match methodTable with
  | Some table =>
      let fullSignature := descriptor (clazz m) +:+ name m in
      let hashValue := dvmComputeUtf8Hash fullSignature in
      let methodFound := dvmHashTableLookup table hashValue fullSignature in
      let methodFound :=
        if negb methodFound then
          let hashValue := dvmComputeUtf8Hash (descriptor (clazz m)) in
          let methodFound :=
            dvmHashTableLookup table hashValue (descriptor (clazz m)) in
          if negb methodFound then
            let hashValue := dvmComputeUtf8Hash (name m) in
            dvmHashTableLookup table hashValue (name m)
          else methodFound
        else methodFound in
      if negb (eqb includeSelectedMethod methodFound) then
        set_allSingleStep true cUnit
      else if includeSelectedMethod then set_printMe true cUnit
      else cUnit
  | None => cUnit
  end.

(** The three statements that put a fresh block at the end of the chain:
    [lastBB->next = dvmCompilerNewBB(kind); lastBB = lastBB->next;
    lastBB->id = numBlocks++]. *)
Definition appendBB (kind : BBType) (arena : list BasicBlock) (lastBB : nat)
    (numBlocks : Z) : outcome (list BasicBlock * nat * Z) :=
  let '(arena, bb) := dvmCompilerNewBB kind arena in
  arena ← store lastBB (set_next (Some bb)) arena;
  let lastBB := bb in
  arena ← store lastBB (set_id numBlocks) arena;
  numBlocks ← int_incr numBlocks;
  Ret (arena, lastBB, numBlocks).

(** The [while (1)] loop over the runs of the descriptor (lines 281 to
    313).  [codePtr] is a position in the code array; the result is the
    arena, [lastBB], [numBlocks] and [cUnit.numInsts] at the [break].
    [traceSize], which only the diagnostics print, is left out. *)
Fixpoint scanTrace (fuel : nat) (code : list Z) (runs : list JitTraceRun)
    (numMaxInsts : Z) (printMe : bool) (arena : list BasicBlock)
    (curBB lastBB : nat) (numBlocks cuNumInsts : Z) (currRun : nat)
    (curOffset numInsts codePtr : Z)
  : outcome (list BasicBlock * nat * Z * Z) :=
  match fuel with
  | O => Fuel
  | S fuel =>
      '(width, decInsn) ← parseInsn code codePtr printMe;
      let insn := mkMIR decInsn width curOffset in
      arena ← dvmCompilerAppendMIR curBB insn arena;
      cuNumInsts ← int_incr cuNumInsts;
      if cuNumInsts >=? numMaxInsts then
        Ret (arena, lastBB, numBlocks, cuNumInsts)
      else
        let numInsts := u32 (numInsts - 1) in
        if numInsts =? 0 then
          run ← must (runs !! currRun);
          if frag_runEnd run then
            Ret (arena, lastBB, numBlocks, cuNumInsts)
          else
            '(arena, lastBB, numBlocks) ←
              appendBB DALVIK_BYTECODE arena lastBB numBlocks;
            let curBB := lastBB in
            let currRun := S currRun in
            run ← must (runs !! currRun);
            let curOffset := frag_startOffset run in
            let numInsts := frag_numInsts run in
            arena ← store curBB (set_startOffset curOffset) arena;
            let codePtr := curOffset in
            scanTrace fuel code runs numMaxInsts printMe arena curBB lastBB
                      numBlocks cuNumInsts currRun curOffset numInsts codePtr
        else
          scanTrace fuel code runs numMaxInsts printMe arena curBB lastBB
                    numBlocks cuNumInsts currRun (u32 (curOffset + width))
                    numInsts (codePtr + width)
  end.

(** The inner [for] loop of the edge pass (lines 339 to 346): every block
    after [curBB] on the chain is compared with the two offsets. *)
Fixpoint searchLoop (fuel : nat) (curBB : nat) (searchBB : option nat)
    (targetOffset fallThroughOffset : Z) (arena : list BasicBlock)
  : outcome (list BasicBlock) :=
  match searchBB with
  | None => Ret arena
  | Some s =>
      match fuel with
      | O => Fuel
      | S fuel =>
          sbb ← must (arena !! s);
          arena ← (if targetOffset =? startOffset sbb
                   then store curBB (set_taken (Some s)) arena
                   else Ret arena);
          sbb ← must (arena !! s);
          arena ← (if fallThroughOffset =? startOffset sbb
                   then store curBB (set_fallThrough (Some s)) arena
                   else Ret arena);
          sbb ← must (arena !! s);
          searchLoop fuel curBB (next sbb) targetOffset fallThroughOffset
                     arena
      end
  end.

Definition controlFlowFlags : Z :=
  Z.lor (Z.lor (Z.lor kInstrCanBranch kInstrCanSwitch) kInstrCanReturn)
        kInstrInvoke.

(** "Target block not included in the trace" (lines 361 to 380): the
    chaining cell for a target the search did not find, linked as the
    taken edge. *)
Definition chainTaken (curBB : nat) (out : Boundary) (curOffset flags : Z)
    (arena : list BasicBlock) (lastBB : nat) (numBlocks : Z)
  : outcome (list BasicBlock * nat * Z) :=
  let targetOffset := target out in
  bb ← must (arena !! curBB);
  if negb (targetOffset =? curOffset) && bool_decide (taken bb = None)
  then
    let kind :=
      if isInvoke out then CHAINING_CELL_INVOKE
      else if negb (Z.land flags kInstrUnconditional =? 0)
           then CHAINING_CELL_HOT else CHAINING_CELL_NORMAL in
    '(arena, lastBB, numBlocks) ← appendBB kind arena lastBB numBlocks;
    arena ← (if isInvoke out then
               arena ← store lastBB (set_startOffset 0) arena;
               store lastBB (set_containingMethod (callee out)) arena
             else store lastBB (set_startOffset targetOffset) arena);
    arena ← store curBB (set_taken (Some lastBB)) arena;
    Ret (arena, lastBB, numBlocks)
  else Ret (arena, lastBB, numBlocks).

(** "Fallthrough block not included in the trace" (lines 382 to 398): the
    chaining cell at the offset after the block, linked as the fallthrough
    edge. *)
Definition chainFallThrough (curBB : nat) (lastInsn : MIR) (out : Boundary)
    (fallThroughOffset : Z) (arena : list BasicBlock) (lastBB : nat)
    (numBlocks : Z) : outcome (list BasicBlock * nat * Z) :=
  bb ← must (arena !! curBB);
  if negb (isUnconditionalBranch lastInsn)
     && bool_decide (fallThrough bb = None)
  then
    let kind :=
      if isInvoke out || needFallThroughBranch bb
      then CHAINING_CELL_HOT else CHAINING_CELL_NORMAL in
    '(arena, lastBB, numBlocks) ← appendBB kind arena lastBB numBlocks;
    arena ← store lastBB (set_startOffset fallThroughOffset) arena;
    arena ← store curBB (set_fallThrough (Some lastBB)) arena;
    Ret (arena, lastBB, numBlocks)
  else Ret (arena, lastBB, numBlocks).

(** The body of the edge pass (lines 326 to 398) for one block that ends
    in [lastInsn]. *)
Definition linkBlock (caller : Method) (curBB : nat) (lastInsn : MIR)
    (arena : list BasicBlock) (lastBB : nat) (numBlocks : Z)
  : outcome (list BasicBlock * nat * Z) :=
  let curOffset := offset lastInsn in
  let fallThroughOffset := u32 (curOffset + width lastInsn) in
  '(_, out) ← findBlockBoundary caller lastInsn curOffset
                                (mkBoundary curOffset false None);
  let targetOffset := target out in
  bb ← must (arena !! curBB);
  arena ← searchLoop (length arena) curBB (next bb) targetOffset
                     fallThroughOffset arena;
  let flags := dexGetInstrFlags (opCode (dalvikInsn lastInsn)) in
  arena ← store curBB (set_needFallThroughBranch
                         (Z.land flags controlFlowFlags =? 0)) arena;
  '(arena, lastBB, numBlocks) ←
    chainTaken curBB out curOffset flags arena lastBB numBlocks;
  chainFallThrough curBB lastInsn out fallThroughOffset arena lastBB
                   numBlocks.

(** The edge pass (lines 320 to 399): along the chain from [startBB],
    until the chain ends or a block without instructions is met. *)
Fixpoint linkBlocks (fuel : nat) (caller : Method) (curBB : option nat)
    (arena : list BasicBlock) (lastBB : nat) (numBlocks : Z)
  : outcome (list BasicBlock * nat * Z) :=
  match curBB with
  | None => Ret (arena, lastBB, numBlocks)
  | Some cur =>
      match fuel with
      | O => Fuel
      | S fuel =>
          bb ← must (arena !! cur);
          match lastMIRInsn bb with
          | None => Ret (arena, lastBB, numBlocks)
          | Some lastInsn =>
              '(arena, lastBB, numBlocks) ←
                linkBlock caller cur lastInsn arena lastBB numBlocks;
              bb ← must (arena !! cur);
              linkBlocks fuel caller (next bb) arena lastBB numBlocks
          end
      end
  end.

(** The loop that fills [cUnit.blockList] from the chain (lines 434 to
    437); the second component is [curBB] when the loop is left. *)
Fixpoint fillBlockList (n : nat) (arena : list BasicBlock)
    (curBB : option nat) (blockList : list nat)
  : outcome (list nat * option nat) :=
  match n with
  | O => Ret (blockList, curBB)
  | S n =>
      cur ← must curBB;
      bb ← must (arena !! cur);
      fillBlockList n arena (next bb) (blockList ++ [cur])
  end.

(** [dvmCompileTrace] up to the hand-over to the lowering stages (lines
    188 to 439): the arena with the blocks of the trace and the unit that
    lists them.  The [assert] of line 439 is kept as an abort. *)
Definition buildTrace (desc : JitTraceDescription) (numMaxInsts : Z)
  : outcome (list BasicBlock * CompilationUnit) :=
  dexCode ← must (dvmGetMethodCode (method desc));
  currRun ← must (trace desc !! 0%nat);
  let curOffset := frag_startOffset currRun in
  let codePtr := curOffset in
  let numBlocks := 0 in
  let cUnit := set_printMe gDvmJit_printMe zeroCU in
  let cUnit := screenTrace (method desc) cUnit in
  let '(arena, startBB) := dvmCompilerNewBB DALVIK_BYTECODE [] in
  let curBB := startBB in
  let lastBB := startBB in
  arena ← store curBB (set_startOffset curOffset) arena;
  arena ← store curBB (set_id numBlocks) arena;
  numBlocks ← int_incr numBlocks;
  '(arena, lastBB, numBlocks, cuNumInsts) ←
    scanTrace (Z.to_nat (Z.max 1 numMaxInsts)) (dex_insns dexCode)
              (trace desc) numMaxInsts (printMe cUnit) arena curBB lastBB
              numBlocks (numInsts cUnit) 0%nat curOffset
              (frag_numInsts currRun) codePtr;
  let cUnit := set_numInsts cuNumInsts cUnit in
  '(arena, lastBB, numBlocks) ←
    linkBlocks (S (length arena)) (method desc) (Some startBB) arena lastBB
               numBlocks;
  '(arena, lastBB, numBlocks) ←
    appendBB PC_RECONSTRUCTION arena lastBB numBlocks;
  '(arena, lastBB, numBlocks) ←
    appendBB EXCEPTION_HANDLING arena lastBB numBlocks;
  '(blockList, curBB) ←
    fillBlockList (Z.to_nat numBlocks) arena (Some startBB) [];
  if bool_decide (curBB = None) then
    Ret (arena,
         mkCU (numInsts cUnit) numBlocks blockList (Some (method desc))
              (Some desc) (printMe cUnit) (allSingleStep cUnit)
              (halveInstCount cUnit) (baseAddr cUnit) (headerSize cUnit))
  else Aborted AssertFailed.

(** [dvmCompileTrace] (lines 186 to 476): build, lower, and call itself
    again with half the instruction count when the assembler asks for it.
    The fuel bounds the depth of the recursion. *)
Fixpoint dvmCompileTrace `{Codegen} (fuel : nat)
    (desc : JitTraceDescription) (numMaxInsts : Z) : outcome Z :=
  match fuel with
  | O => Fuel
  | S fuel =>
      '(arena, cUnit) ← buildTrace desc numMaxInsts;
      let cUnit := set_assembled (dvmCompilerAssembleLIR arena cUnit) cUnit in
      if negb (halveInstCount cUnit) then
        Ret (baseAddr cUnit + headerSize cUnit)
      else dvmCompileTrace fuel desc (Z.quot (numInsts cUnit) 2)
  end.

End TraceBuilder.

(** ** Bit vectors *)

(** Modelled from the spec: the bit-vector primitives of the VM, which this
    file only calls.  A vector owns [storageSize] words of 32 bits, kept
    here as one integer; a vector that is not expandable ignores a bit
    outside its words. *)
Record BitVector := mkBitVector {
  storageSize : Z;
  storage : Z }.

(** Modelled from the spec: [dvmAllocBitVector] rounds the number of bits
    up to whole words and clears them. *)
Definition dvmAllocBitVector (startBits : Z) (expandable : bool)
  : BitVector :=
  mkBitVector (Z.shiftr (startBits + 31) 5) 0.

(** Modelled from the spec: [dvmSetBit] on a vector that cannot grow. *)
Definition dvmSetBit (pBits : BitVector) (num : Z) : BitVector :=
  if (0 <=? num) && (num <? storageSize pBits * 32)
  then mkBitVector (storageSize pBits)
                   (Z.lor (storage pBits) (Z.shiftl 1 num))
  else pBits.

(** Modelled from the spec: [dvmIsBitSet]. *)
Definition dvmIsBitSet (pBits : BitVector) (num : Z) : bool :=
  Z.testbit (storage pBits) num.

(** Modelled from the spec: [dvmCountSetBits], the number of bits set in
    the words of the vector. *)
Fixpoint countBits (n : nat) (bits : Z) : Z :=
  match n with
  | O => 0
  | S n => (if Z.testbit bits (Z.of_nat n) then 1 else 0) + countBits n bits
  end.

Definition dvmCountSetBits (pBits : BitVector) : Z :=
  countBits (Z.to_nat (storageSize pBits * 32)) (storage pBits).

(** ** The method graph builder *)

Section MethodBuilder.
Context `{DvmGlobals}.

(** The first loop of [dvmCompileMethod] (lines 504 to 535): every
    instruction goes into [firstBlock] and the block starts are marked. *)
Fixpoint scanMethod (fuel : nat) (method : Method) (code : list Z)
    (firstBlock : nat) (arena : list BasicBlock) (bbStartAddr : BitVector)
    (codePtr curOffset : Z) : outcome (list BasicBlock * BitVector) :=
  if codePtr <? Z.of_nat (length code) then
    match fuel with
    | O => Fuel
    | S fuel =>
        '(width, decInsn) ← parseInsn code codePtr false;
        let insn := mkMIR decInsn width curOffset in
        arena ← dvmCompilerAppendMIR firstBlock insn arena;
        '(boundary, out) ← findBlockBoundary method insn curOffset
                                             (mkBoundary curOffset false None);
        let bbStartAddr :=
          if (boundary : bool) then
            let bbStartAddr :=
              dvmSetBit bbStartAddr (s32 (u32 (curOffset + width))) in
            if negb (target out =? curOffset)
            then dvmSetBit bbStartAddr (s32 (target out))
            else bbStartAddr
          else bbStartAddr in
        scanMethod fuel method code firstBlock arena bbStartAddr
                   (codePtr + width) (u32 (curOffset + width))
    end
  else Ret (arena, bbStartAddr).

(** Lines 542 to 545: the number of blocks the builder expects.  The
    decrement runs when a bit is set, on a count of at least one. *)
Definition expectedBlocks (bbStartAddr : BitVector) (dexCode : DexCode)
  : Z :=
  let numBlocks := dvmCountSetBits bbStartAddr in
  if dvmIsBitSet bbStartAddr (insnsSize dexCode) then numBlocks - 1
  else numBlocks.

(** Everything before the splitting loop: the arena with [firstBlock], the
    marked offsets, and [blockID]. *)
Definition scanWholeMethod (fuel : nat) (method : Method)
  : outcome (list BasicBlock * nat * BitVector * Z) :=
  dexCode ← must (dvmGetMethodCode method);
  let blockID := 0 in
  let '(arena, firstBlock) := dvmCompilerNewBB DALVIK_BYTECODE [] in
  arena ← store firstBlock (set_id blockID) arena;
  blockID ← int_incr blockID;
  let bbStartAddr := dvmAllocBitVector (insnsSize dexCode + 1) false in
  let bbStartAddr := dvmSetBit bbStartAddr 0 in
  '(arena, bbStartAddr) ←
    scanMethod fuel method (dex_insns dexCode) firstBlock arena bbStartAddr
               0 0;
  Ret (arena, firstBlock, bbStartAddr, blockID).

(** The loop over [j]: is there a listed block whose first instruction is
    at this offset? *)
Fixpoint blockStartsAt (arena : list BasicBlock) (blockList : list nat)
    (insnOffset : Z) : outcome bool :=
  match blockList with
  | [] => Ret false
  | p :: blockList =>
      bb ← must (arena !! p);
      first ← must (head (mirs bb));
      if offset first =? insnOffset then Ret true
      else blockStartsAt arena blockList insnOffset
  end.

(** The loop over the instructions of one block, from the second on: the
    chain up to the first marked instruction that starts no listed block,
    and the chain from it. *)
Fixpoint findSplit (bbStartAddr : BitVector) (arena : list BasicBlock)
    (blockList : list nat) (before rest : list MIR)
  : outcome (option (list MIR * list MIR)) :=
  match rest with
  | [] => Ret None
  | insn :: rest' =>
      if dvmIsBitSet bbStartAddr (s32 (offset insn)) then
        listed ← blockStartsAt arena blockList (offset insn);
        if (listed : bool) then
          findSplit bbStartAddr arena blockList (before ++ [insn]) rest'
        else Ret (Some (before, rest))
      else findSplit bbStartAddr arena blockList (before ++ [insn]) rest'
  end.

(** The splitting loop (lines 563 to 601), [i] running up to [numBlocks].
    The pointer array
    is zero-filled, so an entry that was never stored reads as null; the
    source does not check the store at [blockList[cUnit.numBlocks]]
    against the size it asked of the arena, and the model keeps every
    entry stored. *)
Fixpoint splitBlocks (n : nat) (i : Z) (bbStartAddr : BitVector)
    (arena : list BasicBlock) (blockList : list nat)
    (cuNumBlocks blockID : Z)
  : outcome (list BasicBlock * list nat * Z * Z) :=
  match n with
  | O => Ret (arena, blockList, cuNumBlocks, blockID)
  | S n =>
      curBB ← must (idx blockList i);
      bb ← must (arena !! curBB);
      _ ← must (lastMIRInsn bb);
      first ← must (head (mirs bb));
      found ← findSplit bbStartAddr arena blockList [first] (tail (mirs bb));
      match found with
      | Some (before, rest) =>
          let '(arena, newBB) := dvmCompilerNewBB DALVIK_BYTECODE arena in
          arena ← store newBB (set_id blockID) arena;
          blockID ← int_incr blockID;
          arena ← store newBB (set_mirs rest) arena;
          arena ← store curBB (set_mirs before) arena;
          lastInsn ← must (last before);
          arena ← (if negb (isUnconditionalBranch lastInsn)
                   then store curBB (set_fallThrough (Some newBB)) arena
                   else Ret arena);
          cuNumBlocks' ← int_incr cuNumBlocks;
          splitBlocks n (i + 1) bbStartAddr arena (blockList ++ [newBB])
                      cuNumBlocks' blockID
      | None =>
          splitBlocks n (i + 1) bbStartAddr arena blockList cuNumBlocks
                      blockID
      end
  end.

(** The loop that looks for the block starting at [target], from [j]. *)
Fixpoint findTarget (arena : list BasicBlock) (blocks : list nat)
    (target : Z) : outcome (option nat) :=
  match blocks with
  | [] => Ret None
  | p :: blocks =>
      bb ← must (arena !! p);
      first ← must (head (mirs bb));
      if offset first =? target then Ret (Some p)
      else findTarget arena blocks target
  end.

(** The last loop (lines 611 to 643): the taken links. *)
Fixpoint connectTaken (n : nat) (i : Z) (method : Method) (numBlocks : Z)
    (blockList : list nat) (arena : list BasicBlock)
  : outcome (list BasicBlock) :=
  match n with
  | O => Ret arena
  | S n =>
      curBB ← must (idx blockList i);
      bb ← must (arena !! curBB);
      insn ← must (lastMIRInsn bb);
      '(_, out) ← findBlockBoundary method insn (offset insn)
                                    (mkBoundary (offset insn) false None);
      arena ←
        (if negb (target out =? offset insn) then
           let j := if target out >? offset insn then i + 1 else 0 in
           found ← findTarget arena
                              (take (Z.to_nat (numBlocks - j))
                                    (drop (Z.to_nat j) blockList))
                              (target out);
           match found with
           | Some t => store curBB (set_taken (Some t)) arena
           | None => Aborted (TargetNotFound (offset insn) (target out))
           end
         else Ret arena);
      connectTaken n (i + 1) method numBlocks blockList arena
  end.

(** [dvmCompileMethod].  The fuel bounds the first loop, which does not
    advance on an instruction of width zero.  [blockList[0]] is stored
    whatever the size asked of the arena for the list. *)
Definition dvmCompileMethod `{Codegen} (fuel : nat) (method : Method)
  : outcome Z :=
  dexCode ← must (dvmGetMethodCode method);
  '(arena, firstBlock, bbStartAddr, blockID) ← scanWholeMethod fuel method;
  let numBlocks := expectedBlocks bbStartAddr dexCode in
  let blockList := [firstBlock] in
  '(arena, blockList, cuNumBlocks, blockID) ←
    splitBlocks (Z.to_nat numBlocks) 0 bbStartAddr arena blockList 1 blockID;
  if negb (numBlocks =? cuNumBlocks) then
    Aborted (ExpectBlocks numBlocks cuNumBlocks)
  else
    arena ← connectTaken (Z.to_nat numBlocks) 0 method numBlocks blockList
                         arena;
    let cUnit :=
      mkCU 0 cuNumBlocks blockList (Some method) None false false false 0 0 in
    let cUnit := set_assembled (dvmCompilerAssembleLIR arena cUnit) cUnit in
    Ret (baseAddr cUnit + headerSize cUnit).

End MethodBuilder.

(** ** A concrete runtime for the examples *)

Module Reference.

(** Modelled from the spec: the entries of the width table of [libdex] for
    the opcodes the examples use (return-void, const/4, goto: one unit;
    goto/16 and the conditional branches: two units; goto/32, the switches,
    fill-array-data and the invokes: three units, negated for the quick
    invokes; zero for opcodes the table leaves unused).  It is not the
    whole table: any other opcode is given one unit here. *)
Definition widthTable (opcode : Z) : Z :=
  if opIn opcode [OP_GOTO_16]
     || ((OP_IF_EQ <=? opcode) && (opcode <=? OP_IF_LEZ)) then 2
  else if opIn opcode [OP_GOTO_32; OP_PACKED_SWITCH; OP_SPARSE_SWITCH; 0x26]
          || ((OP_INVOKE_VIRTUAL <=? opcode)
              && (opcode <=? OP_INVOKE_INTERFACE_RANGE)
              && negb (opcode =? 0x73)) then 3
  else if ((OP_INVOKE_VIRTUAL_QUICK <=? opcode)
           && (opcode <=? OP_INVOKE_SUPER_QUICK_RANGE)) then -3
  else if opIn opcode [0x3e; 0x3f; 0x40; 0x41; 0x42; 0x43; 0x73] then 0
  else 1.

(** Modelled from the spec: the flag table of [libdex], by opcode group. *)
Definition flagTable (opcode : Z) : Z :=
  if opIn opcode [OP_RETURN_VOID; OP_RETURN; OP_RETURN_WIDE;
                  OP_RETURN_OBJECT] then kInstrCanReturn
  else if opcode =? OP_THROW then kInstrCanThrow
  else if opIn opcode [OP_GOTO; OP_GOTO_16; OP_GOTO_32] then
    Z.lor kInstrCanBranch kInstrUnconditional
  else if (OP_IF_EQ <=? opcode) && (opcode <=? OP_IF_LEZ) then
    Z.lor kInstrCanBranch kInstrCanContinue
  else if opIn opcode [OP_PACKED_SWITCH; OP_SPARSE_SWITCH] then
    Z.lor kInstrCanSwitch kInstrCanContinue
  else if ((OP_INVOKE_VIRTUAL <=? opcode)
           && (opcode <=? OP_INVOKE_INTERFACE_RANGE)
           && negb (opcode =? 0x73))
          || ((OP_INVOKE_VIRTUAL_QUICK <=? opcode)
              && (opcode <=? OP_INVOKE_SUPER_QUICK_RANGE)) then
    Z.lor (Z.lor kInstrCanContinue kInstrCanThrow) kInstrInvoke
  else kInstrCanContinue.

Definition unit_at (code : list Z) (p : Z) : Z := default 0 (idx code p).

(** Sign extension of the low [bits] bits into a 32-bit operand slot. *)
Definition sext (bits : Z) (v : Z) : Z :=
  let m := v mod 2 ^ bits in
  u32 (if m <? 2 ^ (bits - 1) then m else m - 2 ^ bits).

(** Modelled from the spec: the decoder of [libdex] on the formats of the
    branches and invokes (10t, 20t, 30t, 21t, 22t, 35c, 3rc); for the other
    opcodes only the opcode is filled in. *)
Definition decode (code : list Z) (p : Z) : DecodedInstruction :=
  let inst := unit_at code p in
  let opcode := Z.land inst 0xff in
  if opcode =? OP_GOTO then
    mkDecoded opcode (sext 8 (Z.shiftr inst 8)) 0 0
  else if opcode =? OP_GOTO_16 then
    mkDecoded opcode (sext 16 (unit_at code (p + 1))) 0 0
  else if opcode =? OP_GOTO_32 then
    mkDecoded opcode
              (u32 (Z.lor (unit_at code (p + 1))
                          (Z.shiftl (unit_at code (p + 2)) 16))) 0 0
  else if (OP_IF_EQ <=? opcode) && (opcode <=? OP_IF_LE) then
    mkDecoded opcode (Z.land (Z.shiftr inst 8) 0xf) (Z.shiftr inst 12)
              (sext 16 (unit_at code (p + 1)))
  else if (OP_IF_EQZ <=? opcode) && (opcode <=? OP_IF_LEZ) then
    mkDecoded opcode (Z.shiftr inst 8) (sext 16 (unit_at code (p + 1))) 0
  else if ((OP_INVOKE_VIRTUAL <=? opcode)
           && (opcode <=? OP_INVOKE_INTERFACE_RANGE))
          || ((OP_INVOKE_VIRTUAL_QUICK <=? opcode)
              && (opcode <=? OP_INVOKE_SUPER_QUICK_RANGE)) then
    mkDecoded opcode (Z.shiftr inst 12) (unit_at code (p + 1))
              (unit_at code (p + 2))
  else mkDecoded opcode 0 0 0.

(** Modelled from the spec: the string hash of the VM,
    [hash = hash * 31 + c] from 1, on 32 bits. *)
Fixpoint utf8HashFrom (hash : Z) (s : string) : Z :=
  match s with
  | EmptyString => hash
  | String c s =>
      utf8HashFrom (u32 (hash * 31 + Z.of_nat (Ascii.nat_of_ascii c))) s
  end.

Definition utf8Hash (s : string) : Z := utf8HashFrom 1 s.

(** Modelled from the spec: a table of names, each stored with its hash; a
    lookup compares the hash, then the strings. *)
Definition lookup (table : list (Z * string)) (hashValue : Z)
    (item : string) : bool :=
  existsb (λ e, (fst e =? hashValue) && String.eqb (snd e) item) table.

Definition names (l : list string) : list (Z * string) :=
  map (λ s, (utf8Hash s, s)) l.

Definition globals (table : option (list (Z * string)))
    (include printMe : bool) : DvmGlobals :=
  {| instrWidth := widthTable;
     instrFlags := flagTable;
     dexDecodeInstruction := decode;
     HashTable := list (Z * string);
     dvmComputeUtf8Hash := utf8Hash;
     dvmHashTableLookup := lookup;
     methodTable := table;
     includeSelectedMethod := include;
     gDvmJit_printMe := printMe |}.

(** No name table, no diagnostics. *)
Definition plain : DvmGlobals := globals None false false.

(** An assembler that always succeeds and one that never does. *)
Definition accepting : Codegen :=
  {| dvmCompilerAssembleLIR := λ _ _, mkAssembled false 4096 16 |}.
Definition rejecting : Codegen :=
  {| dvmCompilerAssembleLIR := λ _ _, mkAssembled true 0 0 |}.

(** An assembler with room for one instruction. *)
Definition cramped : Codegen :=
  {| dvmCompilerAssembleLIR := λ _ cUnit,
       if 1 <? numInsts cUnit then mkAssembled true 0 0
       else mkAssembled false 4096 16 |}.

Definition object : ClassObject := mkClassObject "Ljava/lang/Object;" [] [] None.

(** A method of a class [LFoo;] with the given code. *)
Definition methodOf (code : list Z) : Method :=
  mkMethod (mkClassObject "LFoo;" [] [] (Some object)) "bar" 0 0 0x40001000
           (Some (mkDexCode code)).

(** A method body with inline data: a packed-switch on [v0] at offset 0
    whose payload is at offset 4, a return-void at offset 3, and the
    payload, with one case that leads to the return. *)
Definition switchCode : list Z :=
  [0x002b; 4; 0; 0x000e; 0x0100; 1; 0; 0; 3; 0].

(** A trace of one run over the code of [methodOf]. *)
Definition oneRun (code : list Z) (start count : Z) : JitTraceDescription :=
  mkTraceDesc (methodOf code) [mkRun start count true].

End Reference.

(** ** Predicates of the statements *)

(** A run that ends, if it ends at all on defined behaviour, in a result
    with the property [P]: it may fault, it neither aborts nor exhausts the
    fuel of the model. *)
Definition safe {A} (m : outcome A) (P : A → Prop) : Prop :=
  match m with
  | Ret a => P a
  | Fault => True
  | Aborted _ => False
  | Fuel => False
  end.

(** The same runtime with no name table configured. *)
Definition withoutTable (G : DvmGlobals) : DvmGlobals :=
  {| instrWidth := @instrWidth G;
     instrFlags := @instrFlags G;
     dexDecodeInstruction := @dexDecodeInstruction G;
     HashTable := @HashTable G;
     dvmComputeUtf8Hash := @dvmComputeUtf8Hash G;
     dvmHashTableLookup := @dvmHashTableLookup G;
     methodTable := None;
     includeSelectedMethod := @includeSelectedMethod G;
     gDvmJit_printMe := @gDvmJit_printMe G |}.

(** The graph of an attempt: the blocks, their list, and the two counts. *)
Definition graphOf (r : outcome (list BasicBlock * CompilationUnit))
  : outcome (list BasicBlock * list nat * Z * Z) :=
  '(arena, cUnit) ← r;
  Ret (arena, blockList cUnit, numBlocks cUnit, numInsts cUnit).

(** The chaining cells. *)
Definition isChainingCell (kind : BBType) : bool :=
  match kind with
  | CHAINING_CELL_NORMAL | CHAINING_CELL_HOT | CHAINING_CELL_INVOKE => true
  | _ => false
  end.

(** The block chain is the arena in allocation order: block [i] carries
    the identity [i] and points to block [i + 1], the last one to nothing;
    [lastBB] is the last block and [n] the number of blocks. *)
Definition chained (arena : list BasicBlock) (lastBB : nat) (n : Z) : Prop :=
  S lastBB = length arena
  ∧ Z.of_nat (length arena) = n
  ∧ ∀ i b, arena !! i = Some b →
      id b = Z.of_nat i
      ∧ next b = (if decide (S i < length arena)%nat then Some (S i)
                  else None).

(** What no later step changes in a block. *)
Definition staticEq (b b' : BasicBlock) : Prop :=
  id b' = id b ∧ startOffset b' = startOffset b
  ∧ containingMethod b' = containingMethod b
  ∧ blockType b' = blockType b ∧ mirs b' = mirs b.

Definition edgesEq (b b' : BasicBlock) : Prop :=
  taken b' = taken b ∧ fallThrough b' = fallThrough b.

(** From one arena to a later one: the blocks stay, and all but the block
    [cur] keep their edges. *)
Definition frame (cur : option nat) (arena arena' : list BasicBlock)
  : Prop :=
  (length arena ≤ length arena')%nat
  ∧ ∀ i b, arena !! i = Some b →
      ∃ b', arena' !! i = Some b' ∧ staticEq b b'
            ∧ (cur ≠ Some i → edgesEq b b').

(** During the scan every block is a bytecode block without edges, and
    every block but the one being filled has an instruction. *)
Definition allBytecode (arena : list BasicBlock) (filling : option nat)
  : Prop :=
  ∀ i b, arena !! i = Some b →
    blockType b = DALVIK_BYTECODE
    ∧ (taken b = None ∧ fallThrough b = None)
    ∧ (filling ≠ Some i → mirs b ≠ []).

(** An edge of [cur] after the search: the one it had, or a block after
    [cur] on the chain that starts at the offset looked for. *)
Definition edge (arena : list BasicBlock) (cur : nat) (off : Z)
    (old new : option nat) : Prop :=
  new = old
  ∨ ∃ q bq, new = Some q ∧ (cur < q)%nat ∧ arena !! q = Some bq
            ∧ startOffset bq = off.

(** The effect of the search for the two offsets on the arena: only the
    two edges of [cur] may change. *)
Definition relinked (cur : nat) (targetOffset fallThroughOffset : Z)
    (arena arena' : list BasicBlock) : Prop :=
  length arena' = length arena
  ∧ (∀ i, i ≠ cur → arena' !! i = arena !! i)
  ∧ ∃ b b', arena !! cur = Some b ∧ arena' !! cur = Some b'
            ∧ staticEq b b' ∧ next b' = next b
            ∧ edge arena cur targetOffset (taken b) (taken b')
            ∧ edge arena cur fallThroughOffset (fallThrough b)
                   (fallThrough b').

(** A block of the trace proper: bytecode or chaining cell. *)
Definition inTrace (b : BasicBlock) : Prop :=
  blockType b = DALVIK_BYTECODE ∨ isChainingCell (blockType b) = true.

Definition noTrailer (arena : list BasicBlock) : Prop :=
  ∀ i b, arena !! i = Some b → inTrace b.

(** The blocks that [arena'] has and [arena] has not are chaining cells
    without instructions. *)
Definition freshCells (arena arena' : list BasicBlock) : Prop :=
  ∀ i b, (length arena ≤ i)%nat → arena' !! i = Some b →
    isChainingCell (blockType b) = true ∧ mirs b = [].

(** [q] is a block of the trace after [p] that starts at [off]. *)
Definition fallsTo (arena : list BasicBlock) (p : nat) (off : Z) (q : nat)
  : Prop :=
  (p < q)%nat
  ∧ ∃ bq, arena !! q = Some bq ∧ inTrace bq ∧ startOffset bq = off.

(** [q] is a block of the trace after [p] that starts at the target the
    classifier wrote, or the invoke chaining cell made for its callee. *)
Definition takes (arena : list BasicBlock) (p : nat) (out : Boundary)
    (q : nat) : Prop :=
  (p < q)%nat
  ∧ ∃ bq, arena !! q = Some bq ∧ inTrace bq
          ∧ (startOffset bq = target out
             ∨ (blockType bq = CHAINING_CELL_INVOKE ∧ startOffset bq = 0
                ∧ containingMethod bq = callee out)).

(** The edges of a block [b] at [p] that ends in [lastInsn], after the
    edge pass has dealt with it. *)
Definition blockLinked (caller : Method) (arena : list BasicBlock) (p : nat)
    (b : BasicBlock) (lastInsn : MIR) : Prop :=
  (isUnconditionalBranch lastInsn = false →
     ∃ q, fallThrough b = Some q
          ∧ fallsTo arena p (u32 (offset lastInsn + width lastInsn)) q)
  ∧ (∀ r out,
       findBlockBoundary caller lastInsn (offset lastInsn)
                         (mkBoundary (offset lastInsn) false None)
       = Ret (r, out) →
       target out ≠ offset lastInsn →
       ∃ q, taken b = Some q ∧ takes arena p out q).

Definition linked (caller : Method) (arena : list BasicBlock) (p : nat)
  : Prop :=
  ∀ b lastInsn, arena !! p = Some b → last (mirs b) = Some lastInsn →
    blockLinked caller arena p b lastInsn.

(** What [appendBB] leaves: one more block, [nb], at the end of the
    chain. *)
Definition appended (arena arena' : list BasicBlock) (n : Z)
    (nb : BasicBlock) : Prop :=
  chained arena' (length arena) n ∧ frame None arena arena'
  ∧ length arena' = S (length arena)
  ∧ arena' !! length arena = Some nb.

(** The state of the edge pass in the middle of its body for the block
    [b] at [cur]: [arena] is the arena the body started from, [a] the
    current one, and [bc] the block now at [cur]. *)
Definition midLink (arena : list BasicBlock) (cur : nat) (b : BasicBlock)
    (a : list BasicBlock) (l : nat) (n : Z) (bc : BasicBlock) : Prop :=
  arena !! cur = Some b ∧ chained a l n ∧ frame (Some cur) arena a
  ∧ freshCells arena a ∧ a !! cur = Some bc.

(** The arena during the edge pass: [k] bytecode blocks, each with an
    instruction, then chaining cells; the bytecode blocks from [cur] on
    have no edge yet and those before [cur] are linked. *)
Definition passState (caller : Method) (k cur : nat)
    (arena : list BasicBlock) : Prop :=
  (k ≤ length arena)%nat
  ∧ (∀ i b, arena !! i = Some b →
       if decide (i < k)%nat
       then blockType b = DALVIK_BYTECODE ∧ mirs b ≠ []
            ∧ ((cur ≤ i)%nat → taken b = None ∧ fallThrough b = None)
       else isChainingCell (blockType b) = true ∧ mirs b = [])
  ∧ (∀ p, (p < cur)%nat → (p < k)%nat → linked caller arena p).

(** The chain that starts at a block pointer, as the list of the blocks on
    it up to the null pointer. *)
Inductive chainIs (arena : list BasicBlock) : option nat → list nat → Prop :=
| chain_end : chainIs arena None []
| chain_step p b rest :
    arena !! p = Some b → chainIs arena (next b) rest →
    chainIs arena (Some p) (p :: rest).

(** The layout of a finished trace graph: [k] bytecode blocks, [c]
    chaining cells, the PC-reconstruction block, the exception-handling
    block. *)
Definition layout (k c : nat) (arena : list BasicBlock) : Prop :=
  length arena = (k + c + 2)%nat
  ∧ ∀ i b, arena !! i = Some b →
      if decide (i < k)%nat
      then blockType b = DALVIK_BYTECODE ∧ mirs b ≠ []
      else if decide (i < k + c)%nat
      then isChainingCell (blockType b) = true ∧ mirs b = []
      else if decide (i = k + c)%nat
      then blockType b = PC_RECONSTRUCTION ∧ mirs b = []
      else blockType b = EXCEPTION_HANDLING ∧ mirs b = [].

(** What [buildTrace] hands to the lowering stages. *)
Definition traceGraph `{DvmGlobals} (desc : JitTraceDescription)
    (numMaxInsts : Z) (arena : list BasicBlock) (cUnit : CompilationUnit)
  : Prop :=
  ∃ k c lastBB,
    (1 ≤ k)%nat ∧ layout k c arena
    ∧ chained arena lastBB (numBlocks cUnit)
    ∧ blockList cUnit = seq 0 (length arena)
    ∧ (∀ p, (p < k)%nat → linked (method desc) arena p)
    ∧ 1 ≤ numInsts cUnit ≤ Z.max 1 numMaxInsts
    ∧ allSingleStep cUnit
      = allSingleStep (screenTrace (method desc)
                                   (set_printMe gDvmJit_printMe zeroCU)).

(** The outline of a built graph: kind, start offset and the two edges of
    each block, in allocation order. *)
Definition shapeOf (r : outcome (list BasicBlock * CompilationUnit))
  : outcome (list (BBType * Z * option nat * option nat)) :=
  '(arena, _) ← r;
  Ret (map (λ b, (blockType b, startOffset b, taken b, fallThrough b)) arena).

(** What the four statically bound invoke groups leave in the cells: the
    callee, the invoke mark, and the callee's code address unless the
    callee is native. *)
Definition staticBinding (calleeMethod : Method) (out : Boundary)
  : outcome (bool * Boundary) :=
  Ret (true,
       mkBoundary (if dvmIsNativeMethod calleeMethod then target out
                   else u32 (insns calleeMethod))
                  true (Some calleeMethod)).

(** ** Block ends and branches *)

(** The opcodes that have a [case] label in [findBlockBoundary]. *)
Definition blockEndOpcodes : list Z :=
  [OP_RETURN_VOID; OP_RETURN; OP_RETURN_WIDE; OP_RETURN_OBJECT;
   OP_THROW; OP_INVOKE_VIRTUAL; OP_INVOKE_VIRTUAL_RANGE;
   OP_INVOKE_INTERFACE; OP_INVOKE_INTERFACE_RANGE;
   OP_INVOKE_VIRTUAL_QUICK; OP_INVOKE_VIRTUAL_QUICK_RANGE;
   OP_INVOKE_SUPER; OP_INVOKE_SUPER_RANGE;
   OP_INVOKE_STATIC; OP_INVOKE_STATIC_RANGE;
   OP_INVOKE_SUPER_QUICK; OP_INVOKE_SUPER_QUICK_RANGE;
   OP_INVOKE_DIRECT; OP_INVOKE_DIRECT_RANGE;
   OP_GOTO; OP_GOTO_16; OP_GOTO_32;
   OP_IF_EQ; OP_IF_NE; OP_IF_LT; OP_IF_GE; OP_IF_GT; OP_IF_LE;
   OP_IF_EQZ; OP_IF_NEZ; OP_IF_LTZ; OP_IF_GEZ; OP_IF_GTZ; OP_IF_LEZ].

(** The branches: the opcodes whose target is an operand. *)
Definition branchOpcodes : list Z :=
  [OP_GOTO; OP_GOTO_16; OP_GOTO_32;
   OP_IF_EQ; OP_IF_NE; OP_IF_LT; OP_IF_GE; OP_IF_GT; OP_IF_LE;
   OP_IF_EQZ; OP_IF_NEZ; OP_IF_LTZ; OP_IF_GEZ; OP_IF_GTZ; OP_IF_LEZ].

(** The operand that holds the displacement of a branch. *)
Definition branchOperand (d : DecodedInstruction) : Z :=
  if opIn (opCode d) [OP_GOTO; OP_GOTO_16; OP_GOTO_32] then vA d
  else if opIn (opCode d) [OP_IF_EQ; OP_IF_NE; OP_IF_LT; OP_IF_GE; OP_IF_GT;
                           OP_IF_LE] then vC d
  else vB d.

(** ** The trace graph, block by block *)

(** A block with its chain pointer erased: what the stores of the edge
    pass may not change in the blocks they do not name. *)
Definition core (b : BasicBlock) : BasicBlock := set_next None b.

(** [arena'] has the blocks of [arena], the one at [cur] changed by [f],
    up to the chain pointers. *)
Definition updated (cur : nat) (f : BasicBlock → BasicBlock)
    (arena arena' : list BasicBlock) : Prop :=
  ∀ i b, arena !! i = Some b →
    ∃ b', arena' !! i = Some b'
          ∧ core b' = core (if decide (i = cur) then f b else b).

(** The chaining cell of lines 362 to 380. *)
Definition takenCell (out : Boundary) (flags n : Z) : BasicBlock :=
  mkBB n (if isInvoke out then 0%Z else target out)
       (if isInvoke out then callee out else None)
       (if isInvoke out then CHAINING_CELL_INVOKE
        else if negb (Z.land flags kInstrUnconditional =? 0)%Z
             then CHAINING_CELL_HOT else CHAINING_CELL_NORMAL)
       false [] None None None.

(** The chaining cell of lines 383 to 398. *)
Definition fallThroughCell (out : Boundary) (needBranch : bool)
    (fallThroughOffset n : Z) : BasicBlock :=
  mkBB n fallThroughOffset None
       (if isInvoke out || needBranch
        then CHAINING_CELL_HOT else CHAINING_CELL_NORMAL)
       false [] None None None.

(** What the body of the edge pass does to the arena for the block at
    [cur] that ends in [lastInsn]: the other blocks keep all but their
    chain pointer, the block gets its flag and its edges, which lead
    forward, and every block that is new is a chaining cell made for one
    of the two edges. *)
Definition linkedBy `{DvmGlobals} (caller : Method) (cur : nat)
    (lastInsn : MIR) (arena arena' : list BasicBlock) : Prop :=
  ∃ r out b b',
    findBlockBoundary caller lastInsn (offset lastInsn)
                      (mkBoundary (offset lastInsn) false None)
    = Ret (r, out)
    ∧ arena !! cur = Some b ∧ arena' !! cur = Some b'
    ∧ (length arena ≤ length arena')%nat
    ∧ needFallThroughBranch b'
      = (Z.land (dexGetInstrFlags (opCode (dalvikInsn lastInsn)))
                controlFlowFlags =? 0)
    ∧ (∀ i x, arena !! i = Some x → i ≠ cur →
         ∃ x', arena' !! i = Some x' ∧ core x' = core x)
    ∧ (∀ q, taken b' = Some q ∨ fallThrough b' = Some q →
         (cur < q < length arena')%nat)
    ∧ (∀ i c, (length arena ≤ i)%nat → arena' !! i = Some c →
         (taken b' = Some i ∧ target out ≠ offset lastInsn
          ∧ core c = takenCell out
                       (dexGetInstrFlags (opCode (dalvikInsn lastInsn)))
                       (Z.of_nat i))
         ∨ (fallThrough b' = Some i
            ∧ isUnconditionalBranch lastInsn = false
            ∧ core c = fallThroughCell out (needFallThroughBranch b')
                         (u32 (offset lastInsn + width lastInsn))
                         (Z.of_nat i))).

(** The chaining cell [c] at [q] was made for an edge of the bytecode
    block at [p]: for its taken edge, as the cell of lines 362 to 380, or
    for its fallthrough edge, as the cell of lines 383 to 398. *)
Definition cellFor `{DvmGlobals} (caller : Method)
    (arena : list BasicBlock) (p q : nat) (c : BasicBlock) : Prop :=
  ∃ bp lastInsn r out,
    arena !! p = Some bp ∧ blockType bp = DALVIK_BYTECODE
    ∧ lastMIRInsn bp = Some lastInsn
    ∧ findBlockBoundary caller lastInsn (offset lastInsn)
                        (mkBoundary (offset lastInsn) false None)
      = Ret (r, out)
    ∧ ((taken bp = Some q ∧ target out ≠ offset lastInsn
        ∧ core c = takenCell out
                     (dexGetInstrFlags (opCode (dalvikInsn lastInsn)))
                     (Z.of_nat q))
       ∨ (fallThrough bp = Some q
          ∧ isUnconditionalBranch lastInsn = false
          ∧ core c = fallThroughCell out (needFallThroughBranch bp)
                       (u32 (offset lastInsn + width lastInsn))
                       (Z.of_nat q))).

(** The edges during the edge pass over [k] bytecode blocks, the blocks
    before [cur] being done: an edge leaves a block that is done and leads
    forward; a block that is done has its flag; a chaining cell was made
    for a block that is done. *)
Definition edgesState `{DvmGlobals} (caller : Method) (k cur : nat)
    (arena : list BasicBlock) : Prop :=
  ∀ i b, arena !! i = Some b →
    (∀ q, taken b = Some q ∨ fallThrough b = Some q →
       (i < cur)%nat ∧ (i < k)%nat ∧ (i < q < length arena)%nat)
    ∧ ((i < cur)%nat → (i < k)%nat →
       ∀ lastInsn, lastMIRInsn b = Some lastInsn →
         needFallThroughBranch b
         = (Z.land (dexGetInstrFlags (opCode (dalvikInsn lastInsn)))
                   controlFlowFlags =? 0))
    ∧ ((k ≤ i)%nat →
       ∃ p, (p < cur)%nat ∧ (p < k)%nat ∧ cellFor caller arena p i b).

(** The blocks of [arena] are in [arena'] with the fields that no step
    after the scan changes. *)
Definition statics (arena arena' : list BasicBlock) : Prop :=
  ∀ i b, arena !! i = Some b →
    ∃ b', arena' !! i = Some b' ∧ staticEq b b'.

(** The number of instructions the scan takes from a run: the count is
    decremented as an [unsigned int] before it is compared with zero, so a
    count of zero stands for 2^32 instructions. *)
Definition runLength (run : JitTraceRun) : Z :=
  u32 (frag_numInsts run - 1) + 1.

(** The position in the code and the offset after a chain of
    instructions. *)
Fixpoint endOf (codePtr curOffset : Z) (l : list MIR) : Z * Z :=
  match l with
  | [] => (codePtr, curOffset)
  | insn :: l => endOf (codePtr + width insn) (u32 (curOffset + width insn)) l
  end.

(** The chain [l] is what [parseInsn] reads, one instruction after the
    other, from the position [codePtr], the first one being given the
    offset [curOffset]. *)
Fixpoint decodedFrom `{DvmGlobals} (code : list Z) (codePtr curOffset : Z)
    (l : list MIR) : Prop :=
  match l with
  | [] => True
  | insn :: l =>
      offset insn = curOffset
      ∧ parseInsn code codePtr false = Ret (width insn, dalvikInsn insn)
      ∧ decodedFrom code (codePtr + width insn) (u32 (curOffset + width insn))
                    l
  end.

(** The number of instructions in the blocks of an arena. *)
Definition mirCount (arena : list BasicBlock) : Z :=
  Z.of_nat (length (concat (map mirs arena))).

(** The block [b] holds instructions of [run]. *)
Definition blockOfRun `{DvmGlobals} (code : list Z) (run : JitTraceRun)
    (b : BasicBlock) : Prop :=
  startOffset b = frag_startOffset run
  ∧ containingMethod b = None
  ∧ decodedFrom code (frag_startOffset run) (frag_startOffset run) (mirs b).

(** The arena at the head of the scan loop: block [i] holds the
    instructions of run [i], all of them when [i] is before the current
    run, and the loop stands after the instructions of the current
    block. *)
Definition scanState `{DvmGlobals} (code : list Z) (runs : list JitTraceRun)
    (arena : list BasicBlock) (currRun : nat)
    (curOffset numInsts codePtr : Z) : Prop :=
  length arena = S currRun
  ∧ ∀ i b, arena !! i = Some b →
      ∃ run, runs !! i = Some run ∧ blockOfRun code run b
        ∧ (i ≠ currRun →
           Z.of_nat (length (mirs b)) = runLength run
           ∧ frag_runEnd run = false)
        ∧ (i = currRun →
           endOf (frag_startOffset run) (frag_startOffset run) (mirs b)
           = (codePtr, curOffset)
           ∧ Z.of_nat (length (mirs b)) + u32 (numInsts - 1) + 1
             = runLength run).

(** The arena when the scan loop is left with [cuNumInsts] instructions:
    every block but the last holds a whole run that is not marked as the
    end, and the last block holds a whole run marked as the end unless the
    budget stopped the scan. *)
Definition scanned `{DvmGlobals} (code : list Z) (runs : list JitTraceRun)
    (numMaxInsts : Z) (arena : list BasicBlock) (cuNumInsts : Z) : Prop :=
  mirCount arena = cuNumInsts
  ∧ ∀ i b, arena !! i = Some b →
      ∃ run, runs !! i = Some run ∧ blockOfRun code run b
        ∧ 1 ≤ Z.of_nat (length (mirs b)) ≤ runLength run
        ∧ (S i ≠ length arena →
           Z.of_nat (length (mirs b)) = runLength run
           ∧ frag_runEnd run = false)
        ∧ (S i = length arena →
           numMaxInsts ≤ cuNumInsts
           ∨ (Z.of_nat (length (mirs b)) = runLength run
              ∧ frag_runEnd run = true)).

(** One block of a finished trace graph of [k] bytecode blocks and [c]
    chaining cells: edges leave bytecode blocks only and lead forward, to a
    bytecode block or a chaining cell; a bytecode block has the flag that
    its last instruction gives it; a chaining cell was made for an edge of
    a bytecode block; the two trailer blocks are as they were appended. *)
Definition blockInTrace `{DvmGlobals} (caller : Method) (k c : nat)
    (arena : list BasicBlock) (i : nat) (b : BasicBlock) : Prop :=
  (∀ q, taken b = Some q ∨ fallThrough b = Some q →
     (i < k)%nat ∧ (i < q < k + c)%nat)
  ∧ ((i < k)%nat →
     blockType b = DALVIK_BYTECODE
     ∧ ∀ lastInsn, lastMIRInsn b = Some lastInsn →
         needFallThroughBranch b
         = (Z.land (dexGetInstrFlags (opCode (dalvikInsn lastInsn)))
                   controlFlowFlags =? 0))
  ∧ ((k ≤ i < k + c)%nat →
     isChainingCell (blockType b) = true
     ∧ ∃ p, (p < k)%nat ∧ cellFor caller arena p i b)
  ∧ ((k + c ≤ i)%nat →
     core b = mkBB (Z.of_nat i) 0 None
                   (if decide (i = k + c)%nat then PC_RECONSTRUCTION
                    else EXCEPTION_HANDLING)
                   false [] None None None).

(** The blocks of a finished trace graph: [k] bytecode blocks that mirror
    the runs, [c] chaining cells and the two trailer blocks. *)
Definition traceBlocks `{DvmGlobals} (desc : JitTraceDescription)
    (code : list Z) (numMaxInsts : Z) (arena : list BasicBlock)
    (cUnit : CompilationUnit) : Prop :=
  ∃ k c,
    length arena = (k + c + 2)%nat ∧ (1 ≤ k)%nat
    ∧ scanned code (trace desc) numMaxInsts (take k arena) (numInsts cUnit)
    ∧ ∀ i b, arena !! i = Some b → blockInTrace (method desc) k c arena i b.

(** ** The method graph, block by block *)

(** [dvmCompileMethod] up to the hand-over to the lowering stages (lines
    487 to 643): the arena with the blocks of the method and the unit that
    lists them. *)
Definition buildMethod `{DvmGlobals} (fuel : nat) (method : Method)
  : outcome (list BasicBlock * CompilationUnit) :=
  dexCode ← must (dvmGetMethodCode method);
  '(arena, firstBlock, bbStartAddr, blockID) ← scanWholeMethod fuel method;
  let numBlocks := expectedBlocks bbStartAddr dexCode in
  let blockList := [firstBlock] in
  '(arena, blockList, cuNumBlocks, blockID) ←
    splitBlocks (Z.to_nat numBlocks) 0 bbStartAddr arena blockList 1 blockID;
  if negb (numBlocks =? cuNumBlocks) then
    Aborted (ExpectBlocks numBlocks cuNumBlocks)
  else
    arena ← connectTaken (Z.to_nat numBlocks) 0 method numBlocks blockList
                         arena;
    Ret (arena,
         mkCU 0 cuNumBlocks blockList (Some method) None false false false
              0 0).

(** The offset [z] is one that the first loop of [dvmCompileMethod] marks
    for the instruction [insn]: the offset after a block-ending
    instruction, or its target when the classifier moved it. *)
Definition marks `{DvmGlobals} (method : Method) (insn : MIR) (z : Z)
  : Prop :=
  ∃ out,
    findBlockBoundary method insn (offset insn)
                      (mkBoundary (offset insn) false None)
    = Ret (true, out)
    ∧ (z = s32 (u32 (offset insn + width insn))
       ∨ (target out ≠ offset insn ∧ z = s32 (target out))).

(** The fallthrough edge the split gives the block at [j] of a list of
    [count] blocks: the next block, unless the block is the last one or
    ends in an unconditional branch. *)
Definition splitFallThrough (count j : nat) (l : list MIR) : option nat :=
  match last l with
  | Some lastInsn =>
      if negb (isUnconditionalBranch lastInsn)
         && bool_decide (S j < count)%nat
      then Some (S j) else None
  | None => None
  end.

(** The block at [j] of a method graph of [count] blocks, before the
    taken edges are connected. *)
Definition splitBlock (count j : nat) (l : list MIR) : BasicBlock :=
  mkBB (Z.of_nat j) 0 None DALVIK_BYTECODE false l
       (splitFallThrough count j l) None None.

(** The first instruction of the block is at a marked offset. *)
Definition startsMarked (bbStartAddr : BitVector) (l : list MIR) : Prop :=
  ∃ first, head l = Some first
           ∧ dvmIsBitSet bbStartAddr (s32 (offset first)) = true.

(** No instruction of the piece after its first one is at a marked
    offset. *)
Definition unmarkedTail (bbStartAddr : BitVector) (l : list MIR) : Prop :=
  Forall (λ insn, dvmIsBitSet bbStartAddr (s32 (offset insn)) = false)
         (tail l).

(** The arena of the method builder is the list of blocks made of the
    pieces [segs] of the instruction stream: every piece but the first
    starts at a marked offset. *)
Definition splitInto (bbStartAddr : BitVector) (segs : list (list MIR))
    (arena : list BasicBlock) : Prop :=
  arena = imap (splitBlock (length segs)) segs
  ∧ ∀ j l, segs !! j = Some l → j ≠ 0%nat →
      l ≠ [] ∧ startsMarked bbStartAddr l.

(** The block at [t] begins with the instruction at the offset
    [target]. *)
Definition startsAt (arena : list BasicBlock) (t : nat) (target : Z)
  : Prop :=
  ∃ bt first, arena !! t = Some bt ∧ head (mirs bt) = Some first
              ∧ offset first = target.

(** The taken edge [tk] of the block [b] at [j] is as the last loop of
    [dvmCompileMethod] leaves it: absent when the classifier leaves the
    target at the offset of the last instruction, else the block that
    begins at the target, found after [j] for a forward branch. *)
Definition takenConnected `{DvmGlobals} (method : Method)
    (arena : list BasicBlock) (j : nat) (b : BasicBlock)
    (tk : option nat) : Prop :=
  ∃ lastInsn r out,
    lastMIRInsn b = Some lastInsn
    ∧ findBlockBoundary method lastInsn (offset lastInsn)
                        (mkBoundary (offset lastInsn) false None)
      = Ret (r, out)
    ∧ if target out =? offset lastInsn then tk = taken b
      else ∃ t, tk = Some t ∧ startsAt arena t (target out)
                ∧ (offset lastInsn < target out → (j < t)%nat).

(** What [buildMethod] hands to the lowering stages: the blocks are the
    pieces [segs] of the stream of the instructions of the method, in the
    order of the stream; every piece has an instruction and every piece
    but the first starts at a marked offset; the fallthrough edges are
    those of the split and the taken edges those of the last loop. *)
Definition methodGraph `{DvmGlobals} (method : Method) (dexCode : DexCode)
    (bbStartAddr : BitVector) (segs : list (list MIR))
    (arena : list BasicBlock) (cUnit : CompilationUnit) : Prop :=
  let stream := concat segs in
  let count := length segs in
  decodedFrom (dex_insns dexCode) 0 0 stream
  ∧ (∃ cp, endOf 0 0 stream = (cp, u32 cp) ∧ insnsSize dexCode ≤ cp)
  ∧ Forall (λ insn, 0 ≤ offset insn < insnsSize dexCode ∧ 0 < width insn)
           stream
  ∧ StronglySorted (λ m1 m2, offset m1 < offset m2) stream
  ∧ (∀ z, dvmIsBitSet bbStartAddr z = true
          ↔ z = 0
            ∨ (0 ≤ z < Z.shiftr (insnsSize dexCode + 1 + 31) 5 * 32
               ∧ ∃ insn, insn ∈ stream ∧ marks method insn z))
  ∧ Forall (λ l, l ≠ []) segs
  ∧ (∀ j l, segs !! j = Some l → j ≠ 0%nat → startsMarked bbStartAddr l)
  ∧ Forall (unmarkedTail bbStartAddr) segs
  ∧ expectedBlocks bbStartAddr dexCode = Z.of_nat count
  ∧ (1 ≤ count)%nat ∧ length arena = count
  ∧ (∀ j b, arena !! j = Some b →
       ∃ l tk, segs !! j = Some l
               ∧ b = set_taken tk (splitBlock count j l)
               ∧ takenConnected method arena j (splitBlock count j l) tk)
  ∧ cUnit = mkCU 0 (Z.of_nat count) (seq 0 count) (Some method) None
                 false false false 0 0.

(** * Properties *)

(** ** The instruction decoder *)

Section DecoderFacts.
Context `{DvmGlobals}.

(** Whatever the chain of signature tests computes, a unit whose low byte
    is the no-op opcode and which is not zero is given width zero. *)
Lemma parseInsn_pseudo_width code codePtr printMe instr w d :
  idx code codePtr = Some instr →
  Z.land instr 0xff = OP_NOP → instr ≠ 0 →
  parseInsn code codePtr printMe = Ret (w, d) → w = 0.
Proof.
  intros Hi Hop Hnz. unfold parseInsn. rewrite Hi. simpl.
  rewrite Hop. rewrite Z.eqb_refl.
  destruct (instr =? 0) eqn:E; [apply Z.eqb_eq in E; contradiction|].
  simpl. destruct (inlineDataWidth code codePtr instr); simpl; congruence.
Qed.

End DecoderFacts.

(** C1 (the code departs from the claim). On a packed-switch payload of two
    entries, a sparse-switch payload of two entries and an array-data
    payload of three one-byte elements, the signature tests of [parseInsn]
    compute the widths 8, 10 and 6 of the claim, and [parseInsn] returns
    width 0 for each of them. *)
Theorem parseInsn_inline_data_width :
  let packed := [0x0100; 2; 0; 0; 7; 0; 9; 0] in
  let sparse := [0x0200; 2; 1; 0; 5; 0; 7; 0; 9; 0] in
  let array := [0x0300; 1; 3; 0; 0x0201; 0x0003] in
  (@inlineDataWidth packed 0 0x0100 = Ret (Some 8)
   ∧ @parseInsn Reference.plain packed 0 false
     = Ret (0, Reference.decode packed 0))
  ∧ (@inlineDataWidth sparse 0 0x0200 = Ret (Some 10)
     ∧ @parseInsn Reference.plain sparse 0 false
       = Ret (0, Reference.decode sparse 0))
  ∧ (@inlineDataWidth array 0 0x0300 = Ret (Some 6)
     ∧ @parseInsn Reference.plain array 0 false
       = Ret (0, Reference.decode array 0)).
Proof. vm_compute. repeat split; reflexivity. Qed.

(** ** The boundary classifier *)

Section ClassifierFacts.

Lemma bound_cells calleeMethod out :
  Ret (true,
       set_callee (Some calleeMethod)
         (set_isInvoke true
            (if negb (dvmIsNativeMethod calleeMethod)
             then set_target (u32 (insns calleeMethod)) out else out)))
  = staticBinding calleeMethod out.
Proof.
  unfold staticBinding. destruct (dvmIsNativeMethod calleeMethod); reflexivity.
Qed.

End ClassifierFacts.

Lemma opIn_true op l : opIn op l = true ↔ op ∈ l.
Proof.
  unfold opIn. rewrite existsb_exists. split.
  - intros (x & Hin & Heq). apply Z.eqb_eq in Heq. subst.
    by apply list_elem_of_In.
  - intros Hin. exists op. split; [by apply list_elem_of_In | apply Z.eqb_refl].
Qed.

(** Evaluate the case tests on a known opcode. *)
Ltac eval_opIn :=
  repeat match goal with
  | |- context [opIn ?a ?l] =>
      let v := eval vm_compute in (opIn a l) in change (opIn a l) with v
  end.

(** Split a membership in an explicit list into its cases. *)
Ltac elem_cases H :=
  repeat (apply elem_of_cons in H as [-> | H]);
  try (by apply elem_of_nil in H).


(** C7. An invoke-static, invoke-direct, invoke-super or invoke-super-quick
    instruction (plain or range) whose callee resolves, through
    [pResMethods] or the superclass [vtable], to [calleeMethod] is reported
    as a block end with the invoke mark set and the callee recorded; the
    target cell receives the address of the callee's code when the callee
    is not native and keeps the value it was passed when it is. *)
Theorem findBlockBoundary_static_dispatch (caller : Method) (insn : MIR)
    (curOffset : Z) (out : Boundary) (calleeMethod : Method) :
  let op := opCode (dalvikInsn insn) in
  let ref := vB (dalvikInsn insn) in
  (opIn op [OP_INVOKE_STATIC; OP_INVOKE_STATIC_RANGE;
            OP_INVOKE_DIRECT; OP_INVOKE_DIRECT_RANGE] = true
   ∧ idx (pResMethods (clazz caller)) ref = Some (Some calleeMethod))
  ∨ (opIn op [OP_INVOKE_SUPER; OP_INVOKE_SUPER_RANGE] = true
     ∧ ∃ resolved sup,
         idx (pResMethods (clazz caller)) ref = Some (Some resolved)
         ∧ super (clazz caller) = Some sup
         ∧ idx (vtable sup) (methodIndex resolved) = Some calleeMethod)
  ∨ (opIn op [OP_INVOKE_SUPER_QUICK; OP_INVOKE_SUPER_QUICK_RANGE] = true
     ∧ ∃ sup, super (clazz caller) = Some sup
              ∧ idx (vtable sup) ref = Some calleeMethod) →
  findBlockBoundary caller insn curOffset out
  = Ret (true,
         mkBoundary (if dvmIsNativeMethod calleeMethod then target out
                     else u32 (insns calleeMethod))
                    true (Some calleeMethod)).
Proof.
  destruct insn as [[op a ref c] w o]. cbn [opCode vB dalvikInsn].
  intros Hcase. unfold findBlockBoundary. cbn [opCode vB dalvikInsn].
  change (Ret (true, mkBoundary _ true (Some calleeMethod)))
    with (staticBinding calleeMethod out).
  destruct Hcase as [[Hop Hres] | [[Hop (r & sup & Hres & Hsup & Hvt)]
                                  | [Hop (sup & Hsup & Hvt)]]];
    apply opIn_true in Hop; elem_cases Hop; eval_opIn; cbn match.
  all: try (rewrite Hres; simpl).
  all: try (rewrite Hsup; simpl).
  all: try (rewrite Hvt; simpl).
  all: apply bound_cells.
Qed.

(** An invoke-super through the second slot of the superclass table, once
    to a bytecode method and once to a native one: the first writes the
    callee's address over the target cell, the second leaves the 7 there. *)
Lemma findBlockBoundary_static_dispatch_witness :
  let bytecode :=
    mkMethod Reference.object "run" 0 1 0x40002000
             (Some (mkDexCode [0x0e])) in
  let native :=
    mkMethod Reference.object "run" ACC_NATIVE 1 0 None in
  let callerOver (m : Method) :=
    mkMethod (mkClassObject "LFoo;" [None; Some m] []
                (Some (mkClassObject "LBase;" [] [m; m] None)))
             "bar" 0 0 0x40001000 (Some (mkDexCode [0x106f; 1; 0])) in
  let insn := mkMIR (mkDecoded OP_INVOKE_SUPER 1 1 0) 3 0 in
  findBlockBoundary (callerOver bytecode) insn 0 (mkBoundary 7 false None)
  = Ret (true, mkBoundary 0x40002000 true (Some bytecode))
  ∧ findBlockBoundary (callerOver native) insn 0 (mkBoundary 7 false None)
    = Ret (true, mkBoundary 7 true (Some native)).
Proof.
  intros bytecode native callerOver insn. split.
  - apply (findBlockBoundary_static_dispatch
             (callerOver bytecode) insn 0 (mkBoundary 7 false None) bytecode).
    right. left. split; [reflexivity|]. eexists _, _.
    repeat split; reflexivity.
  - apply (findBlockBoundary_static_dispatch
             (callerOver native) insn 0 (mkBoundary 7 false None) native).
    right. left. split; [reflexivity|]. eexists _, _.
    repeat split; reflexivity.
Defined.

(** C8. [isUnconditionalBranch] answers true exactly on the four returns
    and the three gotos; in particular it answers false on throw, on every
    conditional branch and on every invoke. *)
Theorem isUnconditionalBranch_exact (insn : MIR) :
  let op := opCode (dalvikInsn insn) in
  (isUnconditionalBranch insn = true
   ↔ op ∈ [OP_RETURN_VOID; OP_RETURN; OP_RETURN_WIDE; OP_RETURN_OBJECT;
           OP_GOTO; OP_GOTO_16; OP_GOTO_32])
  ∧ (op ∈ [OP_THROW;
           OP_IF_EQ; OP_IF_NE; OP_IF_LT; OP_IF_GE; OP_IF_GT; OP_IF_LE;
           OP_IF_EQZ; OP_IF_NEZ; OP_IF_LTZ; OP_IF_GEZ; OP_IF_GTZ; OP_IF_LEZ;
           OP_INVOKE_VIRTUAL; OP_INVOKE_SUPER; OP_INVOKE_DIRECT;
           OP_INVOKE_STATIC; OP_INVOKE_INTERFACE;
           OP_INVOKE_VIRTUAL_RANGE; OP_INVOKE_SUPER_RANGE;
           OP_INVOKE_DIRECT_RANGE; OP_INVOKE_STATIC_RANGE;
           OP_INVOKE_INTERFACE_RANGE;
           OP_INVOKE_VIRTUAL_QUICK; OP_INVOKE_VIRTUAL_QUICK_RANGE;
           OP_INVOKE_SUPER_QUICK; OP_INVOKE_SUPER_QUICK_RANGE] →
     isUnconditionalBranch insn = false).
Proof.
  destruct insn as [[op a b c] w o]. cbn [opCode dalvikInsn].
  unfold isUnconditionalBranch. cbn [opCode dalvikInsn]. split.
  - apply opIn_true.
  - intros Hin. elem_cases Hin; reflexivity.
Qed.

(** ** Reasoning about runs *)

Lemma bind_Ret {A B} (m : outcome A) (f : A → outcome B) (b : B) :
  m ≫= f = Ret b → ∃ a, m = Ret a ∧ f a = Ret b.
Proof. destruct m; simpl; try discriminate. eauto. Qed.

Lemma must_Ret {A} (o : option A) (a : A) : must o = Ret a → o = Some a.
Proof. destruct o; simpl; congruence. Qed.

Lemma safe_bind {A B} (m : outcome A) (f : A → outcome B) (P : B → Prop) :
  safe m (λ a, safe (f a) P) → safe (m ≫= f) P.
Proof. destruct m; simpl; auto. Qed.

Lemma safe_mono {A} (m : outcome A) (P Q : A → Prop) :
  safe m P → (∀ a, P a → Q a) → safe m Q.
Proof. destruct m; simpl; auto. Qed.

Lemma safe_Ret {A} (m : outcome A) (P : A → Prop) (a : A) :
  safe m P → m = Ret a → P a.
Proof. intros Hs ->. exact Hs. Qed.

Lemma safe_must {A} (o : option A) (P : A → Prop) :
  (∀ a, o = Some a → P a) → safe (must o) P.
Proof. destruct o; simpl; auto. Qed.

Lemma safe_int_incr (x : Z) (P : Z → Prop) :
  (x < INT_MAX → P (x + 1)) → safe (int_incr x) P.
Proof.
  unfold int_incr. destruct (x <? INT_MAX) eqn:E; simpl; [|done].
  apply Z.ltb_lt in E. auto.
Qed.

Lemma safe_store p f arena (P : list BasicBlock → Prop) :
  (∀ b, arena !! p = Some b → P (<[p := f b]> arena)) →
  safe (store p f arena) P.
Proof. unfold store. destruct (arena !! p); simpl; auto. Qed.

(** One step of symbolic execution of a run. *)
Ltac step :=
  lazymatch goal with
  | |- safe (Ret _) _ => cbn [safe]
  | |- safe (mret _) _ => cbn [safe]
  | |- safe (must _) _ => apply safe_must
  | |- safe (int_incr _) _ => apply safe_int_incr
  | |- safe (store _ _ _) _ => apply safe_store
  | |- safe (mbind _ _) _ => apply safe_bind
  | |- safe (let '(_, _) := ?x in _) _ => destruct x
  end.

(** ** The arena *)

Section ArenaFacts.
Local Open Scope nat_scope.
Implicit Types (arena : list BasicBlock) (b : BasicBlock).

Lemma staticEq_refl b : staticEq b b.
Proof. by repeat split. Qed.

Lemma staticEq_trans b1 b2 b3 :
  staticEq b1 b2 → staticEq b2 b3 → staticEq b1 b3.
Proof. unfold staticEq. intuition congruence. Qed.

Lemma edgesEq_refl b : edgesEq b b.
Proof. by split. Qed.

Lemma edgesEq_trans b1 b2 b3 : edgesEq b1 b2 → edgesEq b2 b3 → edgesEq b1 b3.
Proof. unfold edgesEq. intuition congruence. Qed.

Lemma frame_refl cur arena : frame cur arena arena.
Proof.
  split; [done|]. intros i b Hi. exists b.
  auto using staticEq_refl, edgesEq_refl.
Qed.

Lemma frame_trans cur a1 a2 a3 :
  frame cur a1 a2 → frame cur a2 a3 → frame cur a1 a3.
Proof.
  intros [L1 F1] [L2 F2]. split; [lia|]. intros i b Hi.
  destruct (F1 i b Hi) as (b2 & H2 & S2 & E2).
  destruct (F2 i b2 H2) as (b3 & H3 & S3 & E3).
  exists b3. split; [done|]. split; [by eapply staticEq_trans|].
  intros Hc. eapply edgesEq_trans; eauto.
Qed.

Lemma frame_weaken cur a1 a2 : frame None a1 a2 → frame cur a1 a2.
Proof.
  intros [L F]. split; [done|]. intros i b Hi.
  destruct (F i b Hi) as (b' & ? & ? & E). exists b'.
  split; [done|]. split; [done|]. intros _. by apply E.
Qed.

(** A store that keeps the static fields of the block it writes. *)
Lemma frame_insert cur arena p b x :
  arena !! p = Some b → staticEq b x → (cur ≠ Some p → edgesEq b x) →
  frame cur arena (<[p := x]> arena).
Proof.
  intros Hp Hs He. split; [by rewrite length_insert|]. intros i bi Hi.
  destruct (decide (p = i)) as [->|Hne].
  - exists x. rewrite list_lookup_insert_eq by (by eapply lookup_lt_Some).
    replace bi with b by congruence. auto.
  - exists bi. rewrite list_lookup_insert_ne by done.
    auto using staticEq_refl, edgesEq_refl.
Qed.

(** A store into a block that the earlier arena does not have. *)
Lemma frame_insert_fresh cur a0 arena p x :
  frame cur a0 arena → length a0 ≤ p → frame cur a0 (<[p := x]> arena).
Proof.
  intros [L F] Hp. split; [by rewrite length_insert|]. intros i b Hi.
  destruct (F i b Hi) as (b' & H' & ?). exists b'. split; [|done].
  rewrite list_lookup_insert_ne; [done|].
  apply lookup_lt_Some in Hi. lia.
Qed.

Lemma frame_app cur arena l : frame cur arena (arena ++ l).
Proof.
  split; [rewrite length_app; lia|]. intros i b Hi. exists b.
  split; [by apply lookup_app_l_Some|].
  auto using staticEq_refl, edgesEq_refl.
Qed.

Lemma chained_insert arena lastBB n p b x :
  chained arena lastBB n → arena !! p = Some b →
  id x = id b → next x = next b →
  chained (<[p := x]> arena) lastBB n.
Proof.
  intros (Hl & Hn & Hc) Hp Hid Hnx. unfold chained.
  rewrite length_insert. repeat split; try done.
  all: destruct (decide (p = i)) as [->|Hne];
    [ rewrite list_lookup_insert_eq in H by (by eapply lookup_lt_Some);
      injection H as <-; destruct (Hc i b Hp); congruence
    | rewrite list_lookup_insert_ne in H by done; by apply (Hc i b0) ].
Qed.

End ArenaFacts.


(** ** Appending a block to the chain *)

Section AppendFacts.

Lemma appendBB_spec kind arena lastBB n
    (P : list BasicBlock * nat * Z → Prop) :
  chained arena lastBB n →
  (∀ arena',
     chained arena' (length arena) (n + 1) →
     frame None arena arena' →
     length arena' = S (length arena) →
     arena' !! length arena
       = Some (mkBB n 0 None kind false [] None None None) →
     P (arena', length arena, n + 1)) →
  safe (appendBB kind arena lastBB n) P.
Proof.
  intros (Hl & Hn & Hc) HP. unfold appendBB, dvmCompilerNewBB.
  set (nb := mkBB 0 0 None kind false [] None None None).
  step. step. intros bl Hbl. step. step. intros bn Hbn.
  step. step. intros _. step.
  assert (lastBB < length arena)%nat as Hlt by lia.
  rewrite lookup_app_l in Hbl by done.
  rewrite list_lookup_insert_ne in Hbn by lia.
  rewrite list_lookup_middle in Hbn by done. injection Hbn as <-.
  apply HP.
  - unfold chained. rewrite !length_insert, length_app. simpl.
    split; [lia|]. split; [lia|]. intros i b Hi.
    destruct (decide (i = length arena)) as [->|Hne].
    + rewrite list_lookup_insert_eq in Hi
        by (rewrite length_insert, length_app; simpl; lia).
      injection Hi as <-. simpl. split; [lia|].
      destruct (decide _); [lia|done].
    + rewrite list_lookup_insert_ne in Hi by done.
      destruct (decide (i = lastBB)) as [->|Hne'].
      * rewrite list_lookup_insert_eq in Hi
          by (rewrite length_app; simpl; lia).
        injection Hi as <-. simpl. destruct (Hc _ _ Hbl) as [-> _].
        split; [done|]. destruct (decide _); [f_equal; lia|lia].
      * rewrite list_lookup_insert_ne in Hi by done.
        assert (i < length arena)%nat.
        { apply lookup_lt_Some in Hi. rewrite length_app in Hi.
          simpl in Hi. lia. }
        rewrite lookup_app_l in Hi by done.
        destruct (Hc _ _ Hi) as [-> ->]. split; [done|].
        repeat destruct (decide _); try done; lia.
  - apply frame_insert_fresh; [|lia].
    eapply frame_trans; [apply frame_app|].
    eapply frame_insert.
    + by apply lookup_app_l_Some.
    + by repeat split.
    + intros _. by split.
  - rewrite !length_insert, length_app. simpl. lia.
  - rewrite list_lookup_insert_eq
      by (rewrite length_insert, length_app; simpl; lia).
    by rewrite <- Hn.
Qed.

End AppendFacts.

(** ** The scan of the trace *)

Section ScanFacts.
Context `{DvmGlobals}.

Lemma parseInsn_safe code codePtr printMe
    (P : Z * DecodedInstruction → Prop) :
  (∀ r, P r) → safe (parseInsn code codePtr printMe) P.
Proof.
  intros HP. unfold parseInsn. step. step. intros instr _. step.
  eapply safe_mono with (P := λ _, True); [|intros w _; step; apply HP].
  destruct (_ && _); [|by step].
  step. unfold inlineDataWidth.
  repeat case_match; repeat (step; try intros ? _); exact I.
Qed.

Lemma allBytecode_insert arena filling p b x :
  allBytecode arena filling → arena !! p = Some b →
  blockType x = blockType b → edgesEq b x → (mirs b ≠ [] → mirs x ≠ []) →
  allBytecode (<[p := x]> arena) filling.
Proof.
  intros Ha Hp Ht [He1 He2] Hm i bi Hi. destruct (decide (p = i)) as [->|Hne].
  - rewrite list_lookup_insert_eq in Hi by (by eapply lookup_lt_Some).
    injection Hi as <-. destruct (Ha _ _ Hp) as (Hty & [Ht1 Ht2] & Hmi).
    split; [congruence|]. split; [split; congruence|auto].
  - rewrite list_lookup_insert_ne in Hi by done. eauto.
Qed.

Lemma allBytecode_filled arena filling p b x :
  allBytecode arena filling → arena !! p = Some b →
  blockType x = blockType b → edgesEq b x → mirs x ≠ [] →
  filling = Some p →
  allBytecode (<[p := x]> arena) None.
Proof.
  intros Ha Hp Ht [He1 He2] Hm -> i bi Hi.
  destruct (decide (p = i)) as [->|Hne].
  - rewrite list_lookup_insert_eq in Hi by (by eapply lookup_lt_Some).
    injection Hi as <-. destruct (Ha _ _ Hp) as (Hty & [Ht1 Ht2] & _).
    split; [congruence|]. split; [split; congruence|auto].
  - rewrite list_lookup_insert_ne in Hi by done.
    destruct (Ha _ _ Hi) as (Hty & He & Hmi). split; [done|]. split; [done|].
    intros _. apply Hmi. congruence.
Qed.

Lemma allBytecode_append arena arena' nb :
  allBytecode arena None → frame None arena arena' →
  length arena' = S (length arena) →
  arena' !! length arena = Some nb → blockType nb = DALVIK_BYTECODE →
  taken nb = None ∧ fallThrough nb = None →
  allBytecode arena' (Some (length arena)).
Proof.
  intros Ha [_ Hf] Hlen Hnb Hty He i b Hi.
  destruct (decide (i = length arena)) as [->|Hne].
  - replace b with nb by congruence. split; [done|]. split; [done|congruence].
  - assert (i < length arena)%nat as Hlt.
    { apply lookup_lt_Some in Hi. lia. }
    destruct (lookup_lt_is_Some_2 _ _ Hlt) as [b0 Hb0].
    destruct (Hf _ _ Hb0) as (b' & Hb' & (_ & _ & _ & Hty' & Hm') & He').
    replace b with b' by congruence.
    destruct (Ha _ _ Hb0) as (? & [Ht1 Ht2] & Hm).
    destruct He' as [Ht1' Ht2']; [done|].
    split; [congruence|]. split; [split; congruence|].
    intros _. rewrite Hm'. by apply Hm.
Qed.

(** The scan ends within the fuel the builder gives it, keeps the chain,
    leaves an instruction in every block and counts at least one
    instruction and no more than the budget allows. *)
Lemma scanTrace_spec fuel code runs numMaxInsts printMe :
  ∀ arena curBB lastBB n cuNumInsts currRun curOffset numInsts codePtr
    (P : list BasicBlock * nat * Z * Z → Prop),
  (1 ≤ fuel)%nat → numMaxInsts - cuNumInsts ≤ Z.of_nat fuel →
  chained arena lastBB n → curBB = lastBB →
  allBytecode arena (Some curBB) →
  (∀ arena' lastBB' n' cuNumInsts',
     chained arena' lastBB' n' → allBytecode arena' None →
     cuNumInsts < cuNumInsts' →
     cuNumInsts' ≤ Z.max (cuNumInsts + 1) numMaxInsts →
     P (arena', lastBB', n', cuNumInsts')) →
  safe (scanTrace fuel code runs numMaxInsts printMe arena curBB lastBB n
                  cuNumInsts currRun curOffset numInsts codePtr) P.
Proof.
  induction fuel as [|fuel IH]; intros arena curBB lastBB n cuNumInsts
    currRun curOffset numInsts codePtr P Hfuel Hbudget Hch -> Hall HP;
    [lia|].
  cbn [scanTrace]. step. apply parseInsn_safe. intros [w d]. cbv beta iota.
  step. unfold dvmCompilerAppendMIR. step. intros b Hb.
  assert (chained (<[lastBB := set_mirs (mirs b ++ [mkMIR d w curOffset]) b]>
                     arena) lastBB n) as Hch1.
  { eapply chained_insert; eauto. }
  assert (allBytecode
            (<[lastBB := set_mirs (mirs b ++ [mkMIR d w curOffset]) b]> arena)
            None) as Hall1.
  { eapply allBytecode_filled; eauto; [done|]. simpl. by destruct (mirs b). }
  remember (<[lastBB := set_mirs (mirs b ++ [mkMIR d w curOffset]) b]>
              arena) as arena1 eqn:Harena1.
  clear Harena1 Hb Hall Hch.
  step. step. intros Hmax.
  destruct (cuNumInsts + 1 >=? numMaxInsts) eqn:Hge.
  { step. apply HP; auto; lia. }
  rewrite Z.geb_leb in Hge. apply Z.leb_gt in Hge.
  destruct (u32 (numInsts - 1) =? 0) eqn:Hrun.
  - step. step. intros run _. destruct (frag_runEnd run).
    { step. apply HP; auto; lia. }
    step. apply appendBB_spec; [done|]. intros arena2 Hch2 Hfr2 Hlen2 Hnb2.
    cbv beta iota. step. step. intros run' _. step. step. intros b2 Hb2.
    rewrite Hnb2 in Hb2. injection Hb2 as <-.
    apply IH; try done; try lia.
    + eapply chained_insert; eauto.
    + eapply allBytecode_insert; [|exact Hnb2|done..].
      eapply allBytecode_append; eauto.
    + intros. apply HP; auto; lia.
  - apply IH; try done; try lia.
    + intros i bi Hi. destruct (Hall1 i bi Hi) as (? & ? & ?). auto.
    + intros. apply HP; auto; lia.
Qed.

End ScanFacts.


(** ** The search for the two offsets *)

Section SearchFacts.
Local Open Scope nat_scope.
Implicit Types (arena : list BasicBlock) (b : BasicBlock).

Lemma edge_trans arena arena' cur off e1 e2 e3 :
  (∀ i, i ≠ cur → arena' !! i = arena !! i) →
  edge arena cur off e1 e2 → edge arena' cur off e2 e3 →
  edge arena cur off e1 e3.
Proof.
  intros Hsame [->|H1] [->|(q & bq & -> & Hq & Hbq & Hoff)].
  - by left.
  - right. exists q, bq. rewrite Hsame in Hbq by lia. auto.
  - by right.
  - right. exists q, bq. rewrite Hsame in Hbq by lia. auto.
Qed.

Lemma relinked_refl cur toff foff arena :
  is_Some (arena !! cur) → relinked cur toff foff arena arena.
Proof.
  intros [b Hb]. split; [done|]. split; [done|]. exists b, b.
  repeat split; auto; by left.
Qed.

Lemma relinked_trans cur toff foff a1 a2 a3 :
  relinked cur toff foff a1 a2 → relinked cur toff foff a2 a3 →
  relinked cur toff foff a1 a3.
Proof.
  intros (L1 & S1 & b1 & b2 & H1 & H2 & St1 & N1 & T1 & F1)
         (L2 & S2 & b2' & b3 & H2' & H3 & St2 & N2 & T2 & F2).
  replace b2' with b2 in * by congruence.
  split; [congruence|]. split.
  { intros i Hi. rewrite S2, S1; auto. }
  exists b1, b3. split; [done|]. split; [done|].
  split; [by eapply staticEq_trans|]. split; [congruence|].
  split; eapply edge_trans; eauto.
Qed.

Lemma relinked_taken cur toff foff arena b s sb :
  arena !! cur = Some b → arena !! s = Some sb → startOffset sb = toff →
  cur < s → relinked cur toff foff arena (<[cur := set_taken (Some s) b]> arena).
Proof.
  intros Hb Hs Hoff Hlt. split; [by rewrite length_insert|]. split.
  { intros i Hi. by rewrite list_lookup_insert_ne. }
  exists b, (set_taken (Some s) b). split; [done|].
  rewrite list_lookup_insert_eq by (by eapply lookup_lt_Some).
  split; [done|]. split; [by repeat split|]. split; [done|]. split.
  - right. exists s, sb. auto.
  - by left.
Qed.

Lemma relinked_fallThrough cur toff foff arena b s sb :
  arena !! cur = Some b → arena !! s = Some sb → startOffset sb = foff →
  cur < s →
  relinked cur toff foff arena (<[cur := set_fallThrough (Some s) b]> arena).
Proof.
  intros Hb Hs Hoff Hlt. split; [by rewrite length_insert|]. split.
  { intros i Hi. by rewrite list_lookup_insert_ne. }
  exists b, (set_fallThrough (Some s) b). split; [done|].
  rewrite list_lookup_insert_eq by (by eapply lookup_lt_Some).
  split; [done|]. split; [by repeat split|]. split; [done|]. split.
  - by left.
  - right. exists s, sb. auto.
Qed.

Lemma relinked_chained cur toff foff arena arena' lastBB n :
  relinked cur toff foff arena arena' → chained arena lastBB n →
  chained arena' lastBB n.
Proof.
  intros (L & S & b & b' & Hb & Hb' & St & N & _) (Hl & Hn & Hc).
  unfold chained. rewrite L. split; [done|]. split; [done|].
  intros i bi Hi. destruct (decide (i = cur)) as [->|Hne].
  - replace bi with b' by congruence. destruct (Hc _ _ Hb) as [Hid Hnx].
    destruct St as (Hid' & _). split; congruence.
  - rewrite S in Hi by done. by apply Hc.
Qed.

Lemma relinked_frame cur toff foff arena arena' :
  relinked cur toff foff arena arena' → frame (Some cur) arena arena'.
Proof.
  intros (L & S & b & b' & Hb & Hb' & St & _). split; [lia|].
  intros i bi Hi. destruct (decide (i = cur)) as [->|Hne].
  - exists b'. replace bi with b by congruence. split; [done|].
    split; [done|]. congruence.
  - exists bi. rewrite S by done.
    split; [done|]. auto using staticEq_refl, edgesEq_refl.
Qed.

Lemma searchLoop_spec cur toff foff lastBB n fuel :
  ∀ arena s (P : list BasicBlock → Prop),
  chained arena lastBB n → cur < s → length arena - s ≤ fuel →
  is_Some (arena !! cur) →
  (∀ arena', relinked cur toff foff arena arena' → P arena') →
  safe (searchLoop fuel cur
          (if decide (s < length arena) then Some s else None)
          toff foff arena) P.
Proof.
  induction fuel as [|fuel IH]; intros arena s P Hch Hcur Hfuel Hb HP.
  - destruct (decide _); [lia|]. simpl. apply HP. by apply relinked_refl.
  - destruct (decide (s < length arena)) as [Hs|Hs];
      [|simpl; apply HP; by apply relinked_refl].
    cbn [searchLoop]. step. step. intros sb Hsb. step.
    eapply safe_mono with
      (P := λ a1, relinked cur toff foff arena a1).
    { destruct (toff =? startOffset sb)%Z eqn:E.
      - step. intros b Hbc. apply Z.eqb_eq in E.
        eapply relinked_taken; eauto.
      - step. by apply relinked_refl. }
    intros a1 R1. step. step. intros sb1 Hsb1. step.
    assert (a1 !! s = Some sb) as Hsb'.
    { destruct R1 as (_ & S1 & _). rewrite S1; [done|lia]. }
    replace sb1 with sb in * by congruence. clear Hsb1.
    assert (is_Some (a1 !! cur)) as Hb1.
    { destruct R1 as (_ & _ & ? & b' & _ & ? & _). by exists b'. }
    eapply safe_mono with
      (P := λ a2, relinked cur toff foff a1 a2).
    { destruct (foff =? startOffset sb)%Z eqn:E.
      - step. intros b Hbc. apply Z.eqb_eq in E.
        eapply relinked_fallThrough; eauto.
      - step. by apply relinked_refl. }
    intros a2 R2. step. step. intros sb2 Hsb2.
    assert (a2 !! s = Some sb) as Hsb''.
    { destruct R2 as (_ & S2 & _). rewrite S2; [done|lia]. }
    replace sb2 with sb in * by congruence. clear Hsb2.
    assert (relinked cur toff foff arena a2) as R by
      (by eapply relinked_trans).
    assert (chained a2 lastBB n) as Hch2 by
      (by eapply relinked_chained).
    assert (length a2 = length arena) as Hlen by (by destruct R).
    destruct Hch2 as (Hl2 & Hn2 & Hc2).
    destruct (Hc2 _ _ Hsb'') as [_ ->].
    apply IH; try done; try lia.
    + destruct R2 as (_ & _ & ? & b' & _ & ? & _). by exists b'.
    + intros a3 R3. apply HP. by eapply relinked_trans.
Qed.

End SearchFacts.


(** ** Linking one block *)

Section LinkFacts.
Context `{DvmGlobals}.
Local Open Scope nat_scope.
Implicit Types (arena : list BasicBlock) (b : BasicBlock).

Lemma findBlockBoundary_safe caller insn curOffset out :
  safe (findBlockBoundary caller insn curOffset out) (λ _, True).
Proof.
  unfold findBlockBoundary.
  repeat case_match; repeat (step; try intros ? _); exact I.
Qed.

Lemma appendBB_appended kind arena lastBB n
    (P : list BasicBlock * nat * Z → Prop) :
  chained arena lastBB n →
  (∀ arena',
     appended arena arena' (n + 1)%Z
              (mkBB n 0 None kind false [] None None None) →
     P (arena', length arena, (n + 1)%Z)) →
  safe (appendBB kind arena lastBB n) P.
Proof.
  intros Hch HP. apply appendBB_spec; [done|]. intros. apply HP.
  unfold appended. by split_and!.
Qed.

Lemma appended_store arena arena' n nb x :
  appended arena arena' n nb → id x = id nb → next x = next nb →
  appended arena (<[length arena := x]> arena') n x.
Proof.
  intros (Hch & Hfr & Hlen & Hnb) Hid Hnx. split.
  { eapply chained_insert; eauto. }
  split. { by apply frame_insert_fresh. }
  split. { by rewrite length_insert. }
  rewrite list_lookup_insert_eq; [done|lia].
Qed.

Lemma fallsTo_frame cur arena arena' p off q :
  fallsTo arena p off q → frame cur arena arena' → fallsTo arena' p off q.
Proof.
  intros (Hlt & bq & Hq & Hin & Hoff) [_ Hf]. split; [done|].
  destruct (Hf _ _ Hq) as (bq' & Hq' & (_ & Hso & _ & Hty & _) & _).
  exists bq'. split; [done|]. unfold inTrace in *. rewrite Hty, Hso. auto.
Qed.

Lemma takes_frame cur arena arena' p out q :
  takes arena p out q → frame cur arena arena' → takes arena' p out q.
Proof.
  intros (Hlt & bq & Hq & Hin & Hcase) [_ Hf]. split; [done|].
  destruct (Hf _ _ Hq) as (bq' & Hq' & (_ & Hso & Hcm & Hty & _) & _).
  exists bq'. split; [done|]. unfold inTrace in *.
  rewrite Hty, Hso, Hcm. auto.
Qed.

Lemma linked_frame caller cur arena arena' p :
  linked caller arena p → frame (Some cur) arena arena' → cur ≠ p →
  p < length arena → linked caller arena' p.
Proof.
  intros Hl Hf Hne Hp b' lastInsn Hb' Hlast.
  destruct (lookup_lt_is_Some_2 _ _ Hp) as [b Hb].
  destruct Hf as [Hlen Hf'].
  destruct (Hf' _ _ Hb) as (b'' & Hb'' & (_ & _ & _ & _ & Hm) & He).
  replace b'' with b' in * by congruence.
  destruct He as [Ht Hft]; [congruence|].
  destruct (Hl b lastInsn Hb) as [Hfall Htake]; [congruence|].
  split.
  - intros Hu. destruct (Hfall Hu) as (q & Hq & Hfq). exists q.
    split; [congruence|]. eapply fallsTo_frame; eauto. by split.
  - intros r out Hfb Hto. destruct (Htake r out Hfb Hto) as (q & Hq & Htq).
    exists q. split; [congruence|]. eapply takes_frame; eauto. by split.
Qed.

Lemma midLink_start arena cur b l n :
  chained arena l n → arena !! cur = Some b → midLink arena cur b arena l n b.
Proof.
  intros Hch Hb. split_and!; try done.
  - apply frame_refl.
  - intros i bi Hi Hbi. apply lookup_lt_Some in Hbi. lia.
Qed.

Lemma midLink_store_cur arena cur b a l n bc x :
  midLink arena cur b a l n bc → staticEq bc x → next x = next bc →
  midLink arena cur b (<[cur := x]> a) l n x.
Proof.
  intros (Hb & Hch & Hfr & Hfc & Hbc) Hst Hnx.
  assert (cur < length arena) as Hcur by (by eapply lookup_lt_Some).
  split_and!; try done.
  - eapply chained_insert; eauto. by destruct Hst.
  - eapply frame_trans; [done|]. eapply frame_insert; eauto. done.
  - intros i bi Hi Hbi. rewrite list_lookup_insert_ne in Hbi by lia. eauto.
  - rewrite list_lookup_insert_eq; [done|]. by eapply lookup_lt_Some.
Qed.

Lemma midLink_relinked arena cur b a l n bc toff foff a' :
  midLink arena cur b a l n bc → relinked cur toff foff a a' →
  ∃ bc', midLink arena cur b a' l n bc'
         ∧ edge a cur toff (taken bc) (taken bc')
         ∧ edge a cur foff (fallThrough bc) (fallThrough bc').
Proof.
  intros (Hb & Hch & Hfr & Hfc & Hbc) R.
  pose proof (relinked_chained _ _ _ _ _ _ _ R Hch) as Hch'.
  pose proof (relinked_frame _ _ _ _ _ R) as Hfr'.
  destruct R as (L & S & b1 & b2 & H1 & H2 & St & N & T & F).
  replace b1 with bc in * by congruence. exists b2.
  assert (cur < length arena) as Hcur by (by eapply lookup_lt_Some).
  split; [|done]. unfold midLink. split_and!; try done.
  - by eapply frame_trans.
  - intros i bi Hi Hbi. rewrite S in Hbi by lia. eauto.
Qed.

Lemma midLink_append arena cur b a l n bc a' n' nb :
  midLink arena cur b a l n bc → appended a a' n' nb →
  isChainingCell (blockType nb) = true → mirs nb = [] →
  frame None a a'
  ∧ ∃ bc', midLink arena cur b a' (length a) n' bc'
           ∧ taken bc' = taken bc ∧ fallThrough bc' = fallThrough bc.
Proof.
  intros (Hb & Hch & Hfr & Hfc & Hbc) (Hch' & Hfr' & Hlen & Hnb) Hty Hm.
  split; [done|].
  destruct Hfr' as [Hle Hf]. destruct (Hf _ _ Hbc) as (bc' & Hbc' & _ & He).
  destruct He as [Ht Hft]; [done|]. exists bc'.
  split; [|done]. unfold midLink. split_and!; try done.
  - eapply frame_trans; [done|]. apply frame_weaken. by split.
  - intros i bi Hi Hbi. destruct (decide (i = length a)) as [->|Hne].
    + replace bi with nb by congruence. done.
    + assert (i < length a) as Hlt.
      { apply lookup_lt_Some in Hbi. lia. }
      destruct (lookup_lt_is_Some_2 _ _ Hlt) as [b0 Hb0].
      destruct (Hf _ _ Hb0) as (b0' & Hb0' & (_ & _ & _ & Hty0 & Hm0) & _).
      replace bi with b0' by congruence. rewrite Hty0, Hm0. eauto.
Qed.

Lemma midLink_store_new arena cur b a l n bc p nb x :
  midLink arena cur b a l n bc → a !! p = Some nb → length arena ≤ p →
  id x = id nb → next x = next nb → blockType x = blockType nb →
  mirs x = mirs nb →
  midLink arena cur b (<[p := x]> a) l n bc.
Proof.
  intros (Hb & Hch & Hfr & Hfc & Hbc) Hp Hge Hid Hnx Hty Hm.
  assert (cur < length arena) as Hcur by (by eapply lookup_lt_Some).
  split_and!; try done.
  - eapply chained_insert; eauto.
  - by apply frame_insert_fresh.
  - intros i bi Hi Hbi. destruct (decide (p = i)) as [->|Hne].
    + rewrite list_lookup_insert_eq in Hbi by (by eapply lookup_lt_Some).
      injection Hbi as <-. rewrite Hty, Hm. eauto.
    + rewrite list_lookup_insert_ne in Hbi by done. eauto.
  - rewrite list_lookup_insert_ne by lia. done.
Qed.

Lemma freshCells_trans cur a1 a2 a3 :
  freshCells a1 a2 → frame cur a2 a3 → freshCells a2 a3 → freshCells a1 a3.
Proof.
  intros F1 [Hle Hf] F2 i b Hi Hb.
  destruct (decide (i < length a2)) as [Hlt|Hge]; [|apply (F2 i); [lia|done]].
  destruct (lookup_lt_is_Some_2 _ _ Hlt) as [b2 Hb2].
  destruct (Hf _ _ Hb2) as (b' & Hb' & (_ & _ & _ & Hty & Hm) & _).
  replace b with b' by congruence. rewrite Hty, Hm. eauto.
Qed.

Lemma midLink_result arena cur b a l n bc
    (Q : list BasicBlock → nat → Z → BasicBlock → Prop) :
  midLink arena cur b a l n bc →
  (chained a l n → frame (Some cur) arena a → freshCells arena a →
   a !! cur = Some bc → Q a l n bc) →
  Q a l n bc.
Proof. intros (? & ? & ? & ? & ?) HQ. by apply HQ. Qed.

(** The taken edge after "target block not included in the trace". *)
Lemma chainTaken_spec cur out curOffset flags a l n bc
    (P : list BasicBlock * nat * Z → Prop) :
  chained a l n → a !! cur = Some bc →
  (taken bc = None ∨ ∃ q, taken bc = Some q ∧ takes a cur out q) →
  (∀ a' l' n' bc',
     chained a' l' n' → frame (Some cur) a a' → freshCells a a' →
     a' !! cur = Some bc' → fallThrough bc' = fallThrough bc →
     (target out ≠ curOffset →
      ∃ q, taken bc' = Some q ∧ takes a' cur out q) →
     P (a', l', n')) →
  safe (chainTaken cur out curOffset flags a l n) P.
Proof.
  intros Hch Hbc Hold HP. unfold chainTaken. rewrite Hbc.
  cbn [must mbind outcome_bind].
  pose proof (midLink_start _ _ _ _ _ Hch Hbc) as M0.
  assert (cur < length a) as Hcur by (by eapply lookup_lt_Some).
  destruct (negb (target out =? curOffset)%Z && bool_decide (taken bc = None))
    eqn:Hcond.
  - apply andb_true_iff in Hcond as [Hne Hnone].
    step. eapply appendBB_appended; [done|]. intros a3 Happ.
    match type of Happ with appended _ _ _ ?x => set (nb := x) in * end.
    destruct (midLink_append _ _ _ _ _ _ _ _ _ _ M0 Happ) as
      (Hfr3 & b3 & M3 & Ht3 & Hf3);
      [subst nb; simpl; by repeat case_match|done|].
    destruct Happ as (_ & _ & Hlen3 & Hnb3).
    cbv beta iota. step.
    eapply safe_mono with
      (P := λ a4, ∃ nb', midLink a cur bc a4 (length a) (n + 1)%Z b3
                         ∧ a4 !! length a = Some nb' ∧ inTrace nb'
                         ∧ (startOffset nb' = target out
                            ∨ (blockType nb' = CHAINING_CELL_INVOKE
                               ∧ startOffset nb' = 0%Z
                               ∧ containingMethod nb' = callee out))).
    { destruct (isInvoke out) eqn:Hinv.
      - step. step. intros nb1 Hnb1. replace nb1 with nb in * by congruence.
        step. intros nb2 Hnb2.
        rewrite list_lookup_insert_eq in Hnb2 by lia. injection Hnb2 as <-.
        assert (midLink a cur bc (<[length a := set_startOffset 0 nb]> a3)
                        (length a) (n + 1)%Z b3) as M3'.
        { eapply midLink_store_new; eauto. }
        eexists. split.
        { eapply midLink_store_new with (nb := set_startOffset 0 nb);
            [exact M3'| |lia|done..].
          rewrite list_lookup_insert_eq; [done|lia]. }
        split. { rewrite list_lookup_insert_eq; [done|].
                 rewrite length_insert. lia. }
        split. { right. reflexivity. }
        right. by split_and!.
      - step. intros nb1 Hnb1. replace nb1 with nb in * by congruence.
        eexists. split. { eapply midLink_store_new; try done. }
        split. { rewrite list_lookup_insert_eq; [done|lia]. }
        split. { right. subst nb. simpl. by case_match. }
        by left. }
    intros a4 (nb' & M4 & Hnb' & Hin & Hcase). step. step.
    intros b4 Hb4. step.
    assert (b4 = b3) as -> by (destruct M4 as (_ & _ & _ & _ & ?); congruence).
    eapply (midLink_result _ _ _ _ _ _ _
              (λ a' l' n' bc', P (a', l', n'))
              (midLink_store_cur _ _ _ _ _ _ _ (set_taken (Some (length a)) b3)
                 M4 ltac:(by split_and!) eq_refl)).
    intros Hch5 Hfr5 Hfc5 Hb5.
    eapply HP; [exact Hch5|exact Hfr5|exact Hfc5|exact Hb5
               |simpl; congruence|].
    intros _. exists (length a). split; [done|]. split; [done|].
    exists nb'. split; [|done].
    rewrite list_lookup_insert_ne by lia. done.
  - step.
    eapply HP; [exact Hch|apply frame_refl| |exact Hbc|done|].
    + intros i bi Hi Hbi. apply lookup_lt_Some in Hbi. lia.
    + intros Hne. destruct Hold as [Hnone|Hsome]; [|done].
      apply andb_false_iff in Hcond as [Hc|Hc].
      * apply negb_false_iff, Z.eqb_eq in Hc. done.
      * rewrite bool_decide_eq_false in Hc. done.
Qed.

(** The fallthrough edge after "fallthrough block not included in the
    trace". *)
Lemma chainFallThrough_spec cur lastInsn out foff a l n bc
    (P : list BasicBlock * nat * Z → Prop) :
  chained a l n → a !! cur = Some bc →
  (fallThrough bc = None
   ∨ ∃ q, fallThrough bc = Some q ∧ fallsTo a cur foff q) →
  (∀ a' l' n' bc',
     chained a' l' n' → frame (Some cur) a a' → freshCells a a' →
     a' !! cur = Some bc' → taken bc' = taken bc →
     (isUnconditionalBranch lastInsn = false →
      ∃ q, fallThrough bc' = Some q ∧ fallsTo a' cur foff q) →
     P (a', l', n')) →
  safe (chainFallThrough cur lastInsn out foff a l n) P.
Proof.
  intros Hch Hbc Hold HP. unfold chainFallThrough. rewrite Hbc.
  cbn [must mbind outcome_bind].
  pose proof (midLink_start _ _ _ _ _ Hch Hbc) as M0.
  assert (cur < length a) as Hcur by (by eapply lookup_lt_Some).
  destruct (negb (isUnconditionalBranch lastInsn)
            && bool_decide (fallThrough bc = None)) eqn:Hcond.
  - step. eapply appendBB_appended; [done|]. intros a3 Happ.
    match type of Happ with appended _ _ _ ?x => set (nb := x) in * end.
    destruct (midLink_append _ _ _ _ _ _ _ _ _ _ M0 Happ) as
      (Hfr3 & b3 & M3 & Ht3 & Hf3);
      [subst nb; simpl; by repeat case_match|done|].
    destruct Happ as (_ & _ & Hlen3 & Hnb3).
    cbv beta iota. step. step. intros nb1 Hnb1.
    replace nb1 with nb in * by congruence.
    assert (midLink a cur bc (<[length a := set_startOffset foff nb]> a3)
                    (length a) (n + 1)%Z b3) as M4.
    { eapply midLink_store_new; eauto. }
    step. step. intros b4 Hb4. step.
    assert (b4 = b3) as -> by (destruct M4 as (_ & _ & _ & _ & ?); congruence).
    eapply (midLink_result _ _ _ _ _ _ _
              (λ a' l' n' bc', P (a', l', n'))
              (midLink_store_cur _ _ _ _ _ _ _
                 (set_fallThrough (Some (length a)) b3)
                 M4 ltac:(by split_and!) eq_refl)).
    intros Hch5 Hfr5 Hfc5 Hb5.
    eapply HP; [exact Hch5|exact Hfr5|exact Hfc5|exact Hb5
               |simpl; congruence|].
    intros _. exists (length a). split; [done|]. split; [done|].
    exists (set_startOffset foff nb). split.
    { rewrite list_lookup_insert_ne by lia.
      rewrite list_lookup_insert_eq; [done|lia]. }
    split; [|done]. right. subst nb. simpl. by case_match.
  - step.
    eapply HP; [exact Hch|apply frame_refl| |exact Hbc|done|].
    + intros i bi Hi Hbi. apply lookup_lt_Some in Hbi. lia.
    + intros Hu. destruct Hold as [Hnone|Hsome]; [|done].
      apply andb_false_iff in Hcond as [Hc|Hc].
      * rewrite Hu in Hc. done.
      * rewrite bool_decide_eq_false in Hc. done.
Qed.

Lemma edge_takes arena cur out e :
  noTrailer arena → edge arena cur (target out) None e →
  e = None ∨ ∃ q, e = Some q ∧ takes arena cur out q.
Proof.
  intros Hnt [->|(q & bq & -> & Hlt & Hq & Hoff)]; [by left|right].
  exists q. split; [done|]. split; [done|]. exists bq. eauto.
Qed.

Lemma edge_fallsTo arena cur off e :
  noTrailer arena → edge arena cur off None e →
  e = None ∨ ∃ q, e = Some q ∧ fallsTo arena cur off q.
Proof.
  intros Hnt [->|(q & bq & -> & Hlt & Hq & Hoff)]; [by left|right].
  exists q. split; [done|]. split; [done|]. exists bq. eauto.
Qed.

(** The body of the edge pass on a block whose edges are still absent. *)
Lemma linkBlock_spec caller cur lastInsn arena lastBB n b
    (P : list BasicBlock * nat * Z → Prop) :
  chained arena lastBB n → noTrailer arena →
  arena !! cur = Some b → taken b = None → fallThrough b = None →
  (∀ arena' lastBB' n' b',
     chained arena' lastBB' n' → frame (Some cur) arena arena' →
     freshCells arena arena' → arena' !! cur = Some b' →
     blockLinked caller arena' cur b' lastInsn →
     P (arena', lastBB', n')) →
  safe (linkBlock caller cur lastInsn arena lastBB n) P.
Proof.
  intros Hch Hnt Hb Htk Hft HP. unfold linkBlock.
  pose proof (findBlockBoundary_safe caller lastInsn (offset lastInsn)
                (mkBoundary (offset lastInsn) false None)) as Hsafe.
  destruct (findBlockBoundary caller lastInsn (offset lastInsn)
              (mkBoundary (offset lastInsn) false None))
    as [[r out]| | |] eqn:Hfb; simpl in Hsafe; try done.
  cbn [mbind outcome_bind]. rewrite Hb. cbn [must mbind outcome_bind].
  assert (cur < length arena) as Hcur by (by eapply lookup_lt_Some).
  destruct (Hch) as (Hl & Hn & Hc). destruct (Hc _ _ Hb) as [_ ->].
  step. apply (searchLoop_spec cur _ _ lastBB n); try done; try lia.
  intros a1 R1.
  pose proof (relinked_chained _ _ _ _ _ _ _ R1 Hch) as Hch1.
  pose proof (relinked_frame _ _ _ _ _ R1) as Hfr1.
  destruct R1 as (L1 & S1 & b0 & b1 & Hb0 & Hb1 & St1 & N1 & T1 & F1).
  replace b0 with b in * by congruence. rewrite Htk in T1. rewrite Hft in F1.
  apply edge_takes in T1; [|done]. apply edge_fallsTo in F1; [|done].
  step. step. intros b1' Hb1'. replace b1' with b1 in * by congruence.
  set (flag := (Z.land _ _ =? 0)%Z).
  set (b2 := set_needFallThroughBranch flag b1).
  assert (frame (Some cur) arena (<[cur := b2]> a1)) as Hfr2.
  { eapply frame_trans; [done|].
    eapply frame_insert; [exact Hb1|by split_and!|done]. }
  assert (chained (<[cur := b2]> a1) lastBB n) as Hch2.
  { eapply chained_insert; eauto. }
  assert (<[cur := b2]> a1 !! cur = Some b2) as Hb2.
  { rewrite list_lookup_insert_eq; [done|lia]. }
  step. eapply chainTaken_spec; [done|done| |].
  { destruct T1 as [T1|(q & T1 & T1')]; [by left|right].
    exists q. split; [done|]. eapply takes_frame; eauto. }
  intros a5 l5 n5 b5 Hch5 Hfr5 Hfc5 Hb5 Hft5 Htk5.
  eapply chainFallThrough_spec; [done|done| |].
  { rewrite Hft5. destruct F1 as [F1|(q & F1 & F1')]; [by left|right].
    exists q. split; [done|]. eapply fallsTo_frame; [|exact Hfr5].
    eapply fallsTo_frame; eauto. }
  intros a8 l8 n8 b8 Hch8 Hfr8 Hfc8 Hb8 Htk8 Hft8.
  eapply HP; [exact Hch8| | |exact Hb8|].
  - eapply frame_trans; [exact Hfr2|]. by eapply frame_trans.
  - apply (freshCells_trans (Some cur) _ (<[cur := b2]> a1)).
    + intros i bi Hi Hbi. apply lookup_lt_Some in Hbi.
      rewrite length_insert in Hbi. lia.
    + by eapply frame_trans.
    + by eapply freshCells_trans.
  - split; [done|]. intros r' out' Hfb' Hne.
    replace out' with out in * by congruence.
    destruct (Htk5 Hne) as (q & Hq & Htq). exists q.
    split; [congruence|]. by eapply takes_frame.
Qed.

End LinkFacts.


(** ** The edge pass *)

Section PassFacts.
Context `{DvmGlobals}.
Local Open Scope nat_scope.
Implicit Types (arena : list BasicBlock) (b : BasicBlock).

Lemma passState_noTrailer caller k cur arena :
  passState caller k cur arena → noTrailer arena.
Proof.
  intros (_ & Hk & _) i b Hi. specialize (Hk i b Hi).
  destruct (decide _); [left|right]; by destruct Hk.
Qed.

Lemma passState_done caller k cur arena :
  passState caller k cur arena → k ≤ cur → passState caller k k arena.
Proof.
  intros (Hle & Hk & Hl) Hcur. split; [done|]. split.
  - intros i b Hi. specialize (Hk i b Hi). destruct (decide _); [|done].
    destruct Hk as (? & ? & _). split_and!; try done. lia.
  - intros p Hp _. apply Hl; lia.
Qed.

Lemma passState_step caller k cur arena arena' b' lastInsn :
  passState caller k cur arena → cur < k →
  frame (Some cur) arena arena' → freshCells arena arena' →
  arena' !! cur = Some b' → last (mirs b') = Some lastInsn →
  blockLinked caller arena' cur b' lastInsn →
  passState caller k (S cur) arena'.
Proof.
  intros (Hle & Hk & Hl) Hcur Hfr Hfc Hb' Hlast Hbl.
  pose proof Hfr as [Hlen Hf]. split; [lia|]. split.
  - intros i bi Hi. destruct (decide (i < length arena)) as [Hlt|Hge].
    + destruct (lookup_lt_is_Some_2 _ _ Hlt) as [b0 Hb0].
      destruct (Hf _ _ Hb0) as (b0' & Hb0' & (_ & _ & _ & Hty & Hm) & He).
      replace bi with b0' in * by congruence. specialize (Hk i b0 Hb0).
      rewrite Hty, Hm. destruct (decide (i < k)); [|done].
      destruct Hk as (? & ? & Hnone). split_and!; try done.
      intros Hi'. destruct He as [-> ->]; [intros [=]; lia|]. apply Hnone. lia.
    + destruct (decide (i < k)); [lia|]. apply (Hfc i); [lia|done].
  - intros p Hp Hpk. destruct (decide (p = cur)) as [->|Hne].
    + intros b l Hb Hl'. replace b with b' in * by congruence.
      replace l with lastInsn by congruence. done.
    + eapply linked_frame; eauto; [apply Hl|]; lia.
Qed.

(** The edge pass ends within its fuel, on the block after the last
    bytecode block, and leaves every bytecode block linked. *)
Lemma linkBlocks_spec caller k fuel :
  ∀ arena lastBB n cur (P : list BasicBlock * nat * Z → Prop),
  chained arena lastBB n → passState caller k cur arena →
  cur ≤ k → k - cur < fuel →
  (∀ arena' lastBB' n',
     chained arena' lastBB' n' → passState caller k k arena' →
     P (arena', lastBB', n')) →
  safe (linkBlocks fuel caller
          (if decide (cur < length arena) then Some cur else None)
          arena lastBB n) P.
Proof.
  induction fuel as [|fuel IH]; intros arena lastBB n cur P Hch Hps Hcur
    Hfuel HP; [lia|].
  destruct (decide (cur < length arena)) as [Hlt|Hge].
  2:{ simpl. apply HP; [done|].
      eapply passState_done; [done|]. destruct Hps as (? & _). lia. }
  cbn [linkBlocks]. step. step. intros bb Hbb.
  pose proof Hps as (Hle & Hk & Hl). pose proof (Hk _ _ Hbb) as Hkind.
  destruct (decide (cur < k)) as [Hck|Hck].
  2:{ destruct Hkind as [_ Hm]. unfold lastMIRInsn. rewrite Hm. simpl.
      apply HP; [done|]. eapply passState_done; [done|lia]. }
  destruct Hkind as (Hty & Hm & Hnone). destruct Hnone as [Htk Hft]; [done|].
  unfold lastMIRInsn. destruct (last (mirs bb)) as [lastInsn|] eqn:Hlast.
  2:{ apply last_None in Hlast. done. }
  step. eapply linkBlock_spec; eauto using passState_noTrailer.
  intros a' l' n' b' Hch' Hfr' Hfc' Hb' Hbl. step. step. intros b'' Hb''.
  replace b'' with b' in * by congruence.
  destruct (Hch') as (_ & _ & Hc'). destruct (Hc' _ _ Hb') as [_ ->].
  assert (last (mirs b') = Some lastInsn) as Hlast'.
  { destruct Hfr' as [_ Hf]. destruct (Hf _ _ Hbb) as (bx & Hbx & St & _).
    replace bx with b' in * by congruence.
    destruct St as (_ & _ & _ & _ & ->). done. }
  apply IH; try done; try lia.
  eapply passState_step; eauto.
Qed.

End PassFacts.


(** ** The whole trace builder *)

Section BuildFacts.
Context `{DvmGlobals}.
Local Open Scope nat_scope.
Implicit Types (arena : list BasicBlock) (b : BasicBlock).

(** On a chain in allocation order the fill loop lists the positions it
    walks and is left with the pointer after them. *)
Lemma fillBlockList_chain arena lastBB n :
  chained arena lastBB n →
  ∀ m start acc, start + m ≤ length arena →
    fillBlockList m arena
      (if decide (start < length arena) then Some start else None) acc
    = Ret (acc ++ seq start m,
           if decide (start + m < length arena) then Some (start + m)
           else None).
Proof.
  intros (_ & _ & Hc). induction m as [|m IH]; intros start acc Hle.
  - simpl. rewrite app_nil_r. by rewrite Nat.add_0_r.
  - destruct (decide (start < length arena)) as [Hlt|]; [|lia].
    destruct (lookup_lt_is_Some_2 _ _ Hlt) as [b Hb].
    cbn [fillBlockList must mbind outcome_bind]. rewrite Hb.
    cbn [must mbind outcome_bind]. destruct (Hc _ _ Hb) as [_ ->].
    rewrite IH by lia. rewrite <- app_assoc. simpl.
    by replace (S (start + m)) with (start + S m) by lia.
Qed.

Lemma chainIs_seq arena lastBB n :
  chained arena lastBB n →
  ∀ m start, start + m = length arena →
    chainIs arena (if decide (start < length arena) then Some start else None)
            (seq start m).
Proof.
  intros (_ & _ & Hc). induction m as [|m IH]; intros start Hle.
  - destruct (decide _); [lia|]. constructor.
  - destruct (decide (start < length arena)) as [Hlt|]; [|lia].
    destruct (lookup_lt_is_Some_2 _ _ Hlt) as [b Hb]. simpl.
    econstructor; [done|]. destruct (Hc _ _ Hb) as [_ ->]. apply IH. lia.
Qed.

Lemma layout_trailer caller k arena a3 a4 n3 n4 nb3 nb4 :
  passState caller k k arena →
  appended arena a3 n3 nb3 → blockType nb3 = PC_RECONSTRUCTION →
  mirs nb3 = [] →
  appended a3 a4 n4 nb4 → blockType nb4 = EXCEPTION_HANDLING →
  mirs nb4 = [] →
  layout k (length arena - k) a4
  ∧ ∀ p, p < k → linked caller a4 p.
Proof.
  intros (Hle & Hk & Hl) (_ & Hfr3 & Hlen3 & Hnb3) Hty3 Hm3
         (_ & Hfr4 & Hlen4 & Hnb4) Hty4 Hm4.
  split.
  - split; [lia|]. intros i b Hi.
    assert (i < length a4) by (by eapply lookup_lt_Some).
    destruct (decide (i < length arena)) as [Hlt|Hge].
    + destruct (lookup_lt_is_Some_2 _ _ Hlt) as [b0 Hb0].
      destruct Hfr3 as [_ Hf3]. destruct Hfr4 as [_ Hf4].
      destruct (Hf3 _ _ Hb0) as (b1 & Hb1 & (_ & _ & _ & Hty1 & Hm1) & _).
      destruct (Hf4 _ _ Hb1) as (b2 & Hb2 & (_ & _ & _ & Hty2 & Hm2) & _).
      replace b with b2 by congruence. rewrite Hty2, Hm2, Hty1, Hm1.
      specialize (Hk _ _ Hb0).
      destruct (decide (i < k)); [by destruct Hk as (? & ? & _)|].
      destruct (decide (i < k + (length arena - k))); [done|lia].
    + destruct (decide (i < k)); [lia|].
      destruct (decide (i < k + (length arena - k))); [lia|].
      destruct (decide (i = k + (length arena - k))) as [->|Hne].
      * replace (k + (length arena - k)) with (length arena) in * by lia.
        destruct Hfr4 as [_ Hf4].
        destruct (Hf4 _ _ Hnb3) as (b2 & Hb2 & (_ & _ & _ & Hty2 & Hm2) & _).
        replace b with b2 by congruence. rewrite Hty2, Hm2. done.
      * replace i with (length a3) in * by lia.
        replace b with nb4 by congruence. done.
  - intros p Hp.
    eapply (linked_frame _ (length a4)); [| |lia|].
    + eapply (linked_frame _ (length a4)); [by apply Hl| |lia|lia].
      by apply frame_weaken.
    + by apply frame_weaken.
    + lia.
Qed.

Lemma allBytecode_passState caller arena :
  allBytecode arena None → passState caller (length arena) 0 arena.
Proof.
  intros Ha. split; [done|]. split; [|intros; lia].
  intros i b Hi. destruct (decide _) as [|Hge].
  - destruct (Ha _ _ Hi) as (? & ? & Hm). split_and!; auto.
  - apply lookup_lt_Some in Hi. lia.
Qed.

Lemma screenTrace_numInsts m cUnit :
  numInsts (screenTrace m cUnit) = numInsts cUnit.
Proof. unfold screenTrace. by repeat case_match. Qed.

(** Every attempt that ends on defined behaviour ends in a trace graph:
    the builder neither runs out of the fuel of its loops nor fails its
    assertion. *)
Lemma buildTrace_spec desc numMaxInsts :
  safe (buildTrace desc numMaxInsts)
       (λ '(arena, cUnit), traceGraph desc numMaxInsts arena cUnit).
Proof.
  unfold buildTrace. step. step. intros dexCode _. step. step.
  intros currRun _. unfold dvmCompilerNewBB. cbn [app length].
  pose proof (screenTrace_numInsts (method desc)
                (set_printMe gDvmJit_printMe zeroCU)) as Hzero.
  simpl in Hzero.
  set (cUnit := screenTrace _ _) in *.
  step. step. intros b0 Hb0. injection Hb0 as <-.
  step. step. intros b0 Hb0. injection Hb0 as <-.
  cbn [list_insert insert]. step. step. intros _. step.
  match goal with
  | |- safe (scanTrace _ _ _ _ _ ?a _ _ _ _ _ _ _ _) _ => set (a0 := a)
  end.
  assert (chained a0 0 (0 + 1)%Z) as Hch0.
  { split; [done|]. split; [done|]. intros [|i] b Hi; [|done].
    injection Hi as <-. done. }
  assert (allBytecode a0 (Some 0)) as Hall0.
  { intros [|i] b Hi; [|done]. injection Hi as <-. done. }
  apply scanTrace_spec; try done; try lia.
  intros a1 l1 n1 ni Hch1 Hall1 Hni Hmax. cbv beta iota. step.
  assert (0 < length a1) as Hpos by (destruct Hch1 as (? & _); lia).
  replace (Some 0) with
    (if decide (0 < length a1) then Some 0 else None)
    by (destruct (decide _); [done|lia]).
  apply (linkBlocks_spec _ (length a1)); try done; try lia.
  { by apply allBytecode_passState. }
  intros a2 l2 n2 Hch2 Hps2. cbv beta iota. step.
  apply appendBB_appended; [done|]. intros a3 Happ3. cbv beta iota. step.
  apply appendBB_appended; [by destruct Happ3|]. intros a4 Happ4.
  cbv beta iota. step.
  pose proof Happ4 as (Hch4 & _ & Hlen4 & _).
  pose proof Happ3 as (_ & _ & Hlen3 & _).
  assert (Z.to_nat (n2 + 1 + 1) = length a4) as ->.
  { destruct Hch4 as (_ & <- & _). lia. }
  pose proof (fillBlockList_chain _ _ _ Hch4 (length a4) 0 [] ltac:(lia))
    as Hfill.
  destruct (decide (0 < length a1)); [|lia].
  destruct (decide (0 < length a4)); [|lia]. rewrite Hfill. cbn [safe].
  destruct (decide (0 + length a4 < length a4)); [lia|].
  rewrite bool_decide_eq_true_2 by done. cbn [safe app].
  destruct (layout_trailer _ _ _ _ _ _ _ _ _ Hps2 Happ3 eq_refl eq_refl
              Happ4 eq_refl eq_refl) as [Hlay Hlinked].
  exists (length a1), (length a2 - length a1), (length a3).
  split; [lia|]. split; [done|]. split; [done|]. split; [done|].
  split; [done|]. split; [simpl; lia|]. done.
Qed.

End BuildFacts.


(** ** The builder on small traces *)

(** A single return-void: the bytecode block and the two trailer blocks. *)
Example scenario_return_void :
  shapeOf (@buildTrace Reference.plain (Reference.oneRun [0x000e] 0 1) 100)
  = Ret [(DALVIK_BYTECODE, 0, None, None);
         (PC_RECONSTRUCTION, 0, None, None);
         (EXCEPTION_HANDLING, 0, None, None)].
Proof. reflexivity. Qed.

(** A goto out of the trace: one hot chaining cell as the taken edge and
    no fallthrough edge. *)
Example scenario_goto_outside :
  shapeOf (@buildTrace Reference.plain (Reference.oneRun [0x0528] 0 1) 100)
  = Ret [(DALVIK_BYTECODE, 0, Some 1%nat, None);
         (CHAINING_CELL_HOT, 5, None, None);
         (PC_RECONSTRUCTION, 0, None, None);
         (EXCEPTION_HANDLING, 0, None, None)].
Proof. reflexivity. Qed.

(** A compare-with-zero branch with both successors out of the trace: two
    normal chaining cells, one for each edge. *)
Example scenario_branch_outside :
  shapeOf (@buildTrace Reference.plain (Reference.oneRun [0x0038; 4] 0 1) 100)
  = Ret [(DALVIK_BYTECODE, 0, Some 1%nat, Some 2%nat);
         (CHAINING_CELL_NORMAL, 4, None, None);
         (CHAINING_CELL_NORMAL, 2, None, None);
         (PC_RECONSTRUCTION, 0, None, None);
         (EXCEPTION_HANDLING, 0, None, None)].
Proof. reflexivity. Qed.

(** Two runs, the second at the target of the branch that ends the first:
    the taken edge is the second bytecode block, found by the search, and
    only the fallthrough edge gets a chaining cell. *)
Example scenario_branch_into_next_run :
  shapeOf (@buildTrace Reference.plain
             (mkTraceDesc
                (Reference.methodOf [0x0038; 3; 0x0012; 0x0012; 0x000e])
                [mkRun 0 1 false; mkRun 3 2 true]) 100)
  = Ret [(DALVIK_BYTECODE, 0, Some 1%nat, Some 2%nat);
         (DALVIK_BYTECODE, 3, None, None);
         (CHAINING_CELL_NORMAL, 2, None, None);
         (PC_RECONSTRUCTION, 0, None, None);
         (EXCEPTION_HANDLING, 0, None, None)].
Proof. reflexivity. Qed.

(** A budget of two on a run of three instructions: the block is cut
    after an instruction that does not change the control flow and falls
    through to a hot chaining cell. *)
Example scenario_budget_cut :
  shapeOf (@buildTrace Reference.plain
             (Reference.oneRun [0x0012; 0x0012; 0x000e] 0 3) 2)
  = Ret [(DALVIK_BYTECODE, 0, None, Some 1%nat);
         (CHAINING_CELL_HOT, 2, None, None);
         (PC_RECONSTRUCTION, 0, None, None);
         (EXCEPTION_HANDLING, 0, None, None)].
Proof. reflexivity. Qed.

(** ** The claims about the trace graph *)

Section TraceGraphFacts.
Context `{DvmGlobals}.
Local Open Scope nat_scope.

Lemma buildTrace_traceGraph desc numMaxInsts arena cUnit :
  buildTrace desc numMaxInsts = Ret (arena, cUnit) →
  traceGraph desc numMaxInsts arena cUnit.
Proof.
  intros Hb. apply (safe_Ret _ _ _ (buildTrace_spec desc numMaxInsts) Hb).
Qed.

(** The builder has three ways to end: a graph, or undefined behaviour of
    the source (a read outside the code or the descriptor, an unresolved
    method).  It does not abort and its loops end. *)
Lemma buildTrace_total desc numMaxInsts :
  (∃ r, buildTrace desc numMaxInsts = Ret r)
  ∨ buildTrace desc numMaxInsts = Fault.
Proof.
  pose proof (buildTrace_spec desc numMaxInsts) as Hs.
  destruct (buildTrace desc numMaxInsts); simpl in Hs; try done; eauto.
Qed.

Lemma layout_bytecode k c arena p b :
  layout k c arena → arena !! p = Some b → blockType b = DALVIK_BYTECODE →
  p < k.
Proof.
  intros [_ Hl] Hp Hty. specialize (Hl _ _ Hp).
  repeat destruct (decide _); try done; destruct Hl as [Hl _];
    rewrite Hty in Hl; discriminate.
Qed.

Lemma layout_inTrace k c arena q bq :
  layout k c arena → arena !! q = Some bq → inTrace bq →
  q < k + c.
Proof.
  intros [_ Hl] Hq Hin. specialize (Hl _ _ Hq).
  repeat destruct (decide _); try lia; destruct Hl as [Hl _];
    destruct Hin as [Hin|Hin]; rewrite Hl in Hin; discriminate.
Qed.

Lemma layout_split k c arena :
  layout k c arena →
  ∃ bytecode cells pcr eh,
    arena = bytecode ++ cells ++ [pcr; eh]
    ∧ length bytecode = k ∧ length cells = c
    ∧ Forall (λ b, blockType b = DALVIK_BYTECODE ∧ mirs b ≠ []) bytecode
    ∧ Forall (λ b, isChainingCell (blockType b) = true ∧ mirs b = []) cells
    ∧ blockType pcr = PC_RECONSTRUCTION
    ∧ blockType eh = EXCEPTION_HANDLING.
Proof.
  intros [Hlen Hl].
  destruct (lookup_lt_is_Some_2 arena (k + c) ltac:(lia)) as [pcr Hpcr].
  destruct (lookup_lt_is_Some_2 arena (S (k + c)) ltac:(lia)) as [eh Heh].
  exists (take k arena), (take c (drop k arena)), pcr, eh.
  assert (drop (k + c) arena = [pcr; eh]) as Htail.
  { apply list_eq. intros i. rewrite lookup_drop.
    destruct i as [|[|i]]; simpl.
    - by rewrite Nat.add_0_r.
    - by replace (k + c + 1) with (S (k + c)) by lia.
    - apply lookup_ge_None_2. lia. }
  split.
  { rewrite <- Htail, <- drop_drop, take_drop. by rewrite take_drop. }
  split. { rewrite length_take. lia. }
  split. { rewrite length_take, length_drop. lia. }
  split.
  { apply Forall_lookup. intros i b Hi.
    apply lookup_take_Some in Hi as [Hi Hlt]. specialize (Hl _ _ Hi).
    by destruct (decide _). }
  split.
  { apply Forall_lookup. intros i b Hi.
    apply lookup_take_Some in Hi as [Hi Hlt]. rewrite lookup_drop in Hi.
    specialize (Hl _ _ Hi).
    destruct (decide _); [lia|]. destruct (decide _); [done|lia]. }
  split.
  - specialize (Hl _ _ Hpcr).
    repeat destruct (decide _); try lia; by destruct Hl.
  - specialize (Hl _ _ Heh).
    repeat destruct (decide _); try lia; by destruct Hl.
Qed.

End TraceGraphFacts.


(** The block list of a graph is the chain from the first block, in
    allocation order. *)
Lemma traceGraph_blockList `{DvmGlobals} desc numMaxInsts arena cUnit :
  traceGraph desc numMaxInsts arena cUnit →
  chainIs arena (Some 0%nat) (blockList cUnit)
  ∧ blockList cUnit = seq 0 (length arena).
Proof.
  intros (k & c & l & Hk & Hlay & Hch & Hbl & _).
  pose proof Hch as (Hl & Hn & Hc).
  assert (0 < length arena)%nat as Hpos by lia.
  split; [|done]. rewrite Hbl.
  pose proof (chainIs_seq _ _ _ Hch (length arena) 0 eq_refl) as Hci.
  by destruct (decide (0 < length arena)%nat).
Qed.

(** C10. In the graph of an attempt the block list is the chain from the
    first block up to the null pointer; its i-th entry is the i-th block
    allocated, and that block carries the identity [i]; the identities
    are 0, 1, ..., [numBlocks - 1], and [numBlocks] is the length of the
    chain. *)
Theorem trace_block_identities `{DvmGlobals} (desc : JitTraceDescription)
    (numMaxInsts : Z) (arena : list BasicBlock) (cUnit : CompilationUnit) :
  buildTrace desc numMaxInsts = Ret (arena, cUnit) →
  chainIs arena (Some 0%nat) (blockList cUnit)
  ∧ blockList cUnit = seq 0 (length arena)
  ∧ (∀ i p, blockList cUnit !! i = Some p →
       p = i ∧ ∃ b, arena !! p = Some b ∧ id b = Z.of_nat i)
  ∧ map id arena = map Z.of_nat (seq 0 (length arena))
  ∧ numBlocks cUnit = Z.of_nat (length (blockList cUnit)).
Proof.
  intros Hb. apply buildTrace_traceGraph in Hb.
  destruct (traceGraph_blockList _ _ _ _ Hb) as [Hci Hbl].
  destruct Hb as (k & c & l & Hk & Hlay & Hch & _).
  pose proof Hch as (Hl & Hn & Hc).
  split; [done|]. split; [done|]. split.
  { intros i p Hi. rewrite Hbl in Hi. apply lookup_seq in Hi as [-> Hlt].
    split; [done|]. destruct (lookup_lt_is_Some_2 _ _ Hlt) as [b Hb].
    exists b. split; [done|]. by destruct (Hc _ _ Hb). }
  split.
  { apply list_eq. intros i. rewrite !list_lookup_fmap.
    destruct (arena !! i) as [b|] eqn:Hb; simpl.
    - rewrite lookup_seq_lt by (by eapply lookup_lt_Some). simpl.
      by destruct (Hc _ _ Hb) as [-> _].
    - apply lookup_ge_None in Hb. by rewrite lookup_seq_ge. }
  rewrite Hbl, length_seq. done.
Qed.

(** On the trace of one conditional branch with both successors outside
    the trace: five blocks, listed and numbered 0 to 4. *)
Lemma trace_block_identities_witness :
  ∃ arena cUnit,
    @buildTrace Reference.plain (Reference.oneRun [0x0038; 4] 0 1) 100
    = Ret (arena, cUnit)
    ∧ blockList cUnit = [0; 1; 2; 3; 4]%nat
    ∧ map id arena = [0; 1; 2; 3; 4]
    ∧ numBlocks cUnit = 5.
Proof.
  destruct (@buildTrace Reference.plain (Reference.oneRun [0x0038; 4] 0 1)
              100) as [[arena cUnit]| | |] eqn:Hb;
    [|vm_compute in Hb; discriminate..].
  exists arena, cUnit. split; [reflexivity|].
  destruct (trace_block_identities _ _ _ _ Hb) as (_ & Hbl & _ & Hid & Hn).
  assert (length arena = 5%nat) as Hlen.
  { vm_compute in Hb. injection Hb as <- _. reflexivity. }
  rewrite Hlen in *. rewrite Hbl in Hn. auto.
Defined.

(** C6. The arena of an attempt is the bytecode blocks, then the chaining
    cells, then one PC-reconstruction block and one exception-handling
    block, which are its last two blocks; the block list lists the arena
    in this order and is the whole chain. *)
Theorem trace_trailer_blocks `{DvmGlobals} (desc : JitTraceDescription)
    (numMaxInsts : Z) (arena : list BasicBlock) (cUnit : CompilationUnit) :
  buildTrace desc numMaxInsts = Ret (arena, cUnit) →
  ∃ bytecode cells pcr eh,
    arena = bytecode ++ cells ++ [pcr; eh]
    ∧ Forall (λ b, blockType b = DALVIK_BYTECODE) bytecode
    ∧ Forall (λ b, isChainingCell (blockType b) = true) cells
    ∧ blockType pcr = PC_RECONSTRUCTION
    ∧ blockType eh = EXCEPTION_HANDLING
    ∧ blockList cUnit = seq 0 (length arena)
    ∧ chainIs arena (Some 0%nat) (blockList cUnit).
Proof.
  intros Hb. apply buildTrace_traceGraph in Hb.
  destruct (traceGraph_blockList _ _ _ _ Hb) as [Hci Hbl].
  destruct Hb as (k & c & l & Hk & Hlay & _).
  destruct (layout_split _ _ _ Hlay) as
    (bytecode & cells & pcr & eh & -> & _ & _ & Hbc & Hcells & Hp & He).
  exists bytecode, cells, pcr, eh. split_and!; try done.
  - eapply Forall_impl; [exact Hbc|]. by intros b [? _].
  - eapply Forall_impl; [exact Hcells|]. by intros b [? _].
Qed.

(** On the trace of a single return-void the arena is the bytecode block
    and the two trailer blocks. *)
Lemma trace_trailer_blocks_witness :
  ∃ arena cUnit,
    @buildTrace Reference.plain (Reference.oneRun [0x000e] 0 1) 100
    = Ret (arena, cUnit)
    ∧ map blockType arena
      = [DALVIK_BYTECODE; PC_RECONSTRUCTION; EXCEPTION_HANDLING]
    ∧ ∃ bytecode cells pcr eh,
        arena = bytecode ++ cells ++ [pcr; eh]
        ∧ Forall (λ b, blockType b = DALVIK_BYTECODE) bytecode
        ∧ Forall (λ b, isChainingCell (blockType b) = true) cells
        ∧ blockType pcr = PC_RECONSTRUCTION
        ∧ blockType eh = EXCEPTION_HANDLING
        ∧ blockList cUnit = seq 0 (length arena)
        ∧ chainIs arena (Some 0%nat) (blockList cUnit).
Proof.
  destruct (@buildTrace Reference.plain (Reference.oneRun [0x000e] 0 1)
              100) as [[arena cUnit]| | |] eqn:Hb;
    [|vm_compute in Hb; discriminate..].
  exists arena, cUnit. split; [reflexivity|]. split.
  { vm_compute in Hb. injection Hb as <- _. reflexivity. }
  exact (trace_trailer_blocks _ _ _ _ Hb).
Defined.


(** C4. In the graph of an attempt every bytecode block has a last
    instruction, and when that instruction is not an unconditional branch
    the block has a fallthrough edge: it points to a later bytecode block
    or chaining cell that starts at the offset after the instruction. *)
Theorem trace_fallThrough_resolved `{DvmGlobals} (desc : JitTraceDescription)
    (numMaxInsts : Z) (arena : list BasicBlock) (cUnit : CompilationUnit)
    (p : nat) (b : BasicBlock) :
  buildTrace desc numMaxInsts = Ret (arena, cUnit) →
  arena !! p = Some b → blockType b = DALVIK_BYTECODE →
  ∃ lastInsn,
    lastMIRInsn b = Some lastInsn
    ∧ (isUnconditionalBranch lastInsn = false →
       ∃ q bq,
         fallThrough b = Some q ∧ (p < q)%nat ∧ arena !! q = Some bq
         ∧ (blockType bq = DALVIK_BYTECODE
            ∨ isChainingCell (blockType bq) = true)
         ∧ startOffset bq = u32 (offset lastInsn + width lastInsn)).
Proof.
  intros Hb Hp Hty. apply buildTrace_traceGraph in Hb.
  destruct Hb as (k & c & l & Hk & Hlay & _ & _ & Hlinked & _).
  pose proof (layout_bytecode _ _ _ _ _ Hlay Hp Hty) as Hpk.
  destruct Hlay as [_ Hl]. specialize (Hl _ _ Hp).
  destruct (decide (p < k)%nat); [|lia]. destruct Hl as [_ Hm].
  unfold lastMIRInsn. destruct (last (mirs b)) as [lastInsn|] eqn:Hlast;
    [|by apply last_None in Hlast].
  exists lastInsn. split; [done|]. intros Hu.
  destruct (Hlinked p Hpk b lastInsn Hp Hlast) as [Hfall _].
  destruct (Hfall Hu) as (q & Hq & Hlt & bq & Hbq & Hin & Hoff).
  exists q, bq. by split_and!.
Qed.

(** On the trace of one conditional branch: the fallthrough edge of the
    bytecode block is the normal chaining cell at offset 2. *)
Lemma trace_fallThrough_resolved_witness :
  ∃ arena cUnit b,
    @buildTrace Reference.plain (Reference.oneRun [0x0038; 4] 0 1) 100
    = Ret (arena, cUnit)
    ∧ arena !! 0%nat = Some b ∧ blockType b = DALVIK_BYTECODE
    ∧ fallThrough b = Some 2%nat
    ∧ ∃ lastInsn,
        lastMIRInsn b = Some lastInsn
        ∧ (isUnconditionalBranch lastInsn = false →
           ∃ q bq,
             fallThrough b = Some q ∧ (0 < q)%nat ∧ arena !! q = Some bq
             ∧ (blockType bq = DALVIK_BYTECODE
                ∨ isChainingCell (blockType bq) = true)
             ∧ startOffset bq = u32 (offset lastInsn + width lastInsn)).
Proof.
  destruct (@buildTrace Reference.plain (Reference.oneRun [0x0038; 4] 0 1)
              100) as [[arena cUnit]| | |] eqn:Hb;
    [|vm_compute in Hb; discriminate..].
  destruct (arena !! 0%nat) as [b|] eqn:Hp;
    [|vm_compute in Hb; injection Hb as <- _; discriminate].
  exists arena, cUnit, b. split; [reflexivity|]. split; [exact Hp|].
  assert (blockType b = DALVIK_BYTECODE ∧ fallThrough b = Some 2%nat)
    as [Hty Hft].
  { vm_compute in Hb. injection Hb as <- _. injection Hp as <-. by split. }
  split; [exact Hty|]. split; [exact Hft|].
  exact (trace_fallThrough_resolved _ _ _ _ _ _ Hb Hp Hty).
Defined.

(** C2 as stated fails: the trace of one invoke-virtual is a bytecode
    block whose last instruction carries the invoke flag and whose taken
    edge is absent. *)
Lemma trace_taken_unresolved_for_virtual_invoke :
  ∃ arena cUnit b lastInsn,
    @buildTrace Reference.plain (Reference.oneRun [0x006e; 1; 0] 0 1) 100
    = Ret (arena, cUnit)
    ∧ arena !! 0%nat = Some b ∧ blockType b = DALVIK_BYTECODE
    ∧ lastMIRInsn b = Some lastInsn
    ∧ Z.land (@dexGetInstrFlags Reference.plain (opCode (dalvikInsn lastInsn)))
             kInstrInvoke ≠ 0
    ∧ taken b = None.
Proof.
  vm_compute. do 4 eexists. split; [reflexivity|]. repeat split. discriminate.
Qed.

(** C2, amended. In the graph of an attempt, when the boundary classifier
    leaves for the last instruction of a bytecode block a target other
    than the instruction's own offset, the block has a taken edge: it
    points to a later bytecode block or chaining cell that starts at the
    target, or to the invoke chaining cell that records the callee. *)
Theorem trace_taken_resolved `{DvmGlobals} (desc : JitTraceDescription)
    (numMaxInsts : Z) (arena : list BasicBlock) (cUnit : CompilationUnit)
    (p : nat) (b : BasicBlock) (lastInsn : MIR) (boundary : bool)
    (out : Boundary) :
  buildTrace desc numMaxInsts = Ret (arena, cUnit) →
  arena !! p = Some b → blockType b = DALVIK_BYTECODE →
  lastMIRInsn b = Some lastInsn →
  findBlockBoundary (method desc) lastInsn (offset lastInsn)
                    (mkBoundary (offset lastInsn) false None)
  = Ret (boundary, out) →
  target out ≠ offset lastInsn →
  ∃ q bq,
    taken b = Some q ∧ (p < q)%nat ∧ arena !! q = Some bq
    ∧ (blockType bq = DALVIK_BYTECODE
       ∨ isChainingCell (blockType bq) = true)
    ∧ (startOffset bq = target out
       ∨ (blockType bq = CHAINING_CELL_INVOKE ∧ startOffset bq = 0
          ∧ containingMethod bq = callee out)).
Proof.
  intros Hb Hp Hty Hlast Hfb Hne. apply buildTrace_traceGraph in Hb.
  destruct Hb as (k & c & l & Hk & Hlay & _ & _ & Hlinked & _).
  pose proof (layout_bytecode _ _ _ _ _ Hlay Hp Hty) as Hpk.
  destruct (Hlinked p Hpk b lastInsn Hp Hlast) as [_ Htake].
  destruct (Htake _ _ Hfb Hne) as (q & Hq & Hlt & bq & Hbq & Hin & Hcase).
  exists q, bq. by split_and!.
Qed.

(** On the trace of one goto to offset 5: the taken edge of the bytecode
    block is the hot chaining cell at offset 5. *)
Lemma trace_taken_resolved_witness :
  ∃ arena cUnit b lastInsn q bq,
    @buildTrace Reference.plain (Reference.oneRun [0x0528] 0 1) 100
    = Ret (arena, cUnit)
    ∧ arena !! 0%nat = Some b ∧ lastMIRInsn b = Some lastInsn
    ∧ taken b = Some q ∧ (0 < q)%nat ∧ arena !! q = Some bq
    ∧ (blockType bq = DALVIK_BYTECODE
       ∨ isChainingCell (blockType bq) = true)
    ∧ (startOffset bq = 5
       ∨ (blockType bq = CHAINING_CELL_INVOKE ∧ startOffset bq = 0
          ∧ containingMethod bq = None)).
Proof.
  destruct (@buildTrace Reference.plain (Reference.oneRun [0x0528] 0 1)
              100) as [[arena cUnit]| | |] eqn:Hb;
    [|vm_compute in Hb; discriminate..].
  destruct (arena !! 0%nat) as [b|] eqn:Hp;
    [|vm_compute in Hb; injection Hb as <- _; discriminate].
  destruct (lastMIRInsn b) as [lastInsn|] eqn:Hlast;
    [|vm_compute in Hb; injection Hb as <- _; injection Hp as <-;
      discriminate].
  assert (blockType b = DALVIK_BYTECODE
          ∧ lastInsn = mkMIR (mkDecoded OP_GOTO 5 0 0) 1 0) as [Hty ->].
  { vm_compute in Hb. injection Hb as <- _. injection Hp as <-.
    injection Hlast as <-. by split. }
  destruct (trace_taken_resolved
              (Reference.oneRun [0x0528] 0 1) 100 arena cUnit 0 b
              (mkMIR (mkDecoded OP_GOTO 5 0 0) 1 0) true
              (mkBoundary 5 false None) Hb Hp Hty Hlast eq_refl
              ltac:(discriminate)) as (q & bq & Hq).
  exists arena, cUnit, b, (mkMIR (mkDecoded OP_GOTO 5 0 0) 1 0), q, bq.
  split; [reflexivity|]. split; [exact Hp|]. split; [exact Hlast|].
  exact Hq.
Defined.


(** ** The trace filter *)

Section FilterFacts.
Context `{G : DvmGlobals}.

Lemma bind_ext {A B} (m : outcome A) (f g : A → outcome B) :
  (∀ a, f a = g a) → m ≫= f = m ≫= g.
Proof. intros Hfg. destruct m; simpl; auto. Qed.

(** The diagnostics flag has no part in the scan. *)
Lemma scanTrace_printMe fuel code runs numMaxInsts pm pm' :
  ∀ arena curBB lastBB n cuNumInsts currRun curOffset numInsts codePtr,
  scanTrace fuel code runs numMaxInsts pm arena curBB lastBB n cuNumInsts
            currRun curOffset numInsts codePtr
  = scanTrace fuel code runs numMaxInsts pm' arena curBB lastBB n cuNumInsts
              currRun curOffset numInsts codePtr.
Proof.
  induction fuel as [|fuel IH]; intros; [done|]. cbn [scanTrace].
  change (parseInsn code codePtr pm') with (parseInsn code codePtr pm).
  apply bind_ext. intros [w d]. apply bind_ext. intros a1.
  apply bind_ext. intros ni. repeat case_match; try done.
  apply bind_ext. intros run. case_match; [done|].
  apply bind_ext. intros [[a2 l2] n2]. apply bind_ext. intros run'.
  apply bind_ext. intros a3. apply IH.
Qed.

Lemma screenTrace_withoutTable m cUnit :
  @screenTrace (withoutTable G) m cUnit = cUnit.
Proof. reflexivity. Qed.

(** The filter decides two flags of the unit and nothing of the graph. *)
Lemma buildTrace_withoutTable desc numMaxInsts :
  graphOf (@buildTrace G desc numMaxInsts)
  = graphOf (@buildTrace (withoutTable G) desc numMaxInsts).
Proof.
  unfold graphOf, buildTrace.
  destruct (must (dvmGetMethodCode (method desc))) as [dexCode| | |];
    try done.
  destruct (must (trace desc !! 0%nat)) as [currRun| | |]; try done.
  cbn [mbind outcome_bind]. rewrite screenTrace_withoutTable.
  pose proof (screenTrace_numInsts (method desc)
                (set_printMe gDvmJit_printMe zeroCU)) as Hzero.
  set (cUnit := screenTrace _ _) in *.
  set (cUnit' := set_printMe _ zeroCU) in *.
  destruct (dvmCompilerNewBB DALVIK_BYTECODE []) as [a0 startBB].
  destruct (store startBB _ a0) as [a1| | |]; try done.
  cbn [mbind outcome_bind].
  destruct (store startBB _ a1) as [a2| | |]; try done.
  cbn [mbind outcome_bind].
  destruct (int_incr 0) as [n1| | |]; try done.
  cbn [mbind outcome_bind]. rewrite Hzero.
  change (@scanTrace (withoutTable G)) with (@scanTrace G).
  rewrite (scanTrace_printMe _ _ _ _ (printMe cUnit) (printMe cUnit')).
  destruct (scanTrace _ _ _ _ _ _ _ _ _ _ _ _ _ _) as [[[[a3 l3] n3] ni]| | |];
    try done.
  cbn [mbind outcome_bind].
  change (@linkBlocks (withoutTable G)) with (@linkBlocks G).
  destruct (linkBlocks _ _ _ _ _ _) as [[[a4 l4] n4]| | |]; try done.
  cbn [mbind outcome_bind].
  destruct (appendBB _ a4 _ _) as [[[a5 l5] n5]| | |]; try done.
  cbn [mbind outcome_bind].
  destruct (appendBB _ a5 _ _) as [[[a6 l6] n6]| | |]; try done.
  cbn [mbind outcome_bind].
  destruct (fillBlockList _ _ _ _) as [[bl cur]| | |]; try done.
  cbn [mbind outcome_bind]. by destruct (bool_decide _).
Qed.

End FilterFacts.

(** C9. With a name table configured, the unit of an attempt carries the
    all-single-step flag exactly when the configured include mode differs
    from the result of the cascade (the class descriptor followed by the
    method name, else the class descriptor, else the method name); and
    the graph of the attempt is the graph built with no table at all. *)
Theorem trace_filter_conservative_flag `{G : DvmGlobals} (table : HashTable)
    (desc : JitTraceDescription) (numMaxInsts : Z)
    (arena : list BasicBlock) (cUnit : CompilationUnit) :
  methodTable = Some table →
  buildTrace desc numMaxInsts = Ret (arena, cUnit) →
  let m := method desc in
  let lookup s := dvmHashTableLookup table (dvmComputeUtf8Hash s) s in
  let found :=
    lookup (descriptor (clazz m) +:+ name m)
    || lookup (descriptor (clazz m)) || lookup (name m) in
  (allSingleStep cUnit = true ↔ includeSelectedMethod ≠ found)
  ∧ graphOf (buildTrace desc numMaxInsts)
    = graphOf (@buildTrace (withoutTable G) desc numMaxInsts).
Proof.
  intros Htable Hb m lookup found. split; [|apply buildTrace_withoutTable].
  apply buildTrace_traceGraph in Hb.
  destruct Hb as (k & c & l & _ & _ & _ & _ & _ & _ & ->).
  unfold screenTrace. rewrite Htable. fold m.
  change (dvmHashTableLookup table (dvmComputeUtf8Hash ?s) ?s)
    with (lookup s).
  subst found.
  destruct (lookup (descriptor (clazz m) +:+ name m)),
    (lookup (descriptor (clazz m))), (lookup (name m)),
    includeSelectedMethod; simpl; split; congruence.
Qed.

(** With [LFoo;] listed and the include mode off, the trace of a method
    of [LFoo;] is compiled conservatively, with the usual three blocks. *)
Lemma trace_filter_conservative_flag_witness :
  let G := Reference.globals (Some (Reference.names ["LFoo;"])) false false in
  ∃ arena cUnit,
    @buildTrace G (Reference.oneRun [0x000e] 0 1) 100 = Ret (arena, cUnit)
    ∧ allSingleStep cUnit = true
    ∧ length arena = 3%nat
    ∧ graphOf (@buildTrace G (Reference.oneRun [0x000e] 0 1) 100)
      = graphOf (@buildTrace (withoutTable G)
                             (Reference.oneRun [0x000e] 0 1) 100).
Proof.
  intros G.
  destruct (@buildTrace G (Reference.oneRun [0x000e] 0 1) 100)
    as [[arena cUnit]| | |] eqn:Hb; [|vm_compute in Hb; discriminate..].
  exists arena, cUnit. split; [reflexivity|].
  destruct (@trace_filter_conservative_flag G
              (Reference.names ["LFoo;"]) _ _ _ _ eq_refl Hb) as [Hflag Hg].
  split. { apply Hflag. vm_compute. discriminate. }
  split. { vm_compute in Hb. injection Hb as <- _. reflexivity. }
  rewrite Hb in Hg. exact Hg.
Defined.


(** ** The retry *)

Section RetryFacts.
Context `{G : DvmGlobals} `{C : Codegen}.

Lemma dvmCompileTrace_step fuel desc numMaxInsts arena cUnit :
  buildTrace desc numMaxInsts = Ret (arena, cUnit) →
  dvmCompileTrace (S fuel) desc numMaxInsts
  = if asm_halveInstCount (dvmCompilerAssembleLIR arena cUnit)
    then dvmCompileTrace fuel desc (Z.quot (numInsts cUnit) 2)
    else Ret (asm_baseAddr (dvmCompilerAssembleLIR arena cUnit)
              + asm_headerSize (dvmCompilerAssembleLIR arena cUnit)).
Proof.
  intros Hb. cbn [dvmCompileTrace]. rewrite Hb. cbn [mbind outcome_bind].
  cbn [set_assembled halveInstCount baseAddr headerSize numInsts].
  by destruct (asm_halveInstCount _).
Qed.

Lemma half_bounds (n : Z) : 1 ≤ n → 0 ≤ Z.quot n 2 < n ∧ (2 ≤ n → 1 ≤ Z.quot n 2).
Proof.
  intros Hn. rewrite Z.quot_div_nonneg by lia.
  pose proof (Z.div_mod n 2 ltac:(lia)).
  pose proof (Z.mod_pos_bound n 2 ltac:(lia)). lia.
Qed.

End RetryFacts.

(** C3 as stated fails.  With an assembler that reports every attempt too
    large, the attempt at budget 1 on a trace of one instruction is
    retried at budget 0, the attempt at budget 0 is retried at budget 0
    again, and no amount of fuel ends the compilation. *)
Lemma trace_retry_stalls_at_zero :
  let desc := Reference.oneRun [0x000e] 0 1 in
  let compile := @dvmCompileTrace Reference.plain Reference.rejecting in
  (∀ fuel, compile (S fuel) desc 1 = compile fuel desc 0)
  ∧ (∀ fuel, compile (S fuel) desc 0 = compile fuel desc 0)
  ∧ ∀ fuel, compile fuel desc 1 = Fuel.
Proof.
  intros desc compile.
  assert (∀ b, b = 0 ∨ b = 1 →
            ∀ fuel, compile (S fuel) desc b = compile fuel desc 0) as Hstep.
  { intros b Hb fuel. unfold compile.
    destruct (@buildTrace Reference.plain desc b) as [[arena cUnit]| | |]
      eqn:Hbuild;
      [|destruct Hb as [-> | ->]; vm_compute in Hbuild; discriminate..].
    rewrite (dvmCompileTrace_step _ _ _ _ _ Hbuild). simpl.
    replace (numInsts cUnit) with 1; [done|].
    destruct Hb as [-> | ->]; vm_compute in Hbuild;
      by injection Hbuild as _ <-. }
  split; [intros; apply Hstep; auto|]. split; [intros; apply Hstep; auto|].
  assert (∀ fuel, compile fuel desc 0 = Fuel) as Hzero.
  { induction fuel as [|fuel IH]; [done|]. rewrite Hstep; auto. }
  intros [|fuel]; [done|]. rewrite Hstep; auto.
Qed.

(** C3, amended.  An attempt at a budget of at least one that the
    assembler reports too large is retried with half the number of
    instructions it decoded, which is less than its budget and not
    negative: this holds of every attempt, whatever the assembler does
    with the others.  And when the first budget and every budget from 0 up
    to it build a graph and the assembler accepts a unit of one
    instruction, the compilation ends with an address. *)
Theorem trace_retry_budget `{G : DvmGlobals} `{C : Codegen}
    (desc : JitTraceDescription) (numMaxInsts : Z) :
  (∀ b fuel arena cUnit,
     1 ≤ b → buildTrace desc b = Ret (arena, cUnit) →
     asm_halveInstCount (dvmCompilerAssembleLIR arena cUnit) = true →
     dvmCompileTrace (S fuel) desc b
     = dvmCompileTrace fuel desc (Z.quot (numInsts cUnit) 2)
     ∧ 0 ≤ Z.quot (numInsts cUnit) 2 < b)
  ∧ ((∀ b, 0 ≤ b ≤ numMaxInsts ∨ b = numMaxInsts →
        ∃ arena cUnit,
          buildTrace desc b = Ret (arena, cUnit)
          ∧ (numInsts cUnit = 1 →
             asm_halveInstCount (dvmCompilerAssembleLIR arena cUnit)
             = false)) →
     ∃ fuel addr, dvmCompileTrace fuel desc numMaxInsts = Ret addr).
Proof.
  split.
  - intros b fuel arena cUnit Hb Hbuild Hhalve.
    rewrite (dvmCompileTrace_step _ _ _ _ _ Hbuild), Hhalve.
    split; [done|]. apply buildTrace_traceGraph in Hbuild.
    destruct Hbuild as (k & c & l & _ & _ & _ & _ & _ & Hni & _).
    pose proof (half_bounds (numInsts cUnit) ltac:(lia)). lia.
  - intros Hbuilds.
    assert (∀ n : nat, ∀ b, 0 ≤ b ≤ Z.of_nat n → b ≤ numMaxInsts →
              ∃ fuel addr, dvmCompileTrace fuel desc b = Ret addr) as Hind.
    { induction n as [|n IH]; intros b Hb Hle.
      - destruct (Hbuilds b ltac:(lia)) as (arena & cUnit & Hbuild & Hone).
        exists 1%nat. rewrite (dvmCompileTrace_step _ _ _ _ _ Hbuild).
        pose proof (buildTrace_traceGraph _ _ _ _ Hbuild) as
          (k & c & l & _ & _ & _ & _ & _ & Hni & _).
        rewrite Hone by lia. eauto.
      - destruct (Hbuilds b ltac:(lia)) as (arena & cUnit & Hbuild & Hone).
        pose proof (buildTrace_traceGraph _ _ _ _ Hbuild) as
          (k & c & l & _ & _ & _ & _ & _ & Hni & _).
        destruct (asm_halveInstCount (dvmCompilerAssembleLIR arena cUnit))
          eqn:Hhalve.
        + assert (2 ≤ numInsts cUnit) as Htwo.
          { destruct (decide (numInsts cUnit = 1)) as [He|]; [|lia].
            specialize (Hone He). congruence. }
          pose proof (half_bounds (numInsts cUnit) ltac:(lia)) as [? ?].
          destruct (IH (Z.quot (numInsts cUnit) 2)) as (fuel & addr & Hr);
            [lia|lia|].
          exists (S fuel), addr.
          rewrite (dvmCompileTrace_step _ _ _ _ _ Hbuild), Hhalve. done.
        + exists 1%nat. rewrite (dvmCompileTrace_step _ _ _ _ _ Hbuild), Hhalve.
          eauto. }
    destruct (decide (0 ≤ numMaxInsts)) as [Hpos|Hneg].
    { apply (Hind (Z.to_nat numMaxInsts)); lia. }
    destruct (Hbuilds numMaxInsts ltac:(by right))
      as (arena & cUnit & Hbuild & Hone).
    exists 1%nat. rewrite (dvmCompileTrace_step _ _ _ _ _ Hbuild).
    pose proof (buildTrace_traceGraph _ _ _ _ Hbuild) as
      (k & c & l & _ & _ & _ & _ & _ & Hni & _).
    rewrite Hone by lia. eauto.
Qed.

(** A run of three instructions at budget 3 against an assembler with room
    for one instruction: the first attempt decodes three instructions and
    is retried at budget 1, the second is accepted. *)
Lemma trace_retry_budget_witness :
  let desc := Reference.oneRun [0x0012; 0x0012; 0x000e] 0 3 in
  let compile := @dvmCompileTrace Reference.plain Reference.cramped in
  compile 2%nat desc 3 = Ret 4112
  ∧ (∀ fuel, compile (S fuel) desc 3 = compile fuel desc 1)
  ∧ ∃ fuel addr, compile fuel desc 3 = Ret addr.
Proof.
  intros desc compile.
  destruct (@trace_retry_budget Reference.plain Reference.cramped desc 3)
    as [Hretry Hends].
  split; [by vm_compute|]. split.
  - intros fuel.
    destruct (@buildTrace Reference.plain desc 3) as [[arena cUnit]| | |]
      eqn:Hbuild; [|vm_compute in Hbuild; discriminate..].
    assert (numInsts cUnit = 3) as Hthree.
    { vm_compute in Hbuild. by injection Hbuild as _ <-. }
    destruct (Hretry 3 fuel arena cUnit ltac:(lia) Hbuild) as [Heq _].
    { simpl. by rewrite Hthree. }
    unfold compile. rewrite Heq, Hthree. reflexivity.
  - apply Hends. intros b Hb.
    assert (b = 0 ∨ b = 1 ∨ b = 2 ∨ b = 3) as [-> | [-> | [-> | ->]]] by lia;
      vm_compute; eexists _, _; (split; [reflexivity|done]).
Defined.


(** ** The method graph builder *)

Lemma countBits_filter (n : nat) (bits : Z) :
  countBits n bits
  = Z.of_nat (length (filter (λ i, Z.testbit bits (Z.of_nat i) = true)
                             (seq 0 n))).
Proof.
  induction n as [|n IH]; [done|].
  rewrite seq_S, filter_app, length_app. cbn [countBits]. rewrite IH.
  simpl. rewrite filter_cons, filter_nil.
  destruct (decide _) as [->|Hf]; simpl.
  - lia.
  - apply not_true_is_false in Hf. rewrite Hf. lia.
Qed.

(** Where the split finds fewer blocks than expected the loop does not
    reach the comparison: it reads a list entry that was never stored.
    Here a branch into the middle of an instruction marks an offset at
    which no instruction starts. *)
Example method_split_reads_null_entry :
  @dvmCompileMethod Reference.plain Reference.accepting 8
                    (Reference.methodOf [0x0038; 1; 0x000e])
  = Fault.
Proof. reflexivity. Qed.

Lemma scanMethod_stalls (fuel : nat) (method : Method) :
  ∀ arena bits, is_Some (arena !! 0%nat) →
    @scanMethod Reference.plain fuel method Reference.switchCode 0 arena
                bits 4 4
    = Fuel.
Proof.
  induction fuel as [|fuel IH]; intros arena bits [b Hb]; [done|].
  cbn [scanMethod].
  change (4 <? Z.of_nat (length Reference.switchCode)) with true.
  cbn match.
  change (@parseInsn Reference.plain Reference.switchCode 4 false)
    with (Ret (0, mkDecoded 0 0 0 0) : outcome (Z * DecodedInstruction)).
  cbn [mbind outcome_bind]. unfold dvmCompilerAppendMIR, store.
  rewrite Hb. cbn [must mbind outcome_bind].
  change (findBlockBoundary method (mkMIR (mkDecoded 0 0 0 0) 0 4) 4
            (mkBoundary 4 false None))
    with (Ret (false, mkBoundary 4 false None) : outcome (bool * Boundary)).
  cbn [mbind outcome_bind]. apply IH.
  rewrite list_lookup_insert_eq; [eauto|]. by eapply lookup_lt_Some.
Qed.

Lemma scanMethod_reaches_payload (fuel : nat) (method : Method)
    (arena : list BasicBlock) (bits : BitVector) (b : BasicBlock) :
  arena !! 0%nat = Some b →
  ∃ arena' bits',
    is_Some (arena' !! 0%nat)
    ∧ @scanMethod Reference.plain (S (S fuel)) method Reference.switchCode
                  0 arena bits 0 0
      = @scanMethod Reference.plain fuel method Reference.switchCode 0
                    arena' bits' 4 4.
Proof.
  intros Hb. cbn [scanMethod].
  change (0 <? Z.of_nat (length Reference.switchCode)) with true.
  cbn match.
  change (@parseInsn Reference.plain Reference.switchCode 0 false)
    with (Ret (3, mkDecoded OP_PACKED_SWITCH 0 0 0)
          : outcome (Z * DecodedInstruction)).
  cbn [mbind outcome_bind]. unfold dvmCompilerAppendMIR, store.
  rewrite Hb. cbn [must mbind outcome_bind].
  change (findBlockBoundary method
            (mkMIR (mkDecoded OP_PACKED_SWITCH 0 0 0) 3 0) 0
            (mkBoundary 0 false None))
    with (Ret (false, mkBoundary 0 false None) : outcome (bool * Boundary)).
  cbn [mbind outcome_bind].
  change (0 + 3 <? Z.of_nat (length Reference.switchCode)) with true.
  cbn match.
  change (@parseInsn Reference.plain Reference.switchCode (0 + 3) false)
    with (Ret (1, mkDecoded OP_RETURN_VOID 0 0 0)
          : outcome (Z * DecodedInstruction)).
  cbn [mbind outcome_bind].
  rewrite list_lookup_insert_eq by (by eapply lookup_lt_Some).
  cbn [must mbind outcome_bind].
  change (findBlockBoundary method _ (u32 (0 + 3)) _)
    with (Ret (true, mkBoundary 3 true None) : outcome (bool * Boundary)).
  cbn [mbind outcome_bind].
  eexists _, _. split; [|reflexivity].
  rewrite list_lookup_insert_eq; [eauto|].
  rewrite length_insert. by eapply lookup_lt_Some.
Qed.

(** The zero width of an inline-data unit stops the first loop of the
    method builder: on a method with a packed-switch the loop decodes the
    switch and the return, comes to the payload, and no amount of fuel
    takes it further. *)
Example method_scan_stalls_on_inline_data (fuel : nat) :
  @dvmCompileMethod Reference.plain Reference.accepting fuel
                    (Reference.methodOf Reference.switchCode)
  = Fuel.
Proof.
  destruct fuel as [|[|fuel]]; [reflexivity..|].
  unfold dvmCompileMethod, scanWholeMethod.
  cbn [dvmGetMethodCode methodCode Reference.methodOf must mbind
       outcome_bind dex_insns].
  unfold dvmCompilerNewBB, store, int_incr. cbn [app length].
  change ([mkBB 0 0 None DALVIK_BYTECODE false [] None None None] !! 0%nat)
    with (Some (mkBB 0 0 None DALVIK_BYTECODE false [] None None None)).
  cbn [must mbind outcome_bind].
  change (0 <? INT_MAX) with true. cbn match. cbn [mbind outcome_bind].
  match goal with
  | |- context [scanMethod (S (S fuel)) ?m _ 0 ?a ?bv 0 0] =>
      destruct (scanMethod_reaches_payload fuel m a bv _ eq_refl)
        as (arena' & bits' & Hsome & ->)
  end.
  by rewrite scanMethod_stalls.
Qed.

(** * Further properties *)

(** ** The helpers *)

Lemma opIn_app op l1 l2 : opIn op (l1 ++ l2) = opIn op l1 || opIn op l2.
Proof. unfold opIn. apply existsb_app. Qed.

Lemma opIn_false op l : opIn op l = false ↔ op ∉ l.
Proof.
  rewrite <- opIn_true. destruct (opIn op l); naive_solver.
Qed.

Lemma blockEnd_groups op :
  opIn op blockEndOpcodes
  = opIn op [OP_RETURN_VOID; OP_RETURN; OP_RETURN_WIDE; OP_RETURN_OBJECT;
             OP_THROW; OP_INVOKE_VIRTUAL; OP_INVOKE_VIRTUAL_RANGE;
             OP_INVOKE_INTERFACE; OP_INVOKE_INTERFACE_RANGE;
             OP_INVOKE_VIRTUAL_QUICK; OP_INVOKE_VIRTUAL_QUICK_RANGE]
    || opIn op [OP_INVOKE_SUPER; OP_INVOKE_SUPER_RANGE]
    || opIn op [OP_INVOKE_STATIC; OP_INVOKE_STATIC_RANGE]
    || opIn op [OP_INVOKE_SUPER_QUICK; OP_INVOKE_SUPER_QUICK_RANGE]
    || opIn op [OP_INVOKE_DIRECT; OP_INVOKE_DIRECT_RANGE]
    || opIn op [OP_GOTO; OP_GOTO_16; OP_GOTO_32]
    || opIn op [OP_IF_EQ; OP_IF_NE; OP_IF_LT; OP_IF_GE; OP_IF_GT; OP_IF_LE]
    || opIn op [OP_IF_EQZ; OP_IF_NEZ; OP_IF_LTZ; OP_IF_GEZ; OP_IF_GTZ;
                OP_IF_LEZ].
Proof. rewrite <- !opIn_app. reflexivity. Qed.

Lemma findBlockBoundary_keeps (caller : Method) (insn : MIR)
    (curOffset : Z) (out out' : Boundary) :
  findBlockBoundary caller insn curOffset out = Ret (false, out') →
  out' = out.
Proof.
  intros Hfb. unfold findBlockBoundary in Hfb.
  repeat match type of Hfb with
  | context [if opIn ?a ?l then _ else _] => destruct (opIn a l)
  end.
  all: repeat (apply bind_Ret in Hfb as (? & _ & Hfb)).
  all: by injection Hfb.
Qed.

(** X1. [findBlockBoundary] answers [false] exactly for the opcodes that have
    no [case] label in its switch (everything but the returns, throw, the
    invokes, the gotos and the conditional branches), and then it leaves
    the target, the invoke flag and the callee as the caller set them. *)
Theorem findBlockBoundary_returns_false (caller : Method) (insn : MIR)
    (curOffset : Z) (out out' : Boundary) (r : bool) :
  findBlockBoundary caller insn curOffset out = Ret (r, out') →
  (r = false ↔ opCode (dalvikInsn insn) ∉ blockEndOpcodes)
  ∧ (r = false → out' = out).
Proof.
  intros Hfb. rewrite <- opIn_false, blockEnd_groups.
  unfold findBlockBoundary in Hfb.
  repeat match type of Hfb with
  | context [if opIn ?a ?l then _ else _] =>
      destruct (opIn a l) eqn:?; cbn [orb]
  end.
  all: repeat (apply bind_Ret in Hfb as (? & _ & Hfb)).
  all: injection Hfb as <- <-; split; try done.
Qed.

(** On a const/4, which has no label in the switch. *)
Lemma findBlockBoundary_returns_false_witness :
  (false = false ↔ 0x12 ∉ blockEndOpcodes)
  ∧ (false = false → mkBoundary 0 false None = mkBoundary 0 false None).
Proof.
  exact (findBlockBoundary_returns_false
           (Reference.methodOf []) (mkMIR (mkDecoded 0x12 0 0 0) 1 0) 0
           (mkBoundary 0 false None) (mkBoundary 0 false None) false
           eq_refl).
Defined.

Lemma native_cells calleeMethod out out' :
  set_callee (Some calleeMethod)
    (set_isInvoke true
       (if negb (dvmIsNativeMethod calleeMethod)
        then set_target (u32 (insns calleeMethod)) out else out)) = out' →
  isInvoke out' = true ∧ callee out' = Some calleeMethod
  ∧ (target out' ≠ target out →
     dvmIsNativeMethod calleeMethod = false
     ∧ target out' = u32 (insns calleeMethod)).
Proof.
  intros <-. destruct (dvmIsNativeMethod calleeMethod); simpl; by split_and!.
Qed.

Lemma findBlockBoundary_moves_target (caller : Method) (insn : MIR)
    (curOffset : Z) (out out' : Boundary) (r : bool) :
  findBlockBoundary caller insn curOffset out = Ret (r, out') →
  target out' ≠ target out →
  (opCode (dalvikInsn insn) ∈ branchOpcodes
   ∧ out' = set_target (u32 (curOffset + branchOperand (dalvikInsn insn))) out)
  ∨ (isInvoke out' = true
     ∧ ∃ calleeMethod,
         callee out' = Some calleeMethod
         ∧ dvmIsNativeMethod calleeMethod = false
         ∧ target out' = u32 (insns calleeMethod)).
Proof.
  intros Hfb Hne. unfold findBlockBoundary in Hfb.
  unfold branchOperand. rewrite <- (opIn_true _ branchOpcodes).
  change branchOpcodes with
    ([OP_GOTO; OP_GOTO_16; OP_GOTO_32]
     ++ [OP_IF_EQ; OP_IF_NE; OP_IF_LT; OP_IF_GE; OP_IF_GT; OP_IF_LE]
     ++ [OP_IF_EQZ; OP_IF_NEZ; OP_IF_LTZ; OP_IF_GEZ; OP_IF_GTZ; OP_IF_LEZ]).
  rewrite !opIn_app.
  repeat match type of Hfb with
  | context [if opIn ?a ?l then _ else _] =>
      destruct (opIn a l) eqn:?; cbn [orb]
  end.
  all: repeat (apply bind_Ret in Hfb as (? & _ & Hfb)).
  all: injection Hfb as <- Hout.
  all: try (apply native_cells in Hout as (? & ? & Ht);
            destruct (Ht Hne); right; eauto).
  all: try (subst out'; simpl in Hne; done).
  all: left; split; [done|]; by rewrite <- Hout.
Qed.

(** X2. When [findBlockBoundary] changes the target cell it reports a block
    end, and the change has one of two causes: the instruction is a goto or
    a conditional branch, and the target is the current offset plus the
    displacement operand (vA, vC or vB by the format), on 32 bits, the
    other cells being kept; or it is an invoke whose callee was resolved to
    a method that is not native, and the target is the code address of that
    callee. *)
Theorem findBlockBoundary_target_change (caller : Method) (insn : MIR)
    (curOffset : Z) (out out' : Boundary) (r : bool) :
  findBlockBoundary caller insn curOffset out = Ret (r, out') →
  target out' ≠ target out →
  r = true
  ∧ ((opCode (dalvikInsn insn) ∈ branchOpcodes
      ∧ out' = set_target (u32 (curOffset + branchOperand (dalvikInsn insn)))
                          out)
     ∨ (isInvoke out' = true
        ∧ ∃ calleeMethod,
            callee out' = Some calleeMethod
            ∧ dvmIsNativeMethod calleeMethod = false
            ∧ target out' = u32 (insns calleeMethod))).
Proof.
  intros Hfb Hne. split; [|by eapply findBlockBoundary_moves_target].
  destruct r; [done|]. apply findBlockBoundary_keeps in Hfb. by subst.
Qed.

(** On a goto five units ahead, at offset 0. *)
Lemma findBlockBoundary_target_change_witness :
  let insn := mkMIR (mkDecoded OP_GOTO 5 0 0) 1 0 in
  let out := mkBoundary 0 false None in
  let out' := mkBoundary 5 false None in
  true = true
  ∧ ((opCode (dalvikInsn insn) ∈ branchOpcodes
      ∧ out' = set_target (u32 (0 + branchOperand (dalvikInsn insn))) out)
     ∨ (isInvoke out' = true
        ∧ ∃ calleeMethod,
            callee out' = Some calleeMethod
            ∧ dvmIsNativeMethod calleeMethod = false
            ∧ target out' = u32 (insns calleeMethod))).
Proof.
  intros insn out out'.
  apply (findBlockBoundary_target_change (Reference.methodOf []) insn 0 out
           out' true); [reflexivity|]. simpl. lia.
Defined.

Lemma u32_add_signed (curOffset disp : Z) :
  0 ≤ curOffset + disp < 2 ^ 32 → u32 (curOffset + u32 disp) = curOffset + disp.
Proof.
  intros Hr. unfold u32. rewrite Zplus_mod_idemp_r. by apply Z.mod_small.
Qed.

(** X3. For a goto or a conditional branch whose displacement operand holds
    the signed displacement [disp] on 32 bits, [findBlockBoundary] reports
    a block end and sets the target to [curOffset + disp], for a backward
    branch as well, as long as that offset is one of the 32-bit range; the
    invoke flag and the callee are kept. *)
Theorem findBlockBoundary_branch_target (caller : Method) (insn : MIR)
    (curOffset disp : Z) (out : Boundary) :
  opCode (dalvikInsn insn) ∈ branchOpcodes →
  branchOperand (dalvikInsn insn) = u32 disp →
  0 ≤ curOffset + disp < 2 ^ 32 →
  findBlockBoundary caller insn curOffset out
  = Ret (true, mkBoundary (curOffset + disp) (isInvoke out) (callee out)).
Proof.
  destruct insn as [[op a b c] w o]. cbn [opCode dalvikInsn].
  intros Hop Hd Hr. unfold findBlockBoundary, branchOperand in *.
  cbn [opCode vA vB vC dalvikInsn] in *.
  unfold branchOpcodes in Hop. elem_cases Hop; revert Hd; eval_opIn; cbn match;
    intros ->; unfold set_target; cbn [isInvoke callee];
    by rewrite u32_add_signed.
Qed.

(** On a goto three units back, at offset 5. *)
Lemma findBlockBoundary_branch_target_witness :
  findBlockBoundary (Reference.methodOf [])
                    (mkMIR (mkDecoded OP_GOTO (u32 (-3)) 0 0) 1 5) 5
                    (mkBoundary 5 false None)
  = Ret (true, mkBoundary (5 + -3) false None).
Proof.
  apply (findBlockBoundary_branch_target
           (Reference.methodOf [])
           (mkMIR (mkDecoded OP_GOTO (u32 (-3)) 0 0) 1 5) 5 (-3)
           (mkBoundary 5 false None)).
  - apply opIn_true. reflexivity.
  - reflexivity.
  - split; [lia|reflexivity].
Defined.

(** X4. Every instruction that [isUnconditionalBranch] accepts is a block end
    for [findBlockBoundary]: for a goto the target becomes the current
    offset plus vA, and for a return the only change is that the invoke
    flag is set. *)
Theorem isUnconditionalBranch_is_boundary (caller : Method) (insn : MIR)
    (curOffset : Z) (out : Boundary) :
  isUnconditionalBranch insn = true →
  findBlockBoundary caller insn curOffset out
  = Ret (true,
         if opIn (opCode (dalvikInsn insn)) [OP_GOTO; OP_GOTO_16; OP_GOTO_32]
         then set_target (u32 (curOffset + vA (dalvikInsn insn))) out
         else set_isInvoke true out).
Proof.
  destruct insn as [[op a b c] w o]. unfold isUnconditionalBranch.
  cbn [opCode vA dalvikInsn]. intros Hop. apply opIn_true in Hop.
  unfold findBlockBoundary. cbn [opCode vA dalvikInsn].
  elem_cases Hop; reflexivity.
Qed.

(** On a return-void at offset 7. *)
Lemma isUnconditionalBranch_is_boundary_witness :
  findBlockBoundary (Reference.methodOf [])
                    (mkMIR (mkDecoded OP_RETURN_VOID 0 0 0) 1 7) 7
                    (mkBoundary 7 false None)
  = Ret (true, mkBoundary 7 true None).
Proof.
  apply (isUnconditionalBranch_is_boundary
           (Reference.methodOf [])
           (mkMIR (mkDecoded OP_RETURN_VOID 0 0 0) 1 7) 7
           (mkBoundary 7 false None)).
  reflexivity.
Defined.

Lemma parseInsn_nonneg `{DvmGlobals} (code : list Z) (codePtr : Z) (printMe : bool)
    (w : Z) (d : DecodedInstruction) :
  parseInsn code codePtr printMe = Ret (w, d) → 0 ≤ w.
Proof.
  unfold parseInsn. intros Hp.
  apply bind_Ret in Hp as (instr & _ & Hp).
  apply bind_Ret in Hp as (w' & Hw & Hp). injection Hp as <- _.
  destruct (_ && _).
  - apply bind_Ret in Hw as (? & _ & Hw). by injection Hw as <-.
  - injection Hw as <-. destruct (instrWidth _ <? 0) eqn:E.
    + apply Z.ltb_lt in E. lia.
    + apply Z.ltb_ge in E. lia.
Qed.

Lemma parseInsn_Ret `{DvmGlobals} (code : list Z) (codePtr : Z)
    (printMe : bool) (w : Z) (d : DecodedInstruction) :
  parseInsn code codePtr printMe = Ret (w, d) →
  ∃ instr,
    idx code codePtr = Some instr
    ∧ d = dexDecodeInstruction code codePtr
    ∧ w = (if (Z.land instr 0xff =? OP_NOP) && negb (instr =? 0) then 0
           else Z.abs (instrWidth (Z.land instr 0xff))).
Proof.
  unfold parseInsn. intros Hp.
  apply bind_Ret in Hp as (instr & Hi & Hp). apply must_Ret in Hi.
  exists instr. split; [done|].
  destruct ((Z.land instr 0xff =? OP_NOP) && negb (instr =? 0)).
  - apply bind_Ret in Hp as (w' & Hw & Hp).
    apply bind_Ret in Hw as (? & _ & Hw).
    injection Hw as <-. injection Hp as <- <-. done.
  - cbn [mbind outcome_bind] in Hp. injection Hp as <- <-.
    split; [done|]. destruct (instrWidth _ <? 0) eqn:E.
    + apply Z.ltb_lt in E. lia.
    + apply Z.ltb_ge in E. lia.
Qed.

(** X5. The width [parseInsn] returns is never negative: it is 0 for a unit
    whose low byte is the no-op opcode and that is not the plain no-op (an
    inline-data unit), and the absolute value of the entry of the width
    table for every other unit, so a negative entry is returned negated;
    the decoding it returns is that of [dexDecodeInstruction] at the same
    position. *)
Theorem parseInsn_width `{DvmGlobals} (code : list Z) (codePtr : Z)
    (printMe : bool) (w : Z) (d : DecodedInstruction) :
  parseInsn code codePtr printMe = Ret (w, d) →
  ∃ instr,
    idx code codePtr = Some instr
    ∧ d = dexDecodeInstruction code codePtr
    ∧ w = (if (Z.land instr 0xff =? OP_NOP) && negb (instr =? 0) then 0
           else Z.abs (instrWidth (Z.land instr 0xff)))
    ∧ 0 ≤ w.
Proof.
  intros Hp. pose proof (parseInsn_nonneg _ _ _ _ _ Hp) as Hw.
  apply parseInsn_Ret in Hp as (instr & Hi & Hd & Hwidth). eauto.
Qed.

(** On an invoke-virtual-quick, whose entry in the width table is -3. *)
Lemma parseInsn_width_witness :
  ∃ instr,
    idx [0x00f8; 0; 0] 0 = Some instr
    ∧ mkDecoded OP_INVOKE_VIRTUAL_QUICK 0 0 0
      = @dexDecodeInstruction Reference.plain [0x00f8; 0; 0] 0
    ∧ 3 = (if (Z.land instr 0xff =? OP_NOP) && negb (instr =? 0) then 0
           else Z.abs (@instrWidth Reference.plain (Z.land instr 0xff)))
    ∧ 0 ≤ 3.
Proof.
  apply (@parseInsn_width Reference.plain [0x00f8; 0; 0] 0 false 3
           (mkDecoded OP_INVOKE_VIRTUAL_QUICK 0 0 0)).
  reflexivity.
Defined.

(** ** The trace graph builder: the shape of every block *)

Section ShapeFacts.
Local Open Scope nat_scope.
Implicit Types (arena : list BasicBlock) (b : BasicBlock).

Lemma store_Ret p f arena arena' :
  store p f arena = Ret arena' →
  ∃ b, arena !! p = Some b ∧ arena' = <[p := f b]> arena.
Proof.
  unfold store. intros Hs. apply bind_Ret in Hs as (b & Hb & Hs).
  apply must_Ret in Hb. injection Hs as <-. eauto.
Qed.

Lemma int_incr_Ret x y : int_incr x = Ret y → y = (x + 1)%Z.
Proof. unfold int_incr. case_match; congruence. Qed.

Lemma appendBB_shape kind arena lastBB n arena' lastBB' n' :
  appendBB kind arena lastBB n = Ret (arena', lastBB', n') →
  lastBB < length arena →
  ∃ bl, arena !! lastBB = Some bl
        ∧ arena' = <[lastBB := set_next (Some (length arena)) bl]> arena
                   ++ [mkBB n 0 None kind false [] None None None]
        ∧ lastBB' = length arena ∧ n' = (n + 1)%Z.
Proof.
  intros Ha Hlt. unfold appendBB, dvmCompilerNewBB in Ha.
  apply bind_Ret in Ha as (a1 & H1 & Ha). apply store_Ret in H1 as (bl & Hbl & ->).
  apply bind_Ret in Ha as (a2 & H2 & Ha). apply store_Ret in H2 as (bn & Hbn & ->).
  apply bind_Ret in Ha as (n2 & H3 & Ha). apply int_incr_Ret in H3 as ->.
  injection Ha as <- <- <-.
  rewrite lookup_app_l in Hbl by done. exists bl. split; [done|].
  rewrite insert_app_l in Hbn by done.
  rewrite lookup_app_r in Hbn by (rewrite length_insert; lia).
  rewrite length_insert, Nat.sub_diag in Hbn. injection Hbn as <-.
  rewrite insert_app_l by done.
  rewrite insert_app_r_alt by (rewrite length_insert; lia).
  rewrite length_insert, Nat.sub_diag. done.
Qed.

Lemma chainTaken_shape cur out curOffset flags a l n a' l' n' bc :
  chainTaken cur out curOffset flags a l n = Ret (a', l', n') →
  l < length a → a !! cur = Some bc →
  if negb (target out =? curOffset)%Z && bool_decide (taken bc = None)
  then length a' = S (length a) ∧ l' = length a ∧ n' = (n + 1)%Z
       ∧ a' !! length a = Some (takenCell out flags n)
       ∧ updated cur (set_taken (Some (length a))) a a'
  else a' = a ∧ l' = l ∧ n' = n.
Proof.
  intros Hc Hl Hbc. unfold chainTaken in Hc. rewrite Hbc in Hc.
  cbn [must mbind outcome_bind] in Hc.
  assert (cur < length a) as Hcur by (by eapply lookup_lt_Some).
  destruct (negb (target out =? curOffset)%Z && bool_decide (taken bc = None)).
  2:{ by injection Hc as <- <- <-. }
  apply bind_Ret in Hc as ([[a1 l1] n1] & Happ & Hc).
  apply appendBB_shape in Happ as (bl & Hbl & -> & -> & ->); [|done].
  set (a0 := <[l := set_next (Some (length a)) bl]> a) in *.
  assert (length a0 = length a) as Hlen0 by apply length_insert.
  apply bind_Ret in Hc as (a2 & Hcell & Hc).
  assert (a2 = a0 ++ [takenCell out flags n]) as ->.
  { unfold takenCell. destruct (isInvoke out).
    - apply bind_Ret in Hcell as (a1' & H1 & H2).
      apply store_Ret in H1 as (c1 & Hc1 & ->).
      apply store_Ret in H2 as (c2 & Hc2 & ->).
      rewrite lookup_app_r, Hlen0, Nat.sub_diag in Hc1 by lia.
      injection Hc1 as <-.
      rewrite list_lookup_insert_eq in Hc2
        by (rewrite length_app, Hlen0; simpl; lia).
      injection Hc2 as <-. rewrite list_insert_insert_eq.
      rewrite insert_app_r_alt, Hlen0, Nat.sub_diag by lia. done.
    - apply store_Ret in Hcell as (c1 & Hc1 & ->).
      rewrite lookup_app_r, Hlen0, Nat.sub_diag in Hc1 by lia.
      injection Hc1 as <-.
      rewrite insert_app_r_alt, Hlen0, Nat.sub_diag by lia. done. }
  apply bind_Ret in Hc as (a3 & Hst & Hc). injection Hc as <- <- <-.
  apply store_Ret in Hst as (x & Hx & ->).
  rewrite lookup_app_l in Hx by lia.
  split. { rewrite length_insert, length_app, Hlen0. simpl. lia. }
  split; [done|]. split; [done|]. split.
  { rewrite list_lookup_insert_ne by lia.
    by rewrite lookup_app_r, Hlen0, Nat.sub_diag by lia. }
  intros i b Hi. assert (i < length a) by (by eapply lookup_lt_Some).
  destruct (decide (i = cur)) as [->|Hne].
  - exists (set_taken (Some (length a)) x).
    rewrite list_lookup_insert_eq by (rewrite length_app; lia).
    split; [done|]. replace b with bc by congruence.
    subst a0. destruct (decide (l = cur)) as [->|Hne].
    + rewrite list_lookup_insert_eq in Hx by done. injection Hx as <-.
      replace bl with bc by congruence. done.
    + rewrite list_lookup_insert_ne in Hx by done.
      replace x with bc by congruence. done.
  - rewrite list_lookup_insert_ne by done. rewrite lookup_app_l by lia.
    subst a0. destruct (decide (l = i)) as [->|Hne'].
    + rewrite list_lookup_insert_eq by done. eexists. split; [done|].
      replace bl with b by congruence. done.
    + rewrite list_lookup_insert_ne by done. by exists b.
Qed.

Lemma chainFallThrough_shape cur lastInsn out foff a l n a' l' n' bc :
  chainFallThrough cur lastInsn out foff a l n = Ret (a', l', n') →
  l < length a → a !! cur = Some bc →
  if negb (isUnconditionalBranch lastInsn)
     && bool_decide (fallThrough bc = None)
  then length a' = S (length a) ∧ l' = length a ∧ n' = (n + 1)%Z
       ∧ a' !! length a
         = Some (fallThroughCell out (needFallThroughBranch bc) foff n)
       ∧ updated cur (set_fallThrough (Some (length a))) a a'
  else a' = a ∧ l' = l ∧ n' = n.
Proof.
  intros Hc Hl Hbc. unfold chainFallThrough in Hc. rewrite Hbc in Hc.
  cbn [must mbind outcome_bind] in Hc.
  assert (cur < length a) as Hcur by (by eapply lookup_lt_Some).
  destruct (negb (isUnconditionalBranch lastInsn)
            && bool_decide (fallThrough bc = None)).
  2:{ by injection Hc as <- <- <-. }
  apply bind_Ret in Hc as ([[a1 l1] n1] & Happ & Hc).
  apply appendBB_shape in Happ as (bl & Hbl & -> & -> & ->); [|done].
  set (a0 := <[l := set_next (Some (length a)) bl]> a) in *.
  assert (length a0 = length a) as Hlen0 by apply length_insert.
  apply bind_Ret in Hc as (a2 & Hcell & Hc).
  apply store_Ret in Hcell as (c1 & Hc1 & ->).
  rewrite lookup_app_r, Hlen0, Nat.sub_diag in Hc1 by lia.
  injection Hc1 as <-.
  rewrite insert_app_r_alt, Hlen0, Nat.sub_diag in Hc by lia.
  apply bind_Ret in Hc as (a3 & Hst & Hc). injection Hc as <- <- <-.
  apply store_Ret in Hst as (x & Hx & ->).
  rewrite lookup_app_l in Hx by lia.
  split. { rewrite length_insert, length_app, Hlen0. simpl. lia. }
  split; [done|]. split; [done|]. split.
  { rewrite list_lookup_insert_ne by lia.
    by rewrite lookup_app_r, Hlen0, Nat.sub_diag by lia. }
  intros i b Hi. assert (i < length a) by (by eapply lookup_lt_Some).
  destruct (decide (i = cur)) as [->|Hne].
  - exists (set_fallThrough (Some (length a)) x).
    rewrite list_lookup_insert_eq by (rewrite length_app; lia).
    split; [done|]. replace b with bc by congruence.
    subst a0. destruct (decide (l = cur)) as [->|Hne].
    + rewrite list_lookup_insert_eq in Hx by done. injection Hx as <-.
      replace bl with bc by congruence. done.
    + rewrite list_lookup_insert_ne in Hx by done.
      replace x with bc by congruence. done.
  - rewrite list_lookup_insert_ne by done. rewrite lookup_app_l by lia.
    subst a0. destruct (decide (l = i)) as [->|Hne'].
    + rewrite list_lookup_insert_eq by done. eexists. split; [done|].
      replace bl with b by congruence. done.
    + rewrite list_lookup_insert_ne by done. by exists b.
Qed.

End ShapeFacts.

Section LinkShape.
Context `{DvmGlobals}.
Local Open Scope nat_scope.
Implicit Types (arena : list BasicBlock) (b : BasicBlock).

Lemma core_fields b b' :
  core b' = core b →
  id b' = id b ∧ startOffset b' = startOffset b
  ∧ containingMethod b' = containingMethod b ∧ blockType b' = blockType b
  ∧ needFallThroughBranch b' = needFallThroughBranch b ∧ mirs b' = mirs b
  ∧ fallThrough b' = fallThrough b ∧ taken b' = taken b.
Proof.
  intros Hc.
  split_and!;
    [ apply (f_equal id) in Hc | apply (f_equal startOffset) in Hc
    | apply (f_equal containingMethod) in Hc | apply (f_equal blockType) in Hc
    | apply (f_equal needFallThroughBranch) in Hc | apply (f_equal mirs) in Hc
    | apply (f_equal fallThrough) in Hc | apply (f_equal taken) in Hc ];
    exact Hc.
Qed.

Lemma searchLoop_relinked cur toff foff arena lastBB n b a1 :
  chained arena lastBB n → arena !! cur = Some b →
  searchLoop (length arena) cur (next b) toff foff arena = Ret a1 →
  relinked cur toff foff arena a1.
Proof.
  intros Hch Hb Hs. pose proof Hch as (Hl & Hn & Hc).
  assert (cur < length arena) as Hcur by (by eapply lookup_lt_Some).
  destruct (Hc _ _ Hb) as [_ Hnx]. rewrite Hnx in Hs.
  refine (safe_Ret _ _ _ _ Hs).
  apply (searchLoop_spec cur toff foff lastBB n); try done; try lia.
Qed.

Lemma linkBlock_shape caller cur lastInsn arena lastBB n b arena' l' n' :
  chained arena lastBB n → arena !! cur = Some b →
  taken b = None → fallThrough b = None →
  linkBlock caller cur lastInsn arena lastBB n = Ret (arena', l', n') →
  linkedBy caller cur lastInsn arena arena'.
Proof.
  intros Hch Hb Htk Hft Hlb. pose proof Hch as (Hl & Hn & Hc).
  assert (cur < length arena) as Hcur by (by eapply lookup_lt_Some).
  unfold linkBlock in Hlb.
  apply bind_Ret in Hlb as ([r out] & Hfb & Hlb).
  rewrite Hb in Hlb. cbn [must mbind outcome_bind] in Hlb.
  apply bind_Ret in Hlb as (a1 & Hs & Hlb).
  apply (searchLoop_relinked _ _ _ _ _ _ _ _ Hch Hb) in Hs.
  destruct Hs as (L1 & S1 & b0 & b1 & Hb0 & Hb1 & St1 & N1 & T1 & F1).
  replace b0 with b in * by congruence. rewrite Htk in T1. rewrite Hft in F1.
  apply bind_Ret in Hlb as (a2 & Hst & Hlb).
  apply store_Ret in Hst as (b1' & Hb1' & ->).
  replace b1' with b1 in * by congruence. clear Hb1'.
  set (flags := dexGetInstrFlags (opCode (dalvikInsn lastInsn))) in *.
  set (flag := (Z.land flags controlFlowFlags =? 0)%Z) in *.
  set (b2 := set_needFallThroughBranch flag b1) in *.
  set (a2 := <[cur := b2]> a1) in *.
  assert (length a2 = length arena) as L2.
  { subst a2. by rewrite length_insert. }
  assert (a2 !! cur = Some b2) as Hb2.
  { subst a2. rewrite list_lookup_insert_eq; [done|lia]. }
  assert (∀ i, i ≠ cur → a2 !! i = arena !! i) as S2.
  { intros i Hi. subst a2. rewrite list_lookup_insert_ne by done. auto. }
  clearbody a2. clear Hb1 S1.
  apply bind_Ret in Hlb as ([[a3 l3] n3] & Hct & Hlb).
  apply (chainTaken_shape _ _ _ _ _ _ _ _ _ _ b2) in Hct; [|lia|done].
  (* the state after the taken edge *)
  assert (∃ b3, a3 !! cur = Some b3
     ∧ needFallThroughBranch b3 = flag ∧ fallThrough b3 = fallThrough b1
     ∧ length a2 ≤ length a3 ∧ l3 < length a3
     ∧ n3 = Z.of_nat (length a3)
     ∧ (∀ i x, a2 !! i = Some x → i ≠ cur →
          ∃ x', a3 !! i = Some x' ∧ core x' = core x)
     ∧ (∀ q, taken b3 = Some q → cur < q < length a3)
     ∧ (∀ i c, length a2 ≤ i → a3 !! i = Some c →
          taken b3 = Some i ∧ target out ≠ offset lastInsn
          ∧ core c = takenCell out flags (Z.of_nat i))) as
    (b3 & Hb3 & Hfl3 & Hft3 & L3 & Hl3 & Hn3 & S3 & E3 & C3).
  { destruct (negb (target out =? offset lastInsn)%Z
              && bool_decide (taken b2 = None)) eqn:Hcond.
    - destruct Hct as (Hlen & -> & -> & Hcell & Hup).
      apply andb_true_iff in Hcond as [Hne _].
      apply negb_true_iff, Z.eqb_neq in Hne.
      destruct (Hup _ _ Hb2) as (b3 & Hb3 & Hc3).
      rewrite decide_True in Hc3 by done.
      apply core_fields in Hc3 as (_ & _ & _ & _ & Hf & _ & Hft' & Htk').
      exists b3. split; [done|]. split; [done|]. split; [done|].
      split; [lia|]. split; [lia|]. split; [lia|]. split.
      { intros i x Hi Hne'. destruct (Hup _ _ Hi) as (x' & Hx' & Hcx).
        rewrite decide_False in Hcx by done. eauto. }
      split.
      { intros q Hq. rewrite Htk' in Hq. simpl in Hq.
        injection Hq as <-. lia. }
      intros i c Hi Hci.
      assert (i = length a2) as ->.
      { apply lookup_lt_Some in Hci. lia. }
      split; [by rewrite Htk'|]. split; [done|].
      rewrite Hcell in Hci. injection Hci as <-.
      unfold core, takenCell. simpl. replace (Z.of_nat (length a2)) with n by lia. done.
    - destruct Hct as (-> & -> & ->). exists b2.
      split; [done|]. split; [done|]. split; [done|].
      split; [done|]. split; [lia|]. split; [lia|]. split; [eauto|].
      split.
      { intros q Hq. simpl in Hq. destruct T1 as [T1|T1]; [congruence|].
        destruct T1 as (q' & bq & Hq' & Hlt & Hbq & _).
        replace q with q' by congruence.
        apply lookup_lt_Some in Hbq. lia. }
      intros i c Hi Hci. apply lookup_lt_Some in Hci. lia. }
  apply (chainFallThrough_shape _ _ _ _ _ _ _ _ _ _ b3) in Hlb; [|lia|done].
  exists r, out, b.
  destruct (negb (isUnconditionalBranch lastInsn)
            && bool_decide (fallThrough b3 = None)) eqn:Hcond.
  - destruct Hlb as (Hlen & -> & -> & Hcell & Hup).
    apply andb_true_iff in Hcond as [Hu _]. apply negb_true_iff in Hu.
    destruct (Hup _ _ Hb3) as (b4 & Hb4 & Hc4).
    rewrite decide_True in Hc4 by done.
    apply core_fields in Hc4 as (_ & _ & _ & _ & Hf & _ & Hft' & Htk').
    simpl in Hf, Hft', Htk'.
    exists b4. split; [done|]. split; [done|]. split; [done|].
    split; [lia|]. split; [by rewrite Hf, Hfl3|]. split.
    { intros i x Hi Hne. rewrite <- S2 in Hi by done.
      destruct (S3 _ _ Hi Hne) as (x3 & Hx3 & Hc3).
      destruct (Hup _ _ Hx3) as (x4 & Hx4 & Hc4).
      rewrite decide_False in Hc4 by done. exists x4.
      split; [done|]. congruence. }
    split.
    { intros q [Hq|Hq].
      - rewrite Htk' in Hq. apply E3 in Hq. lia.
      - rewrite Hft' in Hq. injection Hq as <-. lia. }
    intros i c Hi Hci. destruct (decide (i = length a3)) as [->|Hne].
    + right. split; [done|]. split; [done|].
      rewrite Hcell in Hci. injection Hci as <-.
      rewrite Hf, Hfl3, Hn3. done.
    + left. assert (i < length a3).
      { apply lookup_lt_Some in Hci. lia. }
      destruct (lookup_lt_is_Some_2 a3 i ltac:(lia)) as [c3 Hc3].
      destruct (Hup _ _ Hc3) as (c4 & Hc4 & Hcc).
      rewrite decide_False in Hcc by lia.
      replace c4 with c in * by congruence.
      destruct (C3 i c3 ltac:(lia) Hc3) as (Ht & Hne' & Hk).
      split; [congruence|]. split; [done|]. rewrite Hcc. exact Hk.
  - destruct Hlb as (-> & -> & ->). exists b3.
    split; [done|]. split; [done|]. split; [done|]. split; [lia|].
    split; [done|]. split.
    { intros i x Hi Hne. rewrite <- S2 in Hi by done. eauto. }
    split.
    { intros q [Hq|Hq]; [by apply E3|]. rewrite Hft3 in Hq.
      destruct F1 as [F1|F1]; [congruence|].
      destruct F1 as (q' & bq & Hq' & Hlt & Hbq & _).
      replace q with q' by congruence.
      apply lookup_lt_Some in Hbq. lia. }
    intros i c Hi Hci. left. apply C3; [lia|done].
Qed.

End LinkShape.

Section PassEdges.
Context `{DvmGlobals}.
Local Open Scope nat_scope.
Implicit Types (arena : list BasicBlock) (b : BasicBlock).

Lemma statics_refl arena : statics arena arena.
Proof. intros i b Hi. exists b. auto using staticEq_refl. Qed.

Lemma statics_trans a1 a2 a3 : statics a1 a2 → statics a2 a3 → statics a1 a3.
Proof.
  intros S1 S2 i b Hi. destruct (S1 _ _ Hi) as (b2 & H2 & E2).
  destruct (S2 _ _ H2) as (b3 & H3 & E3). exists b3.
  split; [done|]. by eapply staticEq_trans.
Qed.

Lemma frame_statics cur a a' : frame cur a a' → statics a a'.
Proof.
  intros [_ Hf] i b Hi. destruct (Hf _ _ Hi) as (b' & ? & ? & _). eauto.
Qed.

Lemma cellFor_kept caller arena arena' p q c c' :
  cellFor caller arena p q c →
  (∀ x, arena !! p = Some x → ∃ x', arena' !! p = Some x' ∧ core x' = core x) →
  core c' = core c →
  cellFor caller arena' p q c'.
Proof.
  intros (bp & lastInsn & r & out & Hp & Hty & Hlast & Hfb & Hcase) Hk Hc.
  destruct (Hk _ Hp) as (bp' & Hp' & Hcp).
  apply core_fields in Hcp as (_ & _ & _ & Hty' & Hf' & Hm' & Hft' & Htk').
  exists bp', lastInsn, r, out. split; [done|]. split; [congruence|].
  split. { unfold lastMIRInsn in *. congruence. }
  split; [done|]. rewrite Hc, Htk', Hft', Hf'. done.
Qed.

Lemma edgesState_step caller k cur arena arena' b lastInsn :
  edgesState caller k cur arena → passState caller k cur arena →
  cur < k → arena !! cur = Some b → lastMIRInsn b = Some lastInsn →
  frame (Some cur) arena arena' →
  linkedBy caller cur lastInsn arena arena' →
  edgesState caller k (S cur) arena'.
Proof.
  intros He (Hle & Hk & _) Hcur Hb Hlast [_ Hfr]
    (r & out & b0 & b' & Hfb & Hb0 & Hb' & Hlen & Hflag & Hkept & Hedges
     & Hcells).
  replace b0 with b in * by congruence. clear Hb0.
  destruct (Hfr _ _ Hb) as (b'' & Hb'' & (_ & _ & _ & Hty & Hm) & _).
  replace b'' with b' in * by congruence. clear Hb''.
  assert (blockType b' = DALVIK_BYTECODE) as Hty'.
  { specialize (Hk _ _ Hb). destruct (decide (cur < k)); [|lia].
    destruct Hk as (? & _). congruence. }
  assert (lastMIRInsn b' = Some lastInsn) as Hlast'.
  { unfold lastMIRInsn in *. congruence. }
  intros i x' Hi. destruct (decide (i < length arena)) as [Hlt|Hge].
  - destruct (lookup_lt_is_Some_2 _ _ Hlt) as [x Hx].
    destruct (decide (i = cur)) as [->|Hne].
    + replace x' with b' in * by congruence. split.
      { intros q Hq. apply Hedges in Hq. lia. }
      split; [|lia]. intros _ _ l Hl. replace l with lastInsn by congruence.
      done.
    + destruct (Hkept _ _ Hx Hne) as (x'' & Hx'' & Hc).
      replace x'' with x' in * by congruence. clear Hx''.
      destruct (He _ _ Hx) as (E1 & E2 & E3).
      pose proof (core_fields _ _ Hc) as (_ & _ & _ & _ & Hf & Hmx & Hft & Htk).
      split.
      { intros q Hq. rewrite Htk, Hft in Hq. apply E1 in Hq. lia. }
      split.
      { intros Hi1 Hi2 l Hl. rewrite Hf. apply E2; [lia|done|].
        unfold lastMIRInsn in *. congruence. }
      intros Hki. destruct (E3 Hki) as (p & Hp1 & Hp2 & Hcf). exists p.
      split; [lia|]. split; [done|].
      eapply cellFor_kept; [done| |done].
      intros y Hy. apply (Hkept _ _ Hy). lia.
  - assert (k ≤ i) by lia.
    destruct (Hcells i x' ltac:(lia) Hi) as [(Ht & Hne & Hc)|(Hf & Hu & Hc)].
    + pose proof (core_fields (takenCell out _ _) _ Hc)
        as (_ & _ & _ & _ & _ & _ & Hft & Htk).
      split. { intros q [Hq|Hq]; [by rewrite Htk in Hq|by rewrite Hft in Hq]. }
      split; [lia|]. intros _. exists cur. split; [lia|]. split; [done|].
      exists b', lastInsn, r, out. split_and!; try done. by left.
    + pose proof (core_fields (fallThroughCell out _ _ _) _ Hc)
        as (_ & _ & _ & _ & _ & _ & Hft & Htk).
      split. { intros q [Hq|Hq]; [by rewrite Htk in Hq|by rewrite Hft in Hq]. }
      split; [lia|]. intros _. exists cur. split; [lia|]. split; [done|].
      exists b', lastInsn, r, out. split_and!; try done. by right.
Qed.

Lemma edgesState_done caller k cur arena :
  edgesState caller k cur arena → k ≤ cur → edgesState caller k k arena.
Proof.
  intros He Hcur i b Hi. destruct (He _ _ Hi) as (E1 & E2 & E3). split.
  { intros q Hq. apply E1 in Hq. lia. }
  split. { intros ? ?. apply E2; lia. }
  intros Hki. destruct (E3 Hki) as (p & ? & ? & ?). exists p. auto.
Qed.

(** The edge pass, from any state of its loop to its end. *)
Lemma linkBlocks_edges caller k fuel :
  ∀ arena lastBB n cur arena' lastBB' n',
  chained arena lastBB n → passState caller k cur arena →
  edgesState caller k cur arena → cur ≤ k →
  linkBlocks fuel caller
    (if decide (cur < length arena) then Some cur else None) arena lastBB n
  = Ret (arena', lastBB', n') →
  chained arena' lastBB' n' ∧ passState caller k k arena'
  ∧ edgesState caller k k arena' ∧ statics arena arena'.
Proof.
  induction fuel as [|fuel IH];
    intros arena lastBB n cur arena' lastBB' n' Hch Hps He Hcur Hrun.
  { destruct (decide _); [done|]. simpl in Hrun. injection Hrun as <- <- <-.
    pose proof Hps as (? & _).
    split; [done|]. split; [eapply passState_done; [done|lia]|].
    split; [eapply edgesState_done; [done|lia]|apply statics_refl]. }
  destruct (decide (cur < length arena)) as [Hlt|Hge].
  2:{ simpl in Hrun. injection Hrun as <- <- <-. pose proof Hps as (? & _).
      split; [done|]. split; [eapply passState_done; [done|lia]|].
      split; [eapply edgesState_done; [done|lia]|apply statics_refl]. }
  cbn [linkBlocks] in Hrun.
  apply bind_Ret in Hrun as (bb & Hbb & Hrun). apply must_Ret in Hbb.
  pose proof Hps as (Hle & Hk & Hl). pose proof (Hk _ _ Hbb) as Hkind.
  destruct (decide (cur < k)) as [Hck|Hck].
  2:{ destruct Hkind as [_ Hm]. unfold lastMIRInsn in Hrun.
      rewrite Hm in Hrun. simpl in Hrun. injection Hrun as <- <- <-.
      split; [done|]. split; [eapply passState_done; [done|lia]|].
      split; [eapply edgesState_done; [done|lia]|apply statics_refl]. }
  destruct Hkind as (Hty & Hm & Hnone). destruct Hnone as [Htk Hft]; [done|].
  destruct (lastMIRInsn bb) as [lastInsn|] eqn:Hlast.
  2:{ unfold lastMIRInsn in Hlast. apply last_None in Hlast. done. }
  apply bind_Ret in Hrun as ([[a1 l1] n1] & Hlb & Hrun).
  pose proof (linkBlock_shape _ _ _ _ _ _ _ _ _ _ Hch Hbb Htk Hft Hlb) as Hsh.
  assert (chained a1 l1 n1 ∧ frame (Some cur) arena a1
          ∧ freshCells arena a1
          ∧ ∃ b', a1 !! cur = Some b'
                  ∧ blockLinked caller a1 cur b' lastInsn) as
    (Hch1 & Hfr1 & Hfc1 & b' & Hb' & Hbl).
  { refine (safe_Ret _ (λ '(a, l, m), _) _ _ Hlb).
    eapply linkBlock_spec; eauto using passState_noTrailer.
    intros. split_and!; eauto. }
  apply bind_Ret in Hrun as (b'' & Hb'' & Hrun). apply must_Ret in Hb''.
  replace b'' with b' in * by congruence.
  destruct (Hch1) as (_ & _ & Hc1). destruct (Hc1 _ _ Hb') as [_ Hnx].
  rewrite Hnx in Hrun.
  assert (last (mirs b') = Some lastInsn) as Hlast'.
  { destruct Hfr1 as [_ Hf]. destruct (Hf _ _ Hbb) as (bx & Hbx & St & _).
    replace bx with b' in * by congruence.
    destruct St as (_ & _ & _ & _ & ->). done. }
  destruct (IH a1 l1 n1 (S cur) arena' lastBB' n') as (R1 & R2 & R3 & R4);
    try done; try lia.
  - eapply passState_step; eauto.
  - eapply edgesState_step; eauto.
  - split; [done|]. split; [done|]. split; [done|].
    eapply statics_trans; [|done]. by eapply frame_statics.
Qed.

End PassEdges.

Section ScanShape.
Context `{DvmGlobals}.
Local Open Scope nat_scope.
Implicit Types (arena : list BasicBlock) (b : BasicBlock).

Lemma parseInsn_printMe code codePtr printMe :
  parseInsn code codePtr printMe = parseInsn code codePtr false.
Proof. reflexivity. Qed.

Lemma decodedFrom_snoc code codePtr curOffset l insn cp off :
  decodedFrom code codePtr curOffset l →
  endOf codePtr curOffset l = (cp, off) →
  offset insn = off →
  parseInsn code cp false = Ret (width insn, dalvikInsn insn) →
  decodedFrom code codePtr curOffset (l ++ [insn])
  ∧ endOf codePtr curOffset (l ++ [insn])
    = ((cp + width insn)%Z, u32 (off + width insn)).
Proof.
  revert codePtr curOffset.
  induction l as [|m l IH]; intros codePtr curOffset Hd He Ho Hp; simpl in *.
  - injection He as -> ->. done.
  - destruct Hd as (Hm & Hpm & Hd). destruct (IH _ _ Hd He Ho Hp). done.
Qed.

Lemma mirCount_append arena p b insn :
  arena !! p = Some b →
  mirCount (<[p := set_mirs (mirs b ++ [insn]) b]> arena)
  = (mirCount arena + 1)%Z.
Proof.
  intros Hp. unfold mirCount.
  rewrite <- (take_drop_middle arena p b Hp) at 2.
  rewrite insert_take_drop by (by eapply lookup_lt_Some).
  rewrite !map_app, !concat_app, !length_app. simpl.
  rewrite !length_app. simpl. lia.
Qed.

Lemma mirCount_same arena p b x :
  arena !! p = Some b → mirs x = mirs b →
  mirCount (<[p := x]> arena) = mirCount arena.
Proof.
  intros Hp Hm. unfold mirCount. f_equal. f_equal. f_equal.
  change map with (@fmap list _) at 1 2.
  rewrite list_fmap_insert, Hm. apply list_insert_id.
  by rewrite list_lookup_fmap, Hp.
Qed.

Lemma mirCount_app arena l :
  mirCount (arena ++ l) = (mirCount arena + mirCount l)%Z.
Proof. unfold mirCount. rewrite map_app, concat_app, length_app. lia. Qed.

Lemma u32_range z : (0 ≤ u32 z < 2 ^ 32)%Z.
Proof. unfold u32. apply Z.mod_pos_bound. lia. Qed.

Lemma u32_small z : (0 ≤ z < 2 ^ 32)%Z → u32 z = z.
Proof. unfold u32. apply Z.mod_small. Qed.

Lemma blockOfRun_core code run b b' :
  core b' = core b → blockOfRun code run b → blockOfRun code run b'.
Proof.
  intros Hc (H1 & H2 & H3).
  apply core_fields in Hc as (_ & Hso & Hcm & _ & _ & Hm & _).
  unfold blockOfRun. by rewrite Hso, Hcm, Hm.
Qed.

(** The scan, from any state of its loop to its end. *)
Lemma scanTrace_scanned fuel code runs numMaxInsts printMe :
  ∀ arena n cu currRun curOffset numInsts codePtr arena' lastBB' n' cu',
  scanState code runs arena currRun curOffset numInsts codePtr →
  mirCount arena = cu →
  scanTrace fuel code runs numMaxInsts printMe arena currRun currRun n cu
            currRun curOffset numInsts codePtr
  = Ret (arena', lastBB', n', cu') →
  scanned code runs numMaxInsts arena' cu'.
Proof.
  induction fuel as [|fuel IH];
    intros arena n cu currRun curOffset numInsts codePtr arena' lastBB' n' cu'
      (Hlen & Hst) Hcnt Hrun; [done|].
  cbn [scanTrace] in Hrun. rewrite parseInsn_printMe in Hrun.
  apply bind_Ret in Hrun as ([w d] & Hparse & Hrun).
  cbv beta iota in Hrun.
  apply bind_Ret in Hrun as (a1 & Happ & Hrun).
  apply store_Ret in Happ as (b & Hb & ->).
  set (insn := mkMIR d w curOffset) in *.
  set (b1 := set_mirs (mirs b ++ [insn]) b) in *.
  set (a1 := <[currRun := b1]> arena) in *.
  apply bind_Ret in Hrun as (cu1 & Hcu & Hrun).
  apply int_incr_Ret in Hcu as ->.
  assert (mirCount a1 = (cu + 1)%Z) as Hcnt1.
  { subst a1 b1. rewrite mirCount_append by done. lia. }
  assert (length a1 = S currRun) as Hlen1.
  { subst a1. by rewrite length_insert. }
  assert (a1 !! currRun = Some b1) as Hb1.
  { subst a1. rewrite list_lookup_insert_eq; [done|lia]. }
  destruct (Hst _ _ Hb) as (run & Hrun0 & Hbr & _ & Hcur).
  destruct Hcur as [Hend Hleft]; [done|].
  pose proof (u32_range (numInsts - 1)) as Hrange.
  assert (blockOfRun code run b1
          ∧ endOf (frag_startOffset run) (frag_startOffset run) (mirs b1)
            = ((codePtr + w)%Z, u32 (curOffset + w))) as [Hbr1 Hend1].
  { destruct Hbr as (Hso & Hcm & Hdec).
    destruct (decodedFrom_snoc _ _ _ _ insn _ _ Hdec Hend eq_refl Hparse).
    by split_and!. }
  assert (Z.of_nat (length (mirs b1)) = (Z.of_nat (length (mirs b)) + 1)%Z)
    as Hlb1.
  { subst b1. simpl. rewrite length_app. simpl. lia. }
  assert (∀ i x, a1 !! i = Some x → i ≠ currRun →
            ∃ run, runs !! i = Some run ∧ blockOfRun code run x
                   ∧ Z.of_nat (length (mirs x)) = runLength run
                   ∧ frag_runEnd run = false) as Hold.
  { intros i x Hi Hne. subst a1. rewrite list_lookup_insert_ne in Hi by done.
    destruct (Hst _ _ Hi) as (ri & ? & ? & Hc & _).
    destruct Hc; [done|]. eauto. }
  assert (∀ z, scanned code runs numMaxInsts a1 z
    ↔ mirCount a1 = z
      ∧ (numMaxInsts ≤ z
         ∨ (Z.of_nat (length (mirs b1)) = runLength run
            ∧ frag_runEnd run = true))%Z) as Hfin.
  { intros z. unfold scanned. split.
    - intros [Hz Hall]. split; [done|].
      destruct (Hall _ _ Hb1) as (r1 & Hr1 & _ & _ & _ & Hl).
      replace r1 with run in * by congruence. apply Hl. lia.
    - intros [Hz Hl]. split; [done|]. intros i x Hi.
      destruct (decide (i = currRun)) as [->|Hne].
      + replace x with b1 by congruence. exists run.
        split; [done|]. split; [done|]. split; [lia|].
        split; [lia|]. done.
      + destruct (Hold _ _ Hi Hne) as (ri & ? & ? & Hfull & ?). exists ri.
        split; [done|]. split; [done|]. split.
        { unfold runLength in *. pose proof (u32_range (frag_numInsts ri - 1)).
          lia. }
        split; [done|]. intros Hi'. apply lookup_lt_Some in Hi. lia. }
  destruct (cu + 1 >=? numMaxInsts)%Z eqn:Hge.
  { injection Hrun as <- <- <- <-. apply Hfin. split; [done|]. left.
    rewrite Z.geb_leb in Hge. by apply Z.leb_le in Hge. }
  destruct (u32 (numInsts - 1) =? 0)%Z eqn:Hzero.
  - apply Z.eqb_eq in Hzero.
    apply bind_Ret in Hrun as (run' & Hr' & Hrun). apply must_Ret in Hr'.
    replace run' with run in * by congruence. clear Hr'.
    destruct (frag_runEnd run) eqn:Hre.
    { injection Hrun as <- <- <- <-. apply Hfin. split; [done|]. right.
      split; [lia|done]. }
    apply bind_Ret in Hrun as ([[a2 l2] n2] & Happ & Hrun).
    apply appendBB_shape in Happ as (bl & Hbl & -> & -> & ->); [|lia].
    cbv beta iota in Hrun.
    apply bind_Ret in Hrun as (nrun & Hnr & Hrun). apply must_Ret in Hnr.
    apply bind_Ret in Hrun as (a3 & Hst3 & Hrun).
    apply store_Ret in Hst3 as (nb & Hnb & ->).
    rewrite Hlen1 in *.
    rewrite lookup_app_r in Hnb by (rewrite length_insert; lia).
    rewrite length_insert, Hlen1, Nat.sub_diag in Hnb. injection Hnb as <-.
    replace bl with b1 in * by congruence.
    eapply IH; [| |exact Hrun].
    + split.
      { rewrite length_insert, length_app, length_insert. simpl. lia. }
      intros i x Hi. destruct (decide (i = S currRun)) as [->|Hne].
      * rewrite list_lookup_insert_eq in Hi
          by (rewrite length_app, length_insert; simpl; lia).
        injection Hi as <-. exists nrun. split; [done|].
        split; [done|]. split; [done|]. intros _. simpl. split; [done|].
        unfold runLength. lia.
      * rewrite list_lookup_insert_ne in Hi by done.
        assert (i < S currRun).
        { apply lookup_lt_Some in Hi.
          rewrite length_app, length_insert in Hi. simpl in Hi. lia. }
        rewrite lookup_app_l in Hi by (rewrite length_insert; lia).
        destruct (decide (i = currRun)) as [->|Hne'].
        -- rewrite list_lookup_insert_eq in Hi by lia. injection Hi as <-.
           exists run. split; [done|]. split.
           { eapply blockOfRun_core; [|exact Hbr1]. done. }
           split; [|lia]. intros _. split; [|done].
           change (Z.of_nat (length (mirs b1)) = runLength run). lia.
        -- rewrite list_lookup_insert_ne in Hi by done.
           destruct (Hold _ _ Hi Hne') as (ri & ? & ? & ? & ?). exists ri.
           split; [done|]. split; [done|]. split; [done|]. lia.
    + rewrite mirCount_same with (b := mkBB n 0 None DALVIK_BYTECODE false []
                                         None None None); [| |done].
      * rewrite mirCount_app, mirCount_same with (b := b1) by done.
        rewrite Hcnt1. unfold mirCount. simpl. lia.
      * rewrite lookup_app_r by (rewrite length_insert; lia).
        by rewrite length_insert, Hlen1, Nat.sub_diag.
  - apply Z.eqb_neq in Hzero. eapply IH; [| |exact Hrun]; [|done].
    split; [done|]. intros i x Hi.
    destruct (decide (i = currRun)) as [->|Hne].
    + replace x with b1 by congruence. exists run. split; [done|].
      split; [done|]. split; [done|]. intros _. split; [done|].
      rewrite (u32_small (u32 (numInsts - 1) - 1)) by lia. lia.
    + destruct (Hold _ _ Hi Hne) as (ri & ? & ? & ? & ?). exists ri.
      split; [done|]. split; [done|]. split; [done|]. done.
Qed.

End ScanShape.

Section BuildShape.
Context `{DvmGlobals}.
Local Open Scope nat_scope.
Implicit Types (arena : list BasicBlock) (b : BasicBlock).

Lemma appendBB_kept kind arena lastBB n arena' lastBB' n' :
  appendBB kind arena lastBB n = Ret (arena', lastBB', n') →
  lastBB < length arena →
  length arena' = S (length arena)
  ∧ arena' !! length arena
    = Some (mkBB n 0 None kind false [] None None None)
  ∧ lastBB' = length arena ∧ n' = (n + 1)%Z
  ∧ ∀ i x, arena !! i = Some x →
      ∃ x', arena' !! i = Some x' ∧ core x' = core x.
Proof.
  intros Ha Hlt. apply appendBB_shape in Ha as (bl & Hbl & -> & -> & ->);
    [|done].
  split. { rewrite length_app, length_insert. simpl. lia. }
  split. { rewrite lookup_app_r by (rewrite length_insert; lia).
           by rewrite length_insert, Nat.sub_diag. }
  split; [done|]. split; [done|]. intros i x Hi.
  assert (i < length arena) by (by eapply lookup_lt_Some).
  rewrite lookup_app_l by (rewrite length_insert; lia).
  destruct (decide (lastBB = i)) as [->|Hne].
  - rewrite list_lookup_insert_eq by done. eexists. split; [done|].
    replace bl with x by congruence. done.
  - rewrite list_lookup_insert_ne by done. eauto.
Qed.

Lemma scanned_statics code runs numMaxInsts arena arena' cu :
  scanned code runs numMaxInsts arena cu →
  length arena' = length arena → statics arena arena' →
  scanned code runs numMaxInsts arena' cu.
Proof.
  intros [Hcnt Hall] Hlen Hst.
  assert (map mirs arena' = map mirs arena) as Hm.
  { apply list_eq. intros i. change map with (@fmap list _).
    rewrite !list_lookup_fmap.
    destruct (arena !! i) as [b|] eqn:Hb.
    - destruct (Hst _ _ Hb) as (b' & -> & (_ & _ & _ & _ & Hmb)). simpl.
      by rewrite Hmb.
    - apply lookup_ge_None in Hb. rewrite lookup_ge_None_2 by lia. done. }
  split. { unfold mirCount in *. by rewrite Hm. }
  intros i b' Hi.
  assert (i < length arena).
  { apply lookup_lt_Some in Hi. lia. }
  destruct (lookup_lt_is_Some_2 arena i ltac:(done)) as [b Hb].
  destruct (Hst _ _ Hb) as (b'' & Hb'' & (_ & Hso & Hcm & _ & Hmb)).
  replace b'' with b' in * by congruence.
  destruct (Hall _ _ Hb) as (run & ? & (B1 & B2 & B3) & ? & ? & ?).
  exists run. rewrite Hlen. unfold blockOfRun. rewrite Hso, Hcm, Hmb.
  split_and!; auto; lia.
Qed.

End BuildShape.

Section BuildShape2.
Context `{DvmGlobals}.
Local Open Scope nat_scope.
Implicit Types (arena : list BasicBlock) (b : BasicBlock).

Lemma buildTrace_traceBlocks desc numMaxInsts arena cUnit :
  buildTrace desc numMaxInsts = Ret (arena, cUnit) →
  ∃ dexCode, dvmGetMethodCode (method desc) = Some dexCode
    ∧ traceBlocks desc (dex_insns dexCode) numMaxInsts arena cUnit.
Proof.
  intros Hb. unfold buildTrace in Hb.
  apply bind_Ret in Hb as (dexCode & Hcode & Hb). apply must_Ret in Hcode.
  apply bind_Ret in Hb as (run0 & Hrun0 & Hb). apply must_Ret in Hrun0.
  unfold dvmCompilerNewBB in Hb. cbn [app length] in Hb.
  apply bind_Ret in Hb as (a & Hs & Hb). apply store_Ret in Hs as (b0 & Hb0 & ->).
  injection Hb0 as <-.
  apply bind_Ret in Hb as (a & Hs & Hb). apply store_Ret in Hs as (b0 & Hb0 & ->).
  injection Hb0 as <-. cbn [list_insert insert] in Hb.
  apply bind_Ret in Hb as (n0 & Hn0 & Hb). apply int_incr_Ret in Hn0 as ->.
  apply bind_Ret in Hb as ([[[a1 l1] n1] ni] & Hscan & Hb).
  cbv beta iota in Hb.
  apply bind_Ret in Hb as ([[a2 l2] n2] & Hlink & Hb). cbv beta iota in Hb.
  apply bind_Ret in Hb as ([[a3 l3] n3] & Hpc & Hb). cbv beta iota in Hb.
  apply bind_Ret in Hb as ([[a4 l4] n4] & Heh & Hb). cbv beta iota in Hb.
  apply bind_Ret in Hb as ([bl cb] & Hfill & Hb). cbv beta iota in Hb.
  destruct (bool_decide (cb = None)); [|done]. injection Hb as <- <-.
  cbn [numInsts set_numInsts].
  exists dexCode. split; [done|].
  pose proof (screenTrace_numInsts (method desc)
                (set_printMe gDvmJit_printMe zeroCU)) as Hzero.
  simpl in Hzero. rewrite Hzero in Hscan. clear Hzero.
  set (a0 := [mkBB 0 (frag_startOffset run0) None DALVIK_BYTECODE false []
                   None None None]) in *.
  (* the scan *)
  assert (chained a1 l1 n1 ∧ allBytecode a1 None) as [Hch1 Hall1].
  { refine (safe_Ret _ (λ '(a, l, m, _), _) _ _ Hscan).
    apply scanTrace_spec; try done; try lia.
    - split; [done|]. split; [done|]. intros [|i] b Hi; [|done].
      injection Hi as <-. done.
    - intros [|i] b Hi; [|done]. injection Hi as <-. done. }
  assert (scanned (dex_insns dexCode) (trace desc) numMaxInsts a1 ni) as Hsc1.
  { eapply scanTrace_scanned; [| |exact Hscan]; [|done].
    split; [done|]. intros [|i] b Hi; [|done]. injection Hi as <-.
    exists run0. split; [done|]. split; [done|]. split; [done|].
    intros _. simpl. split; [done|]. unfold runLength. lia. }
  (* the edge pass *)
  set (k := length a1) in *.
  assert (0 < k) as Hk by (destruct Hch1 as (? & _); lia).
  replace (Some 0) with (if decide (0 < length a1) then Some 0 else None)
    in Hlink by (by rewrite decide_True).
  apply (linkBlocks_edges _ k) in Hlink as (Hch2 & Hps2 & He2 & Hst2);
    [|done|by apply allBytecode_passState| |lia].
  2:{ intros i b Hi. destruct (Hall1 _ _ Hi) as (_ & [Ht Hf] & _).
      split. { intros q [Hq|Hq]; congruence. }
      split; [lia|]. apply lookup_lt_Some in Hi. lia. }
  (* the trailer *)
  pose proof Hch2 as (Hl2 & Hn2 & _).
  apply appendBB_kept in Hpc as (Hlen3 & Hpcr & -> & -> & Hk3); [|lia].
  apply appendBB_kept in Heh as (Hlen4 & Heh & -> & -> & Hk4); [|lia].
  destruct (Hk4 _ _ Hpcr) as (pcr & Hpcr4 & Hcpcr).
  assert (∀ i x, a2 !! i = Some x →
            ∃ x', a4 !! i = Some x' ∧ core x' = core x) as Hk24.
  { intros i x Hi. destruct (Hk3 _ _ Hi) as (x3 & Hx3 & Hc3).
    destruct (Hk4 _ _ Hx3) as (x4 & Hx4 & Hc4). exists x4.
    split; [done|]. congruence. }
  pose proof Hps2 as (Hle2 & Hkind2 & _).
  exists k, (length a2 - k). split; [lia|]. split; [lia|]. split.
  { eapply scanned_statics; [exact Hsc1| |].
    - rewrite length_take. lia.
    - intros i b Hi. destruct (Hst2 _ _ Hi) as (b2 & Hb2 & St2).
      destruct (Hk24 _ _ Hb2) as (b4 & Hb4 & Hc4). exists b4.
      apply lookup_lt_Some in Hi.
      rewrite lookup_take_lt by done. split; [done|].
      eapply staticEq_trans; [done|].
      apply core_fields in Hc4 as (? & ? & ? & ? & _ & ? & _). done. }
  intros i b Hi. destruct (decide (i < length a2)) as [Hlt|Hge].
  - destruct (lookup_lt_is_Some_2 _ _ Hlt) as [x Hx].
    destruct (Hk24 _ _ Hx) as (b' & Hb' & Hc).
    replace b' with b in * by congruence. clear Hb'.
    pose proof (core_fields _ _ Hc) as (_ & _ & _ & Hty & Hf & Hm & Hft & Htk).
    destruct (He2 _ _ Hx) as (E1 & E2 & E3). specialize (Hkind2 _ _ Hx).
    split. { intros q Hq. rewrite Htk, Hft in Hq. apply E1 in Hq. lia. }
    split.
    { intros Hik. destruct (decide (i < k)); [|lia].
      destruct Hkind2 as (? & _). split; [congruence|].
      intros li Hli. rewrite Hf. apply E2; try done.
      unfold lastMIRInsn in *. congruence. }
    split.
    { intros Hik. destruct (decide (i < k)); [lia|].
      destruct Hkind2 as (? & _). split; [congruence|].
      destruct E3 as (p & _ & Hp & Hcf); [lia|]. exists p. split; [done|].
      eapply cellFor_kept; [exact Hcf| |done].
      intros y Hy. eauto. }
    intros ?. lia.
  - assert (i = length a2 ∨ i = length a3) as Hcase.
    { apply lookup_lt_Some in Hi. lia. }
    assert (core b = mkBB (Z.of_nat i) 0 None
                          (if decide (i = k + (length a2 - k))
                           then PC_RECONSTRUCTION else EXCEPTION_HANDLING)
                          false [] None None None) as Hcore.
    { destruct Hcase as [-> | ->].
      - replace b with pcr by congruence. rewrite Hcpcr.
        rewrite decide_True by lia. unfold core. simpl. by rewrite Hn2.
      - replace b with (mkBB (n2 + 1) 0 None EXCEPTION_HANDLING false []
                             None None None) by congruence.
        rewrite decide_False by lia. unfold core. simpl.
        by replace (Z.of_nat (length a3)) with (n2 + 1)%Z by lia. }
    pose proof (core_fields (mkBB _ _ _ _ _ _ _ _ None) _ Hcore)
      as (_ & _ & _ & _ & _ & _ & Hft & Htk).
    split. { intros q [Hq|Hq]; [by rewrite Htk in Hq|by rewrite Hft in Hq]. }
    split; [lia|]. split; [lia|]. done.
Qed.

End BuildShape2.

(** ** The trace graph builder: what a built graph guarantees *)

Section TraceBlocksFacts.
Context `{DvmGlobals}.
Local Open Scope nat_scope.

Lemma traceBlocks_kind desc code numMaxInsts arena cUnit k c :
  length arena = k + c + 2 →
  (∀ i b, arena !! i = Some b → blockInTrace (method desc) k c arena i b) →
  scanned code (trace desc) numMaxInsts (take k arena) (numInsts cUnit) →
  ∀ i b, arena !! i = Some b →
    (blockType b = DALVIK_BYTECODE → i < k)
    ∧ (isChainingCell (blockType b) = true → k ≤ i < k + c)
    ∧ (k ≤ i → mirs b = [] ∧ needFallThroughBranch b = false)
    ∧ (i < k → mirs b ≠ []).
Proof.
  intros Hlen Hall Hsc i b Hi. destruct (Hall _ _ Hi) as (_ & B & C & T).
  assert (i < length arena) as Hlt by (by eapply lookup_lt_Some).
  assert (k + c ≤ i →
          blockType b ≠ DALVIK_BYTECODE
          ∧ isChainingCell (blockType b) = false
          ∧ mirs b = [] ∧ needFallThroughBranch b = false) as T'.
  { intros Hge. specialize (T Hge).
    pose proof (core_fields (mkBB _ _ _ _ _ _ _ _ None) _ T)
      as (_ & _ & _ & Hty & Hf & Hm & _).
    simpl in *. rewrite Hty. by destruct (decide _). }
  assert (k ≤ i < k + c →
          mirs b = [] ∧ needFallThroughBranch b = false) as C'.
  { intros Hr. destruct (C Hr) as (_ & p & _ & Hcf).
    destruct Hcf as (? & ? & ? & ? & _ & _ & _ & _ & [(_ & _ & Hc)|(_ & _ & Hc)]).
    - pose proof (core_fields (takenCell _ _ _) _ Hc)
        as (_ & _ & _ & _ & Hf & Hm & _). done.
    - pose proof (core_fields (fallThroughCell _ _ _ _) _ Hc)
        as (_ & _ & _ & _ & Hf & Hm & _). done. }
  split.
  { intros Hty. destruct (decide (i < k)); [done|].
    destruct (decide (i < k + c)).
    - destruct C as [C _]; [lia|]. rewrite Hty in C. done.
    - destruct T' as [T' _]; [lia|]. done. }
  split.
  { intros Hty. destruct (decide (i < k)).
    - destruct B as [B _]; [done|]. rewrite B in Hty. done.
    - destruct (decide (i < k + c)); [lia|].
      destruct T' as (_ & T' & _); [lia|]. congruence. }
  split.
  { intros Hki. destruct (decide (i < k + c)); [apply C'; lia|].
    destruct T' as (_ & _ & ?); [lia|done]. }
  intros Hik. destruct Hsc as [_ Hsc].
  destruct (Hsc i b) as (run & _ & _ & Hl & _).
  { by rewrite lookup_take_lt. }
  destruct (mirs b); [simpl in Hl; lia|done].
Qed.

End TraceBlocksFacts.

(** X6. In a graph built by the trace builder only bytecode blocks have
    edges, and every taken or fallthrough edge leads to a block that was
    created later: a bytecode block of the trace or a chaining cell, never
    the block itself, an earlier block or a trailer block. *)
Theorem trace_edges_lead_forward `{DvmGlobals} (desc : JitTraceDescription)
    (numMaxInsts : Z) (arena : list BasicBlock) (cUnit : CompilationUnit)
    (p q : nat) (b : BasicBlock) :
  buildTrace desc numMaxInsts = Ret (arena, cUnit) →
  arena !! p = Some b →
  taken b = Some q ∨ fallThrough b = Some q →
  blockType b = DALVIK_BYTECODE ∧ (p < q)%nat
  ∧ ∃ bq, arena !! q = Some bq
          ∧ (blockType bq = DALVIK_BYTECODE
             ∨ isChainingCell (blockType bq) = true).
Proof.
  intros Hb Hp Hq. apply buildTrace_traceBlocks in Hb as (dexCode & _ & Htb).
  destruct Htb as (k & c & Hlen & Hk & Hsc & Hall).
  destruct (Hall _ _ Hp) as (E & B & _). destruct (E q Hq) as [Hpk Hpq].
  destruct (B Hpk) as [Hty _]. split; [done|]. split; [lia|].
  destruct (lookup_lt_is_Some_2 arena q ltac:(lia)) as [bq Hbq].
  exists bq. split; [done|]. destruct (Hall _ _ Hbq) as (_ & Bq & Cq & _).
  destruct (decide (q < k)%nat).
  - left. by destruct Bq.
  - right. destruct Cq; [lia|done].
Qed.

(** On a trace of one conditional branch: the taken edge of block 0 leads
    to the block at 1, a chaining cell. *)
Lemma trace_edges_lead_forward_witness :
  ∃ arena cUnit b,
    @buildTrace Reference.plain (Reference.oneRun [0x0038; 4] 0 1) 100
    = Ret (arena, cUnit)
    ∧ arena !! 0%nat = Some b ∧ taken b = Some 1%nat
    ∧ blockType b = DALVIK_BYTECODE ∧ (0 < 1)%nat
    ∧ ∃ bq, arena !! 1%nat = Some bq
            ∧ (blockType bq = DALVIK_BYTECODE
               ∨ isChainingCell (blockType bq) = true).
Proof.
  destruct (@buildTrace Reference.plain (Reference.oneRun [0x0038; 4] 0 1)
              100) as [[arena cUnit]| | |] eqn:Hb;
    [|vm_compute in Hb; discriminate..].
  destruct (arena !! 0%nat) as [b|] eqn:Hp;
    [|vm_compute in Hb; injection Hb as <- _; discriminate].
  assert (taken b = Some 1%nat) as Ht.
  { vm_compute in Hb. injection Hb as <- _. injection Hp as <-. reflexivity. }
  exists arena, cUnit, b. split; [reflexivity|]. split; [exact Hp|].
  split; [exact Ht|].
  exact (trace_edges_lead_forward _ _ _ _ _ _ _ Hb Hp (or_introl Ht)).
Defined.

(** X7. Every chaining cell of a built trace graph was made for an edge of an
    earlier bytecode block: that block has the cell as its taken edge, the
    cell being the one of lines 362 to 380 for the target the classifier
    gave the last instruction of the block, or as its fallthrough edge, the
    cell being the one of lines 383 to 398 for the offset after that
    instruction. *)
Theorem trace_chaining_cell_origin `{DvmGlobals} (desc : JitTraceDescription)
    (numMaxInsts : Z) (arena : list BasicBlock) (cUnit : CompilationUnit)
    (q : nat) (c : BasicBlock) :
  buildTrace desc numMaxInsts = Ret (arena, cUnit) →
  arena !! q = Some c → isChainingCell (blockType c) = true →
  ∃ p, (p < q)%nat ∧ cellFor (method desc) arena p q c.
Proof.
  intros Hb Hq Hty. apply buildTrace_traceBlocks in Hb as (dexCode & _ & Htb).
  destruct Htb as (k & n & Hlen & Hk & Hsc & Hall).
  destruct (traceBlocks_kind _ _ _ _ _ _ _ Hlen Hall Hsc _ _ Hq)
    as (_ & Hr & _).
  destruct (Hall _ _ Hq) as (_ & _ & C & _).
  destruct (C (Hr Hty)) as (_ & p & Hp & Hcf). exists p.
  split; [|done]. specialize (Hr Hty). lia.
Qed.

(** On a trace of one goto that leaves the trace: the hot cell at 1 was
    made for block 0. *)
Lemma trace_chaining_cell_origin_witness :
  ∃ arena cUnit c,
    @buildTrace Reference.plain (Reference.oneRun [0x0528] 0 1) 100
    = Ret (arena, cUnit)
    ∧ arena !! 1%nat = Some c ∧ blockType c = CHAINING_CELL_HOT
    ∧ ∃ p, (p < 1)%nat
           ∧ @cellFor Reference.plain (Reference.methodOf [0x0528]) arena p
                      1 c.
Proof.
  destruct (@buildTrace Reference.plain (Reference.oneRun [0x0528] 0 1)
              100) as [[arena cUnit]| | |] eqn:Hb;
    [|vm_compute in Hb; discriminate..].
  destruct (arena !! 1%nat) as [c|] eqn:Hq;
    [|vm_compute in Hb; injection Hb as <- _; discriminate].
  assert (blockType c = CHAINING_CELL_HOT) as Hty.
  { vm_compute in Hb. injection Hb as <- _. injection Hq as <-. reflexivity. }
  exists arena, cUnit, c. split; [reflexivity|]. split; [exact Hq|].
  split; [exact Hty|].
  apply (trace_chaining_cell_origin _ _ _ _ _ _ Hb Hq).
  rewrite Hty. reflexivity.
Defined.

(** X8. A chaining cell of the invoke kind has the start offset 0 and names
    the callee, a method that is not native; no other block of a built
    trace graph has a containing method. *)
Theorem trace_invoke_cell_callee `{DvmGlobals} (desc : JitTraceDescription)
    (numMaxInsts : Z) (arena : list BasicBlock) (cUnit : CompilationUnit)
    (q : nat) (c : BasicBlock) :
  buildTrace desc numMaxInsts = Ret (arena, cUnit) →
  arena !! q = Some c →
  (blockType c = CHAINING_CELL_INVOKE →
   startOffset c = 0
   ∧ ∃ calleeMethod,
       containingMethod c = Some calleeMethod
       ∧ dvmIsNativeMethod calleeMethod = false)
  ∧ (blockType c ≠ CHAINING_CELL_INVOKE → containingMethod c = None).
Proof.
  intros Hb Hq. apply buildTrace_traceBlocks in Hb as (dexCode & _ & Htb).
  destruct Htb as (k & n & Hlen & Hk & Hsc & Hall).
  destruct (Hall _ _ Hq) as (_ & B & C & T).
  assert (q < length arena)%nat as Hlt by (by eapply lookup_lt_Some).
  destruct (decide (q < k)%nat) as [Hqk|Hqk].
  { destruct (B Hqk) as [Hty _]. rewrite Hty. split; [done|]. intros _.
    destruct Hsc as [_ Hsc]. destruct (Hsc q c) as (run & _ & Hbr & _).
    { by rewrite lookup_take_lt. }
    by destruct Hbr as (_ & ? & _). }
  destruct (decide (q < k + n)%nat) as [Hqc|Hqc].
  2:{ specialize (T ltac:(lia)).
      pose proof (core_fields (mkBB _ _ _ _ _ _ _ _ None) _ T)
        as (_ & _ & Hcm & Hty & _).
      rewrite Hty. simpl. split; [by case_match|done]. }
  destruct C as (_ & p & _ & Hcf); [lia|].
  destruct Hcf as (bp & lastInsn & r & out & _ & _ & _ & Hfb & Hcase).
  destruct Hcase as [(_ & Hne & Hc)|(_ & _ & Hc)].
  - pose proof (core_fields (takenCell _ _ _) _ Hc)
      as (_ & Hso & Hcm & Hty & _).
    rewrite Hty, Hso, Hcm. unfold takenCell. simpl.
    destruct (findBlockBoundary_moves_target _ _ _ _ _ _ Hfb Hne)
      as [(_ & ->)|(Hinv & m & Hm & Hnat & _)].
    + simpl. split; [by repeat case_match|done].
    + rewrite Hinv. split; [eauto|done].
  - pose proof (core_fields (fallThroughCell _ _ _ _) _ Hc)
      as (_ & _ & Hcm & Hty & _).
    rewrite Hty, Hcm. unfold fallThroughCell. simpl.
    split; [by repeat case_match|done].
Qed.

(** X9. In a built trace graph the flag [needFallThroughBranch] of a block
    says that the block has a last instruction and that this instruction
    can neither branch, switch, return nor invoke; blocks without
    instructions (chaining cells and trailer blocks) have the flag
    clear. *)
Theorem trace_needFallThroughBranch `{DvmGlobals}
    (desc : JitTraceDescription) (numMaxInsts : Z)
    (arena : list BasicBlock) (cUnit : CompilationUnit)
    (p : nat) (b : BasicBlock) :
  buildTrace desc numMaxInsts = Ret (arena, cUnit) →
  arena !! p = Some b →
  needFallThroughBranch b
  = match lastMIRInsn b with
    | Some lastInsn =>
        Z.land (dexGetInstrFlags (opCode (dalvikInsn lastInsn)))
               controlFlowFlags =? 0
    | None => false
    end.
Proof.
  intros Hb Hp. apply buildTrace_traceBlocks in Hb as (dexCode & _ & Htb).
  destruct Htb as (k & n & Hlen & Hk & Hsc & Hall).
  destruct (traceBlocks_kind _ _ _ _ _ _ _ Hlen Hall Hsc _ _ Hp)
    as (_ & _ & Hcell & _).
  destruct (Hall _ _ Hp) as (_ & B & _).
  destruct (decide (p < k)%nat) as [Hpk|Hpk].
  - destruct (B Hpk) as [_ Hf]. destruct (lastMIRInsn b) as [l|] eqn:Hl; auto.
    destruct Hsc as [_ Hsc]. destruct (Hsc p b) as (run & _ & _ & Hlm & _).
    { by rewrite lookup_take_lt. }
    unfold lastMIRInsn in Hl. apply last_None in Hl. rewrite Hl in Hlm.
    simpl in Hlm. lia.
  - destruct Hcell as [Hm ->]; [lia|]. unfold lastMIRInsn. by rewrite Hm.
Qed.

(** On a trace of one invoke-static of a method that has code. *)
Lemma trace_invoke_cell_callee_witness :
  let calleeMethod :=
    mkMethod Reference.object "run" 0 0 0x40002000
             (Some (mkDexCode [0x0e])) in
  let caller :=
    mkMethod (mkClassObject "LFoo;" [Some calleeMethod] []
                            (Some Reference.object))
             "bar" 0 0 0x40001000 (Some (mkDexCode [0x0071; 0; 0])) in
  ∃ arena cUnit c,
    @buildTrace Reference.plain (mkTraceDesc caller [mkRun 0 1 true]) 100
    = Ret (arena, cUnit)
    ∧ arena !! 1%nat = Some c ∧ blockType c = CHAINING_CELL_INVOKE
    ∧ startOffset c = 0
    ∧ ∃ m, containingMethod c = Some m ∧ dvmIsNativeMethod m = false.
Proof.
  intros calleeMethod caller.
  destruct (@buildTrace Reference.plain (mkTraceDesc caller [mkRun 0 1 true])
              100) as [[arena cUnit]| | |] eqn:Hb;
    [|vm_compute in Hb; discriminate..].
  destruct (arena !! 1%nat) as [c|] eqn:Hq;
    [|vm_compute in Hb; injection Hb as <- _; discriminate].
  assert (blockType c = CHAINING_CELL_INVOKE) as Hty.
  { vm_compute in Hb. injection Hb as <- _. injection Hq as <-. reflexivity. }
  exists arena, cUnit, c. split; [reflexivity|]. split; [exact Hq|].
  split; [exact Hty|].
  destruct (trace_invoke_cell_callee _ _ _ _ _ _ Hb Hq) as [Hinv _].
  exact (Hinv Hty).
Defined.

(** On a run of three instructions cut by a budget of two: the block ends
    in a const/4 and has the flag. *)
Lemma trace_needFallThroughBranch_witness :
  ∃ arena cUnit b,
    @buildTrace Reference.plain
                (Reference.oneRun [0x0012; 0x0012; 0x000e] 0 3) 2
    = Ret (arena, cUnit)
    ∧ arena !! 0%nat = Some b
    ∧ needFallThroughBranch b = true
    ∧ needFallThroughBranch b
      = match lastMIRInsn b with
        | Some lastInsn =>
            Z.land (@dexGetInstrFlags Reference.plain
                      (opCode (dalvikInsn lastInsn)))
                   controlFlowFlags =? 0
        | None => false
        end.
Proof.
  destruct (@buildTrace Reference.plain
              (Reference.oneRun [0x0012; 0x0012; 0x000e] 0 3) 2)
    as [[arena cUnit]| | |] eqn:Hb; [|vm_compute in Hb; discriminate..].
  destruct (arena !! 0%nat) as [b|] eqn:Hp;
    [|vm_compute in Hb; injection Hb as <- _; discriminate].
  exists arena, cUnit, b. split; [reflexivity|]. split; [exact Hp|]. split.
  { vm_compute in Hb. injection Hb as <- _. injection Hp as <-. reflexivity. }
  exact (trace_needFallThroughBranch _ _ _ _ _ _ Hb Hp).
Defined.

(** X10. In a graph built by the trace builder the bytecode block at position
    [i] of the arena belongs to run [i] of the trace description: it starts
    at the start offset of the run, it is not empty, and its instructions
    are what [parseInsn] reads one after the other from that offset, each
    at the offset that the widths before it give. *)
Theorem trace_blocks_decode_runs `{DvmGlobals} (desc : JitTraceDescription)
    (numMaxInsts : Z) (arena : list BasicBlock) (cUnit : CompilationUnit)
    (i : nat) (b : BasicBlock) :
  buildTrace desc numMaxInsts = Ret (arena, cUnit) →
  arena !! i = Some b → blockType b = DALVIK_BYTECODE →
  ∃ dexCode run,
    dvmGetMethodCode (method desc) = Some dexCode
    ∧ trace desc !! i = Some run
    ∧ startOffset b = frag_startOffset run
    ∧ mirs b ≠ []
    ∧ decodedFrom (dex_insns dexCode) (frag_startOffset run)
                  (frag_startOffset run) (mirs b).
Proof.
  intros Hb Hi Hty.
  apply buildTrace_traceBlocks in Hb as (dexCode & Hcode & Htb).
  destruct Htb as (k & n & Hlen & Hk & Hsc & Hall).
  destruct (traceBlocks_kind _ _ _ _ _ _ _ Hlen Hall Hsc _ _ Hi)
    as (Hik & _ & _ & Hne).
  specialize (Hik Hty). destruct Hsc as [_ Hsc].
  destruct (Hsc i b) as (run & Hrun & (Hso & _ & Hdec) & _).
  { by rewrite lookup_take_lt. }
  exists dexCode, run. split_and!; auto.
Qed.

(** On a trace of two runs: the second block holds the two instructions of
    the run that starts at offset 3. *)
Lemma trace_blocks_decode_runs_witness :
  ∃ arena cUnit b,
    @buildTrace Reference.plain
       (mkTraceDesc (Reference.methodOf [0x0038; 3; 0x0012; 0x0012; 0x000e])
                    [mkRun 0 1 false; mkRun 3 2 true]) 100
    = Ret (arena, cUnit)
    ∧ arena !! 1%nat = Some b
    ∧ map offset (mirs b) = [3; 4]
    ∧ ∃ dexCode run,
        dexCode = mkDexCode [0x0038; 3; 0x0012; 0x0012; 0x000e]
        ∧ run = mkRun 3 2 true
        ∧ startOffset b = frag_startOffset run
        ∧ mirs b ≠ []
        ∧ @decodedFrom Reference.plain (dex_insns dexCode)
            (frag_startOffset run) (frag_startOffset run) (mirs b).
Proof.
  destruct (@buildTrace Reference.plain
       (mkTraceDesc (Reference.methodOf [0x0038; 3; 0x0012; 0x0012; 0x000e])
                    [mkRun 0 1 false; mkRun 3 2 true]) 100)
    as [[arena cUnit]| | |] eqn:Hb; [|vm_compute in Hb; discriminate..].
  destruct (arena !! 1%nat) as [b|] eqn:Hp;
    [|vm_compute in Hb; injection Hb as <- _; discriminate].
  assert (blockType b = DALVIK_BYTECODE) as Hty.
  { vm_compute in Hb. injection Hb as <- _. injection Hp as <-. reflexivity. }
  exists arena, cUnit, b. split; [reflexivity|]. split; [exact Hp|]. split.
  { vm_compute in Hb. injection Hb as <- _. injection Hp as <-. reflexivity. }
  destruct (trace_blocks_decode_runs _ _ _ _ _ _ Hb Hp Hty)
    as (dexCode & run & Hcode & Hrun & Hrest).
  exists dexCode, run. injection Hcode as <-. injection Hrun as <-.
  split; [reflexivity|]. split; [reflexivity|]. exact Hrest.
Defined.

Section CountFacts.
Context `{DvmGlobals}.
Local Open Scope nat_scope.

Lemma mirCount_empty (l : list BasicBlock) :
  (∀ i b, l !! i = Some b → mirs b = []) → mirCount l = 0%Z.
Proof.
  unfold mirCount. induction l as [|x l IH]; intros Hall; [done|].
  simpl. rewrite (Hall 0 x eq_refl). simpl. apply IH.
  intros i b Hi. apply (Hall (S i)). done.
Qed.

Lemma buildTrace_unit desc numMaxInsts arena cUnit :
  buildTrace desc numMaxInsts = Ret (arena, cUnit) →
  let screened :=
    screenTrace (method desc) (set_printMe gDvmJit_printMe zeroCU) in
  cu_method cUnit = Some (method desc) ∧ traceDesc cUnit = Some desc
  ∧ printMe cUnit = printMe screened
  ∧ allSingleStep cUnit = allSingleStep screened.
Proof.
  intros Hb. unfold buildTrace in Hb.
  apply bind_Ret in Hb as (dexCode & _ & Hb).
  apply bind_Ret in Hb as (run0 & _ & Hb).
  unfold dvmCompilerNewBB in Hb. cbn [app length] in Hb.
  apply bind_Ret in Hb as (a & _ & Hb).
  apply bind_Ret in Hb as (a' & _ & Hb).
  apply bind_Ret in Hb as (n0 & _ & Hb).
  apply bind_Ret in Hb as ([[[a1 l1] n1] ni] & _ & Hb).
  cbv beta iota in Hb.
  apply bind_Ret in Hb as ([[a2 l2] n2] & _ & Hb). cbv beta iota in Hb.
  apply bind_Ret in Hb as ([[a3 l3] n3] & _ & Hb). cbv beta iota in Hb.
  apply bind_Ret in Hb as ([[a4 l4] n4] & _ & Hb). cbv beta iota in Hb.
  apply bind_Ret in Hb as ([bl cb] & _ & Hb). cbv beta iota in Hb.
  destruct (bool_decide (cb = None)); [|done]. injection Hb as <- <-.
  done.
Qed.

End CountFacts.

(** X11. The instruction count of the unit is the number of instructions in
    the blocks of the graph; it is at least one and at most the budget (one
    when the budget is smaller).  A bytecode block holds no more
    instructions than its run gives (a count of 0 standing for 2^32); it
    holds all of them when another bytecode block follows, the run then
    not being marked as the end; the last bytecode block is cut short only
    when the budget is used up. *)
Theorem trace_instruction_count `{DvmGlobals} (desc : JitTraceDescription)
    (numMaxInsts : Z) (arena : list BasicBlock) (cUnit : CompilationUnit) :
  buildTrace desc numMaxInsts = Ret (arena, cUnit) →
  mirCount arena = numInsts cUnit
  ∧ 1 ≤ numInsts cUnit ≤ Z.max 1 numMaxInsts
  ∧ ∀ i b run after,
      arena !! i = Some b → blockType b = DALVIK_BYTECODE →
      trace desc !! i = Some run → arena !! S i = Some after →
      1 ≤ Z.of_nat (length (mirs b)) ≤ runLength run
      ∧ (blockType after = DALVIK_BYTECODE →
         Z.of_nat (length (mirs b)) = runLength run
         ∧ frag_runEnd run = false)
      ∧ (blockType after ≠ DALVIK_BYTECODE →
         numMaxInsts ≤ numInsts cUnit
         ∨ (Z.of_nat (length (mirs b)) = runLength run
            ∧ frag_runEnd run = true)).
Proof.
  intros Hb. pose proof (buildTrace_traceGraph _ _ _ _ Hb)
    as (? & ? & ? & _ & _ & _ & _ & _ & Hni & _).
  apply buildTrace_traceBlocks in Hb as (dexCode & Hcode & Htb).
  destruct Htb as (k & n & Hlen & Hk & Hsc & Hall).
  pose proof (traceBlocks_kind _ _ _ _ _ _ _ Hlen Hall Hsc) as Hkind.
  split.
  { rewrite <- (take_drop k arena), mirCount_app. destruct Hsc as [-> _].
    rewrite mirCount_empty; [lia|]. intros i b Hi.
    rewrite lookup_drop in Hi. destruct (Hkind _ _ Hi) as (_ & _ & Hm & _).
    apply Hm. lia. }
  split; [done|]. intros i b run after Hi Hty Hrun Hafter.
  destruct (Hkind _ _ Hi) as (Hik & _). specialize (Hik Hty).
  destruct (Hkind _ _ Hafter) as (Hak & _ & _ & _).
  destruct Hsc as [_ Hsc].
  destruct (Hsc i b) as (run' & Hrun' & _ & Hl & Hfull & Hlast).
  { by rewrite lookup_take_lt. }
  replace run' with run in * by congruence. rewrite length_take in *.
  split; [done|]. split.
  - intros Ha. apply Hfull. specialize (Hak Ha). lia.
  - intros Ha. apply Hlast. destruct (decide (S i < k)%nat) as [Hlt|]; [|lia].
    destruct (Hall _ _ Hafter) as (_ & B & _). by destruct (B Hlt).
Qed.

(** On a run of three instructions with a budget of two. *)
Lemma trace_instruction_count_witness :
  ∃ arena cUnit,
    @buildTrace Reference.plain
                (Reference.oneRun [0x0012; 0x0012; 0x000e] 0 3) 2
    = Ret (arena, cUnit)
    ∧ numInsts cUnit = 2
    ∧ mirCount arena = numInsts cUnit
    ∧ 1 ≤ numInsts cUnit ≤ Z.max 1 2.
Proof.
  destruct (@buildTrace Reference.plain
              (Reference.oneRun [0x0012; 0x0012; 0x000e] 0 3) 2)
    as [[arena cUnit]| | |] eqn:Hb; [|vm_compute in Hb; discriminate..].
  exists arena, cUnit. split; [reflexivity|]. split.
  { vm_compute in Hb. injection Hb as _ <-. reflexivity. }
  destruct (trace_instruction_count _ _ _ _ Hb) as (Hc & Hn & _).
  split; [exact Hc|exact Hn].
Defined.

(** X12. An address that [dvmCompileTrace] returns comes from an attempt that
    the assembler accepted: a graph built with the given budget, or, after
    retries, with a budget of at most half of it, for which the assembler
    did not ask for fewer instructions; and the address is the base
    address of that attempt plus its header size. *)
Theorem trace_compile_returns_accepted `{G : DvmGlobals} `{C : Codegen}
    (fuel : nat) (desc : JitTraceDescription) (numMaxInsts addr : Z) :
  dvmCompileTrace fuel desc numMaxInsts = Ret addr →
  ∃ budget arena cUnit,
    buildTrace desc budget = Ret (arena, cUnit)
    ∧ (budget = numMaxInsts
       ∨ (0 ≤ budget ∧ 2 * budget ≤ Z.max 1 numMaxInsts))
    ∧ asm_halveInstCount (dvmCompilerAssembleLIR arena cUnit) = false
    ∧ addr = asm_baseAddr (dvmCompilerAssembleLIR arena cUnit)
             + asm_headerSize (dvmCompilerAssembleLIR arena cUnit).
Proof.
  revert numMaxInsts. induction fuel as [|fuel IH]; intros numMaxInsts Hc;
    [done|].
  destruct (buildTrace desc numMaxInsts) as [[arena cUnit]| | |] eqn:Hb;
    try (cbn [dvmCompileTrace] in Hc; rewrite Hb in Hc; done).
  rewrite (dvmCompileTrace_step _ _ _ _ _ Hb) in Hc.
  destruct (asm_halveInstCount (dvmCompilerAssembleLIR arena cUnit)) eqn:Hh.
  - pose proof (buildTrace_traceGraph _ _ _ _ Hb)
      as (? & ? & ? & _ & _ & _ & _ & _ & Hni & _).
    destruct (half_bounds (numInsts cUnit) ltac:(lia)) as [Hq _].
    pose proof (Z.mul_quot_le (numInsts cUnit) 2 ltac:(lia) ltac:(lia)).
    destruct (IH _ Hc) as (budget & a & u & Hb' & Hbud & Hacc & Haddr).
    exists budget, a, u. split; [done|]. split; [|done]. right.
    set (q := Z.quot (numInsts cUnit) 2) in *. lia.
  - injection Hc as <-. exists numMaxInsts, arena, cUnit.
    split; [done|]. split; [by left|]. done.
Qed.

(** With an assembler that has room for one instruction: the address is
    that of the attempt made with half the budget of three. *)
Lemma trace_compile_returns_accepted_witness :
  ∃ budget arena cUnit,
    @dvmCompileTrace Reference.plain Reference.cramped 2
      (Reference.oneRun [0x0012; 0x0012; 0x000e] 0 3) 3 = Ret 4112
    ∧ @buildTrace Reference.plain
        (Reference.oneRun [0x0012; 0x0012; 0x000e] 0 3) budget
      = Ret (arena, cUnit)
    ∧ (budget = 3 ∨ (0 ≤ budget ∧ 2 * budget ≤ Z.max 1 3))
    ∧ asm_halveInstCount
        (@dvmCompilerAssembleLIR Reference.cramped arena cUnit) = false.
Proof.
  destruct (@trace_compile_returns_accepted Reference.plain Reference.cramped
              2 (Reference.oneRun [0x0012; 0x0012; 0x000e] 0 3) 3 4112)
    as (budget & arena & cUnit & Hb & Hbud & Hacc & _); [reflexivity|].
  exists budget, arena, cUnit. split; [reflexivity|]. auto.
Defined.

(** X13. The unit of a built trace names the method and the trace description
    it was built from.  With no name table its all-single-step flag is
    clear and its print flag is the global one; with a table, a unit that
    is compiled as normal prints when the global flag is set or when the
    include mode is, and a unit that is single-stepped keeps the global
    flag. *)
Theorem trace_unit_flags `{DvmGlobals} (desc : JitTraceDescription)
    (numMaxInsts : Z) (arena : list BasicBlock) (cUnit : CompilationUnit) :
  buildTrace desc numMaxInsts = Ret (arena, cUnit) →
  cu_method cUnit = Some (method desc) ∧ traceDesc cUnit = Some desc
  ∧ (methodTable = None →
     allSingleStep cUnit = false ∧ printMe cUnit = gDvmJit_printMe)
  ∧ (allSingleStep cUnit = true → printMe cUnit = gDvmJit_printMe)
  ∧ (is_Some methodTable → allSingleStep cUnit = false →
     printMe cUnit = gDvmJit_printMe || includeSelectedMethod).
Proof.
  intros Hb. apply buildTrace_unit in Hb as (Hm & Hd & -> & ->).
  split; [done|]. split; [done|]. unfold screenTrace.
  destruct methodTable as [table|].
  - split; [done|]. repeat case_match; simpl; split; try done;
      intros _ _; by destruct gDvmJit_printMe.
  - split; [done|]. split; [done|]. by intros [? ?].
Qed.

(** With a table that names the method and the include mode set: the unit
    is compiled as normal and prints. *)
Lemma trace_unit_flags_witness :
  ∃ arena cUnit,
    @buildTrace (Reference.globals (Some (Reference.names ["bar"])) true false)
                (Reference.oneRun [0x000e] 0 1) 100
    = Ret (arena, cUnit)
    ∧ allSingleStep cUnit = false ∧ printMe cUnit = true.
Proof.
  destruct (@buildTrace
              (Reference.globals (Some (Reference.names ["bar"])) true false)
              (Reference.oneRun [0x000e] 0 1) 100)
    as [[arena cUnit]| | |] eqn:Hb; [|vm_compute in Hb; discriminate..].
  exists arena, cUnit. split; [reflexivity|].
  assert (allSingleStep cUnit = false) as Hs.
  { vm_compute in Hb. injection Hb as _ <-. reflexivity. }
  split; [exact Hs|].
  destruct (trace_unit_flags _ _ _ _ Hb) as (_ & _ & _ & _ & Hp).
  exact (Hp (mk_is_Some _ _ eq_refl) Hs).
Defined.

(** X14. Building the graph of a trace never ends in [dvmAbort] or in the
    failed assertion of line 439, and its loops come to an end: whatever
    the description and the budget, the builder returns a graph or runs
    into behaviour that C leaves undefined. *)
Theorem trace_builder_never_aborts `{DvmGlobals} (desc : JitTraceDescription)
    (numMaxInsts : Z) :
  (∃ arena cUnit, buildTrace desc numMaxInsts = Ret (arena, cUnit))
  ∨ buildTrace desc numMaxInsts = Fault.
Proof.
  pose proof (buildTrace_spec desc numMaxInsts) as Hs.
  destruct (buildTrace desc numMaxInsts) as [[arena cUnit]| | |];
    simpl in Hs; try done; eauto.
Qed.

(** ** The method graph builder: the scan *)

Section MethodScan.
Context `{DvmGlobals}.
Implicit Types (arena : list BasicBlock) (b : BasicBlock).

Lemma dvmCompileMethod_buildMethod `{Codegen} fuel method :
  dvmCompileMethod fuel method
  = '(arena, cUnit) ← buildMethod fuel method;
    let cUnit := set_assembled (dvmCompilerAssembleLIR arena cUnit) cUnit in
    Ret (baseAddr cUnit + headerSize cUnit).
Proof.
  unfold dvmCompileMethod, buildMethod.
  destruct (must (dvmGetMethodCode method)) as [dexCode| | |]; try done.
  cbn [mbind outcome_bind].
  destruct (scanWholeMethod fuel method) as [[[[a f] bv] bid]| | |]; try done.
  cbn [mbind outcome_bind].
  destruct (splitBlocks _ _ _ _ _ _ _) as [[[[a' bl] cu] bid']| | |];
    try done.
  cbn [mbind outcome_bind]. destruct (negb _); [done|].
  destruct (connectTaken _ _ _ _ _ _) as [a''| | |]; done.
Qed.

(** Bits of the block-start vector. *)
Lemma dvmIsBitSet_dvmSetBit bits num z :
  dvmIsBitSet (dvmSetBit bits num) z
  = dvmIsBitSet bits z
    || ((0 <=? num) && (num <? storageSize bits * 32) && (z =? num)).
Proof.
  unfold dvmIsBitSet, dvmSetBit.
  destruct ((0 <=? num) && (num <? storageSize bits * 32)) eqn:Hr;
    [|by rewrite orb_false_r].
  apply andb_true_iff in Hr as [Hn _]. apply Z.leb_le in Hn.
  cbn [storage andb]. rewrite Z.lor_spec. f_equal.
  rewrite Z.shiftl_1_l, Z.pow2_bits_eqb by done. apply Z.eqb_sym.
Qed.

Lemma storageSize_dvmSetBit bits num :
  storageSize (dvmSetBit bits num) = storageSize bits.
Proof. unfold dvmSetBit. by case_match. Qed.

End MethodScan.

Section MethodScan2.
Context `{DvmGlobals}.
Implicit Types (arena : list BasicBlock) (b : BasicBlock).

Lemma endOf_app codePtr curOffset l1 l2 :
  endOf codePtr curOffset (l1 ++ l2)
  = endOf (endOf codePtr curOffset l1).1 (endOf codePtr curOffset l1).2 l2.
Proof.
  revert codePtr curOffset. induction l1 as [|m l1 IH]; intros; [done|].
  simpl. apply IH.
Qed.

(** One turn of the marking: the bits after an instruction. *)
Lemma mark_bits method insn r out bits z :
  findBlockBoundary method insn (offset insn)
                    (mkBoundary (offset insn) false None) = Ret (r, out) →
  dvmIsBitSet
    (if r then
       let bits' := dvmSetBit bits (s32 (u32 (offset insn + width insn))) in
       if negb (target out =? offset insn)
       then dvmSetBit bits' (s32 (target out)) else bits'
     else bits) z = true
  ↔ dvmIsBitSet bits z = true
    ∨ (0 ≤ z < storageSize bits * 32 ∧ marks method insn z).
Proof.
  intros Hfb. unfold marks. rewrite Hfb. destruct r.
  2:{ split; [by left|]. intros [?|(_ & out' & [=] & _)]. done. }
  cbv zeta. destruct (target out =? offset insn) eqn:Ht; cbn [negb].
  - apply Z.eqb_eq in Ht. rewrite dvmIsBitSet_dvmSetBit.
    rewrite orb_true_iff, !andb_true_iff, Z.leb_le, Z.ltb_lt, Z.eqb_eq.
    split.
    + intros [?|[[? ?] ->]]; [by left|right]. split; [lia|].
      exists out. split; [done|]. by left.
    + intros [?|(Hr & out' & [= <-] & [->|[? _]])]; [by left| |done].
      right. lia.
  - apply Z.eqb_neq in Ht.
    rewrite !dvmIsBitSet_dvmSetBit, storageSize_dvmSetBit.
    rewrite !orb_true_iff, !andb_true_iff, !Z.leb_le, !Z.ltb_lt, !Z.eqb_eq.
    split.
    + intros [[?|[[? ?] ->]]|[[? ?] ->]]; [by left|right..].
      * split; [lia|]. exists out. split; [done|]. by left.
      * split; [lia|]. exists out. split; [done|]. by right.
    + intros [?|(Hr & out' & [= <-] & [->|[_ ->]])]; [by left; left|..].
      * left. right. lia.
      * right. lia.
Qed.

(** An instruction of width zero stops the first loop. *)
Lemma scanMethod_stall fuel method code d :
  ∀ arena bits codePtr curOffset r,
  parseInsn code codePtr false = Ret (0, d) →
  codePtr < Z.of_nat (length code) →
  scanMethod fuel method code 0 arena bits codePtr curOffset ≠ Ret r.
Proof.
  induction fuel as [|fuel IH]; intros arena bits codePtr curOffset r Hp Hlt.
  { simpl. apply Z.ltb_lt in Hlt. by rewrite Hlt. }
  cbn [scanMethod]. apply Z.ltb_lt in Hlt. rewrite Hlt. rewrite Hp.
  cbn [mbind outcome_bind]. intros Hrun.
  apply bind_Ret in Hrun as (a1 & _ & Hrun).
  apply bind_Ret in Hrun as ([bd out] & _ & Hrun).
  rewrite !Z.add_0_r in Hrun.
  revert Hrun. apply IH; [done|]. by apply Z.ltb_lt.
Qed.

Lemma u32_add_u32 (x y : Z) : u32 (u32 x + y) = u32 (x + y).
Proof. unfold u32. by rewrite Zplus_mod_idemp_l. Qed.

(** The first loop, from any state to its end: [arena'] has the
    instructions [ms] after those of [b]. *)
Lemma scanMethod_decoded fuel method code :
  ∀ arena bits codePtr b arena' bits',
  arena !! 0%nat = Some b →
  decodedFrom code 0 0 (mirs b) →
  endOf 0 0 (mirs b) = (codePtr, u32 codePtr) →
  0 ≤ codePtr → Z.of_nat (length code) ≤ 2 ^ 32 →
  scanMethod fuel method code 0 arena bits codePtr (u32 codePtr)
  = Ret (arena', bits') →
  ∃ ms cp,
    arena' = <[0%nat := set_mirs (mirs b ++ ms) b]> arena
    ∧ decodedFrom code 0 0 (mirs b ++ ms)
    ∧ endOf 0 0 (mirs b ++ ms) = (cp, u32 cp)
    ∧ Z.of_nat (length code) ≤ cp
    ∧ Forall (λ insn, codePtr ≤ offset insn < Z.of_nat (length code)
                      ∧ 0 < width insn) ms
    ∧ StronglySorted (λ m1 m2, offset m1 < offset m2) ms
    ∧ storageSize bits' = storageSize bits
    ∧ ∀ z, dvmIsBitSet bits' z = true
           ↔ dvmIsBitSet bits z = true
             ∨ (0 ≤ z < storageSize bits * 32
                ∧ ∃ insn, insn ∈ ms ∧ marks method insn z).
Proof.
  induction fuel as [|fuel IH];
    intros arena bits codePtr b arena' bits' Hb Hdec Hend Hpos Hsize Hrun.
  { simpl in Hrun. destruct (codePtr <? _) eqn:Hlt; [done|].
    injection Hrun as <- <-. apply Z.ltb_ge in Hlt. exists [], codePtr.
    rewrite app_nil_r. split.
    { rewrite list_insert_id; [done|]. rewrite Hb. by destruct b. }
    split; [done|]. split; [done|]. split; [done|]. split; [done|].
    split; [constructor|].
    split; [done|]. intros z. split; [by left|].
    intros [?|(_ & insn & Hin & _)]; [done|]. by apply elem_of_nil in Hin. }
  cbn [scanMethod] in Hrun. destruct (codePtr <? _) eqn:Hlt.
  2:{ injection Hrun as <- <-. apply Z.ltb_ge in Hlt. exists [], codePtr.
      rewrite app_nil_r. split.
      { rewrite list_insert_id; [done|]. rewrite Hb. by destruct b. }
      split; [done|]. split; [done|]. split; [done|]. split; [done|].
      split; [constructor|].
      split; [done|]. intros z. split; [by left|].
      intros [?|(_ & insn & Hin & _)]; [done|]. by apply elem_of_nil in Hin. }
  apply Z.ltb_lt in Hlt.
  apply bind_Ret in Hrun as ([w d] & Hparse & Hrun). cbv beta iota in Hrun.
  apply bind_Ret in Hrun as (a1 & Happ & Hrun).
  apply store_Ret in Happ as (b0 & Hb0 & ->).
  replace b0 with b in * by congruence. clear Hb0.
  apply bind_Ret in Hrun as ([r out] & Hfb & Hrun). cbv beta iota in Hrun.
  rewrite (u32_small codePtr) in * by lia.
  set (insn := mkMIR d w codePtr) in *.
  pose proof (parseInsn_nonneg _ _ _ _ _ Hparse) as Hw.
  assert (0 < w) as Hwpos.
  { destruct (decide (w = 0)) as [->|]; [|lia].
    rewrite !Z.add_0_r in Hrun.
    by eapply scanMethod_stall in Hrun. }
  destruct (decodedFrom_snoc _ _ _ _ insn _ _ Hdec Hend eq_refl Hparse)
    as [Hdec1 Hend1].
  set (b1 := set_mirs (mirs b ++ [insn]) b) in *.
  replace (u32 (codePtr + w)) with (u32 (codePtr + w)) in Hrun by done.
  eapply (IH _ _ _ b1) in Hrun as
    (ms & cp & -> & Hdec' & Hend' & Hcp & Hall & Hsort & Hss & Hbits);
    [| |exact Hdec1|exact Hend1|lia|done].
  2:{ rewrite list_lookup_insert_eq; [done|]. by eapply lookup_lt_Some. }
  exists (insn :: ms), cp. subst b1. cbn [mirs set_mirs] in *.
  rewrite <- app_assoc in *. cbn [app] in *.
  split. { by rewrite list_insert_insert_eq. }
  split; [done|]. split; [done|]. split; [done|]. split.
  { constructor; [simpl; lia|]. eapply Forall_impl; [exact Hall|].
    simpl. intros m ?. lia. }
  split.
  { constructor; [done|]. eapply Forall_impl; [exact Hall|].
    simpl. intros m ?. lia. }
  split.
  { rewrite Hss. repeat case_match; by rewrite ?storageSize_dvmSetBit. }
  intros z. rewrite Hbits.
  pose proof (mark_bits method insn r out bits z Hfb) as Hm.
  change (offset insn) with codePtr in Hm. change (width insn) with w in Hm.
  cbv zeta in Hm. rewrite Hm. clear Hm.
  match goal with
  | |- context [storageSize ?x] =>
      assert (storageSize x = storageSize bits) as ->
  end.
  { repeat case_match; by rewrite ?storageSize_dvmSetBit. }
  split.
  - intros [[?|(? & ?)]|(? & m & ? & ?)]; [by left|right..].
    + split; [done|]. exists insn. split; [by left|done].
    + split; [done|]. exists m. split; [by right|done].
  - intros [?|(? & m & Hin & ?)]; [by left; left|].
    apply elem_of_cons in Hin as [->|Hin].
    + left. right. done.
    + right. eauto.
Qed.

(** What the method builder has before it splits: one block with the
    instructions of the whole method, and the marks. *)
Lemma scanWholeMethod_scanned fuel method dexCode arena firstBlock bits
    blockID :
  dvmGetMethodCode method = Some dexCode → insnsSize dexCode ≤ 2 ^ 32 →
  scanWholeMethod fuel method = Ret (arena, firstBlock, bits, blockID) →
  firstBlock = 0%nat ∧ blockID = 1
  ∧ ∃ ms cp,
      arena = [mkBB 0 0 None DALVIK_BYTECODE false ms None None None]
      ∧ decodedFrom (dex_insns dexCode) 0 0 ms
      ∧ endOf 0 0 ms = (cp, u32 cp) ∧ insnsSize dexCode ≤ cp
      ∧ Forall (λ insn, 0 ≤ offset insn < insnsSize dexCode
                        ∧ 0 < width insn) ms
      ∧ StronglySorted (λ m1 m2, offset m1 < offset m2) ms
      ∧ storageSize bits = Z.shiftr (insnsSize dexCode + 1 + 31) 5
      ∧ ∀ z, dvmIsBitSet bits z = true
             ↔ z = 0
               ∨ (0 ≤ z < storageSize bits * 32
                  ∧ ∃ insn, insn ∈ ms ∧ marks method insn z).
Proof.
  intros Hcode Hsize Hrun. unfold scanWholeMethod in Hrun.
  rewrite Hcode in Hrun. cbn [must mbind outcome_bind] in Hrun.
  unfold dvmCompilerNewBB in Hrun. cbn [app length] in Hrun.
  apply bind_Ret in Hrun as (a & Hs & Hrun).
  apply store_Ret in Hs as (b0 & Hb0 & ->). injection Hb0 as <-.
  cbn [list_insert insert] in Hrun.
  apply bind_Ret in Hrun as (n0 & Hn0 & Hrun). apply int_incr_Ret in Hn0 as ->.
  apply bind_Ret in Hrun as ([a1 bits1] & Hscan & Hrun).
  injection Hrun as <- <- <- <-. split; [done|]. split; [done|].
  match type of Hscan with
  | scanMethod ?f ?m ?c ?fb ?a ?bv 0 0 = _ =>
      change (scanMethod f m c fb a bv 0 (u32 0) = Ret (a1, bits1)) in Hscan
  end.
  eapply (scanMethod_decoded _ _ _ _ _ _
            (mkBB 0 0 None DALVIK_BYTECODE false [] None None None))
    in Hscan as (ms & cp & -> & Hdec & Hend & Hcp & Hall & Hsort & Hss & Hbits);
    try done.
  exists ms, cp. split; [done|]. split; [done|]. split; [done|].
  split; [done|]. split; [done|]. split; [done|].
  rewrite Hss, storageSize_dvmSetBit. split; [done|].
  intros z. rewrite Hbits, dvmIsBitSet_dvmSetBit, storageSize_dvmSetBit.
  unfold dvmIsBitSet at 1. cbn [dvmAllocBitVector storage storageSize].
  rewrite Z.bits_0, orb_false_l.
  assert (0 < Z.shiftr (insnsSize dexCode + 1 + 31) 5 * 32).
  { rewrite Z.shiftr_div_pow2 by lia. unfold insnsSize in *.
    change (2 ^ 5) with 32.
    pose proof (Z.div_le_lower_bound
                  (Z.of_nat (length (dex_insns dexCode)) + 1 + 31) 32 1
                  ltac:(lia) ltac:(lia)). lia. }
  rewrite !andb_true_iff, Z.leb_le, Z.ltb_lt, Z.eqb_eq. intuition lia.
Qed.

End MethodScan2.

(** ** The method graph builder: the split *)

Section MethodSplit.
Context `{DvmGlobals}.
Local Open Scope nat_scope.
Implicit Types (arena : list BasicBlock) (b : BasicBlock).

Lemma idx_of_nat {A} (l : list A) (i : nat) : idx l (Z.of_nat i) = l !! i.
Proof.
  unfold idx. destruct (Z.of_nat i <? 0)%Z eqn:E; [apply Z.ltb_lt in E; lia|].
  by rewrite Nat2Z.id.
Qed.

Lemma findSplit_Ret bits arena bl :
  ∀ rest before found,
  findSplit bits arena bl before rest = Ret found →
  match found with
  | Some (before', rest') =>
      ∃ mid insn tl,
        rest = mid ++ insn :: tl ∧ before' = before ++ mid
        ∧ rest' = insn :: tl
        ∧ dvmIsBitSet bits (s32 (offset insn)) = true
        ∧ blockStartsAt arena bl (offset insn) = Ret false
        ∧ Forall (λ m, dvmIsBitSet bits (s32 (offset m)) = true →
                       blockStartsAt arena bl (offset m) = Ret true) mid
  | None =>
      Forall (λ m, dvmIsBitSet bits (s32 (offset m)) = true →
                   blockStartsAt arena bl (offset m) = Ret true) rest
  end.
Proof.
  induction rest as [|insn rest IH]; intros before found Hf.
  { simpl in Hf. injection Hf as <-. constructor. }
  cbn [findSplit] in Hf.
  destruct (dvmIsBitSet bits (s32 (offset insn))) eqn:Hbit.
  - apply bind_Ret in Hf as (listed & Hl & Hf). destruct listed.
    + apply IH in Hf. destruct found as [[b' r']|].
      * destruct Hf as (mid & i' & tl & -> & -> & -> & ? & ? & ?).
        exists (insn :: mid), i', tl. rewrite <- app_assoc.
        split_and!; try done. by constructor.
      * by constructor.
    + injection Hf as <-. exists [], insn, rest. rewrite app_nil_r.
      split_and!; try done.
  - apply IH in Hf. destruct found as [[b' r']|].
    + destruct Hf as (mid & i' & tl & -> & -> & -> & ? & ? & ?).
      exists (insn :: mid), i', tl. rewrite <- app_assoc.
      split_and!; try done. constructor; [|done]. congruence.
    + constructor; [|done]. congruence.
Qed.

Lemma blockStartsAt_true arena bl insnOffset :
  blockStartsAt arena bl insnOffset = Ret true →
  ∃ p bb first, p ∈ bl ∧ arena !! p = Some bb
                ∧ head (mirs bb) = Some first ∧ offset first = insnOffset.
Proof.
  induction bl as [|p bl IH]; [done|]. cbn [blockStartsAt]. intros Hf.
  apply bind_Ret in Hf as (bb & Hbb & Hf). apply must_Ret in Hbb.
  apply bind_Ret in Hf as (first & Hfirst & Hf). apply must_Ret in Hfirst.
  destruct (offset first =? insnOffset)%Z eqn:E.
  - apply Z.eqb_eq in E. exists p, bb, first. split; [by left|done].
  - destruct (IH Hf) as (q & bq & fq & ? & ?). exists q, bq, fq.
    split; [by right|done].
Qed.

(** With offsets that differ, no instruction after the first of the last
    piece is where a listed block starts. *)
Lemma tail_not_listed pre cur count insn :
  NoDup (offset <$> concat (pre ++ [cur])) →
  insn ∈ tail cur →
  blockStartsAt (imap (splitBlock count) (pre ++ [cur]))
                (seq 0 (S (length pre))) (offset insn) ≠ Ret true.
Proof.
  intros Hnd Hin Hst.
  apply blockStartsAt_true in Hst as (p & bb & first & _ & Hp & Hf & Ho).
  rewrite list_lookup_imap in Hp.
  destruct ((pre ++ [cur]) !! p) as [l|] eqn:Hl; [|done].
  injection Hp as <-. cbn [mirs splitBlock] in Hf.
  rewrite concat_app, fmap_app in Hnd. simpl in Hnd.
  rewrite app_nil_r in Hnd.
  apply NoDup_app in Hnd as (_ & Hdis & Hcur).
  assert (offset insn ∈ offset <$> cur) as Hin'.
  { apply list_elem_of_fmap_2. destruct cur; [done|]. by right. }
  destruct (decide (p < length pre)) as [Hlt|Hge].
  - rewrite lookup_app_l in Hl by done. apply (Hdis (offset first)).
    + apply list_elem_of_fmap_2. apply list_elem_of_In, in_concat.
      exists l. split; [by eapply list_elem_of_In, list_elem_of_lookup_2|].
      apply list_elem_of_In. destruct l; [done|]. injection Hf as ->.
      by left.
    + by rewrite Ho.
  - assert (p = length pre) as ->.
    { apply lookup_lt_Some in Hl. rewrite length_app in Hl. simpl in Hl.
      lia. }
    rewrite list_lookup_middle in Hl by done. injection Hl as <-.
    destruct cur as [|f tl]; [done|]. injection Hf as ->. simpl in *.
    apply NoDup_cons in Hcur as [Hnot _]. apply Hnot. rewrite Ho.
    by apply list_elem_of_fmap_2.
Qed.

Lemma splitBlocks_exhausted n i bits arena count cu bid r :
  splitBlocks n (Z.of_nat i) bits arena (seq 0 count) cu bid = Ret r →
  count ≤ i → n = 0.
Proof.
  destruct n as [|n]; [done|]. intros Hs Hle. cbn [splitBlocks] in Hs.
  rewrite idx_of_nat, lookup_seq_ge in Hs by done. done.
Qed.

Lemma splitFallThrough_count count count' j l :
  S j < count → S j < count' →
  splitFallThrough count j l = splitFallThrough count' j l.
Proof.
  intros H1 H2. unfold splitFallThrough.
  by rewrite !bool_decide_eq_true_2 by done.
Qed.

(** The arena after one split of the last block. *)
Lemma split_arena pre cur before rest :
  cur = before ++ rest → before ≠ [] → rest ≠ [] →
  let i := length pre in
  let arena := imap (splitBlock (S i)) (pre ++ [cur]) in
  let nb := mkBB (Z.of_nat (S i)) 0 None DALVIK_BYTECODE false rest None None
                 None in
  ∀ lastInsn, last before = Some lastInsn →
  (if negb (isUnconditionalBranch lastInsn)
   then <[i := set_fallThrough (Some (S i))
                 (set_mirs before (splitBlock (S i) i cur))]>
          (arena ++ [nb])
   else <[i := set_mirs before (splitBlock (S i) i cur)]> (arena ++ [nb]))
  = imap (splitBlock (S (S i))) ((pre ++ [before]) ++ [rest]).
Proof.
  intros -> Hb Hr i arena nb lastInsn Hlast.
  assert (length arena = S i) as Hlen.
  { subst arena. rewrite length_imap, length_app. simpl. lia. }
  assert (∀ x, (<[i := x]> (arena ++ [nb])) !! i = Some x) as Hi.
  { intros x. rewrite list_lookup_insert_eq; [done|].
    rewrite length_app. lia. }
  apply list_eq. intros j. rewrite list_lookup_imap.
  destruct (decide (j < i)) as [Hlt|Hge].
  - rewrite <- app_assoc. rewrite (lookup_app_l pre) by done.
    assert (arena !! j = splitBlock (S i) j <$> pre !! j) as Ha.
    { subst arena. rewrite list_lookup_imap, lookup_app_l by done. done. }
    assert (∀ x, (<[i := x]> (arena ++ [nb])) !! j
                 = splitBlock (S (S i)) j <$> pre !! j) as Hj.
    { intros x. rewrite list_lookup_insert_ne by lia.
      rewrite lookup_app_l by lia. rewrite Ha.
      destruct (pre !! j) as [l|]; [|done]. simpl. unfold splitBlock.
      do 2 f_equal. apply splitFallThrough_count; lia. }
    destruct (negb _); apply Hj.
  - destruct (decide (j = i)) as [->|Hne].
    + rewrite lookup_app_l by (rewrite length_app; simpl; lia).
      rewrite list_lookup_middle by done. simpl.
      assert (splitFallThrough (S i) i (before ++ rest) = None) as Hold.
      { unfold splitFallThrough. rewrite bool_decide_eq_false_2 by lia.
        destruct (last (before ++ rest)) as [m|]; [|done].
        by destruct (isUnconditionalBranch m). }
      assert (splitFallThrough (S (S i)) i before
              = if negb (isUnconditionalBranch lastInsn)
                then Some (S i) else None) as Hnew.
      { unfold splitFallThrough. rewrite Hlast.
        rewrite bool_decide_eq_true_2 by lia. by rewrite andb_true_r. }
      unfold splitBlock. rewrite Hold, Hnew.
      destruct (negb (isUnconditionalBranch lastInsn)); rewrite Hi; done.
    + destruct (decide (j = S i)) as [->|Hne'].
      * rewrite (list_lookup_middle _ [] rest (S i))
          by (rewrite length_app; simpl; lia).
        assert (∀ x, (<[i := x]> (arena ++ [nb])) !! S i = Some nb) as Hn.
        { intros x. rewrite list_lookup_insert_ne by lia.
          by rewrite lookup_app_r, Hlen, Nat.sub_diag by lia. }
        simpl.
        assert (splitFallThrough (S (S i)) (S i) rest = None) as Hnew.
        { unfold splitFallThrough. rewrite bool_decide_eq_false_2 by lia.
          destruct (last rest) as [m|]; [|done].
          by destruct (isUnconditionalBranch m). }
        unfold splitBlock. rewrite Hnew.
        destruct (negb _); rewrite Hn; done.
      * rewrite (lookup_ge_None_2 (_ ++ [rest]))
          by (rewrite !length_app; simpl; lia).
        destruct (negb _); apply lookup_ge_None_2;
          rewrite length_insert, length_app; simpl; lia.
Qed.

(** The splitting loop, from any state to its end.  The last block of
    the arena is the one the loop has come to; a turn that does not split
    it is the last turn of a loop that ends. *)
Lemma splitBlocks_into bits :
  ∀ n pre cur arena' bl' cu' bid',
  (∀ j l, (pre ++ [cur]) !! j = Some l → j ≠ 0 →
     l ≠ [] ∧ startsMarked bits l) →
  Forall (λ l, l ≠ []) pre →
  NoDup (offset <$> concat (pre ++ [cur])) →
  Forall (unmarkedTail bits) pre →
  splitBlocks n (Z.of_nat (length pre)) bits
              (imap (splitBlock (S (length pre))) (pre ++ [cur]))
              (seq 0 (S (length pre))) (Z.of_nat (S (length pre)))
              (Z.of_nat (S (length pre)))
  = Ret (arena', bl', cu', bid') →
  ∃ segs,
    concat segs = concat (pre ++ [cur])
    ∧ splitInto bits segs arena'
    ∧ bl' = seq 0 (length segs)
    ∧ cu' = Z.of_nat (length segs) ∧ bid' = Z.of_nat (length segs)
    ∧ (n = 0 ∧ segs = pre ++ [cur]
       ∨ 0 < n ∧ Forall (λ l, l ≠ []) segs
         ∧ (length segs = length pre + n ∧ Forall (unmarkedTail bits) segs
            ∨ length segs = S (length pre + n))).
Proof.
  induction n as [|n IH];
    intros pre cur arena' bl' cu' bid' Hm Hpre Hnd Hun Hs.
  { simpl in Hs. injection Hs as <- <- <- <-. exists (pre ++ [cur]).
    rewrite length_app. simpl. rewrite Nat.add_1_r.
    split; [done|]. split.
    { split; [|done]. by rewrite length_app, Nat.add_1_r. }
    split_and!; try done. by left. }
  set (i := length pre) in *.
  cbn [splitBlocks] in Hs.
  rewrite idx_of_nat, lookup_seq_lt in Hs by lia.
  cbn [must mbind outcome_bind] in Hs.
  rewrite list_lookup_imap, list_lookup_middle in Hs by done.
  cbn [fmap option_fmap option_map must mbind outcome_bind] in Hs.
  apply bind_Ret in Hs as (lastCur & Hlast & Hs). apply must_Ret in Hlast.
  apply bind_Ret in Hs as (first & Hfirst & Hs). apply must_Ret in Hfirst.
  cbn [mirs splitBlock] in Hlast, Hfirst, Hs.
  assert (cur = first :: tail cur) as Hcur.
  { destruct cur; [done|]. by injection Hfirst as ->. }
  apply bind_Ret in Hs as (found & Hfound & Hs).
  apply findSplit_Ret in Hfound.
  assert (∀ l, (∀ m, m ∈ l → m ∈ tail cur) →
            Forall (λ m, dvmIsBitSet bits (s32 (offset m)) = true →
                         blockStartsAt
                           (imap (splitBlock (S i)) (pre ++ [cur]))
                           (seq 0 (S i)) (offset m) = Ret true) l →
            Forall (λ m, dvmIsBitSet bits (s32 (offset m)) = false) l)
    as Hunlisted.
  { intros l Hsub Hall. apply Forall_forall. intros m Hin.
    rewrite Forall_forall in Hall. specialize (Hall m Hin).
    destruct (dvmIsBitSet bits (s32 (offset m))); [|done].
    by eapply tail_not_listed in Hall; eauto. }
  destruct found as [[before rest]|].
  - destruct Hfound as (mid & insn & tl & Htail & -> & -> & Hbit & _ & Hmid).
    apply Hunlisted in Hmid.
    2:{ intros m Hin. rewrite Htail. apply elem_of_app. by left. }
    unfold dvmCompilerNewBB in Hs.
    set (arena := imap (splitBlock (S i)) (pre ++ [cur])) in *.
    assert (length arena = S i) as Hlen.
    { subst arena. rewrite length_imap, length_app. simpl. lia. }
    apply bind_Ret in Hs as (a1 & H1 & Hs).
    apply store_Ret in H1 as (x1 & Hx1 & ->).
    rewrite lookup_app_r, Hlen, Nat.sub_diag in Hx1 by lia.
    injection Hx1 as <-.
    rewrite insert_app_r_alt, Hlen, Nat.sub_diag in Hs by lia.
    apply bind_Ret in Hs as (bid1 & Hbid & Hs).
    apply int_incr_Ret in Hbid as ->.
    apply bind_Ret in Hs as (a2 & H2 & Hs).
    apply store_Ret in H2 as (x2 & Hx2 & ->).
    rewrite lookup_app_r, Hlen, Nat.sub_diag in Hx2 by lia.
    injection Hx2 as <-.
    rewrite insert_app_r_alt, Hlen, Nat.sub_diag in Hs by lia.
    apply bind_Ret in Hs as (a3 & H3 & Hs).
    apply store_Ret in H3 as (x3 & Hx3 & ->).
    rewrite lookup_app_l in Hx3 by lia. subst arena.
    rewrite list_lookup_imap, list_lookup_middle in Hx3 by done.
    injection Hx3 as <-.
    apply bind_Ret in Hs as (lastInsn & Hl & Hs). apply must_Ret in Hl.
    apply bind_Ret in Hs as (a4 & H4 & Hs).
    assert (a4 = imap (splitBlock (S (S i)))
                      ((pre ++ [[first] ++ mid]) ++ [insn :: tl])) as ->.
    { assert (cur = ([first] ++ mid) ++ insn :: tl) as Hsplit.
      { rewrite Hcur, Htail. by rewrite <- app_assoc. }
      pose proof (split_arena pre cur ([first] ++ mid) (insn :: tl) Hsplit
                    ltac:(done) ltac:(done) lastInsn Hl) as Hsa.
      cbv zeta in Hsa. fold i in Hsa. rewrite <- Hsa.
      destruct (negb (isUnconditionalBranch lastInsn)).
      - apply store_Ret in H4 as (x4 & Hx4 & ->).
        rewrite list_lookup_insert_eq in Hx4
          by (rewrite length_app, length_imap, length_app; simpl; lia).
        injection Hx4 as <-. rewrite list_insert_insert_eq. done.
      - by injection H4 as <-. }
    apply bind_Ret in Hs as (cu1 & Hcu & Hs). apply int_incr_Ret in Hcu as ->.
    replace (Z.of_nat i + 1)%Z with (Z.of_nat (length (pre ++ [[first] ++ mid])))
      in Hs by (rewrite length_app; simpl; lia).
    replace (seq 0 (S i) ++ [S i])
      with (seq 0 (S (length (pre ++ [[first] ++ mid])))) in Hs.
    2:{ rewrite !length_app. cbn [length]. subst i.
        replace (length pre + 1) with (S (length pre)) by lia.
        by rewrite (seq_S (S (length pre))). }
    replace (Z.of_nat (S i) + 1)%Z
      with (Z.of_nat (S (length (pre ++ [[first] ++ mid])))) in Hs
      by (rewrite length_app; simpl; lia).
    replace (S (S i)) with (S (length (pre ++ [[first] ++ mid]))) in Hs
      by (rewrite length_app; simpl; lia).
    assert (concat ((pre ++ [[first] ++ mid]) ++ [insn :: tl])
            = concat (pre ++ [cur])) as Hsame.
    { rewrite !concat_app. simpl. rewrite !app_nil_r.
      rewrite <- app_assoc. f_equal. simpl. rewrite <- Htail.
      by rewrite <- Hcur. }
    apply IH in Hs as (segs & Hcat & Hinto & -> & -> & -> & Hn).
    4:{ by rewrite Hsame. }
    4:{ rewrite Forall_app. split; [done|]. by repeat constructor. }
    + exists segs. split.
      { by rewrite Hcat. }
      split; [done|]. split_and!; try done. right. split; [lia|].
      rewrite length_app in Hn. simpl in Hn. fold i in Hn.
      destruct Hn as [[-> ->]|(? & ? & Hcase)].
      * split.
        { rewrite !Forall_app. split_and!; try done; by repeat constructor. }
        right. rewrite !length_app. simpl. lia.
      * split; [done|]. destruct Hcase as [[? ?]|?]; [left|right].
        -- split; [lia|done].
        -- lia.
    + intros j l Hj Hne.
      destruct (decide (j = S i)) as [->|Hne'].
      * rewrite (list_lookup_middle _ [] _ (S i)) in Hj
          by (rewrite length_app; simpl; lia).
        injection Hj as <-. split; [done|]. exists insn. done.
      * rewrite lookup_app_l in Hj.
        2:{ apply lookup_lt_Some in Hj. rewrite !length_app in *.
            simpl in *. lia. }
        destruct (decide (j = i)) as [->|Hne''].
        -- rewrite list_lookup_middle in Hj by done. injection Hj as <-.
           split; [done|]. destruct (Hm i cur) as [_ (f & Hf & Hfb)];
             [by rewrite list_lookup_middle|done|].
           exists first. split; [done|]. congruence.
        -- apply (Hm j); [|done].
           assert (j < i).
           { apply lookup_lt_Some in Hj. rewrite length_app in Hj.
             simpl in Hj. lia. }
           rewrite lookup_app_l in Hj by done. by rewrite lookup_app_l.
    + rewrite Forall_app. split; [done|]. by repeat constructor.
  - replace (Z.of_nat i + 1)%Z with (Z.of_nat (S i)) in Hs by lia.
    pose proof (splitBlocks_exhausted _ _ _ _ _ _ _ _ Hs ltac:(lia)) as ->.
    simpl in Hs. injection Hs as <- <- <- <-. exists (pre ++ [cur]).
    assert (length (pre ++ [cur]) = S i) as Hlen.
    { rewrite length_app. simpl. lia. }
    rewrite Hlen. split; [done|]. split; [by split; [rewrite Hlen|]|].
    split_and!; try done. right. split; [lia|]. split.
    { rewrite Forall_app. split; [done|]. repeat constructor.
      by destruct cur. }
    left. split; [lia|]. rewrite Forall_app. split; [done|].
    repeat constructor. by apply Hunlisted.
Qed.

End MethodSplit.

(** ** The method graph builder: the taken edges *)

Section MethodTaken.
Context `{DvmGlobals}.
Local Open Scope nat_scope.
Implicit Types (arena : list BasicBlock) (b : BasicBlock).

Lemma findTarget_Some arena blocks target t :
  findTarget arena blocks target = Ret (Some t) →
  t ∈ blocks ∧ startsAt arena t target.
Proof.
  induction blocks as [|p blocks IH]; [done|]. cbn [findTarget]. intros Hf.
  apply bind_Ret in Hf as (bb & Hbb & Hf). apply must_Ret in Hbb.
  apply bind_Ret in Hf as (first & Hfirst & Hf). apply must_Ret in Hfirst.
  destruct (offset first =? target)%Z eqn:E.
  - injection Hf as <-. apply Z.eqb_eq in E. split; [by left|].
    by exists bb, first.
  - destruct (IH Hf). split; [by right|done].
Qed.

Lemma startsAt_same arena arena' t target :
  (∀ j, mirs <$> arena' !! j = mirs <$> arena !! j) →
  startsAt arena t target → startsAt arena' t target.
Proof.
  intros Hm (bt & first & Ht & Hf & Ho). specialize (Hm t).
  rewrite Ht in Hm. destruct (arena' !! t) as [bt'|] eqn:Ht'; [|done].
  injection Hm as Hm. exists bt', first. by rewrite Hm.
Qed.

(** The last loop, from any state to its end: the blocks it has come to
    get their taken edges and nothing else changes. *)
Lemma connectTaken_connected method count :
  ∀ n i arena arena'',
  length arena = count →
  connectTaken n (Z.of_nat i) method (Z.of_nat count) (seq 0 count) arena
  = Ret arena'' →
  length arena'' = count
  ∧ ∀ j b, arena !! j = Some b →
      ∃ tk, arena'' !! j = Some (set_taken tk b)
            ∧ if decide (i ≤ j < i + n)
              then takenConnected method arena'' j b tk
              else tk = taken b.
Proof.
  induction n as [|n IH]; intros i arena arena'' Hlen Hc.
  { simpl in Hc. injection Hc as <-. split; [done|]. intros j b Hj.
    exists (taken b). rewrite decide_False by lia.
    split; [|done]. rewrite Hj. by destruct b. }
  cbn [connectTaken] in Hc. rewrite idx_of_nat in Hc.
  apply bind_Ret in Hc as (cur & Hcur & Hc). apply must_Ret in Hcur.
  apply lookup_seq in Hcur as [-> Hi]. simpl in Hc.
  apply bind_Ret in Hc as (bb & Hbb & Hc). apply must_Ret in Hbb.
  apply bind_Ret in Hc as (insn & Hinsn & Hc). apply must_Ret in Hinsn.
  apply bind_Ret in Hc as ([r out] & Hfb & Hc). cbv beta iota in Hc.
  apply bind_Ret in Hc as (a1 & Hstep & Hc).
  replace (Z.of_nat i + 1)%Z with (Z.of_nat (S i)) in Hc by lia.
  assert (∃ tk, a1 = <[i := set_taken tk bb]> arena
                ∧ if (target out =? offset insn)%Z then tk = taken bb
                  else ∃ t, tk = Some t ∧ startsAt arena t (target out)
                            ∧ ((offset insn < target out)%Z → i < t))
    as (tk & -> & Htk).
  { destruct (target out =? offset insn)%Z eqn:E; cbn [negb] in Hstep.
    - injection Hstep as <-. exists (taken bb). split; [|done].
      rewrite list_insert_id; [done|]. rewrite Hbb. by destruct bb.
    - apply bind_Ret in Hstep as (found & Hfound & Hstep).
      destruct found as [t|]; [|done].
      apply store_Ret in Hstep as (x & Hx & ->).
      replace x with bb in * by congruence.
      apply findTarget_Some in Hfound as [Hin Hst].
      exists (Some t). split; [done|]. exists t. split; [done|].
      split; [done|]. intros Hfwd.
      assert ((target out >? offset insn)%Z = true) as Hgt.
      { apply Z.gtb_lt. lia. }
      rewrite Hgt in Hin. apply elem_of_take in Hin as (p & Hp & _).
      rewrite lookup_drop in Hp. apply lookup_seq in Hp as [-> _]. lia. }
  apply IH in Hc as [Hlen'' Hall]; [|by rewrite length_insert].
  split; [done|]. intros j b Hj.
  assert (∀ j, mirs <$> arena'' !! j = mirs <$> arena !! j) as Hm.
  { intros p. destruct (arena !! p) as [x|] eqn:Hx.
    - destruct (decide (p = i)) as [->|Hne].
      + destruct (Hall i (set_taken tk bb)) as (tk' & -> & _).
        { rewrite list_lookup_insert_eq; [done|lia]. }
        replace x with bb by congruence. done.
      + destruct (Hall p x) as (tk' & -> & _).
        { by rewrite list_lookup_insert_ne. }
        done.
    - apply lookup_ge_None in Hx. rewrite lookup_ge_None_2 by lia. done. }
  destruct (decide (j = i)) as [->|Hne].
  - replace b with bb in * by congruence.
    destruct (Hall i (set_taken tk bb)) as (tk' & Hi'' & Hrest).
    { rewrite list_lookup_insert_eq; [done|lia]. }
    rewrite decide_False in Hrest by lia. simpl in Hrest. subst tk'.
    exists tk. split; [done|]. rewrite decide_True by lia.
    exists insn, r, out. split; [done|]. split; [done|].
    destruct (target out =? offset insn)%Z; [done|].
    destruct Htk as (t & -> & Hst & Hfwd). exists t. split; [done|].
    split; [|done]. by eapply startsAt_same.
  - destruct (Hall j b) as (tk' & Hj'' & Hrest).
    { by rewrite list_lookup_insert_ne. }
    exists tk'. split; [done|].
    destruct (decide (S i ≤ j < S i + n)).
    + rewrite decide_True by lia. done.
    + rewrite decide_False by lia. done.
Qed.

End MethodTaken.

Section MethodGraph.
Context `{DvmGlobals}.
Local Open Scope nat_scope.
Implicit Types (arena : list BasicBlock) (b : BasicBlock).

Lemma sorted_offsets_NoDup (l : list MIR) :
  StronglySorted (λ m1 m2, (offset m1 < offset m2)%Z) l →
  NoDup (offset <$> l).
Proof.
  induction 1 as [|x l Hs IH Hall]; [constructor|]. simpl.
  constructor; [|done]. intros Hin.
  apply list_elem_of_fmap in Hin as (y & Hy & Hin).
  rewrite Forall_forall in Hall. specialize (Hall y Hin). lia.
Qed.

Lemma buildMethod_methodGraph fuel method dexCode arena cUnit :
  dvmGetMethodCode method = Some dexCode →
  (insnsSize dexCode ≤ 2 ^ 32)%Z →
  buildMethod fuel method = Ret (arena, cUnit) →
  ∃ bits segs, methodGraph method dexCode bits segs arena cUnit.
Proof.
  intros Hcode Hsize Hb. unfold buildMethod in Hb. rewrite Hcode in Hb.
  cbn [must mbind outcome_bind] in Hb.
  apply bind_Ret in Hb as ([[[a0 fb] bits] bid] & Hscan & Hb).
  cbv beta iota in Hb.
  apply (scanWholeMethod_scanned _ _ _ _ _ _ _ Hcode Hsize) in Hscan
    as (-> & -> & ms & cp & -> & Hdec & Hend & Hcp & Hall & Hsort & Hss
        & Hbits).
  apply bind_Ret in Hb as ([[[a1 bl] cu] bid'] & Hsplit & Hb).
  cbv beta iota in Hb.
  set (numBlocks := expectedBlocks bits dexCode) in *.
  destruct (numBlocks =? cu)%Z eqn:Hcount; [|done]. cbn [negb] in Hb.
  apply Z.eqb_eq in Hcount.
  apply bind_Ret in Hb as (a2 & Hconn & Hb). injection Hb as <- <-.
  assert ([mkBB 0 0 None DALVIK_BYTECODE false ms None None None]
          = imap (splitBlock (S (length (@nil (list MIR))))) ([] ++ [ms]))
    as Harena.
  { simpl. unfold splitBlock, splitFallThrough. do 2 f_equal.
    destruct (last ms) as [m|]; [|done].
    by destruct (isUnconditionalBranch m). }
  rewrite Harena in Hsplit.
  apply (splitBlocks_into bits _ [] ms) in Hsplit
    as (segs & Hcat & [-> Hmark] & -> & -> & -> & Hn).
  2:{ intros [|j] l Hj Hne; [done|]. done. }
  2:{ constructor. }
  2:{ simpl. rewrite app_nil_r. by apply sorted_offsets_NoDup. }
  2:{ constructor. }
  simpl in Hcat. rewrite app_nil_r in Hcat.
  destruct Hn as [[Hz ->]|(Hpos & Hne & Hlen)].
  { simpl in Hcount. lia. }
  destruct Hlen as [[Hlen Hunm]|Hlen]; [|simpl in Hlen; lia].
  assert (Z.to_nat numBlocks = length segs) as Hnb by lia.
  rewrite Hnb in Hconn. rewrite Hcount in Hconn.
  change 0%Z with (Z.of_nat 0) in Hconn.
  apply connectTaken_connected in Hconn as [Hlen2 Hall2];
    [|by rewrite length_imap].
  exists bits, segs. unfold methodGraph. rewrite Hcat.
  split; [done|]. split; [eauto|]. split; [done|]. split; [done|].
  split. { intros z. rewrite Hbits, Hss. done. }
  split; [done|]. split. { intros j l Hj Hj0. by apply (Hmark j). }
  split; [done|].
  split; [done|]. split; [lia|]. split; [done|]. split; [|done].
  intros j b Hj.
  assert (j < length segs) as Hlt.
  { apply lookup_lt_Some in Hj. lia. }
  destruct (lookup_lt_is_Some_2 segs j Hlt) as [l Hl].
  destruct (Hall2 j (splitBlock (length segs) j l)) as (tk & Hj2 & Htk).
  { by rewrite list_lookup_imap, Hl. }
  rewrite decide_True in Htk by lia.
  exists l, tk. split; [done|]. split; [congruence|done].
Qed.

End MethodGraph.

(** ** The method graph builder: what a built graph guarantees *)

Section MethodGraphFacts.
Context `{DvmGlobals}.
Local Open Scope nat_scope.
Implicit Types (arena : list BasicBlock) (b : BasicBlock).

Lemma methodGraph_block method dexCode bits segs arena cUnit j b :
  methodGraph method dexCode bits segs arena cUnit →
  arena !! j = Some b →
  segs !! j = Some (mirs b) ∧ mirs b ≠ []
  ∧ id b = Z.of_nat j ∧ startOffset b = 0%Z ∧ containingMethod b = None
  ∧ blockType b = DALVIK_BYTECODE ∧ needFallThroughBranch b = false
  ∧ fallThrough b = splitFallThrough (length arena) j (mirs b)
  ∧ next b = None.
Proof.
  intros (_ & _ & _ & _ & _ & Hne & _ & _ & _ & _ & Hlen & Hall & _) Hb.
  destruct (Hall _ _ Hb) as (l & tk & Hl & -> & _). rewrite Hlen.
  cbn. split; [done|]. split; [|done].
  rewrite Forall_forall in Hne. apply Hne. by eapply list_elem_of_lookup_2.
Qed.

Lemma methodGraph_mirs method dexCode bits segs arena cUnit :
  methodGraph method dexCode bits segs arena cUnit →
  map mirs arena = segs.
Proof.
  intros Hg. pose proof Hg as (_ & _ & _ & _ & _ & _ & _ & _ & _ & _ & Hlen & _).
  apply list_eq. intros j. change map with (@fmap list _).
  rewrite list_lookup_fmap.
  destruct (arena !! j) as [b|] eqn:Hb.
  - by destruct (methodGraph_block _ _ _ _ _ _ _ _ Hg Hb) as (-> & _).
  - apply lookup_ge_None in Hb. by rewrite lookup_ge_None_2 by lia.
Qed.

Lemma decodedFrom_app code codePtr curOffset l1 l2 :
  decodedFrom code codePtr curOffset (l1 ++ l2)
  ↔ decodedFrom code codePtr curOffset l1
    ∧ decodedFrom code (endOf codePtr curOffset l1).1
                  (endOf codePtr curOffset l1).2 l2.
Proof.
  revert codePtr curOffset. induction l1 as [|m l1 IH]; intros; simpl.
  - tauto.
  - rewrite IH. tauto.
Qed.

End MethodGraphFacts.

(** X15. The blocks of a method graph, taken in the order of the block list,
    hold the instructions of the method as [parseInsn] reads them one after
    the other from the first code unit to the end of the code, every one
    inside the code and of positive width: the split loses no instruction
    and doubles none.  No block is empty, block [j] has the id [j] and the
    bytecode kind, and the unit lists the blocks 0 to n-1 and names the
    method. *)
Theorem method_blocks_partition `{DvmGlobals} (fuel : nat) (method : Method)
    (dexCode : DexCode) (arena : list BasicBlock) (cUnit : CompilationUnit) :
  dvmGetMethodCode method = Some dexCode →
  insnsSize dexCode ≤ 2 ^ 32 →
  buildMethod fuel method = Ret (arena, cUnit) →
  let stream := concat (map mirs arena) in
  decodedFrom (dex_insns dexCode) 0 0 stream
  ∧ (∃ cp, endOf 0 0 stream = (cp, u32 cp) ∧ insnsSize dexCode ≤ cp)
  ∧ Forall (λ insn, 0 ≤ offset insn < insnsSize dexCode ∧ 0 < width insn)
           stream
  ∧ blockList cUnit = seq 0 (length arena)
  ∧ numBlocks cUnit = Z.of_nat (length arena)
  ∧ cu_method cUnit = Some method
  ∧ ∀ j b, arena !! j = Some b →
      id b = Z.of_nat j ∧ blockType b = DALVIK_BYTECODE ∧ mirs b ≠ [].
Proof.
  intros Hcode Hsize Hrun stream.
  destruct (buildMethod_methodGraph _ _ _ _ _ Hcode Hsize Hrun)
    as (bits & segs & Hg).
  pose proof (methodGraph_mirs _ _ _ _ _ _ Hg) as Hm.
  pose proof Hg as (Hdec & Hend & Hall & _ & _ & _ & _ & _ & _ & _ & Hlen & _
                    & ->).
  subst stream. rewrite Hm, Hlen. cbn.
  split; [done|]. split; [done|]. split; [done|]. split; [done|].
  split; [done|]. split; [done|]. intros j b Hb.
  destruct (methodGraph_block _ _ _ _ _ _ _ _ Hg Hb)
    as (_ & ? & ? & _ & _ & ? & _). done.
Qed.

(** On a method of four blocks: a conditional branch over a const/4 to the
    first of two returns. *)
Lemma method_blocks_partition_witness :
  let code := [0x0038; 3; 0x0012; 0x000e; 0x000e] in
  ∃ arena cUnit,
    @buildMethod Reference.plain 8 (Reference.methodOf code)
    = Ret (arena, cUnit)
    ∧ length arena = 4%nat
    ∧ @decodedFrom Reference.plain code 0 0 (concat (map mirs arena))
    ∧ blockList cUnit = seq 0 (length arena)
    ∧ numBlocks cUnit = Z.of_nat (length arena).
Proof.
  intros code.
  destruct (@buildMethod Reference.plain 8 (Reference.methodOf code))
    as [[arena cUnit]| | |] eqn:Hb; [|vm_compute in Hb; discriminate..].
  exists arena, cUnit. split; [reflexivity|]. split.
  { vm_compute in Hb. injection Hb as <- _. reflexivity. }
  destruct (@method_blocks_partition Reference.plain 8
              (Reference.methodOf code) (mkDexCode code) arena cUnit
              eq_refl ltac:(vm_compute; discriminate) Hb)
    as (Hdec & _ & _ & Hbl & Hnb & _).
  split; [exact Hdec|]. split; [exact Hbl|exact Hnb].
Defined.

Section MethodEdges.
Context `{DvmGlobals}.
Local Open Scope nat_scope.

Lemma decodedFrom_adjacent code codePtr curOffset A x y B :
  decodedFrom code codePtr curOffset (A ++ x :: y :: B) →
  offset y = u32 (offset x + width x).
Proof.
  intros Hd. apply decodedFrom_app in Hd as [_ Hd].
  destruct Hd as (-> & _ & -> & _). done.
Qed.

Lemma concat_adjacent {A} (segs : list (list A)) j l l' x y :
  segs !! j = Some l → segs !! S j = Some l' →
  last l = Some x → head l' = Some y →
  ∃ P Q, concat segs = P ++ x :: y :: Q.
Proof.
  intros Hj Hj' Hx Hy.
  assert (segs = take j segs ++ l :: l' :: drop (S (S j)) segs) as ->.
  { rewrite <- (drop_S _ _ _ Hj'). by rewrite take_drop_middle. }
  apply last_Some in Hx as [l0 ->].
  destruct l' as [|y' l'']; [done|]. injection Hy as ->.
  rewrite concat_app. cbn [concat].
  set (T := take j _). set (D := drop _ _).
  exists (concat T ++ l0), (l'' ++ concat D).
  by rewrite <- !app_assoc.
Qed.

End MethodEdges.

(** X16. Fallthrough edges of a method graph: a block falls through to the
    next block of the list unless it is the last block or its last
    instruction is an unconditional branch (a goto or a return), and the
    next block begins right after that last instruction. *)
Theorem method_fallThrough_edges `{DvmGlobals} (fuel : nat) (method : Method)
    (dexCode : DexCode) (arena : list BasicBlock) (cUnit : CompilationUnit)
    (j : nat) (b : BasicBlock) (lastInsn : MIR) :
  dvmGetMethodCode method = Some dexCode →
  insnsSize dexCode ≤ 2 ^ 32 →
  buildMethod fuel method = Ret (arena, cUnit) →
  arena !! j = Some b → lastMIRInsn b = Some lastInsn →
  fallThrough b
  = (if negb (isUnconditionalBranch lastInsn)
        && bool_decide (S j < length arena)%nat
     then Some (S j) else None)
  ∧ ∀ nextBB, arena !! S j = Some nextBB →
      ∃ first, head (mirs nextBB) = Some first
               ∧ offset first = u32 (offset lastInsn + width lastInsn).
Proof.
  intros Hcode Hsize Hrun Hb Hlast.
  destruct (buildMethod_methodGraph _ _ _ _ _ Hcode Hsize Hrun)
    as (bits & segs & Hg).
  destruct (methodGraph_block _ _ _ _ _ _ _ _ Hg Hb)
    as (Hl & _ & _ & _ & _ & _ & _ & Hft & _).
  unfold lastMIRInsn in Hlast. split.
  { rewrite Hft. unfold splitFallThrough. by rewrite Hlast. }
  intros nextBB Hn.
  destruct (methodGraph_block _ _ _ _ _ _ _ _ Hg Hn) as (Hl' & Hne & _).
  destruct (mirs nextBB) as [|first rest] eqn:Hm; [done|].
  exists first. split; [done|].
  destruct (concat_adjacent segs j _ _ lastInsn first Hl Hl' Hlast eq_refl)
    as (P & Q & Hcat).
  destruct Hg as (Hdec & _). cbv zeta in Hdec. rewrite Hcat in Hdec.
  by eapply decodedFrom_adjacent.
Qed.

(** Block 1 of the same method, the const/4, falls through to block 2. *)
Lemma method_fallThrough_edges_witness :
  let code := [0x0038; 3; 0x0012; 0x000e; 0x000e] in
  ∃ arena cUnit b lastInsn,
    @buildMethod Reference.plain 8 (Reference.methodOf code)
    = Ret (arena, cUnit)
    ∧ arena !! 1%nat = Some b ∧ lastMIRInsn b = Some lastInsn
    ∧ opCode (dalvikInsn lastInsn) = 0x12
    ∧ fallThrough b
      = (if negb (isUnconditionalBranch lastInsn)
            && bool_decide (2 < length arena)%nat
         then Some 2%nat else None)
    ∧ ∀ nextBB, arena !! 2%nat = Some nextBB →
        ∃ first, head (mirs nextBB) = Some first
                 ∧ offset first = u32 (offset lastInsn + width lastInsn).
Proof.
  intros code.
  destruct (@buildMethod Reference.plain 8 (Reference.methodOf code))
    as [[arena cUnit]| | |] eqn:Hb; [|vm_compute in Hb; discriminate..].
  destruct (arena !! 1%nat) as [b|] eqn:Hj;
    [|vm_compute in Hb; injection Hb as <- _; discriminate].
  destruct (lastMIRInsn b) as [lastInsn|] eqn:Hl;
    [|vm_compute in Hb; injection Hb as <- _; injection Hj as <-;
      discriminate].
  exists arena, cUnit, b, lastInsn. split; [reflexivity|].
  split; [exact Hj|]. split; [exact Hl|]. split.
  { vm_compute in Hb. injection Hb as <- _. injection Hj as <-.
    injection Hl as <-. reflexivity. }
  exact (@method_fallThrough_edges Reference.plain 8
           (Reference.methodOf code) (mkDexCode code) arena cUnit 1%nat b
           lastInsn eq_refl ltac:(vm_compute; discriminate) Hb Hj Hl).
Defined.

(** X17. Taken edges of a method graph: the classifier is asked about the last
    instruction of every block; when it leaves the target at the offset of
    that instruction the block has no taken edge, else the taken edge leads
    to a block whose first instruction is at the target, and that block
    comes later in the list when the target is a higher offset. *)
Theorem method_taken_edges `{DvmGlobals} (fuel : nat) (method : Method)
    (dexCode : DexCode) (arena : list BasicBlock) (cUnit : CompilationUnit)
    (j : nat) (b : BasicBlock) (lastInsn : MIR) :
  dvmGetMethodCode method = Some dexCode →
  insnsSize dexCode ≤ 2 ^ 32 →
  buildMethod fuel method = Ret (arena, cUnit) →
  arena !! j = Some b → lastMIRInsn b = Some lastInsn →
  ∃ r out,
    findBlockBoundary method lastInsn (offset lastInsn)
                      (mkBoundary (offset lastInsn) false None)
    = Ret (r, out)
    ∧ if target out =? offset lastInsn then taken b = None
      else ∃ t, taken b = Some t ∧ startsAt arena t (target out)
                ∧ (offset lastInsn < target out → (j < t)%nat).
Proof.
  intros Hcode Hsize Hrun Hb Hlast.
  destruct (buildMethod_methodGraph _ _ _ _ _ Hcode Hsize Hrun)
    as (bits & segs & Hg).
  destruct Hg as (_ & _ & _ & _ & _ & _ & _ & _ & _ & _ & _ & Hall & _).
  destruct (Hall _ _ Hb) as (l & tk & Hl & -> & Htk).
  destruct Htk as (lastInsn' & r & out & Hlast' & Hfb & Htk).
  unfold lastMIRInsn in Hlast, Hlast'. cbn in Hlast, Hlast'.
  assert (lastInsn' = lastInsn) as -> by congruence.
  exists r, out. split; [done|]. cbn.
  destruct (target out =? offset lastInsn)%Z; done.
Qed.

(** Block 0 of the same method ends in the branch, whose target is ahead. *)
Lemma method_taken_edges_witness :
  let code := [0x0038; 3; 0x0012; 0x000e; 0x000e] in
  let method := Reference.methodOf code in
  ∃ arena cUnit b lastInsn,
    @buildMethod Reference.plain 8 method = Ret (arena, cUnit)
    ∧ arena !! 0%nat = Some b ∧ lastMIRInsn b = Some lastInsn
    ∧ offset lastInsn = 0
    ∧ ∃ r out,
        findBlockBoundary method lastInsn (offset lastInsn)
                          (mkBoundary (offset lastInsn) false None)
        = Ret (r, out)
        ∧ if target out =? offset lastInsn then taken b = None
          else ∃ t, taken b = Some t ∧ startsAt arena t (target out)
                    ∧ (offset lastInsn < target out → (0 < t)%nat).
Proof.
  intros code method.
  destruct (@buildMethod Reference.plain 8 method)
    as [[arena cUnit]| | |] eqn:Hb; [|vm_compute in Hb; discriminate..].
  destruct (arena !! 0%nat) as [b|] eqn:Hj;
    [|vm_compute in Hb; injection Hb as <- _; discriminate].
  destruct (lastMIRInsn b) as [lastInsn|] eqn:Hl;
    [|vm_compute in Hb; injection Hb as <- _; injection Hj as <-;
      discriminate].
  exists arena, cUnit, b, lastInsn. split; [reflexivity|].
  split; [exact Hj|]. split; [exact Hl|]. split.
  { vm_compute in Hb. injection Hb as <- _. injection Hj as <-.
    injection Hl as <-. reflexivity. }
  exact (@method_taken_edges Reference.plain 8 method (mkDexCode code) arena
           cUnit 0%nat b lastInsn eq_refl ltac:(vm_compute; discriminate)
           Hb Hj Hl).
Defined.

(** X18. Where the blocks of a method graph begin: an instruction is the first
    of its block exactly when it is at offset 0, or at the offset after an
    instruction the classifier reports as a block end, or at the target the
    classifier gave such an instruction. *)
Theorem method_blocks_start_at_marks `{DvmGlobals} (fuel : nat)
    (method : Method) (dexCode : DexCode) (arena : list BasicBlock)
    (cUnit : CompilationUnit) (j i : nat) (b : BasicBlock) (insn : MIR) :
  dvmGetMethodCode method = Some dexCode →
  insnsSize dexCode < 2 ^ 31 →
  buildMethod fuel method = Ret (arena, cUnit) →
  arena !! j = Some b → mirs b !! i = Some insn →
  i = 0%nat
  ↔ offset insn = 0
    ∨ ∃ j' b' insn', arena !! j' = Some b' ∧ insn' ∈ mirs b'
                     ∧ marks method insn' (offset insn).
Proof.
  intros Hcode Hsize Hrun Hb Hi.
  destruct (buildMethod_methodGraph _ _ _ _ _ Hcode ltac:(lia) Hrun)
    as (bits & segs & Hg).
  destruct (methodGraph_block _ _ _ _ _ _ _ _ Hg Hb) as (Hl & _).
  pose proof (methodGraph_mirs _ _ _ _ _ _ Hg) as Hm.
  destruct Hg as (Hdec & _ & Hall & _ & Hbits & _ & Hstart & Htail & _).
  cbv zeta in Hdec, Hall, Hbits.
  assert (insn ∈ concat segs) as Hin.
  { apply list_elem_of_In, in_concat. exists (mirs b).
    split; apply list_elem_of_In; by eapply list_elem_of_lookup_2. }
  rewrite Forall_forall in Hall. destruct (Hall _ Hin) as [Hrange _].
  assert (s32 (offset insn) = offset insn) as Hs.
  { unfold s32. rewrite Z.mod_small by lia. lia. }
  assert (insnsSize dexCode + 1
          ≤ Z.shiftr (insnsSize dexCode + 1 + 31) 5 * 32) as Hcap.
  { rewrite Z.shiftr_div_pow2 by lia. change (2 ^ 5) with 32.
    pose proof (Z.mul_div_le (insnsSize dexCode + 1 + 31) 32 ltac:(lia)).
    pose proof (Z.mod_pos_bound (insnsSize dexCode + 1 + 31) 32 ltac:(lia)).
    pose proof (Z.div_mod (insnsSize dexCode + 1 + 31) 32 ltac:(lia)).
    lia. }
  assert (dvmIsBitSet bits (offset insn) = true
          ↔ offset insn = 0
            ∨ ∃ j' b' insn', arena !! j' = Some b' ∧ insn' ∈ mirs b'
                             ∧ marks method insn' (offset insn)) as Hiff.
  { rewrite Hbits. split.
    - intros [?|(_ & insn' & Hin' & Hmk)]; [by left|right].
      apply list_elem_of_In, in_concat in Hin' as (l' & Hl' & Hin').
      apply list_elem_of_In, list_elem_of_lookup in Hl' as [j' Hj'].
      rewrite <- Hm in Hj'. change map with (@fmap list _) in Hj'.
      rewrite list_lookup_fmap in Hj'.
      destruct (arena !! j') as [b'|] eqn:Hb'; [|done].
      injection Hj' as <-. exists j', b', insn'.
      split; [done|]. split; [by apply list_elem_of_In|done].
    - intros [?|(j' & b' & insn' & Hb' & Hin' & Hmk)]; [by left|right].
      split; [lia|]. exists insn'. split; [|done].
      apply list_elem_of_In, in_concat. exists (mirs b').
      split; apply list_elem_of_In; [|done].
      rewrite <- Hm. apply list_elem_of_fmap_2.
      by eapply list_elem_of_lookup_2. }
  rewrite <- Hiff. clear Hiff. split.
  - intros ->. destruct j as [|j].
    + apply Hbits. left.
      destruct segs as [|l segs]; [done|]. injection Hl as ->.
      destruct (mirs b) as [|m rest]; [done|]. injection Hi as ->.
      by destruct Hdec as [? _].
    + destruct (Hstart _ _ Hl ltac:(done)) as (first & Hf & Hset).
      rewrite <- head_lookup in Hi. rewrite Hi in Hf. injection Hf as <-.
      by rewrite Hs in Hset.
  - intros Hset. destruct i as [|i]; [done|].
    rewrite Forall_forall in Htail.
    specialize (Htail (mirs b) ltac:(by eapply list_elem_of_lookup_2)).
    unfold unmarkedTail in Htail. rewrite Forall_forall in Htail.
    specialize (Htail insn). rewrite Hs in Htail.
    rewrite Htail in Hset; [done|].
    destruct (mirs b) as [|m rest]; [done|].
    by eapply list_elem_of_lookup_2.
Qed.

(** Block 2 of the same method begins at offset 3, the target of the
    branch. *)
Lemma method_blocks_start_at_marks_witness :
  let code := [0x0038; 3; 0x0012; 0x000e; 0x000e] in
  let method := Reference.methodOf code in
  ∃ arena cUnit b insn,
    @buildMethod Reference.plain 8 method = Ret (arena, cUnit)
    ∧ arena !! 2%nat = Some b ∧ mirs b !! 0%nat = Some insn
    ∧ offset insn = 3
    ∧ (0%nat = 0%nat
       ↔ offset insn = 0
         ∨ ∃ j' b' insn', arena !! j' = Some b' ∧ insn' ∈ mirs b'
                          ∧ @marks Reference.plain method insn'
                                   (offset insn)).
Proof.
  intros code method.
  destruct (@buildMethod Reference.plain 8 method)
    as [[arena cUnit]| | |] eqn:Hb; [|vm_compute in Hb; discriminate..].
  destruct (arena !! 2%nat) as [b|] eqn:Hj;
    [|vm_compute in Hb; injection Hb as <- _; discriminate].
  destruct (mirs b !! 0%nat) as [insn|] eqn:Hi;
    [|vm_compute in Hb; injection Hb as <- _; injection Hj as <-;
      discriminate].
  exists arena, cUnit, b, insn. split; [reflexivity|].
  split; [exact Hj|]. split; [exact Hi|]. split.
  { vm_compute in Hb. injection Hb as <- _. injection Hj as <-.
    injection Hi as <-. reflexivity. }
  exact (@method_blocks_start_at_marks Reference.plain 8 method
           (mkDexCode code) arena cUnit 2%nat 0%nat b insn eq_refl
           ltac:(vm_compute; reflexivity) Hb Hj Hi).
Defined.

(** ** The method graph builder: termination *)

Section MethodHalts.
Context `{DvmGlobals}.
Implicit Types (arena : list BasicBlock) (b : BasicBlock).

Lemma safe_not_Fuel {A} (m : outcome A) (P : A → Prop) :
  safe m P → m ≠ Fuel.
Proof. by destruct m. Qed.

Lemma safe_not_Aborted {A} (m : outcome A) (P : A → Prop) msg :
  safe m P → m ≠ Aborted msg.
Proof. by destruct m. Qed.

Lemma bind_not_Fuel {A B} (m : outcome A) (f : A → outcome B) :
  m ≠ Fuel → (∀ a, m = Ret a → f a ≠ Fuel) → m ≫= f ≠ Fuel.
Proof. destruct m; simpl; eauto. Qed.

Lemma bind_Aborted {A B} (m : outcome A) (f : A → outcome B) msg :
  m ≫= f = Aborted msg →
  m = Aborted msg ∨ ∃ a, m = Ret a ∧ f a = Aborted msg.
Proof.
  destruct m as [a| |msg'|]; simpl; intros Hm; try done.
  - right. eauto.
  - injection Hm as ->. by left.
Qed.

Lemma blockStartsAt_safe arena bl insnOffset :
  safe (blockStartsAt arena bl insnOffset) (λ _, True).
Proof.
  induction bl as [|p bl IH]; [done|]. cbn [blockStartsAt].
  step. step. intros bb _. step. step. intros first _.
  by destruct (_ =? _).
Qed.

Lemma findSplit_safe bits arena bl :
  ∀ rest before, safe (findSplit bits arena bl before rest) (λ _, True).
Proof.
  induction rest as [|insn rest IH]; intros before; [done|].
  cbn [findSplit]. destruct (dvmIsBitSet _ _); [|apply IH].
  step. eapply safe_mono; [apply blockStartsAt_safe|].
  intros [|] _; [apply IH|done].
Qed.

Lemma splitBlocks_safe bits :
  ∀ n i arena bl cu bid,
  safe (splitBlocks n i bits arena bl cu bid) (λ _, True).
Proof.
  induction n as [|n IH]; intros i arena bl cu bid; [done|].
  cbn [splitBlocks].
  step. step. intros curBB _. step. step. intros bb _.
  step. step. intros _ _. step. step. intros first _.
  step. eapply safe_mono; [apply findSplit_safe|].
  intros [[before rest]|] _; [|apply IH].
  unfold dvmCompilerNewBB.
  step. step. intros ? _. step. step. intros _. step. step. intros ? _.
  step. step. intros ? _. step. step. intros lastInsn _. step.
  eapply safe_mono with (P := λ _, True).
  { destruct (negb _); [|done]. step. done. }
  intros a _. step. step. intros _. apply IH.
Qed.

Lemma findTarget_safe arena blocks target :
  safe (findTarget arena blocks target) (λ _, True).
Proof.
  induction blocks as [|p blocks IH]; [done|]. cbn [findTarget].
  step. step. intros bb _. step. step. intros first _.
  by destruct (_ =? _).
Qed.

Lemma connectTaken_not_Fuel method numBlocks bl :
  ∀ n i arena, connectTaken n i method numBlocks bl arena ≠ Fuel.
Proof.
  induction n as [|n IH]; intros i arena; [done|]. cbn [connectTaken].
  apply bind_not_Fuel; [by destruct (idx bl i)|]. intros curBB _.
  apply bind_not_Fuel; [by destruct (arena !! curBB)|]. intros bb _.
  apply bind_not_Fuel; [by destruct (lastMIRInsn bb)|]. intros insn _.
  apply bind_not_Fuel.
  { eapply safe_not_Fuel, findBlockBoundary_safe. }
  intros [r out] _. apply bind_not_Fuel; [|intros; apply IH].
  destruct (negb _); [|done].
  apply bind_not_Fuel; [eapply safe_not_Fuel, findTarget_safe|].
  intros [t|] _; [|done].
  eapply safe_not_Fuel with (P := λ _, True), safe_store. done.
Qed.

Lemma scanMethod_not_Fuel method code :
  (∀ p w d, parseInsn code p false = Ret (w, d) → 0 < w) →
  ∀ fuel firstBlock arena bits codePtr curOffset,
  Z.of_nat (length code) - codePtr ≤ Z.of_nat fuel →
  scanMethod fuel method code firstBlock arena bits codePtr curOffset
  ≠ Fuel.
Proof.
  intros Hpos.
  induction fuel as [|fuel IH];
    intros firstBlock arena bits codePtr curOffset Hfuel;
    cbn [scanMethod]; destruct (codePtr <? _) eqn:Hlt; try done.
  { apply Z.ltb_lt in Hlt. lia. }
  apply Z.ltb_lt in Hlt.
  apply bind_not_Fuel.
  { eapply safe_not_Fuel, (parseInsn_safe _ _ _ (λ _, True)). done. }
  intros [w d] Hp. apply Hpos in Hp as Hw.
  apply bind_not_Fuel.
  { eapply safe_not_Fuel with (P := λ _, True), safe_store. done. }
  intros a1 _. apply bind_not_Fuel.
  { eapply safe_not_Fuel, findBlockBoundary_safe. }
  intros [r out] _. apply IH. lia.
Qed.

End MethodHalts.

(** X19. The method compiler comes to an end on a method all of whose
    instructions have a positive width: with one unit of fuel for each code
    unit the run does not stop for lack of fuel, so it returns, aborts or
    faults. *)
Theorem method_compile_halts `{DvmGlobals} `{Codegen} (fuel : nat)
    (method : Method) (dexCode : DexCode) :
  dvmGetMethodCode method = Some dexCode →
  (∀ p w d, parseInsn (dex_insns dexCode) p false = Ret (w, d) → 0 < w) →
  (length (dex_insns dexCode) ≤ fuel)%nat →
  dvmCompileMethod fuel method ≠ Fuel.
Proof.
  intros Hcode Hpos Hfuel. unfold dvmCompileMethod. rewrite Hcode.
  cbn [must mbind outcome_bind].
  apply bind_not_Fuel.
  { unfold scanWholeMethod. rewrite Hcode. cbn [must mbind outcome_bind].
    unfold dvmCompilerNewBB.
    apply bind_not_Fuel; [eapply safe_not_Fuel with (P := λ _, True), safe_store; done|].
    intros a0 _. apply bind_not_Fuel; [by eapply safe_not_Fuel with (P := λ _, True), safe_int_incr|].
    intros bid _. apply bind_not_Fuel; [|by intros [? ?] _].
    apply scanMethod_not_Fuel; [done|lia]. }
  intros [[[a fb] bits] bid] _. cbv beta iota zeta.
  apply bind_not_Fuel; [eapply safe_not_Fuel, splitBlocks_safe|].
  intros [[[a' bl] cu] bid'] _. cbv beta iota.
  destruct (negb _); [done|].
  apply bind_not_Fuel; [apply connectTaken_not_Fuel|]. done.
Qed.

(** On a const/4 followed by a return-void, with two units of fuel. *)
Lemma method_compile_halts_witness :
  @dvmCompileMethod Reference.plain Reference.accepting 2
                    (Reference.methodOf [0x0012; 0x000e])
  ≠ Fuel.
Proof.
  apply (@method_compile_halts Reference.plain Reference.accepting 2
           (Reference.methodOf [0x0012; 0x000e])
           (mkDexCode [0x0012; 0x000e]) eq_refl).
  - intros p w d Hp. apply parseInsn_Ret in Hp as (instr & Hi & _ & ->).
    unfold idx in Hi. destruct (p <? 0); [discriminate|].
    cbn [dex_insns] in Hi.
    destruct (Z.to_nat p) as [|[|n]]; [| |discriminate];
      injection Hi as <-; reflexivity.
  - simpl. lia.
Defined.

Section MethodStall.
Context `{DvmGlobals}.
Implicit Types (arena : list BasicBlock) (b : BasicBlock).

Lemma decodedFrom_endOf_le code :
  ∀ l codePtr curOffset,
  decodedFrom code codePtr curOffset l →
  codePtr ≤ (endOf codePtr curOffset l).1.
Proof.
  induction l as [|insn l IH]; intros codePtr curOffset Hd; [done|].
  destruct Hd as (_ & Hp & Hd). cbn [endOf].
  apply parseInsn_nonneg in Hp as Hw.
  apply IH in Hd. lia.
Qed.

Lemma scanMethod_follows method code p d :
  parseInsn code p false = Ret (0, d) →
  p < Z.of_nat (length code) →
  ∀ l fuel arena bits codePtr curOffset r,
  decodedFrom code codePtr curOffset l →
  (endOf codePtr curOffset l).1 = p →
  scanMethod fuel method code 0 arena bits codePtr curOffset ≠ Ret r.
Proof.
  intros Hp Hlt.
  induction l as [|insn l IH];
    intros fuel arena bits codePtr curOffset r Hd Hend.
  { simpl in Hend. subst. by eapply scanMethod_stall. }
  destruct Hd as (Hoff & Hparse & Hd). cbn [endOf] in Hend.
  pose proof (decodedFrom_endOf_le _ _ _ _ Hd) as Hle.
  pose proof Hparse as Hw.
  apply parseInsn_nonneg in Hw.
  destruct fuel as [|fuel]; cbn [scanMethod].
  { destruct (codePtr <? _) eqn:E; [done|]. apply Z.ltb_ge in E. lia. }
  destruct (codePtr <? _) eqn:E; [|apply Z.ltb_ge in E; lia].
  rewrite Hparse. cbn [mbind outcome_bind]. intros Hrun.
  apply bind_Ret in Hrun as (a1 & _ & Hrun).
  apply bind_Ret in Hrun as ([bd out] & _ & Hrun).
  revert Hrun. by apply IH.
Qed.

End MethodStall.

(** X20. The first loop of the method compiler does not get past an
    instruction of width zero: when the chain of instructions read from the
    first code unit comes to a code unit inside the code for which
    [parseInsn] gives the width 0 (an inline-data unit, or an opcode whose
    table width is 0), no amount of fuel makes the compilation return. *)
Theorem method_scan_stops_at_zero_width `{DvmGlobals} `{Codegen}
    (method : Method) (dexCode : DexCode) (l : list MIR) (p : Z)
    (d : DecodedInstruction) (fuel : nat) (addr : Z) :
  dvmGetMethodCode method = Some dexCode →
  decodedFrom (dex_insns dexCode) 0 0 l →
  (endOf 0 0 l).1 = p →
  p < insnsSize dexCode →
  parseInsn (dex_insns dexCode) p false = Ret (0, d) →
  dvmCompileMethod fuel method ≠ Ret addr.
Proof.
  intros Hcode Hd Hend Hlt Hp Hrun. unfold dvmCompileMethod in Hrun.
  rewrite Hcode in Hrun. cbn [must mbind outcome_bind] in Hrun.
  apply bind_Ret in Hrun as ([[[a fb] bits] bid] & Hscan & _).
  unfold scanWholeMethod in Hscan. rewrite Hcode in Hscan.
  cbn [must mbind outcome_bind] in Hscan. unfold dvmCompilerNewBB in Hscan.
  apply bind_Ret in Hscan as (a0 & _ & Hscan).
  apply bind_Ret in Hscan as (bid0 & _ & Hscan).
  apply bind_Ret in Hscan as ([a1 bits1] & Hscan & _).
  revert Hscan. by eapply scanMethod_follows.
Qed.

(** On the method whose packed-switch payload is at offset 4, reached
    after the switch and the return. *)
Lemma method_scan_stops_at_zero_width_witness :
  @dvmCompileMethod Reference.plain Reference.accepting 100
                    (Reference.methodOf Reference.switchCode)
  ≠ Ret 0.
Proof.
  apply (@method_scan_stops_at_zero_width Reference.plain Reference.accepting
           (Reference.methodOf Reference.switchCode)
           (mkDexCode Reference.switchCode)
           [mkMIR (mkDecoded OP_PACKED_SWITCH 0 0 0) 3 0;
            mkMIR (mkDecoded OP_RETURN_VOID 0 0 0) 1 3]
           4 (mkDecoded 0 0 0 0) 100 0 eq_refl).
  - cbn [decodedFrom offset width dalvikInsn dex_insns].
    split; [reflexivity|]. split; [vm_compute; reflexivity|].
    split; [reflexivity|]. split; [vm_compute; reflexivity|]. exact I.
  - reflexivity.
  - reflexivity.
  - vm_compute. reflexivity.
Defined.

(** ** The method graph builder: the aborts *)

Section MethodAborts.
Context `{DvmGlobals}.
Implicit Types (arena : list BasicBlock) (b : BasicBlock).

Lemma bind_not_Aborted {A B} (m : outcome A) (f : A → outcome B) msg :
  m ≠ Aborted msg → (∀ a, m = Ret a → f a ≠ Aborted msg) →
  m ≫= f ≠ Aborted msg.
Proof.
  intros Hm Hf Hb. apply bind_Aborted in Hb as [?|(a & Ha & Hb)]; [done|].
  by eapply Hf.
Qed.

Lemma must_not_Aborted {A} (o : option A) msg : must o ≠ Aborted msg.
Proof. by destruct o. Qed.

Lemma scanMethod_not_Aborted method code msg :
  ∀ fuel firstBlock arena bits codePtr curOffset,
  scanMethod fuel method code firstBlock arena bits codePtr curOffset
  ≠ Aborted msg.
Proof.
  induction fuel as [|fuel IH];
    intros firstBlock arena bits codePtr curOffset;
    cbn [scanMethod]; destruct (codePtr <? _); try done.
  apply bind_not_Aborted.
  { eapply safe_not_Aborted, (parseInsn_safe _ _ _ (λ _, True)). done. }
  intros [w d] _. apply bind_not_Aborted.
  { eapply safe_not_Aborted with (P := λ _, True), safe_store. done. }
  intros a1 _. apply bind_not_Aborted.
  { eapply safe_not_Aborted, findBlockBoundary_safe. }
  intros [r out] _. apply IH.
Qed.

Lemma scanWholeMethod_not_Aborted fuel method msg :
  scanWholeMethod fuel method ≠ Aborted msg.
Proof.
  unfold scanWholeMethod. apply bind_not_Aborted; [apply must_not_Aborted|].
  intros dexCode _. unfold dvmCompilerNewBB.
  apply bind_not_Aborted.
  { eapply safe_not_Aborted with (P := λ _, True), safe_store. done. }
  intros a0 _. apply bind_not_Aborted.
  { by eapply safe_not_Aborted with (P := λ _, True), safe_int_incr. }
  intros bid _. apply bind_not_Aborted; [|by intros [? ?] _].
  apply scanMethod_not_Aborted.
Qed.

Lemma dvmCompileMethod_Aborted `{Codegen} fuel method dexCode msg :
  dvmGetMethodCode method = Some dexCode →
  dvmCompileMethod fuel method = Aborted msg →
  ∃ a fb bits bid a' bl cu bid',
    scanWholeMethod fuel method = Ret (a, fb, bits, bid)
    ∧ splitBlocks (Z.to_nat (expectedBlocks bits dexCode)) 0 bits a [fb] 1
                  bid
      = Ret (a', bl, cu, bid')
    ∧ if expectedBlocks bits dexCode =? cu
      then connectTaken (Z.to_nat (expectedBlocks bits dexCode)) 0 method
                        (expectedBlocks bits dexCode) bl a'
           = Aborted msg
      else msg = ExpectBlocks (expectedBlocks bits dexCode) cu.
Proof.
  intros Hcode Hrun. unfold dvmCompileMethod in Hrun. rewrite Hcode in Hrun.
  cbn [must mbind outcome_bind] in Hrun.
  apply bind_Aborted in Hrun as [Hrun|([[[a fb] bits] bid] & Hscan & Hrun)].
  { by apply scanWholeMethod_not_Aborted in Hrun. }
  cbv beta iota zeta in Hrun.
  apply bind_Aborted in Hrun
    as [Hrun|([[[a' bl] cu] bid'] & Hsplit & Hrun)].
  { by eapply safe_not_Aborted in Hrun; [|apply splitBlocks_safe]. }
  cbv beta iota in Hrun.
  exists a, fb, bits, bid, a', bl, cu, bid'. split; [done|]. split; [done|].
  destruct (_ =? cu); cbn [negb] in Hrun.
  - apply bind_Aborted in Hrun as [?|(? & _ & ?)]; done.
  - by injection Hrun as <-.
Qed.

Lemma dvmCompileMethod_empty `{Codegen} fuel method dexCode :
  dvmGetMethodCode method = Some dexCode → dex_insns dexCode = [] →
  dvmCompileMethod fuel method = Aborted (ExpectBlocks 0 1).
Proof.
  intros Hcode Hempty. destruct dexCode as [code]. simpl in Hempty. subst.
  unfold dvmCompileMethod, scanWholeMethod. rewrite Hcode.
  by destruct fuel.
Qed.

Lemma findTarget_None arena blocks target :
  findTarget arena blocks target = Ret None →
  ∀ p bt first, p ∈ blocks → arena !! p = Some bt →
    head (mirs bt) = Some first → offset first ≠ target.
Proof.
  induction blocks as [|q blocks IH]; intros Hf p bt first Hin Hp Hh.
  { by apply elem_of_nil in Hin. }
  cbn [findTarget] in Hf.
  apply bind_Ret in Hf as (bb & Hbb & Hf). apply must_Ret in Hbb.
  apply bind_Ret in Hf as (first' & Hfirst & Hf). apply must_Ret in Hfirst.
  destruct (offset first' =? target) eqn:E; [done|]. apply Z.eqb_neq in E.
  apply elem_of_cons in Hin as [->|Hin]; [congruence|]. by eapply IH.
Qed.

Lemma connectTaken_Aborted method count segs :
  ∀ n i arena msg,
  length arena = count → mirs <$> arena = segs →
  connectTaken n (Z.of_nat i) method (Z.of_nat count) (seq 0 count) arena
  = Aborted msg →
  ∃ j l insn r out,
    segs !! j = Some l ∧ last l = Some insn
    ∧ findBlockBoundary method insn (offset insn)
                        (mkBoundary (offset insn) false None)
      = Ret (r, out)
    ∧ target out ≠ offset insn
    ∧ msg = TargetNotFound (offset insn) (target out)
    ∧ ∀ t l' first,
        (offset insn < target out → (j < t)%nat) →
        segs !! t = Some l' → head l' = Some first →
        offset first ≠ target out.
Proof.
  induction n as [|n IH]; intros i arena msg Hlen Hsegs Hc; [done|].
  cbn [connectTaken] in Hc. rewrite idx_of_nat in Hc.
  apply bind_Aborted in Hc as [Hc|(cur & Hcur & Hc)];
    [by apply must_not_Aborted in Hc|].
  apply must_Ret in Hcur. apply lookup_seq in Hcur as [-> Hi]. simpl in Hc.
  apply bind_Aborted in Hc as [Hc|(bb & Hbb & Hc)];
    [by apply must_not_Aborted in Hc|].
  apply must_Ret in Hbb.
  apply bind_Aborted in Hc as [Hc|(insn & Hinsn & Hc)];
    [by apply must_not_Aborted in Hc|].
  apply must_Ret in Hinsn.
  apply bind_Aborted in Hc as [Hc|([r out] & Hfb & Hc)].
  { by eapply safe_not_Aborted in Hc; [|apply findBlockBoundary_safe]. }
  cbv beta iota in Hc.
  apply bind_Aborted in Hc as [Hc|(a1 & Hstep & Hc)].
  - destruct (target out =? offset insn) eqn:E; [done|]. cbn [negb] in Hc.
    apply Z.eqb_neq in E.
    apply bind_Aborted in Hc as [Hc|(found & Hfound & Hc)].
    { by eapply safe_not_Aborted in Hc; [|apply findTarget_safe]. }
    destruct found as [t|].
    { by eapply (safe_not_Aborted _ (λ _, True)) in Hc; [|apply safe_store]. }
    injection Hc as <-.
    exists i, (mirs bb), insn, r, out.
    split. { by rewrite <- Hsegs, list_lookup_fmap, Hbb. }
    split; [done|]. split; [done|]. split; [done|]. split; [done|].
    intros t l' first Hfwd Ht Hh.
    rewrite <- Hsegs, list_lookup_fmap in Ht.
    destruct (arena !! t) as [bt|] eqn:Hbt; [|done]. injection Ht as <-.
    apply (findTarget_None _ _ _ Hfound t bt first); [|done..].
    apply lookup_lt_Some in Hbt.
    destruct (target out >? offset insn) eqn:Hgt.
    + apply Z.gtb_lt in Hgt. specialize (Hfwd ltac:(lia)).
      apply (list_elem_of_lookup_2 _ (t - S i)%nat).
      rewrite lookup_take_lt by lia. rewrite lookup_drop.
      replace (Z.to_nat (Z.of_nat i + 1) + (t - S i))%nat with t by lia.
      by apply lookup_seq_lt; lia.
    + apply (list_elem_of_lookup_2 _ t).
      rewrite lookup_take_lt by lia. rewrite lookup_drop. simpl.
      by apply lookup_seq_lt; lia.
  - replace (Z.of_nat i + 1) with (Z.of_nat (S i)) in Hc by lia.
    apply (IH (S i) a1 msg); [| |done].
    + destruct (negb _); [|by injection Hstep as <-].
      apply bind_Ret in Hstep as ([t|] & _ & Hstep); [|done].
      apply store_Ret in Hstep as (x & _ & ->). by rewrite length_insert.
    + destruct (negb _); [|by injection Hstep as <-].
      apply bind_Ret in Hstep as ([t|] & _ & Hstep); [|done].
      apply store_Ret in Hstep as (x & Hx & ->).
      rewrite list_fmap_insert. cbn. rewrite list_insert_id; [done|].
      by rewrite list_lookup_fmap, Hx.
Qed.

End MethodAborts.

Section MethodCount.
Context `{DvmGlobals}.
Implicit Types (arena : list BasicBlock) (b : BasicBlock).

Lemma countBits_ge (L : list Z) (n : nat) (bits : Z) :
  NoDup L →
  (∀ z, z ∈ L → 0 ≤ z < Z.of_nat n ∧ Z.testbit bits z = true) →
  Z.of_nat (length L) ≤ countBits n bits.
Proof.
  intros Hnd Hall. rewrite countBits_filter.
  rewrite <- (length_fmap Z.to_nat L). apply inj_le, submseteq_length.
  apply NoDup_submseteq.
  - apply NoDup_fmap_2_strong; [|done]. intros x y Hx Hy Heq.
    apply Hall in Hx, Hy. lia.
  - intros p Hp. apply list_elem_of_fmap in Hp as (z & -> & Hz).
    apply Hall in Hz as [Hr Hb]. apply list_elem_of_filter.
    split; [by rewrite Z2Nat.id by lia|].
    apply elem_of_seq. lia.
Qed.

Lemma capacity_ge (size : Z) :
  0 ≤ size → size + 1 ≤ Z.shiftr (size + 1 + 31) 5 * 32.
Proof.
  intros Hs. rewrite Z.shiftr_div_pow2 by lia. change (2 ^ 5) with 32.
  pose proof (Z.mod_pos_bound (size + 1 + 31) 32 ltac:(lia)).
  pose proof (Z.div_mod (size + 1 + 31) 32 ltac:(lia)). lia.
Qed.

Lemma heads_NoDup (segs : list (list MIR)) :
  Forall (λ l, l ≠ []) segs →
  NoDup (offset <$> concat segs) →
  NoDup ((λ l, from_option offset 0 (head l)) <$> segs)
  ∧ ∀ z, z ∈ (λ l, from_option offset 0 (head l)) <$> segs →
         z ∈ offset <$> concat segs.
Proof.
  induction 1 as [|l segs Hne Hall IH]; intros Hnd.
  { split; [constructor|]. intros z Hz. by apply elem_of_nil in Hz. }
  cbn [concat] in *. rewrite fmap_app in Hnd.
  apply NoDup_app in Hnd as (Hl & Hdisj & Hrest).
  destruct (IH Hrest) as [IHnd IHin].
  destruct l as [|m l]; [done|]. cbn. split.
  - constructor; [|done]. intros Hin. apply IHin in Hin.
    apply (Hdisj (offset m)); [|done]. cbn. left.
  - intros z Hz. apply elem_of_cons in Hz as [->|Hz]; [left|].
    right. rewrite fmap_app. apply elem_of_app. right. by apply IHin.
Qed.

Lemma expectedBlocks_ge bits dexCode segs :
  decodedFrom (dex_insns dexCode) 0 0 (concat segs) →
  Forall (λ insn, 0 ≤ offset insn < insnsSize dexCode ∧ 0 < width insn)
         (concat segs) →
  NoDup (offset <$> concat segs) →
  insnsSize dexCode ≤ 2 ^ 32 →
  storageSize bits = Z.shiftr (insnsSize dexCode + 1 + 31) 5 →
  dvmIsBitSet bits 0 = true →
  (dvmIsBitSet bits (insnsSize dexCode) = true →
   0 ≤ insnsSize dexCode < storageSize bits * 32) →
  Forall (λ l, l ≠ []) segs →
  (∀ j l, segs !! j = Some l → j ≠ 0%nat → startsMarked bits l) →
  Z.of_nat (length segs) ≤ expectedBlocks bits dexCode.
Proof.
  intros Hdec Hall Hnd Hsize Hss Hzero Hlast Hne Hstart.
  destruct (heads_NoDup segs Hne Hnd) as [Hhnd Hhin].
  set (hs := (λ l, from_option offset 0 (head l)) <$> segs) in *.
  assert (0 ≤ insnsSize dexCode) as Hsz by (unfold insnsSize; lia).
  pose proof (capacity_ge _ Hsz) as Hcap.
  assert (∀ z, z ∈ hs →
               0 ≤ z < insnsSize dexCode ∧ dvmIsBitSet bits z = true)
    as Hset.
  { intros z Hz. split.
    - apply Hhin, list_elem_of_fmap in Hz as (m & -> & Hm).
      rewrite Forall_forall in Hall. by apply Hall.
    - apply list_elem_of_fmap in Hz as (l & -> & Hl).
      apply list_elem_of_lookup in Hl as [j Hj].
      destruct j as [|j].
      + destruct segs as [|l0 segs']; [done|]. injection Hj as ->.
        cbn [concat] in Hdec. destruct l as [|m l]; [by inversion Hne|].
        destruct Hdec as [Hoff _]. cbn. by rewrite Hoff.
      + destruct (Hstart _ _ Hj ltac:(done)) as (first & Hf & Hb).
        rewrite Hf. cbn. unfold dvmIsBitSet in *.
        destruct (decide (s32 (offset first) = offset first)) as [<-|Hs];
          [done|].
        assert (s32 (offset first) < 0) as Hneg.
        { assert (first ∈ concat segs) as Hin.
          { apply list_elem_of_In, in_concat. exists l.
            split; apply list_elem_of_In; [by eapply list_elem_of_lookup_2|].
            destruct l as [|m l]; [done|]. injection Hf as ->. left. }
          rewrite Forall_forall in Hall. apply Hall in Hin as [Hr _].
          unfold s32 in *. unfold insnsSize in *.
          destruct (decide (offset first < 2 ^ 31)).
          - rewrite Z.mod_small in Hs by lia. lia.
          - replace (offset first + 2 ^ 31)
              with (offset first - 2 ^ 31 + 1 * 2 ^ 32) by lia.
            rewrite Z.mod_add by lia. rewrite Z.mod_small by lia. lia. }
        by rewrite Z.testbit_neg_r in Hb. }
  set (tl := if dvmIsBitSet bits (insnsSize dexCode)
             then [insnsSize dexCode] else []).
  assert (Z.of_nat (length (hs ++ tl))
          ≤ countBits (Z.to_nat (storageSize bits * 32)) (storage bits))
    as Hcount.
  { apply countBits_ge.
    - apply NoDup_app. split; [done|]. split.
      + intros z Hz Hz'. apply Hset in Hz as [Hr _]. subst tl.
        destruct (dvmIsBitSet bits (insnsSize dexCode)).
        * apply list_elem_of_singleton in Hz'. lia.
        * by apply elem_of_nil in Hz'.
      + subst tl.
        destruct (dvmIsBitSet bits (insnsSize dexCode));
          [apply NoDup_singleton|constructor].
    - intros z Hz. apply elem_of_app in Hz as [Hz|Hz].
      + apply Hset in Hz as [Hr Hb]. split; [|done]. rewrite Hss. lia.
      + subst tl.
        destruct (dvmIsBitSet bits (insnsSize dexCode)) eqn:E;
          [|by apply elem_of_nil in Hz].
        apply list_elem_of_singleton in Hz as ->. split; [|done].
        specialize (Hlast eq_refl). lia. }
  rewrite length_app in Hcount. unfold hs in Hcount.
  rewrite length_fmap in Hcount.
  unfold expectedBlocks, dvmCountSetBits. subst tl.
  destruct (dvmIsBitSet bits (insnsSize dexCode)); simpl in Hcount; lia.
Qed.

End MethodCount.

Section MethodAbortFacts.
Context `{DvmGlobals}.
Implicit Types (arena : list BasicBlock) (b : BasicBlock).

(** The state of the method compiler when it aborts. *)
Lemma dvmCompileMethod_Aborted_split `{Codegen} fuel method dexCode msg :
  dvmGetMethodCode method = Some dexCode →
  insnsSize dexCode ≤ 2 ^ 32 →
  dvmCompileMethod fuel method = Aborted msg →
  ∃ bits ms cp segs,
    decodedFrom (dex_insns dexCode) 0 0 ms
    ∧ endOf 0 0 ms = (cp, u32 cp) ∧ insnsSize dexCode ≤ cp
    ∧ Forall (λ insn, 0 ≤ offset insn < insnsSize dexCode ∧ 0 < width insn)
             ms
    ∧ StronglySorted (λ m1 m2, offset m1 < offset m2) ms
    ∧ (∀ z, dvmIsBitSet bits z = true
            ↔ z = 0
              ∨ (0 ≤ z < Z.shiftr (insnsSize dexCode + 1 + 31) 5 * 32
                 ∧ ∃ insn, insn ∈ ms ∧ marks method insn z))
    ∧ concat segs = ms
    ∧ (ms = [] ∧ msg = ExpectBlocks (expectedBlocks bits dexCode) 1
       ∨ Forall (unmarkedTail bits) segs
         ∧ connectTaken (length segs) 0 method (Z.of_nat (length segs))
                        (seq 0 (length segs))
                        (imap (splitBlock (length segs)) segs)
           = Aborted msg).
Proof.
  intros Hcode Hsize Hrun.
  apply (dvmCompileMethod_Aborted _ _ _ _ Hcode) in Hrun
    as (a & fb & bits & bid & a' & bl & cu & bid' & Hscan & Hsplit & Hrun).
  apply (scanWholeMethod_scanned _ _ _ _ _ _ _ Hcode Hsize) in Hscan
    as (-> & -> & ms & cp & -> & Hdec & Hend & Hcp & Hall & Hsort & Hss
        & Hbits).
  assert ([mkBB 0 0 None DALVIK_BYTECODE false ms None None None]
          = imap (splitBlock (S (length (@nil (list MIR))))) ([] ++ [ms]))
    as Harena.
  { simpl. unfold splitBlock, splitFallThrough. do 2 f_equal.
    destruct (last ms) as [m|]; [|done].
    by destruct (isUnconditionalBranch m). }
  rewrite Harena in Hsplit.
  apply (splitBlocks_into bits _ [] ms) in Hsplit
    as (segs & Hcat & [-> Hmark] & -> & -> & -> & Hn).
  2:{ intros [|j] l Hj Hne; [done|]. done. }
  2:{ constructor. }
  2:{ simpl. rewrite app_nil_r. by apply sorted_offsets_NoDup. }
  2:{ constructor. }
  simpl in Hcat. rewrite app_nil_r in Hcat.
  exists bits, ms, cp, segs.
  split; [done|]. split; [done|]. split; [done|]. split; [done|].
  split; [done|]. split. { intros z. by rewrite Hbits, Hss. }
  split; [done|].
  assert (0 ≤ insnsSize dexCode) as Hsz by (unfold insnsSize; lia).
  pose proof (capacity_ge _ Hsz) as Hcap.
  assert (Forall (λ l, l ≠ []) segs →
          Z.of_nat (length segs) ≤ expectedBlocks bits dexCode) as Hge.
  { intros Hne. apply expectedBlocks_ge; try done.
    - by rewrite Hcat.
    - by rewrite Hcat.
    - rewrite Hcat. by apply sorted_offsets_NoDup.
    - apply Hbits. by left.
    - intros Hb. apply Hbits in Hb as [Hb|[Hb _]]; [|done].
      rewrite Hb, Hss. lia.
    - intros j l Hj Hj0. by apply (Hmark j). }
  destruct Hn as [[Hz ->]|(Hpos & Hne & Hlen)].
  - destruct ms as [|m ms].
    + left. split; [done|].
      destruct (_ =? _) eqn:E; [|done]. apply Z.eqb_eq in E.
      simpl in E. lia.
    + specialize (Hge ltac:(by repeat constructor)). simpl in Hge. lia.
  - specialize (Hge Hne). simpl in Hlen.
    destruct Hlen as [[Hlen Hunm]|Hlen]; [|lia]. right. split; [done|].
    destruct (_ =? _) eqn:E; [|apply Z.eqb_neq in E; lia].
    apply Z.eqb_eq in E. rewrite E in Hrun.
    by rewrite Nat2Z.id in Hrun.
Qed.

End MethodAbortFacts.

(** X21. The count check of the method compiler fails on one kind of method
    only: the abort that names an expected and a discovered number of
    blocks is what a method with no code unit gets, with the numbers 0 and
    1, and no method with code gets it. *)
Theorem method_count_abort_iff_empty `{DvmGlobals} `{Codegen} (fuel : nat)
    (method : Method) (dexCode : DexCode) (expected discovered : Z) :
  dvmGetMethodCode method = Some dexCode →
  insnsSize dexCode ≤ 2 ^ 32 →
  dvmCompileMethod fuel method = Aborted (ExpectBlocks expected discovered)
  ↔ dex_insns dexCode = [] ∧ expected = 0 ∧ discovered = 1.
Proof.
  intros Hcode Hsize. split.
  - intros Hrun.
    assert (dex_insns dexCode = []) as Hempty.
    { apply (dvmCompileMethod_Aborted_split _ _ _ _ Hcode Hsize) in Hrun
        as (bits & ms & cp & segs & _ & Hend & Hcp & _ & _ & _ & Hcat
            & [[-> _]|[_ Hc]]).
      - simpl in Hend. injection Hend as <-. unfold insnsSize in Hcp.
        destruct (dex_insns dexCode); [done|]. simpl in Hcp. lia.
      - change 0 with (Z.of_nat 0) in Hc.
        apply (connectTaken_Aborted method (length segs) segs) in Hc
          as (? & ? & ? & ? & ? & _ & _ & _ & _ & ? & _); [done| |].
        + by rewrite length_imap.
        + apply list_eq. intros j.
          rewrite list_lookup_fmap, list_lookup_imap.
          by destruct (segs !! j). }
    split; [done|].
    rewrite (dvmCompileMethod_empty _ _ _ Hcode Hempty) in Hrun.
    by injection Hrun as <- <-.
  - intros (Hempty & -> & ->). by apply (dvmCompileMethod_empty _ _ dexCode).
Qed.

(** On the method with no code, and on a method of one return-void. *)
Lemma method_count_abort_iff_empty_witness :
  (@dvmCompileMethod Reference.plain Reference.accepting 4
                     (Reference.methodOf [])
   = Aborted (ExpectBlocks 0 1)
   ↔ @nil Z = [] ∧ 0 = 0 ∧ 1 = 1)
  ∧ @dvmCompileMethod Reference.plain Reference.accepting 4
                      (Reference.methodOf [0x000e])
    ≠ Aborted (ExpectBlocks 1 2).
Proof.
  split.
  - apply (@method_count_abort_iff_empty Reference.plain Reference.accepting
             4 (Reference.methodOf []) (mkDexCode []) 0 1 eq_refl).
    vm_compute. discriminate.
  - intros Hrun.
    apply (@method_count_abort_iff_empty Reference.plain Reference.accepting
             4 (Reference.methodOf [0x000e]) (mkDexCode [0x000e]) 1 2
             eq_refl ltac:(vm_compute; discriminate)) in Hrun as [Hempty _].
    discriminate Hempty.
Defined.

Section MethodOrder.
Context `{DvmGlobals}.

Lemma sorted_app_lt {A} (R : A → A → Prop) (P Q : list A) x y :
  StronglySorted R (P ++ Q) → x ∈ P → y ∈ Q → R x y.
Proof.
  induction P as [|p P IH]; intros Hs Hx Hy.
  { by apply elem_of_nil in Hx. }
  simpl in Hs. apply StronglySorted_inv in Hs as [Hs Hall].
  apply elem_of_cons in Hx as [->|Hx]; [|by apply IH].
  rewrite Forall_forall in Hall. apply Hall, elem_of_app. by right.
Qed.

Lemma sorted_head_last {A} (R : A → A → Prop) (l : list A) x y :
  StronglySorted R l → head l = Some x → last l = Some y →
  x = y ∨ R x y.
Proof.
  intros Hs Hx Hy. destruct l as [|x' l]; [done|]. injection Hx as ->.
  apply StronglySorted_inv in Hs as [_ Hall].
  destruct l as [|z l]; [left; simpl in Hy; congruence|]. right.
  rewrite Forall_forall in Hall. apply Hall.
  change (last (z :: l) = Some y) in Hy.
  apply last_Some in Hy as [l' Hl']. rewrite Hl'.
  apply elem_of_app. right. left.
Qed.

Lemma sorted_concat_lt {A} (R : A → A → Prop) (segs : list (list A))
    (t j : nat) l1 l2 x y :
  StronglySorted R (concat segs) →
  segs !! t = Some l1 → segs !! j = Some l2 → (t < j)%nat →
  x ∈ l1 → y ∈ l2 → R x y.
Proof.
  intros Hs Ht Hj Hlt Hx Hy.
  rewrite <- (take_drop j segs), concat_app in Hs.
  apply (sorted_app_lt _ _ _ _ _ Hs).
  - apply list_elem_of_In, in_concat. exists l1.
    split; apply list_elem_of_In; [|done].
    apply (list_elem_of_lookup_2 _ t). by rewrite lookup_take_lt.
  - apply list_elem_of_In, in_concat. exists l2.
    split; apply list_elem_of_In; [|done].
    apply (list_elem_of_lookup_2 _ 0%nat). rewrite lookup_drop.
    by rewrite Nat.add_0_r.
Qed.

Lemma sorted_concat_seg {A} (R : A → A → Prop) (segs : list (list A))
    (j : nat) l :
  StronglySorted R (concat segs) → segs !! j = Some l → StronglySorted R l.
Proof.
  intros Hs Hj. rewrite <- (take_drop_middle _ _ _ Hj), concat_app in Hs.
  apply StronglySorted_app_1_r in Hs. cbn [concat] in Hs.
  by apply StronglySorted_app_1_l in Hs.
Qed.

End MethodOrder.

(** X22. When the method compiler aborts on the line that names an offset and
    a target that was not found, the offset is that of an instruction of
    the method for which the classifier moved the target, and no
    instruction of the method is at that target: the target lies outside
    the instruction stream (as the code address of a callee does). *)
Theorem method_target_not_found `{DvmGlobals} `{Codegen} (fuel : nat)
    (method : Method) (dexCode : DexCode) (insnOffset tgt : Z) :
  dvmGetMethodCode method = Some dexCode →
  insnsSize dexCode < 2 ^ 31 →
  dvmCompileMethod fuel method = Aborted (TargetNotFound insnOffset tgt) →
  ∃ stream lastInsn r out,
    decodedFrom (dex_insns dexCode) 0 0 stream
    ∧ insnsSize dexCode ≤ (endOf 0 0 stream).1
    ∧ lastInsn ∈ stream ∧ offset lastInsn = insnOffset
    ∧ findBlockBoundary method lastInsn insnOffset
                        (mkBoundary insnOffset false None)
      = Ret (r, out)
    ∧ target out = tgt ∧ tgt ≠ insnOffset
    ∧ ∀ insn, insn ∈ stream → offset insn ≠ tgt.
Proof.
  intros Hcode Hsize Hrun.
  apply (dvmCompileMethod_Aborted_split _ _ _ _ Hcode ltac:(lia)) in Hrun
    as (bits & ms & cp & segs & Hdec & Hend & Hcp & Hall & Hsort & Hbits
        & Hcat & [[_ ?]|[Hunm Hc]]); [done|].
  change 0 with (Z.of_nat 0) in Hc.
  apply (connectTaken_Aborted method (length segs) segs) in Hc
    as (j & l & lastInsn & r & out & Hj & Hlast & Hfb & Hne & Hmsg & Hnone).
  2:{ by rewrite length_imap. }
  2:{ apply list_eq. intros p. rewrite list_lookup_fmap, list_lookup_imap.
      by destruct (segs !! p). }
  injection Hmsg as -> ->.
  assert (lastInsn ∈ ms) as Hin.
  { rewrite <- Hcat. apply list_elem_of_In, in_concat. exists l.
    split; apply list_elem_of_In; [by eapply list_elem_of_lookup_2|].
    apply last_Some in Hlast as [l' ->]. apply elem_of_app. right. left. }
  exists ms, lastInsn, r, out.
  split; [done|]. split; [by rewrite Hend|]. split; [done|].
  split; [done|]. split; [done|]. split; [done|]. split; [done|].
  intros m Hm Hoff.
  rewrite Forall_forall in Hall. destruct (Hall _ Hm) as [Hrange _].
  assert (s32 (offset m) = offset m) as Hs.
  { unfold s32. rewrite Z.mod_small by lia. lia. }
  assert (dvmIsBitSet bits (offset m) = true) as Hset.
  { apply Hbits. right. split.
    - pose proof (capacity_ge (insnsSize dexCode) ltac:(lia)). lia.
    - exists lastInsn. split; [done|]. exists out. split.
      + destruct r; [done|].
        apply findBlockBoundary_keeps in Hfb. by subst.
      + right. split; [done|]. by rewrite <- Hoff, Hs. }
  rewrite <- Hcat in Hm.
  apply list_elem_of_In, in_concat in Hm as (l' & Hl' & Hm).
  apply list_elem_of_In, list_elem_of_lookup in Hl' as [t Ht].
  apply list_elem_of_In in Hm.
  destruct l' as [|first rest]; [by apply elem_of_nil in Hm|].
  apply elem_of_cons in Hm as [->|Hm].
  - apply (Hnone t (first :: rest) first); [|done|done|done].
    intros Hfwd. destruct (decide (j < t)%nat) as [|Hge]; [done|].
    exfalso. rewrite <- Hcat in Hsort.
    destruct (decide (t = j)) as [->|Hneq].
    + assert (l = first :: rest) as -> by congruence.
      apply (sorted_concat_seg _ _ _ _ Hsort) in Hj.
      destruct (sorted_head_last _ _ first lastInsn Hj eq_refl Hlast)
        as [->|Hlt]; lia.
    + pose proof (sorted_concat_lt _ segs t j _ _ first lastInsn Hsort Ht Hj
                    ltac:(lia) ltac:(left)) as Hlt.
      assert (lastInsn ∈ l) as Hl.
      { apply last_Some in Hlast as [l' ->]. apply elem_of_app. right. left. }
      specialize (Hlt Hl). simpl in Hlt. lia.
  - rewrite Forall_forall in Hunm.
    specialize (Hunm _ (list_elem_of_lookup_2 _ _ _ Ht)).
    unfold unmarkedTail in Hunm. rewrite Forall_forall in Hunm.
    specialize (Hunm m Hm). rewrite Hs in Hunm. congruence.
Qed.

(** On a goto 127 units ahead in a method of one code unit. *)
Lemma method_target_not_found_witness :
  let method := Reference.methodOf [0x7f28] in
  ∃ stream lastInsn r out,
    @decodedFrom Reference.plain [0x7f28] 0 0 stream
    ∧ 1 ≤ (endOf 0 0 stream).1
    ∧ lastInsn ∈ stream ∧ offset lastInsn = 0
    ∧ findBlockBoundary method lastInsn 0 (mkBoundary 0 false None)
      = Ret (r, out)
    ∧ target out = 127 ∧ 127 ≠ 0
    ∧ ∀ insn, insn ∈ stream → offset insn ≠ 127.
Proof.
  intros method.
  apply (@method_target_not_found Reference.plain Reference.accepting 8
           method (mkDexCode [0x7f28]) 0 127 eq_refl).
  - reflexivity.
  - vm_compute. reflexivity.
Defined.

(** ** The method graph builder: the count check *)

Section MethodCountCheck.
Context `{DvmGlobals}.
Implicit Types (arena : list BasicBlock) (b : BasicBlock).

(** What the splitting loop counts when it ends: the expected number of
    blocks, except on a method with no code. *)
Lemma splitBlocks_count fuel method dexCode arena firstBlock bits blockID
    arena' blockList discovered blockID' :
  dvmGetMethodCode method = Some dexCode →
  insnsSize dexCode ≤ 2 ^ 32 →
  scanWholeMethod fuel method = Ret (arena, firstBlock, bits, blockID) →
  splitBlocks (Z.to_nat (expectedBlocks bits dexCode)) 0 bits arena
              [firstBlock] 1 blockID
  = Ret (arena', blockList, discovered, blockID') →
  discovered = expectedBlocks bits dexCode ∨ dex_insns dexCode = [].
Proof.
  intros Hcode Hsize Hscan Hsplit.
  apply (scanWholeMethod_scanned _ _ _ _ _ _ _ Hcode Hsize) in Hscan
    as (-> & -> & ms & cp & -> & Hdec & Hend & Hcp & Hall & Hsort & Hss
        & Hbits).
  assert ([mkBB 0 0 None DALVIK_BYTECODE false ms None None None]
          = imap (splitBlock (S (length (@nil (list MIR))))) ([] ++ [ms]))
    as Harena.
  { simpl. unfold splitBlock, splitFallThrough. do 2 f_equal.
    destruct (last ms) as [m|]; [|done].
    by destruct (isUnconditionalBranch m). }
  rewrite Harena in Hsplit.
  apply (splitBlocks_into bits _ [] ms) in Hsplit
    as (segs & Hcat & [-> Hmark] & -> & -> & -> & Hn).
  2:{ intros [|j] l Hj Hne; [done|]. done. }
  2:{ constructor. }
  2:{ simpl. rewrite app_nil_r. by apply sorted_offsets_NoDup. }
  2:{ constructor. }
  simpl in Hcat. rewrite app_nil_r in Hcat.
  assert (0 ≤ insnsSize dexCode) as Hsz by (unfold insnsSize; lia).
  pose proof (capacity_ge _ Hsz) as Hcap.
  assert (Forall (λ l, l ≠ []) segs →
          Z.of_nat (length segs) ≤ expectedBlocks bits dexCode) as Hge.
  { intros Hne. apply expectedBlocks_ge; try done.
    - by rewrite Hcat.
    - by rewrite Hcat.
    - rewrite Hcat. by apply sorted_offsets_NoDup.
    - apply Hbits. by left.
    - intros Hb. apply Hbits in Hb as [Hb|[Hb _]]; [|done].
      rewrite Hb, Hss. lia.
    - intros j l Hj Hj0. by apply (Hmark j). }
  destruct Hn as [[Hz ->]|(Hpos & Hne & Hlen)].
  - destruct ms as [|m ms].
    + right. simpl in Hend. injection Hend as <-. unfold insnsSize in Hcp.
      destruct (dex_insns dexCode); [done|]. simpl in Hcp. lia.
    + specialize (Hge ltac:(by repeat constructor)). simpl in Hge. lia.
  - specialize (Hge Hne). simpl in Hlen. left.
    destruct Hlen as [[Hlen Hunm]|Hlen]; lia.
Qed.

Lemma safe_Ret_or_Fault {A} (m : outcome A) (P : A → Prop) :
  safe m P → (∃ a, m = Ret a) ∨ m = Fault.
Proof. destruct m; simpl; [eauto|eauto|done..]. Qed.

End MethodCountCheck.

(** C5.  The count the method builder expects is the number of set bits of
    the block-start vector, less one when the bit at the code length is
    set, and the comparison of lines 603 to 606 aborts on the [LOGE] line
    when the splitting loop ends with another count.  But the loop ends
    with another count on a method with no code only.  On a method with
    code the loop either finds exactly the expected number of blocks, or
    it reads a list entry that was never stored (line 566) and the run
    faults before it comes to the comparison: no method with code is
    aborted on that line. *)
Theorem method_block_count_check `{G : DvmGlobals} `{C : Codegen}
    (fuel : nat) (method : Method) (dexCode : DexCode)
    (arena : list BasicBlock) (firstBlock : nat)
    (bbStartAddr : BitVector) (blockID : Z) :
  dvmGetMethodCode method = Some dexCode →
  insnsSize dexCode ≤ 2 ^ 32 →
  scanWholeMethod fuel method = Ret (arena, firstBlock, bbStartAddr, blockID) →
  let expected := expectedBlocks bbStartAddr dexCode in
  let split :=
    splitBlocks (Z.to_nat expected) 0 bbStartAddr arena [firstBlock] 1
                blockID in
  expected
  = Z.of_nat (length (filter (λ i, dvmIsBitSet bbStartAddr (Z.of_nat i) = true)
                             (seq 0 (Z.to_nat (storageSize bbStartAddr * 32)))))
    - (if dvmIsBitSet bbStartAddr (insnsSize dexCode) then 1 else 0)
  ∧ (∀ arena' blockList discovered blockID',
       split = Ret (arena', blockList, discovered, blockID') →
       discovered ≠ expected →
       dvmCompileMethod fuel method
       = Aborted (ExpectBlocks expected discovered)
       ∧ dex_insns dexCode = [])
  ∧ (dex_insns dexCode ≠ [] →
     ((∃ arena' blockList blockID',
         split = Ret (arena', blockList, expected, blockID'))
      ∨ (split = Fault ∧ dvmCompileMethod fuel method = Fault))
     ∧ ∀ e d, dvmCompileMethod fuel method ≠ Aborted (ExpectBlocks e d)).
Proof.
  intros Hcode Hsize Hscan expected split. split.
  { unfold expected, expectedBlocks, dvmCountSetBits.
    rewrite countBits_filter. unfold dvmIsBitSet.
    destruct (Z.testbit _ (insnsSize dexCode)); lia. }
  assert (dvmCompileMethod fuel method
          = '(arena', blockList, discovered, blockID') ← split;
            if negb (expected =? discovered)
            then Aborted (ExpectBlocks expected discovered)
            else
              arena'' ← connectTaken (Z.to_nat expected) 0 method expected
                                     blockList arena';
              let cUnit :=
                mkCU 0 discovered blockList (Some method) None false false
                     false 0 0 in
              let cUnit :=
                set_assembled (dvmCompilerAssembleLIR arena'' cUnit) cUnit in
              Ret (baseAddr cUnit + headerSize cUnit)) as Hrun.
  { unfold dvmCompileMethod. rewrite Hcode. cbn [must mbind outcome_bind].
    rewrite Hscan. cbn [mbind outcome_bind]. done. }
  split.
  - intros arena' blockList discovered blockID' Hsplit Hne. split.
    + rewrite Hrun, Hsplit. cbn [mbind outcome_bind].
      apply Z.eqb_neq in Hne. rewrite Z.eqb_sym in Hne. by rewrite Hne.
    + destruct (splitBlocks_count _ _ _ _ _ _ _ _ _ _ _ Hcode Hsize Hscan
                  Hsplit); done.
  - intros Hcode'. split.
    + destruct (safe_Ret_or_Fault split _ (splitBlocks_safe _ _ _ _ _ _ _))
        as [[[[[arena' blockList] discovered] blockID'] Hsplit]|Hfault].
      * left. exists arena', blockList, blockID'.
        destruct (splitBlocks_count _ _ _ _ _ _ _ _ _ _ _ Hcode Hsize Hscan
                    Hsplit) as [->|?]; done.
      * right. split; [done|]. by rewrite Hrun, Hfault.
    + intros e d Habort.
      apply (dvmCompileMethod_Aborted_split _ _ _ _ Hcode Hsize) in Habort
        as (bits & ms & cp & segs & _ & Hend & Hcp & _ & _ & _ & Hcat
            & [[-> _]|[_ Hc]]).
      * simpl in Hend. injection Hend as <-. unfold insnsSize in Hcp.
        destruct (dex_insns dexCode); [done|]. simpl in Hcp. lia.
      * change 0 with (Z.of_nat 0) in Hc.
        apply (connectTaken_Aborted method (length segs) segs) in Hc
          as (? & ? & ? & ? & ? & _ & _ & _ & _ & ? & _); [done| |].
        -- by rewrite length_imap.
        -- apply list_eq. intros j.
           rewrite list_lookup_fmap, list_lookup_imap.
           by destruct (segs !! j).
Qed.

(** A branch into the middle of an instruction: an if-eqz at offset 0 whose
    target is offset 1, its own second code unit, followed by a
    return-void.  Four bits are set (0, 1, 2 and the code length 3), three
    blocks are expected, and the method has code, so the run is not
    aborted on the [LOGE] line. *)
Lemma method_block_count_check_witness :
  let code := [0x0038; 1; 0x000e] in
  let method := Reference.methodOf code in
  ∃ arena bits blockID,
    @scanWholeMethod Reference.plain 8 method = Ret (arena, 0%nat, bits, blockID)
    ∧ @expectedBlocks bits (mkDexCode code) = 3
    ∧ ((∃ arena' blockList blockID',
          @splitBlocks 3 0 bits arena [0%nat] 1 blockID
          = Ret (arena', blockList, 3, blockID'))
       ∨ (@splitBlocks 3 0 bits arena [0%nat] 1 blockID = Fault
          ∧ @dvmCompileMethod Reference.plain Reference.accepting 8 method
            = Fault))
    ∧ ∀ e d, @dvmCompileMethod Reference.plain Reference.accepting 8 method
             ≠ Aborted (ExpectBlocks e d).
Proof.
  intros code method.
  destruct (@scanWholeMethod Reference.plain 8 method)
    as [[[[arena firstBlock] bits] blockID]| | |] eqn:Hscan;
    [|vm_compute in Hscan; discriminate..].
  assert (firstBlock = 0%nat) as ->.
  { vm_compute in Hscan. by injection Hscan as _ <- _ _. }
  assert (@expectedBlocks bits (mkDexCode code) = 3) as Hexp.
  { vm_compute in Hscan. by injection Hscan as _ <- _. }
  exists arena, bits, blockID. split; [reflexivity|]. split; [exact Hexp|].
  destruct (@method_block_count_check Reference.plain Reference.accepting 8
              method (mkDexCode code) arena 0%nat bits blockID eq_refl
              ltac:(vm_compute; discriminate) Hscan) as (_ & _ & Hcode).
  rewrite Hexp in Hcode. exact (Hcode ltac:(discriminate)).
Defined.

(** C5 fails on that method: three blocks are expected, two passes of the
    splitting loop find two, the third pass reads the list entry at 2,
    which was never stored, and the compilation faults where the claim has
    it log the two counts and abort. *)
Lemma method_count_mismatch_faults :
  let code := [0x0038; 1; 0x000e] in
  let method := Reference.methodOf code in
  ∃ arena bits blockID,
    @scanWholeMethod Reference.plain 8 method = Ret (arena, 0%nat, bits, blockID)
    ∧ @expectedBlocks bits (mkDexCode code) = 3
    ∧ (∃ arena' blockID',
         @splitBlocks 2 0 bits arena [0%nat] 1 blockID
         = Ret (arena', [0%nat; 1%nat], 2, blockID'))
    ∧ @splitBlocks 3 0 bits arena [0%nat] 1 blockID = Fault
    ∧ @dvmCompileMethod Reference.plain Reference.accepting 8 method = Fault
    ∧ @dvmCompileMethod Reference.plain Reference.accepting 8 method
      ≠ Aborted (ExpectBlocks 3 2).
Proof.
  intros code method.
  destruct (@scanWholeMethod Reference.plain 8 method)
    as [[[[arena firstBlock] bits] blockID]| | |] eqn:Hscan;
    [|vm_compute in Hscan; discriminate..].
  vm_compute in Hscan. injection Hscan as <- <- <- <-.
  eexists _, _, _. split; [reflexivity|]. split; [reflexivity|].
  split; [eexists _, _; vm_compute; reflexivity|].
  split; [reflexivity|]. split; [reflexivity|]. discriminate.
Qed.
